(** * Expression enumerator (app.js): shallow embedding and verified properties

    The search core of [src/app.js] is embedded function by function.  A
    JavaScript number is an IEEE-754 binary64 value, modelled by Rocq's
    primitive [float]; strings are [string]; the [Map] of memoised cost levels
    is a [gmap], the [Set] of saved keys a [gset]; the arrays of the binary
    heap are lists updated by index.  Mutable state and exceptions are threaded
    through a state-and-exception monad.  What the host provides and the
    language leaves to the implementation (the transcendental functions of
    [Math] and the readings of [performance.now()]) is a [Platform] record. *)

From Stdlib Require Import Ascii ZArith Lia Bool Sorted Permutation Floats.
From stdpp Require Import gmap strings pretty list.

Set Warnings "-inexact-float".

(* ===================================================================== *)
(** * Part I: the embedding                                               *)
(* ===================================================================== *)

(** ** Numbers *)

Module Num.

(** [isFiniteNumber]: every value of the model is a number, so only
    [isFinite] remains. *)
Definition isFiniteNumber (x : float) : bool := is_finite x.

(** The double nearest to an integer (exact below 2^53). *)
Definition of_Z (z : Z) : float :=
  SF2Prim (binary_normalize prec emax z 0 false).

(** [n|0]: ToInt32, the integer taken modulo 2^32 into [-2^31, 2^31). *)
Definition ToInt32 (n : Z) : Z := (Z.land (n + 2 ^ 31) (Z.ones 32) - 2 ^ 31)%Z.

(** [Math.round]: the integer nearest to [x], ties towards +infinity; the
    sign of [x] is kept when the result is zero. *)
Definition Math_round (x : float) : float :=
  match Prim2SF x with
  | S754_finite s m e =>
      if (0 <=? e)%Z then x
      else
        let n := if s then Z.neg m else Z.pos m in
        let q := ((2 * n + 2 ^ (- e)) / 2 ^ (1 - e))%Z in
        if (q =? 0)%Z then (if s then PrimFloat.neg_zero else PrimFloat.zero) else of_Z q
  | _ => x
  end.

(** *** [Number.prototype.toPrecision(17)] *)

(** [num / den < 10 ^ k] *)
Definition lt_pow10 (num den k : Z) : bool :=
  if (0 <=? k)%Z then (num <? den * 10 ^ k)%Z
  else (num * 10 ^ (- k) <? den)%Z.

(** The decimal exponent [k] with [10^k <= num/den < 10^(k+1)], searched
    from an estimate. *)
Fixpoint floor_log10 (fuel : nat) (num den k : Z) : Z :=
  match fuel with
  | O => k
  | S fuel' =>
      if lt_pow10 num den k then floor_log10 fuel' num den (k - 1)
      else if lt_pow10 num den (k + 1) then k
      else floor_log10 fuel' num den (k + 1)
  end.

(** The 17 significant digits [n] and the decimal exponent [k] of the
    positive double [m * 2^e]: [n * 10^(k-16)] is as close to it as
    possible, the larger [n] on a tie. *)
Definition digits17 (m : positive) (e : Z) : Z * Z :=
  let num := if (0 <=? e)%Z then (Z.pos m * 2 ^ e)%Z else Z.pos m in
  let den := if (0 <=? e)%Z then 1%Z else (2 ^ (- e))%Z in
  let est := (((Z.pos (digits2_pos m) + e - 1) * 30103) / 100000)%Z in
  let k := floor_log10 8 num den est in
  let num' := if (k <=? 16)%Z then (num * 10 ^ (16 - k))%Z else num in
  let den' := if (k <=? 16)%Z then den else (den * 10 ^ (k - 16))%Z in
  let n := ((2 * num' + den') / (2 * den'))%Z in
  if (n =? 10 ^ 17)%Z then ((10 ^ 16)%Z, (k + 1)%Z) else (n, k).

Fixpoint zeros (n : nat) : string :=
  match n with O => "" | S n' => "0" +:+ zeros n' end.

Definition toPrecision17 (x : float) : string :=
  match Prim2SF x with
  | S754_zero _ => "0.0000000000000000"
  | S754_infinity s => if s then "-Infinity" else "Infinity"
  | S754_nan => "NaN"
  | S754_finite s m e =>
      let '(n, k) := digits17 m e in
      let ds := pretty n in
      (if s then "-" else "") +:+
      (if (k <? -6)%Z || (17 <=? k)%Z then
         String.substring 0 1 ds +:+ "." +:+ String.substring 1 16 ds +:+ "e" +:+
         (if (k <? 0)%Z then "-" else "+") +:+ pretty (Z.abs k)
       else if (k =? 16)%Z then ds
       else if (0 <=? k)%Z then
         String.substring 0 (Z.to_nat (k + 1)) ds +:+ "." +:+
         String.substring (Z.to_nat (k + 1)) (Z.to_nat (16 - k)) ds
       else "0." +:+ zeros (Z.to_nat (- (k + 1))) +:+ ds)
  end.

(** [key_repr]: the deduplication key, 17 significant digits. *)
Definition key_repr (x : float) : string :=
  if negb (isFiniteNumber x) then "nan" else toPrecision17 x.

End Num.

(** ** Strings *)

Module Str.

(** White space removed by [trim] (the ASCII part of it). *)
Definition is_ws (c : ascii) : bool :=
  match c with
  | " "%char | "009"%char | "010"%char | "011"%char | "012"%char
  | "013"%char => true
  | _ => false
  end.

Fixpoint trimStart (s : string) : string :=
  match s with
  | String c s' => if is_ws c then trimStart s' else s
  | EmptyString => EmptyString
  end.

Definition trimEnd (s : string) : string :=
  String.rev (trimStart (String.rev s)).

Definition trim (s : string) : string := trimEnd (trimStart s).

Definition startsWith (s p : string) : bool := String.prefix p s.

Definition endsWith (s p : string) : bool :=
  String.prefix (String.rev p) (String.rev s).

(** [s.slice(a, -1)] *)
Definition slice_to_last (a : nat) (s : string) : string :=
  String.substring a (String.length s - 1 - a) s.

(** [!s] is true of the empty string only. *)
Definition truthy (s : string) : bool := negb (String.eqb s "").

End Str.

(** [is_direct_application(expr, funcName)] *)
Definition is_direct_application (expr funcName : string) : bool :=
  if negb (Str.truthy expr) then false
  else
    let s := Str.trim expr in
    let s :=
      if Str.startsWith s "(" && Str.endsWith s ")" then
        let inner := Str.trim (Str.slice_to_last 1 s) in
        if Str.truthy inner then inner else s
      else s in
    let s :=
      if Str.startsWith s "-(" && Str.endsWith s ")" then
        let inner := Str.trim (Str.slice_to_last 2 s) in
        if Str.truthy inner then inner else s
      else s in
    Str.startsWith s (funcName +:+ "(") && Str.endsWith s ")".

(** ** The platform *)

(** The functions of [Math] that ECMAScript leaves implementation-approximated,
    and the successive readings of [performance.now()] in milliseconds. *)
Record Platform := {
  Math_sin : float → float;
  Math_cos : float → float;
  Math_tan : float → float;
  Math_exp : float → float;
  Math_log : float → float;
  Math_sqrt : float → float;
  Math_pow : float → float → float;
  performance_now : nat → float
}.

(** ** Safe evaluation *)

Section SafeEval.
Variable P : Platform.

(** [safePow(a, b)] *)
Definition safePow (a b : float) : float :=
  if negb (Num.isFiniteNumber a) || negb (Num.isFiniteNumber b) then nan
  else if (a <? 0)%float then
    let br := Num.Math_round b in
    if (1e-9 <? abs (b - br))%float then nan
    else
      let v := Math_pow P a br in
      if negb (Num.isFiniteNumber v) || (1e300 <? abs v)%float then nan
      else v
  else
    let v := Math_pow P a b in
    if negb (Num.isFiniteNumber v) || (1e300 <? abs v)%float then nan
    else v.

(** [safeEvalFunc(f, x)]; the functions of the model return numbers and do
    not throw. *)
Definition safeEvalFunc (f : float → float) (x : float) : float :=
  let v := f x in
  if negb (Num.isFiniteNumber v) then nan else v.

(** [safeEvalBin(op, a, b)] *)
Definition safeEvalBin (op : float → float → float) (a b : float) : float :=
  let v := op a b in
  if negb (Num.isFiniteNumber v) then nan else v.

End SafeEval.

(** ** The binary heap *)

Module BinaryHeap.
Section Heap.
Context {A : Type}.
(** The comparator returns a number; only its sign is used. *)
Variable cmp : A → A → Z.

Definition size (data : list A) : Z := Z.of_nat (length data).
Definition peek (data : list A) : option A := data !! 0%nat.

(** [cmp(a[i], a[j]) > 0] *)
Definition gt_at (a : list A) (i j : nat) : bool :=
  match a !! i, a !! j with
  | Some x, Some y => (0 <? cmp x y)%Z
  | _, _ => false
  end.

(** [[a[i], a[j]] = [a[j], a[i]]] *)
Definition swap (a : list A) (i j : nat) : list A :=
  match a !! i, a !! j with
  | Some x, Some y => <[i := y]> (<[j := x]> a)
  | _, _ => a
  end.

Fixpoint siftUp_loop (fuel : nat) (a : list A) (i : nat) : list A :=
  match fuel with
  | O => a
  | S fuel' =>
      if (0 <? i)%nat then
        let p := ((i - 1) / 2)%nat in
        if gt_at a i p then siftUp_loop fuel' (swap a i p) p else a
      else a
  end.

(** [_siftUp(i)]: the index halves at each turn, [S i] turns are enough. *)
Definition siftUp (a : list A) (i : nat) : list A := siftUp_loop (S i) a i.

Fixpoint siftDown_loop (fuel : nat) (a : list A) (i : nat) : list A :=
  match fuel with
  | O => a
  | S fuel' =>
      let n := length a in
      let l := (2 * i + 1)%nat in
      let r := (2 * i + 2)%nat in
      let largest := i in
      let largest := if (l <? n)%nat && gt_at a l largest then l else largest in
      let largest := if (r <? n)%nat && gt_at a r largest then r else largest in
      if negb (largest =? i)%nat then siftDown_loop fuel' (swap a i largest) largest
      else a
  end.

(** [_siftDown(i)]: the index grows at each turn, [length a] turns are
    enough. *)
Definition siftDown (a : list A) (i : nat) : list A :=
  siftDown_loop (length a) a i.

(** [push(item)] *)
Definition push (data : list A) (item : A) : list A :=
  siftUp (data ++ [item]) (length data).

(** [pop()]: the new array and the old top, [None] for [undefined]. *)
Definition pop (data : list A) : list A * option A :=
  match data with
  | [] => ([], None)
  | top :: _ =>
      let last := List.last data top in
      let data' := removelast data in
      (match data' with
       | [] => data'
       | _ => siftDown (<[0%nat := last]> data') 0
       end, Some top)
  end.

(** [replace(item)], for a heap that is not empty: the new array; the old
    top, which it returns, is what [peek] gives before. *)
Definition replace (data : list A) (item : A) : list A :=
  siftDown (<[0%nat := item]> data) 0.

End Heap.
End BinaryHeap.

(** ** Configuration, expressions and the search state *)

(** [cfg]: what [generateEnumerations] reads of its configuration.  [consts]
    lists the own keys of the constants object in [Object.keys] order. *)
Record config := {
  cfg_N : Z;
  cfg_target : float;
  cfg_consts : list (string * float);
  cfg_use_sin : bool;
  cfg_use_cos : bool;
  cfg_use_tan : bool;
  cfg_use_exp : bool;
  cfg_use_ln : bool;
  cfg_use_sqrt : bool;
  cfg_use_neg : bool;
  cfg_use_pow : bool;
  cfg_keep_side : string;
  cfg_max_cost : Z;
  cfg_keep_top : Z;
  cfg_max_seconds : float;
  cfg_epsilon : float
}.

(** A memoised expression [{v, expr}]. *)
Record item := Item { it_v : float; it_expr : string }.

(** A heap entry [{err, v, expr}]. *)
Record candidate := Candidate { c_err : float; c_v : float; c_expr : string }.

(** What [onProgress] is called with. *)
Record progress := Progress { p_level : Z; p_elapsed : float; p_count : Z }.

(** The variables that the closures of [generateEnumerations] share, and the
    number of clock readings made so far. *)
Record state := State {
  bestHeap : list candidate;
  savedValues : gset string;
  exprCountTotal : Z;
  stopped : bool;
  memo : gmap Z (list item);
  readings : nat;
  reported : list progress
}.

(** Exceptions: the time-out of [timeCheck], the [TypeError] of reading
    [worst.err] on an empty heap, and the exhaustion of the call stack. *)
Inductive exn := Timeout | TypeError | StackOverflow.

Inductive res (A : Type) := Ok (a : A) | Throw (e : exn).
Arguments Ok {A} a.
Arguments Throw {A} e.

(** Computations over the shared state that return or throw; the state
    reached is kept when one throws, as assignments made before a [throw]
    are. *)
Definition M (A : Type) : Type := state → res A * state.

Global Instance M_ret : MRet M := λ A a st, (Ok a, st).
Global Instance M_bind : MBind M := λ A B f m st,
  match m st with
  | (Ok a, st') => f a st'
  | (Throw e, st') => (Throw e, st')
  end.

Definition throw {A} (e : exn) : M A := λ st, (Throw e, st).
Definition get_state : M state := λ st, (Ok st, st).
Definition modify (f : state → state) : M unit := λ st, (Ok tt, f st).

(** [for (const x of l) body], threading the local array being built. *)
Fixpoint foldM {A B} (f : B → A → M B) (l : list A) (b : B) : M B :=
  match l with
  | [] => mret b
  | x :: l' => b' ← f b x; foldM f l' b'
  end.

Definition set_bestHeap (h : list candidate) (s : gset string) (st : state) : state :=
  State h s (exprCountTotal st) (stopped st) (memo st) (readings st) (reported st).
Definition incr_exprCountTotal (st : state) : state :=
  State (bestHeap st) (savedValues st) (exprCountTotal st + 1) (stopped st)
        (memo st) (readings st) (reported st).
Definition set_stopped (st : state) : state :=
  State (bestHeap st) (savedValues st) (exprCountTotal st) true (memo st)
        (readings st) (reported st).
Definition memo_set (cost : Z) (results : list item) (st : state) : state :=
  State (bestHeap st) (savedValues st) (exprCountTotal st) (stopped st)
        (<[cost := results]> (memo st)) (readings st) (reported st).
Definition incr_readings (st : state) : state :=
  State (bestHeap st) (savedValues st) (exprCountTotal st) (stopped st) (memo st)
        (S (readings st)) (reported st).
Definition add_reported (p : progress) (st : state) : state :=
  State (bestHeap st) (savedValues st) (exprCountTotal st) (stopped st) (memo st)
        (readings st) (reported st ++ [p]).

(** The comparator of [bestHeap]: a max-heap by error. *)
Definition cmp_err (a b : candidate) : Z :=
  if (c_err a <? c_err b)%float then (-1)%Z
  else if (c_err b <? c_err a)%float then 1%Z
  else 0%Z.

(** The comparator of the final sort, [a.err - b.err]. *)
Definition by_err (a b : candidate) : float := (c_err a - c_err b)%float.

(** [Array.prototype.sort(cmp)].  The standard fixes the result for a
    consistent comparator: the sorted arrangement that keeps equal elements
    in their order; insertion from the right computes it.  [y] stays before
    [x] when [cmp(y, x) < 0]. *)
Fixpoint sort_insert {A} (cmp : A → A → float) (x : A) (l : list A) : list A :=
  match l with
  | [] => [x]
  | y :: l' =>
      if (cmp y x <? 0)%float then y :: sort_insert cmp x l' else x :: l
  end.

Fixpoint Array_sort {A} (cmp : A → A → float) (l : list A) : list A :=
  match l with
  | [] => []
  | x :: l' => sort_insert cmp x (Array_sort cmp l')
  end.

(** What [generateEnumerations] returns, and what its [catch] hands to
    [console.error]. *)
Record output := Output {
  results : list candidate;
  expr_count_total : Z;
  max_level : Z;
  logged : option exn
}.

(** ** [generateEnumerations] *)

Section Enumerator.
Variable P : Platform.
Variable cfg : config.

(** [nowSec()]: the next reading of the clock, in seconds. *)
Definition nowSec : M float := λ st,
  (Ok (performance_now P (readings st) / 1000)%float, incr_readings st).

(** [const start = nowSec()] is the first reading. *)
Definition start : float := (performance_now P 0 / 1000)%float.

Definition numbers : list Z := seqZ 1 (cfg_N cfg).
Definition constants : list (string * float) := cfg_consts cfg.

(** [unaryFuncs], in the order of its keys. *)
Definition unaryFuncs : list (string * (float → float)) :=
  (if cfg_use_sin cfg then [("sin", Math_sin P)] else []) ++
  (if cfg_use_cos cfg then [("cos", Math_cos P)] else []) ++
  (if cfg_use_tan cfg then [("tan", Math_tan P)] else []) ++
  (if cfg_use_exp cfg then [("exp", Math_exp P)] else []) ++
  (if cfg_use_ln cfg
   then [("ln", λ x, if (0 <? x)%float then Math_log P x else nan)] else []) ++
  (if cfg_use_sqrt cfg
   then [("sqrt", λ x, if (0 <=? x)%float then Math_sqrt P x else nan)] else []) ++
  (if cfg_use_neg cfg then [("-", λ x, (- x)%float)] else []).

(** [binaryOps], in the order of its keys. *)
Definition binaryOps : list (string * (float → float → float)) :=
  [("+", PrimFloat.add); ("-", PrimFloat.sub); ("*", PrimFloat.mul);
   ("/", λ a b, if (b =? 0)%float then nan else (a / b)%float)] ++
  (if cfg_use_pow cfg then [("^", safePow P)] else []).

Definition target : float := cfg_target cfg.
Definition keepTop : Z := cfg_keep_top cfg.
Definition maxCost : Z := cfg_max_cost cfg.
Definition maxSeconds : float := cfg_max_seconds cfg.
(** [cfg.epsilon || 1e-12]: zero and NaN are falsy. *)
Definition epsilon : float :=
  if is_zero (cfg_epsilon cfg) || is_nan (cfg_epsilon cfg) then 1e-12%float
  else cfg_epsilon cfg.
(** [cfg.keep_side || 'both'] *)
Definition keepSide : string :=
  if Str.truthy (cfg_keep_side cfg) then cfg_keep_side cfg else "both".

(** [timeCheck()] *)
Definition timeCheck : M unit :=
  t ← nowSec;
  if (maxSeconds <? t - start)%float then modify set_stopped;; throw Timeout
  else mret tt.

(** [considerValue(v, exprBuilder)]; the text is built on demand in the
    source, which changes nothing to what is stored. *)
Definition considerValue (v : float) (e : string) : M unit := λ st,
  if negb (Num.isFiniteNumber v) then (Ok tt, st)
  else if String.eqb keepSide "greater" && negb (target + epsilon <? v)%float
  then (Ok tt, st)
  else if String.eqb keepSide "less" && negb (v <? target - epsilon)%float
  then (Ok tt, st)
  else
    let st := incr_exprCountTotal st in
    let err := abs (target - v)%float in
    let k := Num.key_repr v in
    if bool_decide (k ∈ savedValues st) then (Ok tt, st)
    else if (BinaryHeap.size (bestHeap st) <? keepTop)%Z then
      (Ok tt, set_bestHeap (BinaryHeap.push cmp_err (bestHeap st) (Candidate err v e))
                           (savedValues st ∪ {[k]}) st)
    else
      match BinaryHeap.peek (bestHeap st) with
      | None => (Throw TypeError, st)
      | Some worst =>
          if (err <? c_err worst)%float then
            let popped := worst in
            (Ok tt, set_bestHeap
                      (BinaryHeap.replace cmp_err (bestHeap st) (Candidate err v e))
                      ((savedValues st ∖ {[Num.key_repr (c_v popped)]}) ∪ {[k]}) st)
          else (Ok tt, st)
      end.

(** [results.push({v, expr})] after [considerValue(v, expr)]. *)
Definition emit (results : list item) (v : float) (e : string) : M (list item) :=
  considerValue v e;; mret (results ++ [Item v e]).

(** The atoms of cost 1. *)
Definition atom_step (results : list item) (n : Z) : M (list item) :=
  timeCheck;;
  (* [Number(n)] is [n]; [String(n|0)] is the decimal text of [n|0] *)
  emit results (Num.of_Z n) (pretty (Num.ToInt32 n)).

Definition const_step (results : list item) (c : string * float) : M (list item) :=
  timeCheck;;
  emit results c.2 c.1.

(** The text of a unary application. *)
Definition unary_text (fname e : string) : string :=
  if String.eqb fname "-" then "-(" +:+ e +:+ ")"
  else fname +:+ "(" +:+ e +:+ ")".

(** The body of the loop over [unaryFuncs]. *)
Definition unary_step (it : item) (results : list item)
    (uf : string * (float → float)) : M (list item) :=
  let '(fname, f) := uf in
  if String.eqb fname "ln" && is_direct_application (it_expr it) "exp"
  then mret results
  else if String.eqb fname "exp" && is_direct_application (it_expr it) "ln"
  then mret results
  else emit results (safeEvalFunc f (it_v it)) (unary_text fname (it_expr it)).

(** The body of the loop over [prev]. *)
Definition unary_expand (results : list item) (it : item) : M (list item) :=
  timeCheck;;
  if negb (Num.isFiniteNumber (it_v it)) then mret results
  else foldM (unary_step it) unaryFuncs results.

(** The text of a binary combination. *)
Definition binary_text (l opname r : string) : string :=
  "(" +:+ l +:+ " " +:+ opname +:+ " " +:+ r +:+ ")".

(** The identity elimination tests on the right operand. *)
Definition identity_pruned (opname : string) (R : item) : bool :=
  (String.eqb opname "+" && (abs (it_v R) <=? epsilon)%float) ||
  (String.eqb opname "-" && (abs (it_v R) <=? epsilon)%float) ||
  (String.eqb opname "*" && (abs (it_v R - 1) <=? epsilon)%float) ||
  (String.eqb opname "/" && (abs (it_v R - 1) <=? epsilon)%float).

Definition isCommutative (opname : string) : bool :=
  String.eqb opname "+" || String.eqb opname "*".

(** [doFirst] *)
Definition doFirst (opname : string) (L R : item) : bool :=
  if isCommutative opname then
    negb ((it_v R <? it_v L)%float ||
          ((it_v L =? it_v R)%float && String.ltb (it_expr R) (it_expr L)))
  else true.

(** The body of the loop over [binaryOps]. *)
Definition binary_step (L R : item) (results : list item)
    (bo : string * (float → float → float)) : M (list item) :=
  let '(opname, op) := bo in
  if identity_pruned opname R then mret results
  else
    results ← (if doFirst opname L R then
                 emit results (safeEvalBin op (it_v L) (it_v R))
                      (binary_text (it_expr L) opname (it_expr R))
               else mret results);
    if negb (isCommutative opname) then
      emit results (safeEvalBin op (it_v R) (it_v L))
           (binary_text (it_expr R) opname (it_expr L))
    else mret results.

(** The body of the loop over [rightArr]. *)
Definition pair_step (L : item) (results : list item) (R : item) : M (list item) :=
  timeCheck;;
  if negb (Num.isFiniteNumber (it_v L)) || negb (Num.isFiniteNumber (it_v R))
  then mret results
  else foldM (binary_step L R) binaryOps results.

(** The body of the loop over [leftArr]. *)
Definition left_step (rightArr : list item) (results : list item) (L : item)
    : M (list item) :=
  timeCheck;;
  foldM (pair_step L) rightArr results.

(** [enumerateCost(cost)].  [depth] bounds the nesting of the recursive
    calls, as the call stack does. *)
Fixpoint enumerateCost (depth : nat) (cost : Z) : M (list item) :=
  match depth with
  | O => throw StackOverflow
  | S depth' =>
      st ← get_state;
      if stopped st then mret []
      else
        match memo st !! cost with
        | Some r => mret r
        | None =>
            timeCheck;;
            if (cost =? 1)%Z then
              results ← foldM atom_step numbers [];
              results ← foldM const_step constants results;
              modify (memo_set cost results);;
              mret results
            else
              prev ← enumerateCost depth' (cost - 1);
              results ← foldM unary_expand prev [];
              results ←
                foldM (λ results a_cost,
                         let b_cost := (cost - 1 - a_cost)%Z in
                         leftArr ← enumerateCost depth' a_cost;
                         rightArr ← enumerateCost depth' b_cost;
                         foldM (left_step rightArr) leftArr results)
                      (seqZ 1 (cost - 2)) results;
              modify (memo_set cost results);;
              mret results
        end
  end.

(** One turn of the loop over the levels; [onProgress] records its
    argument. *)
Definition level (cost : Z) : M unit :=
  timeCheck;;
  enumerateCost (Z.to_nat cost) cost;;
  t ← nowSec;
  st ← get_state;
  modify (add_reported (Progress cost (t - start)%float (exprCountTotal st))).

Definition run_levels (n : Z) : M unit :=
  foldM (λ _ cost, level cost) (seqZ 1 n) tt.

Definition init_state : state := State [] ∅ 0 false ∅ 1 [].

(** The read-out after the loop: the heap sorted by error, and the
    statistics. *)
Definition read_out (r : res unit) (st : state) : output :=
  Output (Array_sort by_err (bestHeap st))
         (exprCountTotal st)
         (Z.min maxCost (Z.of_nat (size (memo st))))
         (match r with
          | Throw Timeout => None
          | Throw e => Some e
          | Ok _ => None
          end).

(** [generateEnumerations(cfg, onProgress)]: the [try] around the loop
    catches whatever is thrown. *)
Definition generateEnumerations : output :=
  let '(r, st) := run_levels maxCost init_state in
  read_out r st.

End Enumerator.

(** ** Platforms and configurations of the examples *)

(** A platform whose clock stands still.  Its square root is the IEEE one;
    of the other functions it knows [log 1 = 0] and the squares, and answers
    NaN elsewhere. *)
Definition still_platform : Platform := {|
  Math_sin := λ _, nan;
  Math_cos := λ _, nan;
  Math_tan := λ _, nan;
  Math_exp := λ _, nan;
  Math_log := λ x, if (x =? 1)%float then 0%float else nan;
  Math_sqrt := PrimFloat.sqrt;
  Math_pow := λ a b, if (b =? 2)%float then (a * a)%float else nan;
  performance_now := λ _, 0%float
|}.


(** The four arithmetic operators over the atom 1 and a constant
    [t = 1e-13], up to cost 3. *)
Definition cfg_tiny : config := {|
  cfg_N := 1; cfg_target := 0.9999999999999%float;
  cfg_consts := [("t", 1e-13%float)];
  cfg_use_sin := false; cfg_use_cos := false; cfg_use_tan := false;
  cfg_use_exp := false; cfg_use_ln := false; cfg_use_sqrt := false;
  cfg_use_neg := false; cfg_use_pow := false;
  cfg_keep_side := "both"; cfg_max_cost := 3; cfg_keep_top := 10;
  cfg_max_seconds := 10%float; cfg_epsilon := 1e-12%float
|}.

(** The integers 1..[n] and the negation, up to cost 2, for a target [t] and
    a result set of [k] entries. *)
Definition cfg_neg (n : Z) (t : float) (k : Z) : config := {|
  cfg_N := n; cfg_target := t; cfg_consts := [];
  cfg_use_sin := false; cfg_use_cos := false; cfg_use_tan := false;
  cfg_use_exp := false; cfg_use_ln := false; cfg_use_sqrt := false;
  cfg_use_neg := true; cfg_use_pow := false;
  cfg_keep_side := "both"; cfg_max_cost := 2; cfg_keep_top := k;
  cfg_max_seconds := 10%float; cfg_epsilon := 1e-12%float
|}.


(** ** Notions used by the statements *)

(** How a computation ends: [None] when it returns, [Some e] when it throws
    [e]. *)
Definition outcome {A} (r : res A) : option exn :=
  match r with Ok _ => None | Throw e => Some e end.

(** The deduplication keys of the entries of a heap. *)
Definition keys (h : list candidate) : list string :=
  (λ c, Num.key_repr (c_v c)) <$> h.

(** The result set: at most [keep_top] entries, of distinct keys, which are
    the saved keys. *)
Definition ResultSet_inv (cfg : config) (st : state) : Prop :=
  (BinaryHeap.size (bestHeap st) ≤ keepTop cfg)%Z ∧
  NoDup (keys (bestHeap st)) ∧
  ∀ k, k ∈ savedValues st ↔ k ∈ keys (bestHeap st).

(** The worst error of [h'] is at most the worst error of [h]. *)
Definition max_err_le (h' h : list candidate) : Prop :=
  ∀ c, c ∈ h' → ∃ c', c' ∈ h ∧ (c_err c <=? c_err c')%float = true.

(** The result set is full. *)
Definition full (cfg : config) (st : state) : Prop :=
  (keepTop cfg ≤ BinaryHeap.size (bestHeap st))%Z.

(** Ascending by error. *)
Definition err_le (a b : candidate) : Prop := (c_err a <=? c_err b)%float = true.

(** The entries of error [e]. *)
Definition of_error (e : float) (l : list candidate) : list candidate :=
  filter (λ c, (c_err c =? e)%float = true) l.

(** The elapsed time read at the next poll exceeds the budget. *)
Definition over_budget (P : Platform) (cfg : config) (i : nat) : bool :=
  (maxSeconds cfg <? performance_now P i / 1000 - start P)%float.

(** The expression of the integer atom [n], and of a named constant. *)
Definition integer_atom (n : Z) : item := Item (Num.of_Z n) (pretty n).
Definition constant_atom (c : string * float) : item := Item c.2 c.1.

(** What the specification gives for cost 1. *)
Definition level_1 (cfg : config) : list item :=
  (integer_atom <$> seqZ 1 (cfg_N cfg)) ++ (constant_atom <$> cfg_consts cfg).


(** The expression [(L op R)]. *)
Definition combination (opname : string) (op : float → float → float)
    (L R : item) : item :=
  Item (safeEvalBin op (it_v L) (it_v R)) (binary_text (it_expr L) opname (it_expr R)).

(** The value that [safePow] asks of [Math.pow]. *)
Definition pow_called (P : Platform) (a b : float) : float :=
  if (a <? 0)%float then Math_pow P a (Num.Math_round b) else Math_pow P a b.

(** The applications that the cancellation rule removes. *)
Definition cancelled (fname e : string) : bool :=
  (String.eqb fname "ln" && is_direct_application e "exp") ||
  (String.eqb fname "exp" && is_direct_application e "ln").


(* ===================================================================== *)
(** * Part II: properties                                                 *)
(* ===================================================================== *)

(** ** Doubles

    The comparisons of doubles are reduced to comparisons of integers, and
    the sign of a difference of errors to their order.  All of it follows
    from the specification of the primitive operations. *)

Module Dbl.

Local Open Scope Z_scope.

Abbreviation fexp64 := (SpecFloat.fexp prec emax).

Lemma fexp64_eq k : fexp64 k = Z.max (k - 53) (-1074).
Proof. reflexivity. Qed.

(** *** Binary digits *)

Lemma digits2_pos_bounds (m : positive) :
  2 ^ (Z.pos (digits2_pos m) - 1) <= Z.pos m < 2 ^ Z.pos (digits2_pos m).
Proof.
  induction m as [m IH|m IH|]; simpl digits2_pos.
  - rewrite Pos2Z.inj_succ.
    replace (Z.succ (Z.pos (digits2_pos m)) - 1) with (Z.succ (Z.pos (digits2_pos m) - 1)) by lia.
    rewrite !Z.pow_succ_r by lia. lia.
  - rewrite Pos2Z.inj_succ.
    replace (Z.succ (Z.pos (digits2_pos m)) - 1) with (Z.succ (Z.pos (digits2_pos m) - 1)) by lia.
    rewrite !Z.pow_succ_r by lia. lia.
  - simpl. lia.
Qed.

(** The rank of a double: an integer that orders the doubles as their
    values do. *)
Definition rank (x : spec_float) : Z :=
  match x with
  | S754_zero _ => 0
  | S754_nan => 0
  | S754_infinity s => if s then - 2 ^ 64 else 2 ^ 64
  | S754_finite s m e =>
      let r := (e + 1075) * 2 ^ 53 + Z.pos m in
      if s then - r else r
  end.

Definition rk (x : float) : Z := rank (Prim2SF x).

Lemma valid_finite_bounds s m e :
  valid_binary (S754_finite s m e) = true →
  -1074 <= e <= 971 ∧ 0 < Z.pos m < 2 ^ 53 ∧
  (-1074 < e → 2 ^ 52 <= Z.pos m).
Proof.
  unfold SpecFloat.valid_binary, bounded, canonical_mantissa.
  rewrite andb_true_iff, Z.eqb_eq, Z.leb_le, fexp64_eq.
  change (emax - prec) with 971.
  intros [Hc He].
  pose proof (digits2_pos_bounds m) as [Hlo Hhi].
  assert (Hd : Z.pos (digits2_pos m) <= 53) by lia.
  split; [lia|]. split.
  - split; [lia|].
    eapply Z.lt_le_trans; [exact Hhi|].
    apply Z.pow_le_mono_r; lia.
  - intros Hgt. assert (Z.pos (digits2_pos m) = 53) as Hd' by lia.
    rewrite Hd' in Hlo. exact Hlo.
Qed.

Lemma rank_finite_pos s m e :
  valid_binary (S754_finite s m e) = true →
  0 < (e + 1075) * 2 ^ 53 + Z.pos m < 2 ^ 64.
Proof.
  intros Hv. apply valid_finite_bounds in Hv as (He & Hm & _).
  change (2 ^ 64) with (2048 * 2 ^ 53). nia.
Qed.

Lemma compare_cont_Eq (m1 m2 : positive) :
  Pos.compare_cont Eq m1 m2 = (Z.pos m1 ?= Z.pos m2).
Proof. reflexivity. Qed.

Lemma SFcompare_rank x y :
  valid_binary x = true → valid_binary y = true →
  x ≠ S754_nan → y ≠ S754_nan →
  SFcompare x y = Some (rank x ?= rank y).
Proof.
  intros Hx Hy Nx Ny.
  destruct x as [sx|sx| |sx mx ex], y as [sy|sy| |sy my ey]; try congruence;
    try (pose proof (rank_finite_pos _ _ _ Hx) as Rx);
    try (pose proof (rank_finite_pos _ _ _ Hy) as Ry);
    try (apply valid_finite_bounds in Hx as (Hex & Hmx & Hnx));
    try (apply valid_finite_bounds in Hy as (Hey & Hmy & Hny));
    cbn [SFcompare rank] in *.
  all: try (destruct sx; try destruct sy; f_equal; symmetry;
            first [ reflexivity
                  | apply Z.compare_lt_iff; lia
                  | apply Z.compare_gt_iff; lia ]; fail).
  - destruct sx, sy; f_equal; symmetry.
    + rewrite Z.compare_opp.
      destruct (Z.compare_spec ex ey) as [->|Hlt|Hgt].
      * rewrite Z.add_compare_mono_l. change (PosDef.Pos.compare_cont Eq mx my) with (Z.pos mx ?= Z.pos my).
        apply Z.compare_antisym.
      * apply Z.compare_gt_iff. nia.
      * apply Z.compare_lt_iff. nia.
    + apply Z.compare_lt_iff; lia.
    + apply Z.compare_gt_iff; lia.
    + destruct (Z.compare_spec ex ey) as [->|Hlt|Hgt].
      * rewrite Z.add_compare_mono_l. reflexivity.
      * apply Z.compare_lt_iff. nia.
      * apply Z.compare_gt_iff. nia.
Qed.

(** *** Comparisons of doubles through their ranks *)

Lemma is_nan_spec x : is_nan x = true ↔ Prim2SF x = S754_nan.
Proof.
  unfold is_nan. rewrite FloatAxioms.eqb_spec. unfold SFeqb.
  pose proof (Prim2SF_valid x) as Hv.
  assert (Prim2SF x = S754_nan ∨ Prim2SF x ≠ S754_nan) as [E|E]
    by (destruct (Prim2SF x); (by left) || (by right)).
  - rewrite E. split; reflexivity.
  - rewrite (SFcompare_rank _ _ Hv Hv E E), Z.compare_refl.
    split; [discriminate|congruence].
Qed.

Lemma not_nan_spec x : is_nan x = false ↔ Prim2SF x ≠ S754_nan.
Proof. rewrite <- is_nan_spec. destruct (is_nan x); split; congruence. Qed.

Lemma compare_rk x y :
  is_nan x = false → is_nan y = false →
  SFcompare (Prim2SF x) (Prim2SF y) = Some (rk x ?= rk y).
Proof.
  intros Hx%not_nan_spec Hy%not_nan_spec.
  apply SFcompare_rank; auto using Prim2SF_valid.
Qed.

Lemma ltb_rk x y :
  is_nan x = false → is_nan y = false → (x <? y)%float = (rk x <? rk y).
Proof.
  intros Hx Hy. rewrite FloatAxioms.ltb_spec. unfold SFltb, Z.ltb.
  rewrite compare_rk by done. by destruct (rk x ?= rk y).
Qed.

Lemma leb_rk x y :
  is_nan x = false → is_nan y = false → (x <=? y)%float = (rk x <=? rk y).
Proof.
  intros Hx Hy. rewrite FloatAxioms.leb_spec. unfold SFleb, Z.leb.
  rewrite compare_rk by done. by destruct (rk x ?= rk y).
Qed.

Lemma eqb_rk x y :
  is_nan x = false → is_nan y = false → (x =? y)%float = (rk x =? rk y).
Proof.
  intros Hx Hy. rewrite FloatAxioms.eqb_spec. unfold SFeqb.
  rewrite compare_rk by done.
  destruct (Z.compare_spec (rk x) (rk y)); symmetry;
    rewrite ?Z.eqb_eq, ?Z.eqb_neq; lia.
Qed.

(** Comparisons with NaN are false. *)
Lemma ltb_nan_l x y : is_nan x = true → (x <? y)%float = false.
Proof.
  intros H%is_nan_spec. rewrite FloatAxioms.ltb_spec, H. unfold SFltb.
  by destruct (Prim2SF y).
Qed.

Lemma ltb_nan_r x y : is_nan y = true → (x <? y)%float = false.
Proof.
  intros H%is_nan_spec. rewrite FloatAxioms.ltb_spec, H. unfold SFltb.
  by destruct (Prim2SF x).
Qed.

Lemma rk_abs x : rk (abs x) = Z.abs (rk x).
Proof.
  unfold rk. rewrite abs_spec. pose proof (Prim2SF_valid x) as Hv.
  destruct (Prim2SF x) as [s|s| |s m e]; cbn [SFabs rank];
    [by destruct s | by destruct s | done |].
  apply rank_finite_pos in Hv. destruct s; lia.
Qed.

Lemma is_nan_abs x : is_nan (abs x) = is_nan x.
Proof.
  apply eq_true_iff_eq. rewrite !is_nan_spec, abs_spec.
  destruct (Prim2SF x); cbn; split; congruence.
Qed.

Lemma rk_bound x : - 2 ^ 64 <= rk x <= 2 ^ 64.
Proof.
  unfold rk. pose proof (Prim2SF_valid x) as Hv.
  destruct (Prim2SF x) as [s|s| |s m e]; cbn [rank];
    [lia | destruct s; lia | lia |].
  apply rank_finite_pos in Hv. destruct s; lia.
Qed.

Lemma is_finite_spec x :
  is_finite x = true ↔ is_nan x = false ∧ Z.abs (rk x) < 2 ^ 64.
Proof.
  unfold is_finite, is_infinity.
  destruct (is_nan x) eqn:Hn; cbn [orb negb].
  - split; [discriminate | intros [? _]; discriminate].
  - rewrite eqb_rk by (by rewrite ?is_nan_abs).
    rewrite rk_abs. change (rk infinity) with (2 ^ 64).
    pose proof (rk_bound x).
    rewrite negb_true_iff, Z.eqb_neq. split; [intros; split; [done|lia] | lia].
Qed.

Lemma is_finite_not_nan x : is_finite x = true → is_nan x = false.
Proof. by intros [? _]%is_finite_spec. Qed.


(** *** Rounding keeps the sign and does not reach zero *)

Lemma shr_1_m s : 0 <= shr_m s → shr_m (shr_1 s) = shr_m s / 2.
Proof.
  destruct s as [m r t]; cbn [shr_m shr_1].
  destruct m as [|[q|q|]|q]; cbn [shr_m]; intros H; try lia; try reflexivity.
  - apply Z.div_unique with (r := 1); lia.
  - apply Z.div_unique with (r := 0); lia.
Qed.

Lemma pow2_xO p : 2 ^ Z.pos p~0 = 2 ^ Z.pos p * 2 ^ Z.pos p.
Proof.
  replace (Z.pos p~0) with (Z.pos p + Z.pos p) by lia.
  apply Z.pow_add_r; lia.
Qed.

Lemma pow2_xI p : 2 ^ Z.pos p~1 = 2 * (2 ^ Z.pos p * 2 ^ Z.pos p).
Proof.
  replace (Z.pos p~1) with (Z.succ (Z.pos p~0)) by lia.
  rewrite Z.pow_succ_r, pow2_xO by lia. reflexivity.
Qed.

Lemma iter_shr_1 p s :
  0 <= shr_m s → shr_m (SpecFloat.iter_pos shr_1 p s) = shr_m s / 2 ^ Z.pos p.
Proof.
  revert s. induction p as [p IH|p IH|]; intros s Hs; cbn [SpecFloat.iter_pos].
  - assert (0 < 2 ^ Z.pos p) as Hk by (apply Z.pow_pos_nonneg; lia).
    assert (0 <= shr_m (shr_1 s)) as H1 by (rewrite shr_1_m by done; apply Z.div_pos; lia).
    assert (0 <= shr_m (SpecFloat.iter_pos shr_1 p (shr_1 s))) as H2
      by (rewrite IH by done; apply Z.div_pos; lia).
    rewrite (IH _ H2), (IH _ H1), shr_1_m by done.
    rewrite !Z.div_div by lia. by rewrite pow2_xI, Z.mul_assoc.
  - assert (0 < 2 ^ Z.pos p) as Hk by (apply Z.pow_pos_nonneg; lia).
    assert (0 <= shr_m (SpecFloat.iter_pos shr_1 p s)) as H2
      by (rewrite IH by done; apply Z.div_pos; lia).
    rewrite (IH _ H2), (IH _ Hs).
    rewrite !Z.div_div by lia. by rewrite pow2_xO.
  - rewrite shr_1_m by done. reflexivity.
Qed.

Lemma shr_m_of_loc m l : shr_m (shr_record_of_loc m l) = m.
Proof. by destruct l as [|[]]. Qed.

Lemma Zdigits2_bounds m :
  0 < m → 2 ^ (Zdigits2 m - 1) <= m < 2 ^ Zdigits2 m ∧ 0 < Zdigits2 m.
Proof.
  destruct m as [|q|q]; [lia| |lia]. intros _. cbn [Zdigits2].
  split; [apply digits2_pos_bounds | lia].
Qed.

(** Shifting to the exponent of the format leaves a positive mantissa
    positive. *)
Lemma shr_fexp_pos m e l :
  0 < m → -1074 <= e →
  0 < shr_m (shr_fexp prec emax m e l).1 ∧ -1074 <= (shr_fexp prec emax m e l).2.
Proof.
  intros Hm He. unfold shr_fexp, shr. rewrite fexp64_eq.
  pose proof (Zdigits2_bounds m Hm) as [[Hlo Hhi] Hd].
  destruct (Z.max (Zdigits2 m + e - 53) (-1074) - e) as [|n|n] eqn:En;
    cbn [fst snd]; rewrite ?shr_m_of_loc; try (split; lia).
  rewrite iter_shr_1 by (rewrite shr_m_of_loc; lia).
  rewrite shr_m_of_loc. split; [|lia].
  apply Z.div_str_pos. split; [lia|].
  etrans; [|exact Hlo]. apply Z.pow_le_mono_r; lia.
Qed.

Lemma round_nearest_even_ge m l : m <= round_nearest_even m l.
Proof. destruct l as [|[]]; cbn; try lia. destruct (Z.even m); lia. Qed.

(** The result of rounding a positive mantissa is a finite number or an
    infinity of the sign given. *)
Definition signed_nonzero (s : bool) (x : spec_float) : Prop :=
  (∃ m e, x = S754_finite s m e) ∨ x = S754_infinity s.

Lemma binary_round_aux_sign s m e l :
  0 < m → -1074 <= e → signed_nonzero s (binary_round_aux prec emax s m e l).
Proof.
  intros Hm He. unfold binary_round_aux.
  pose proof (shr_fexp_pos m e l Hm He) as [H1 H2].
  destruct (shr_fexp prec emax m e l) as [r1 e1]; cbn [fst snd] in *.
  pose proof (round_nearest_even_ge (shr_m r1) (loc_of_shr_record r1)) as Hr.
  pose proof (shr_fexp_pos (round_nearest_even (shr_m r1) (loc_of_shr_record r1))
                e1 loc_Exact ltac:(lia) H2) as [H3 H4].
  destruct (shr_fexp prec emax _ e1 loc_Exact) as [r2 e2]; cbn [fst snd] in *.
  destruct (shr_m r2) as [|q|q]; [lia| |lia].
  destruct (e2 <=? emax - prec); [left; eauto | by right].
Qed.

Lemma shl_align_value m e e' :
  e' <= e →
  Z.pos (shl_align m e e').1 = Z.pos m * 2 ^ (e - e') ∧
  (shl_align m e e').2 = e'.
Proof.
  intros H. unfold shl_align.
  destruct (e' - e) as [|d|d] eqn:Ed; cbn [fst snd]; [|lia|].
  - replace (e - e') with 0 by lia. lia.
  - split; [|done]. replace (e - e') with (Z.pos d) by lia.
    clear. induction d as [|d IH] using Pos.peano_ind.
    + cbn. lia.
    + rewrite Pos.iter_succ, Pos2Z.inj_xO, IH, Pos2Z.inj_succ, Z.pow_succ_r by lia. lia.
Qed.

Lemma binary_round_sign s m e :
  -1074 <= e → signed_nonzero s (binary_round prec emax s m e).
Proof.
  intros He. unfold binary_round.
  destruct (shl_align m e _) as [mz ez] eqn:Es.
  apply binary_round_aux_sign; [lia|].
  unfold shl_align in Es. rewrite fexp64_eq in Es.
  destruct (_ - e) as [|d|d] eqn:Ed in Es; inversion Es; subst; lia.
Qed.


(** *** Subtraction *)

Lemma binary_normalize_sign d e :
  -1074 <= e →
  match d with
  | Z0 => binary_normalize prec emax d e false = S754_zero false
  | Z.pos _ => signed_nonzero false (binary_normalize prec emax d e false)
  | Z.neg _ => signed_nonzero true (binary_normalize prec emax d e false)
  end.
Proof. intros He. destruct d; cbn [binary_normalize]; auto using binary_round_sign. Qed.

Lemma signed_nonzero_not_nan s x : signed_nonzero s x → x ≠ S754_nan.
Proof. intros [(m & e & ->)| ->]; discriminate. Qed.

(** The difference of two doubles of which one is finite is a number. *)
Lemma SFsub_not_nan x y :
  valid_binary x = true → valid_binary y = true →
  x ≠ S754_nan → y ≠ S754_nan →
  (∀ s, y ≠ S754_infinity s) →
  SF64sub x y ≠ S754_nan.
Proof.
  intros Hx Hy Nx Ny Iy.
  destruct x as [sx|sx| |sx mx ex], y as [sy|sy| |sy my ey];
    try congruence; try (by destruct sx, sy); try (by exfalso; eapply Iy).
  apply valid_finite_bounds in Hx as (Hex & _).
  apply valid_finite_bounds in Hy as (Hey & _).
  unfold SF64sub, SFsub.
  pose proof (binary_normalize_sign
    (cond_Zopp sx (Z.pos (shl_align mx ex (Z.min ex ey)).1) -
     cond_Zopp sy (Z.pos (shl_align my ey (Z.min ex ey)).1)) (Z.min ex ey) ltac:(lia)) as H.
  destruct (_ - _) in H |- *.
  - rewrite H. discriminate.
  - by eapply signed_nonzero_not_nan.
  - by eapply signed_nonzero_not_nan.
Qed.

(** The sign of the difference of two non-negative doubles is the order of
    their ranks. *)
Lemma SFsub_sign x y :
  valid_binary x = true → valid_binary y = true →
  x ≠ S754_nan → y ≠ S754_nan → 0 <= rank x → 0 <= rank y →
  match rank x ?= rank y with
  | Lt => signed_nonzero true (SF64sub x y)
  | Eq => (∃ s, SF64sub x y = S754_zero s) ∨ SF64sub x y = S754_nan
  | Gt => signed_nonzero false (SF64sub x y)
  end.
Proof.
  intros Hx Hy Nx Ny Rx Ry.
  destruct x as [sx|sx| |sx mx ex], y as [sy|sy| |sy my ey]; try congruence;
    try (pose proof (rank_finite_pos _ _ _ Hx) as Px);
    try (pose proof (rank_finite_pos _ _ _ Hy) as Py);
    cbn [rank] in *;
    try (destruct sx; [lia|]); try (destruct sy; [lia|]).
  - (* zero, zero *) left. destruct sx, sy; eauto.
  - (* zero, infinity *) by right.
  - (* zero, finite *)
    replace (0 ?= _) with Lt by (symmetry; apply Z.compare_lt_iff; lia).
    left. cbn. eauto.
  - (* infinity, zero *) by right.
  - (* infinity, infinity *) by right.
  - (* infinity, finite *)
    replace (2 ^ 64 ?= _) with Gt by (symmetry; apply Z.compare_gt_iff; lia).
    by right.
  - (* finite, zero *)
    replace (_ ?= 0) with Gt by (symmetry; apply Z.compare_gt_iff; lia).
    left. cbn. eauto.
  - (* finite, infinity *)
    replace (_ ?= 2 ^ 64) with Lt by (symmetry; apply Z.compare_lt_iff; lia).
    by right.
  - (* finite, finite *)
    apply valid_finite_bounds in Hx as (Hex & Hmx & Hnx).
    apply valid_finite_bounds in Hy as (Hey & Hmy & Hny).
    unfold SF64sub, SFsub. cbn [cond_Zopp].
    pose proof (shl_align_value mx ex (Z.min ex ey) ltac:(lia)) as [Ha _].
    pose proof (shl_align_value my ey (Z.min ex ey) ltac:(lia)) as [Hb _].
    pose proof (binary_normalize_sign
      (Z.pos (shl_align mx ex (Z.min ex ey)).1 -
       Z.pos (shl_align my ey (Z.min ex ey)).1) (Z.min ex ey) ltac:(lia)) as H.
    rewrite Ha, Hb in H |- *.
    assert (((ex + 1075) * 2 ^ 53 + Z.pos mx ?= (ey + 1075) * 2 ^ 53 + Z.pos my) =
            (Z.pos mx * 2 ^ (ex - Z.min ex ey) - Z.pos my * 2 ^ (ey - Z.min ex ey) ?= 0))
      as ->.
    { destruct (Z.lt_trichotomy ex ey) as [Hlt|[->|Hgt]].
      - rewrite Z.min_l, Z.sub_diag, Z.mul_1_r by lia.
        assert (2 ^ 1 <= 2 ^ (ey - ex)) by (apply Z.pow_le_mono_r; lia).
        transitivity Lt; [|symmetry]; apply Z.compare_lt_iff; nia.
      - rewrite Z.min_id, Z.sub_diag, !Z.mul_1_r.
        rewrite Z.add_compare_mono_l. apply Z.compare_sub.
      - rewrite Z.min_r, Z.sub_diag, Z.mul_1_r by lia.
        assert (2 ^ 1 <= 2 ^ (ex - ey)) by (apply Z.pow_le_mono_r; lia).
        transitivity Gt; [|symmetry]; apply Z.compare_gt_iff; nia. }
    destruct (_ - _) in H |- *; cbn [Z.compare]; eauto.
Qed.

(** *** Errors: the doubles that [Math.abs] returns on numbers *)

Definition is_error (e : float) : Prop := is_nan e = false ∧ 0 <= rk e.

Lemma sub_not_nan t x :
  is_nan t = false → is_finite x = true → is_nan (t - x) = false.
Proof.
  intros Ht%not_nan_spec Hx. apply not_nan_spec. rewrite sub_spec.
  pose proof Hx as [Hn%not_nan_spec Hr]%is_finite_spec.
  apply SFsub_not_nan; auto using Prim2SF_valid.
  intros s E. unfold rk in Hr. rewrite E in Hr. destruct s; cbn in Hr; lia.
Qed.

Lemma is_error_abs x : is_nan x = false → is_error (abs x).
Proof. intros H. split; [by rewrite is_nan_abs | rewrite rk_abs; lia]. Qed.

Lemma sub_ltb_0 a b :
  is_error a → is_error b → (a - b <? 0)%float = (rk a <? rk b).
Proof.
  intros [Na Ra] [Nb Rb]. rewrite FloatAxioms.ltb_spec, sub_spec.
  apply not_nan_spec in Na, Nb.
  pose proof (SFsub_sign _ _ (Prim2SF_valid a) (Prim2SF_valid b) Na Nb Ra Rb) as H.
  fold (rk a) (rk b) in H. unfold Z.ltb.
  change (Prim2SF 0) with (S754_zero false).
  destruct (rk a ?= rk b).
  - by destruct H as [[s ->]| ->].
  - by destruct H as [(m & e & ->)| ->].
  - by destruct H as [(m & e & ->)| ->].
Qed.

End Dbl.

(** ** The binary heap: sifting permutes the array and restores the order *)

Module HeapFacts.
Section Facts.
Context {A : Type}.
Variable cmp : A → A → Z.
(** The entries the comparator orders, and the integer it orders them by. *)
Variable ok : A → Prop.
Variable key : A → Z.
Hypothesis cmp_key : ∀ x y, ok x → ok y → (0 <? cmp x y)%Z = (key y <? key x)%Z.

Import BinaryHeap.

Lemma swap_length (a : list A) i j : length (swap a i j) = length a.
Proof.
  unfold swap. destruct (a !! i), (a !! j); try done.
  by rewrite !length_insert.
Qed.

Lemma swap_lookup (a : list A) i j x y k :
  a !! i = Some x → a !! j = Some y →
  swap a i j !! k =
    if decide (k = i) then Some y else if decide (k = j) then Some x else a !! k.
Proof.
  intros Hi Hj. unfold swap. rewrite Hi, Hj.
  pose proof (lookup_lt_Some _ _ _ Hi). pose proof (lookup_lt_Some _ _ _ Hj).
  destruct (decide (k = i)) as [->|Hki].
  - by rewrite list_lookup_insert_eq by (by rewrite length_insert).
  - rewrite list_lookup_insert_ne by done.
    destruct (decide (k = j)) as [->|Hkj].
    + by rewrite list_lookup_insert_eq.
    + by rewrite list_lookup_insert_ne.
Qed.

Lemma swap_Permutation (a : list A) i j : swap a i j ≡ₚ a.
Proof.
  unfold swap. destruct (a !! i) as [x|] eqn:Hi, (a !! j) as [y|] eqn:Hj; try done.
  destruct (decide (i = j)) as [->|Hne].
  - rewrite list_insert_insert_eq. simplify_eq. by rewrite list_insert_id.
  - apply Permutation_inj. split; [by rewrite !length_insert|].
    exists (λ k, if decide (k = i) then j else if decide (k = j) then i else k).
    split.
    + intros k1 k2. repeat case_decide; intros; simplify_eq; done.
    + intros k. pose proof (swap_lookup a i j x y k Hi Hj) as Hk.
      unfold swap in Hk. rewrite Hi, Hj in Hk. rewrite Hk.
      repeat case_decide; simplify_eq; done.
Qed.

Lemma siftUp_loop_Permutation fuel (a : list A) i : siftUp_loop cmp fuel a i ≡ₚ a.
Proof.
  revert a i. induction fuel as [|fuel IH]; intros a i; cbn [siftUp_loop]; [done|].
  destruct (0 <? i); [|done]. destruct (gt_at _ _ _ _); [|done].
  rewrite IH. apply swap_Permutation.
Qed.

Lemma siftDown_loop_Permutation fuel (a : list A) i : siftDown_loop cmp fuel a i ≡ₚ a.
Proof.
  revert a i. induction fuel as [|fuel IH]; intros a i; cbn [siftDown_loop]; [done|].
  destruct (negb _); [|done]. rewrite IH. apply swap_Permutation.
Qed.

Lemma push_Permutation (data : list A) x : push cmp data x ≡ₚ x :: data.
Proof.
  unfold push, siftUp. rewrite siftUp_loop_Permutation.
  by rewrite Permutation_app_comm.
Qed.

Lemma replace_Permutation (t : A) rest x : replace cmp (t :: rest) x ≡ₚ x :: rest.
Proof. unfold replace, siftDown. by rewrite siftDown_loop_Permutation. Qed.

(** *** Heap order *)

Definition child (p c : nat) : Prop := c = 2 * p + 1 ∨ c = 2 * p + 2.

Definition edge_ok (a : list A) (p c : nat) : Prop :=
  ∀ x y, a !! p = Some x → a !! c = Some y → (key y ≤ key x)%Z.

Definition heap_ordered (a : list A) : Prop := ∀ p c, child p c → edge_ok a p c.

(** Ordered but for the edges below [i] (while sifting down) or the edge
    above [i] (while sifting up); in both cases the parent of [i] dominates
    the children of [i]. *)
Definition ordered_below (a : list A) (i : nat) : Prop :=
  ∀ p c, child p c → p ≠ i → edge_ok a p c.
Definition ordered_above (a : list A) (i : nat) : Prop :=
  ∀ p c, child p c → c ≠ i → edge_ok a p c.
Definition grand_ok (a : list A) (i : nat) : Prop :=
  ∀ p c, child p i → child i c → edge_ok a p c.

Lemma gt_at_key (a : list A) i j x y :
  Forall ok a → a !! i = Some x → a !! j = Some y →
  gt_at cmp a i j = (key y <? key x)%Z.
Proof.
  intros Hok Hi Hj. unfold gt_at. rewrite Hi, Hj. apply cmp_key.
  - eapply Forall_lookup_1; eauto.
  - eapply Forall_lookup_1; eauto.
Qed.

Lemma gt_at_None_l (a : list A) i j : a !! i = None → gt_at cmp a i j = false.
Proof. intros H. unfold gt_at. by rewrite H. Qed.

Lemma gt_at_None_r (a : list A) i j : a !! j = None → gt_at cmp a i j = false.
Proof. intros H. unfold gt_at. rewrite H. by destruct (a !! i). Qed.

Lemma swap_ok (a : list A) i j : Forall ok a → Forall ok (swap a i j).
Proof. intros H. by rewrite swap_Permutation. Qed.

Lemma parent_child i : 0 < i → child ((i - 1) / 2) i ∧ (i - 1) / 2 < i.
Proof.
  intros Hi. pose proof (Nat.div_mod_eq (i - 1) 2) as H1.
  pose proof (Nat.mod_upper_bound (i - 1) 2) as H2. unfold child. lia.
Qed.

Lemma heap_ordered_top (a : list A) t :
  heap_ordered a → a !! 0 = Some t → ∀ j y, a !! j = Some y → (key y ≤ key t)%Z.
Proof.
  intros Ho Ht j. induction j as [j IH] using lt_wf_ind. intros y Hy.
  destruct (decide (j = 0)) as [->|Hj]; [simplify_eq; lia|].
  pose proof (lookup_lt_Some _ _ _ Hy) as Hlt.
  destruct (parent_child j) as [Hc Hp]; [lia|].
  destruct (lookup_lt_is_Some_2 a ((j - 1) / 2)) as [x Hx]; [lia|].
  trans (key x).
  - by apply (Ho _ _ Hc).
  - by apply (IH _ Hp).
Qed.

(** *** Sifting down *)

Definition largest (a : list A) (i : nat) : nat :=
  let lg := if (2 * i + 1 <? length a) && gt_at cmp a (2 * i + 1) i
            then 2 * i + 1 else i in
  if (2 * i + 2 <? length a) && gt_at cmp a (2 * i + 2) lg then 2 * i + 2 else lg.

Lemma siftDown_loop_S fuel (a : list A) i :
  siftDown_loop cmp (S fuel) a i =
    if negb (largest a i =? i) then
      siftDown_loop cmp fuel (swap a i (largest a i)) (largest a i)
    else a.
Proof. reflexivity. Qed.

Lemma largest_spec (a : list A) i xi :
  Forall ok a → a !! i = Some xi →
  (largest a i = i ∧
   ∀ c y, child i c → a !! c = Some y → (key y ≤ key xi)%Z) ∨
  (∃ xl, child i (largest a i) ∧ a !! largest a i = Some xl ∧
         (key xi < key xl)%Z ∧
         ∀ c y, child i c → a !! c = Some y → (key y ≤ key xl)%Z).
Proof.
  intros Hok Hi. unfold largest.
  destruct (a !! (2 * i + 1)) as [xl|] eqn:Hl;
    destruct (a !! (2 * i + 2)) as [xr|] eqn:Hr.
  - rewrite (gt_at_key _ _ _ _ _ Hok Hl Hi).
    apply lookup_lt_Some in Hl as Hl'. apply lookup_lt_Some in Hr as Hr'.
    apply Nat.ltb_lt in Hl' as ->. apply Nat.ltb_lt in Hr' as ->. cbn [andb].
    destruct (key xi <? key xl)%Z eqn:E1.
    + rewrite (gt_at_key _ _ _ _ _ Hok Hr Hl).
      destruct (key xl <? key xr)%Z eqn:E2.
      * right. exists xr. unfold child.
        split_and!; [lia|done|lia|]. intros c y [->| ->] Hy; simplify_eq; lia.
      * right. exists xl. unfold child.
        split_and!; [lia|done|lia|]. intros c y [->| ->] Hy; simplify_eq; lia.
    + rewrite (gt_at_key _ _ _ _ _ Hok Hr Hi).
      destruct (key xi <? key xr)%Z eqn:E2.
      * right. exists xr. unfold child.
        split_and!; [lia|done|lia|]. intros c y [->| ->] Hy; simplify_eq; lia.
      * left. split; [done|]. intros c y [->| ->] Hy; simplify_eq; lia.
  - rewrite (gt_at_key _ _ _ _ _ Hok Hl Hi).
    rewrite (gt_at_None_l _ _ _ Hr), andb_false_r.
    apply lookup_lt_Some in Hl as Hl'. apply Nat.ltb_lt in Hl' as ->. cbn [andb].
    destruct (key xi <? key xl)%Z eqn:E1.
    + right. exists xl. unfold child.
      split_and!; [lia|done|lia|]. intros c y [->| ->] Hy; simplify_eq; lia.
    + left. split; [done|]. intros c y [->| ->] Hy; simplify_eq; lia.
  - apply lookup_lt_Some in Hr. apply lookup_ge_None in Hl. lia.
  - rewrite (gt_at_None_l _ _ _ Hl), andb_false_r. cbv iota.
    rewrite (gt_at_None_l _ _ _ Hr), andb_false_r.
    left. split; [done|]. intros c y [->| ->] Hy; simplify_eq.
Qed.

Lemma siftDown_loop_ordered fuel (a : list A) i :
  Forall ok a → ordered_below a i → grand_ok a i → length a ≤ fuel + i →
  heap_ordered (siftDown_loop cmp fuel a i).
Proof.
  revert a i. induction fuel as [|fuel IH]; intros a i Hok Hb Hg Hf.
  { cbn. intros p c Hc x y Hx Hy.
    destruct (decide (p = i)) as [->|Hp]; [|by eapply Hb].
    apply lookup_lt_Some in Hx. lia. }
  rewrite siftDown_loop_S.
  destruct (a !! i) as [xi|] eqn:Hi.
  2:{ unfold largest. rewrite (gt_at_None_r _ _ _ Hi), andb_false_r. cbv iota.
      rewrite (gt_at_None_r _ _ _ Hi), andb_false_r. cbv iota.
      rewrite Nat.eqb_refl. cbn [negb].
      intros p c Hc x y Hx Hy.
      destruct (decide (p = i)) as [->|Hp]; [congruence|by eapply Hb]. }
  destruct (largest_spec a i xi Hok Hi) as [[-> Hch]|(xl & Hc & Hl & Hlt & Hch)].
  { rewrite Nat.eqb_refl. cbn [negb].
    intros p c Hpc x y Hx Hy.
    destruct (decide (p = i)) as [->|Hp]; [simplify_eq; by eapply Hch|by eapply Hb]. }
  set (lg := largest a i) in *.
  assert (lg ≠ i) as Hne by (unfold child in Hc; lia).
  apply Nat.eqb_neq in Hne as ->. cbn [negb].
  assert (∀ k, swap a i lg !! k =
               if decide (k = i) then Some xl
               else if decide (k = lg) then Some xi else a !! k) as Hsw
    by (intros k; by apply swap_lookup).
  apply IH.
  - by apply swap_ok.
  - intros p c Hpc Hp x y. rewrite !Hsw. unfold child in *.
    repeat case_decide; intros; simplify_eq; try lia.
    + (* parent i, child other than lg *)
      eapply Hch; [|done]. unfold child. lia.
    + (* child i, its parent untouched *)
      eapply (Hg p lg); unfold child; [lia|lia|done|done].
    + eapply (Hb p c); unfold child; [lia|lia|done|done].
  - intros p c Hp Hc' x y. rewrite !Hsw. unfold child in *.
    repeat case_decide; intros; simplify_eq; try lia.
    eapply (Hb lg c); unfold child; [lia|lia|done|done].
  - rewrite swap_length. unfold child in Hc. lia.
Qed.

Lemma replace_ordered (t : A) rest x :
  Forall ok (x :: rest) → heap_ordered (t :: rest) →
  heap_ordered (replace cmp (t :: rest) x).
Proof.
  intros Hok Ho. unfold replace, siftDown. apply siftDown_loop_ordered.
  - done.
  - intros p c Hc Hp x' y Hx Hy. destruct p as [|p]; [done|].
    destruct c as [|c]; [unfold child in Hc; lia|].
    by eapply (Ho (S p) (S c)).
  - intros p c Hp. unfold child in Hp. lia.
  - lia.
Qed.

(** *** Sifting up *)

Lemma siftUp_loop_ordered fuel (a : list A) i :
  Forall ok a → ordered_above a i → grand_ok a i → i < fuel →
  heap_ordered (siftUp_loop cmp fuel a i).
Proof.
  revert a i. induction fuel as [|fuel IH]; intros a i Hok Ha Hg Hf; [lia|].
  cbn [siftUp_loop].
  destruct (0 <? i) eqn:Hi0.
  2:{ apply Nat.ltb_ge in Hi0. intros p c Hc. apply Ha; [done|].
      unfold child in Hc. lia. }
  apply Nat.ltb_lt in Hi0.
  destruct (parent_child i Hi0) as [Hpi Hplt].
  set (p := (i - 1) / 2) in *.
  destruct (a !! i) as [xi|] eqn:Hi.
  2:{ rewrite (gt_at_None_l _ _ _ Hi). intros q c Hc x y Hx Hy.
      destruct (decide (c = i)) as [->|Hci]; [congruence|by eapply Ha]. }
  destruct (lookup_lt_is_Some_2 a p) as [xp Hp].
  { apply lookup_lt_Some in Hi. lia. }
  rewrite (gt_at_key _ _ _ _ _ Hok Hi Hp).
  destruct (key xp <? key xi)%Z eqn:E.
  2:{ intros q c Hc x y Hx Hy.
      destruct (decide (c = i)) as [->|Hci]; [|by eapply Ha].
      assert (q = p) as -> by (unfold child in *; lia). simplify_eq. lia. }
  assert (∀ k, swap a i p !! k =
               if decide (k = i) then Some xp
               else if decide (k = p) then Some xi else a !! k) as Hsw
    by (intros k; by apply swap_lookup).
  assert (p ≠ i) as Hne by lia.
  apply IH.
  - by apply swap_ok.
  - intros q c Hqc Hc x y. rewrite !Hsw. unfold child in *.
    repeat case_decide; intros; simplify_eq; try lia.
    + (* parent i, holding the old parent *)
      eapply (Hg p c); unfold child; [lia|lia|done|done].
    + (* the sibling of i *)
      assert (key y ≤ key xp)%Z; [|lia].
      eapply (Ha p c); unfold child; [lia|lia|done|done].
    + eapply (Ha q c); unfold child; [lia|lia|done|done].
  - intros q c Hq Hc x y. rewrite !Hsw. unfold child in *.
    repeat case_decide; intros; simplify_eq; try lia.
    + eapply (Ha q p); unfold child; [lia|lia|done|done].
    + assert (key y ≤ key xp)%Z by (eapply (Ha p c); unfold child; [lia|lia|done|done]).
      assert (key xp ≤ key x)%Z by (eapply (Ha q p); unfold child; [lia|lia|done|done]).
      lia.
  - lia.
Qed.

Lemma push_ordered (data : list A) x :
  Forall ok (x :: data) → heap_ordered data → heap_ordered (push cmp data x).
Proof.
  intros Hok Ho. unfold push, siftUp. apply siftUp_loop_ordered.
  - by rewrite Permutation_app_comm.
  - intros p c Hc Hci x' y Hx Hy.
    assert (c < length data).
    { apply lookup_lt_Some in Hy. rewrite length_app in Hy. cbn in Hy. lia. }
    rewrite lookup_app_l in Hx, Hy by (unfold child in Hc; lia).
    by eapply Ho.
  - intros p c Hp Hc x' y Hx Hy.
    apply lookup_lt_Some in Hy. rewrite length_app in Hy. cbn in Hy.
    unfold child in Hc. lia.
  - lia.
Qed.

End Facts.
End HeapFacts.


(** ** Reasoning about runs

    A relation [R st o st'] between the state before a computation, how it
    ends ([None]: it returns; [Some e]: it throws [e]) and the state after.
    When the steps of the search respect [R], so does the whole run. *)

Section Sat.
Variable P : Platform.
Variable cfg : config.
Variable R : state → option exn → state → Prop.

Definition sat {A} (m : M A) : Prop :=
  ∀ st, R st (outcome (m st).1) (m st).2.

Hypothesis R_ret : ∀ st, R st None st.
Hypothesis R_seq : ∀ st1 st2 st3 o, R st1 None st2 → R st2 o st3 → R st1 o st3.

Lemma sat_ret {A} (a : A) : sat (mret a).
Proof. intros st. apply R_ret. Qed.

Lemma sat_get_state : sat get_state.
Proof. intros st. apply R_ret. Qed.

Lemma sat_bind {A B} (m : M A) (f : A → M B) :
  sat m → (∀ a, sat (f a)) → sat (m ≫= f).
Proof.
  intros Hm Hf st. specialize (Hm st). unfold mbind, M_bind.
  destruct (m st) as [[a|e] st1]; cbn in *; [|done].
  eapply R_seq; [exact Hm|apply Hf].
Qed.

Lemma sat_foldM {A B} (f : B → A → M B) (l : list A) (b : B) :
  (∀ b x, x ∈ l → sat (f b x)) → sat (foldM f l b).
Proof.
  revert b. induction l as [|x l IH]; intros b Hf; cbn [foldM].
  - apply sat_ret.
  - apply sat_bind; [apply Hf; left|].
    intros b'. apply IH. intros b'' y Hy. apply Hf. by right.
Qed.

Lemma sat_if {A} (c : bool) (m1 m2 : M A) : sat m1 → sat m2 → sat (if c then m1 else m2).
Proof. by destruct c. Qed.

Hypothesis R_timeCheck : sat (timeCheck P cfg).
Hypothesis R_considerValue : ∀ v e, sat (considerValue cfg v e).
Hypothesis R_memo_set : ∀ c r, sat (modify (memo_set c r)).
Hypothesis R_nowSec : sat (nowSec P).
Hypothesis R_report : ∀ p, sat (modify (add_reported p)).

Lemma sat_emit results v e : sat (emit cfg results v e).
Proof. apply sat_bind; [apply R_considerValue|]. intros _. apply sat_ret. Qed.

Lemma sat_atom_step results n : sat (atom_step P cfg results n).
Proof. apply sat_bind; [apply R_timeCheck|]. intros _. apply sat_emit. Qed.

Lemma sat_const_step results c : sat (const_step P cfg results c).
Proof. apply sat_bind; [apply R_timeCheck|]. intros _. apply sat_emit. Qed.

Lemma sat_unary_step it results uf : sat (unary_step cfg it results uf).
Proof.
  destruct uf as [fname f]. unfold unary_step.
  repeat (apply sat_if; [apply sat_ret|]). apply sat_emit.
Qed.

Lemma sat_unary_expand results it : sat (unary_expand P cfg results it).
Proof.
  apply sat_bind; [apply R_timeCheck|]. intros _.
  apply sat_if; [apply sat_ret|]. apply sat_foldM. intros. apply sat_unary_step.
Qed.

Lemma sat_binary_step L R' results bo : sat (binary_step cfg L R' results bo).
Proof.
  destruct bo as [opname op]. unfold binary_step.
  apply sat_if; [apply sat_ret|]. apply sat_bind.
  - apply sat_if; [apply sat_emit|apply sat_ret].
  - intros r. apply sat_if; [apply sat_emit|apply sat_ret].
Qed.

Lemma sat_pair_step L results R' : sat (pair_step P cfg L results R').
Proof.
  apply sat_bind; [apply R_timeCheck|]. intros _.
  apply sat_if; [apply sat_ret|]. apply sat_foldM. intros. apply sat_binary_step.
Qed.

Lemma sat_left_step rightArr results L : sat (left_step P cfg rightArr results L).
Proof.
  apply sat_bind; [apply R_timeCheck|]. intros _.
  apply sat_foldM. intros. apply sat_pair_step.
Qed.

(** The nesting of the calls of [enumerateCost cost] is bounded by [cost]:
    the stack is not exhausted when [depth] is at least [cost]. *)
Lemma sat_enumerateCost depth cost :
  (∀ st, R st (Some StackOverflow) st) ∨ (1 ≤ cost ≤ Z.of_nat depth)%Z →
  sat (enumerateCost P cfg depth cost).
Proof.
  revert cost. induction depth as [|depth IH]; intros cost Hd.
  { destruct Hd as [Hso|Hd]; [|lia]. intros st. apply Hso. }
  cbn [enumerateCost].
  apply sat_bind; [apply sat_get_state|]. intros st0.
  apply sat_if; [apply sat_ret|].
  destruct (memo st0 !! cost); [apply sat_ret|].
  apply sat_bind; [apply R_timeCheck|]. intros _.
  destruct (cost =? 1)%Z eqn:Hc.
  - apply sat_bind; [apply sat_foldM; intros; apply sat_atom_step|]. intros r1.
    apply sat_bind; [apply sat_foldM; intros; apply sat_const_step|]. intros r2.
    apply sat_bind; [apply R_memo_set|]. intros _. apply sat_ret.
  - apply Z.eqb_neq in Hc.
    apply sat_bind; [apply IH; destruct Hd; [by left|right; lia]|]. intros prev.
    apply sat_bind; [apply sat_foldM; intros; apply sat_unary_expand|]. intros r1.
    apply sat_bind.
    + apply sat_foldM. intros r a_cost Ha%elem_of_seqZ.
      apply sat_bind; [apply IH; destruct Hd; [by left|right; lia]|]. intros leftArr.
      apply sat_bind; [apply IH; destruct Hd; [by left|right; lia]|]. intros rightArr.
      apply sat_foldM. intros. apply sat_left_step.
    + intros r2. apply sat_bind; [apply R_memo_set|]. intros _. apply sat_ret.
Qed.

Lemma sat_level cost : (1 ≤ cost)%Z → sat (level P cfg cost).
Proof.
  intros Hc. apply sat_bind; [apply R_timeCheck|]. intros _.
  apply sat_bind; [apply sat_enumerateCost; right; lia|]. intros _.
  apply sat_bind; [apply R_nowSec|]. intros t.
  apply sat_bind; [apply sat_get_state|]. intros st. apply R_report.
Qed.

Lemma sat_run_levels n : sat (run_levels P cfg n).
Proof.
  apply sat_foldM. intros [] cost Hc%elem_of_seqZ. apply sat_level. lia.
Qed.

End Sat.

(** ** What the steps leave unchanged *)

Definition same_results (st st' : state) : Prop :=
  bestHeap st' = bestHeap st ∧ savedValues st' = savedValues st.

Lemma timeCheck_same P cfg st : same_results st (timeCheck P cfg st).2.
Proof.
  unfold timeCheck, mbind, M_bind, nowSec. cbn.
  destruct (_ <? _)%float; cbn; done.
Qed.

Lemma peek_Some (h : list candidate) w :
  BinaryHeap.peek h = Some w → ∃ rest, h = w :: rest.
Proof. destruct h as [|c rest]; cbn; [done|]. intros [= ->]. eauto. Qed.

(** The cases of [considerValue]. *)
Lemma considerValue_cases cfg v e st :
  let st1 := incr_exprCountTotal st in
  let err := (abs (target cfg - v))%float in
  let k := Num.key_repr v in
  (* discarded *)
  (considerValue cfg v e st = (Ok tt, st)) ∨
  (considerValue cfg v e st = (Ok tt, st1)) ∨
  (* pushed *)
  (Num.isFiniteNumber v = true ∧ (k ∉ savedValues st) ∧
   (BinaryHeap.size (bestHeap st) < keepTop cfg)%Z ∧
   considerValue cfg v e st =
     (Ok tt, set_bestHeap (BinaryHeap.push cmp_err (bestHeap st) (Candidate err v e))
                          (savedValues st ∪ {[k]}) st1)) ∨
  (* the worst replaced *)
  (∃ worst rest,
     Num.isFiniteNumber v = true ∧ (k ∉ savedValues st) ∧
     (keepTop cfg ≤ BinaryHeap.size (bestHeap st))%Z ∧
     bestHeap st = worst :: rest ∧ (err <? c_err worst)%float = true ∧
     considerValue cfg v e st =
       (Ok tt, set_bestHeap (BinaryHeap.replace cmp_err (bestHeap st) (Candidate err v e))
                 ((savedValues st ∖ {[Num.key_repr (c_v worst)]}) ∪ {[k]}) st1)) ∨
  (* no worst entry to read *)
  (bestHeap st = [] ∧ (keepTop cfg ≤ 0)%Z ∧
   considerValue cfg v e st = (Throw TypeError, st1)).
Proof.
  intros st1 err k. unfold considerValue.
  destruct (Num.isFiniteNumber v) eqn:Hf; cbn [negb]; [|by left].
  destruct (_ && _); [by left|].
  destruct (_ && _); [by left|].
  fold st1 err k. change (savedValues st1) with (savedValues st).
  change (bestHeap st1) with (bestHeap st).
  case_bool_decide as Hk; [right; by left|].
  destruct (_ <? _)%Z eqn:Hsz.
  { apply Z.ltb_lt in Hsz. right; right; left. done. }
  apply Z.ltb_ge in Hsz.
  destruct (BinaryHeap.peek (bestHeap st)) as [worst|] eqn:Hp.
  - apply peek_Some in Hp as [rest Hp].
    destruct (err <? c_err worst)%float eqn:Hlt; [|right; by left].
    right; right; right; left. exists worst, rest. done.
  - right; right; right; right.
    destruct (bestHeap st) eqn:Hh; [|done].
    unfold BinaryHeap.size in Hsz. cbn in Hsz. done.
Qed.

(** ** The result set stays within [keep_top] entries of distinct keys *)

Lemma considerValue_inv cfg v e st :
  (0 ≤ keepTop cfg)%Z →
  ResultSet_inv cfg st → ResultSet_inv cfg (considerValue cfg v e st).2.
Proof.
  intros HK (Hsz & Hnd & Hsv).
  destruct (considerValue_cases cfg v e st)
    as [-> | [-> | [(Hf & Hk & Hlt & ->) | [(w & rest & Hf & Hk & Hge & Hh & Hlt & ->) | (_ & _ & ->)]]]];
    cbn [snd]; try done.
  - (* pushed *)
    pose proof (HeapFacts.push_Permutation cmp_err (bestHeap st)
                  (Candidate (abs (target cfg - v)) v e)) as Hp.
    unfold ResultSet_inv, BinaryHeap.size in *. cbn [set_bestHeap bestHeap savedValues].
    assert (keys (BinaryHeap.push cmp_err (bestHeap st) (Candidate (abs (target cfg - v)) v e))
            ≡ₚ Num.key_repr v :: keys (bestHeap st)) as Hkeys
      by (unfold keys; by rewrite Hp).
    split_and!.
    + rewrite Hp. cbn [length]. lia.
    + rewrite Hkeys. apply NoDup_cons. split; [by rewrite <- Hsv|done].
    + intros k. rewrite Hkeys, elem_of_union, elem_of_singleton, elem_of_cons, Hsv. tauto.
  - (* replaced *)
    pose proof (HeapFacts.replace_Permutation cmp_err w rest
                  (Candidate (abs (target cfg - v)) v e)) as Hp.
    unfold ResultSet_inv, BinaryHeap.size in *. cbn [set_bestHeap bestHeap savedValues].
    rewrite Hh in *.
    assert (keys (BinaryHeap.replace cmp_err (w :: rest) (Candidate (abs (target cfg - v)) v e))
            ≡ₚ Num.key_repr v :: keys rest) as Hkeys
      by (unfold keys; by rewrite Hp).
    change (keys (w :: rest)) with (Num.key_repr (c_v w) :: keys rest) in *.
    apply NoDup_cons in Hnd as [Hw Hnd].
    split_and!.
    + rewrite Hp. cbn [length] in *. lia.
    + rewrite Hkeys. apply NoDup_cons. split; [|done].
      intros Hin. apply Hk, Hsv. by right.
    + intros k. rewrite Hkeys, elem_of_union, elem_of_difference, !elem_of_singleton,
        elem_of_cons, Hsv, elem_of_cons.
      split; [tauto|]. intros [->|Hin]; [tauto|]. left. split; [tauto|].
      intros ->. done.
Qed.

Lemma ResultSet_inv_saved cfg st :
  ResultSet_inv cfg st → (Z.of_nat (size (savedValues st)) ≤ keepTop cfg)%Z.
Proof.
  intros (Hsz & Hnd & Hsv).
  assert (savedValues st = list_to_set (keys (bestHeap st))) as ->.
  { apply set_eq. intros k. by rewrite Hsv, elem_of_list_to_set. }
  rewrite size_list_to_set by done. unfold keys. rewrite length_fmap. exact Hsz.
Qed.

Lemma ResultSet_inv_same cfg st st' :
  same_results st st' → ResultSet_inv cfg st → ResultSet_inv cfg st'.
Proof. intros [Hh Hs]. unfold ResultSet_inv. by rewrite Hh, Hs. Qed.

Lemma run_levels_inv P cfg n :
  (0 ≤ keepTop cfg)%Z →
  ResultSet_inv cfg (run_levels P cfg n init_state).2.
Proof.
  intros HK.
  pose proof (sat_run_levels P cfg (λ st _ st', ResultSet_inv cfg st → ResultSet_inv cfg st')) as H.
  apply H; clear H.
  - done.
  - intros st1 st2 st3 o H1 H2 H. auto.
  - intros st. apply ResultSet_inv_same, timeCheck_same.
  - intros v e st. by apply considerValue_inv.
  - intros c r st. by apply ResultSet_inv_same.
  - intros st. by apply ResultSet_inv_same.
  - intros p st. by apply ResultSet_inv_same.
  - unfold ResultSet_inv, init_state, keys. cbn. split_and!; [done|constructor|set_solver].
Qed.

Lemma sort_insert_Permutation {A} (cmp : A → A → float) x l :
  sort_insert cmp x l ≡ₚ x :: l.
Proof.
  induction l as [|y l IH]; cbn; [done|].
  destruct (_ <? _)%float; [|done]. rewrite IH. apply Permutation_swap.
Qed.

Lemma Array_sort_Permutation {A} (cmp : A → A → float) l : Array_sort cmp l ≡ₚ l.
Proof.
  induction l as [|x l IH]; cbn; [done|].
  by rewrite sort_insert_Permutation, IH.
Qed.

(** C5.  At every point of a run and after it, the result set holds at most
    [keep_top] entries, and no two of them have values with the same
    17-digit key.  The invariant holds initially, each [considerValue]
    (the only step that changes the result set) keeps it, so it holds of the
    state in which a run ends or is stopped, whatever the clock reads, and of
    the list returned. *)
Theorem C5_topk_and_dedup P cfg :
  (0 ≤ cfg_keep_top cfg)%Z →
  ResultSet_inv cfg init_state ∧
  (∀ st v e, ResultSet_inv cfg st → ResultSet_inv cfg (considerValue cfg v e st).2) ∧
  (∀ n, ResultSet_inv cfg (run_levels P cfg n init_state).2 ∧
        (Z.of_nat (size (savedValues (run_levels P cfg n init_state).2))
         ≤ cfg_keep_top cfg)%Z) ∧
  (Z.of_nat (length (results (generateEnumerations P cfg))) ≤ cfg_keep_top cfg)%Z ∧
  NoDup (keys (results (generateEnumerations P cfg))).
Proof.
  intros HK. split_and!.
  - unfold ResultSet_inv, init_state, keys. cbn. split_and!; [done|constructor|set_solver].
  - intros st v e. by apply considerValue_inv.
  - intros n. pose proof (run_levels_inv P cfg n HK) as Hinv.
    split; [done|]. by apply ResultSet_inv_saved.
  - unfold generateEnumerations.
    pose proof (run_levels_inv P cfg (maxCost cfg) HK) as (Hsz & _ & _).
    destruct (run_levels _ _ _ _) as [r st]. cbn in *.
    by rewrite Array_sort_Permutation.
  - unfold generateEnumerations.
    pose proof (run_levels_inv P cfg (maxCost cfg) HK) as (_ & Hnd & _).
    destruct (run_levels _ _ _ _) as [r st]. cbn in *.
    unfold keys in *. by rewrite Array_sort_Permutation.
Qed.

(** ** The errors of the entries are numbers *)

Definition errors_ok (st : state) : Prop :=
  Forall (λ c, Dbl.is_error (c_err c)) (bestHeap st).

Lemma leb_refl_error e : Dbl.is_error e → (e <=? e)%float = true.
Proof. intros [Hn _]. rewrite Dbl.leb_rk by done. apply Z.leb_refl. Qed.

Lemma leb_trans_error a b c :
  Dbl.is_error a → Dbl.is_error b → Dbl.is_error c →
  (a <=? b)%float = true → (b <=? c)%float = true → (a <=? c)%float = true.
Proof.
  intros [Ha _] [Hb _] [Hc _]. rewrite !Dbl.leb_rk by done.
  rewrite !Z.leb_le. lia.
Qed.

Lemma ltb_leb_error a b :
  Dbl.is_error a → Dbl.is_error b → (a <? b)%float = true → (a <=? b)%float = true.
Proof.
  intros [Ha _] [Hb _]. rewrite Dbl.ltb_rk, Dbl.leb_rk by done.
  rewrite Z.ltb_lt, Z.leb_le. lia.
Qed.

Lemma new_error_ok cfg v :
  is_nan (target cfg) = false → Num.isFiniteNumber v = true →
  Dbl.is_error (abs (target cfg - v)).
Proof. intros Ht Hv. apply Dbl.is_error_abs. by apply Dbl.sub_not_nan. Qed.

Lemma max_err_le_refl h :
  Forall (λ c, Dbl.is_error (c_err c)) h → max_err_le h h.
Proof.
  intros Hok c Hc. exists c. split; [done|]. apply leb_refl_error.
  by eapply (proj1 (Forall_forall _ _) Hok).
Qed.

Lemma max_err_le_trans h1 h2 h3 :
  Forall (λ c, Dbl.is_error (c_err c)) h1 →
  Forall (λ c, Dbl.is_error (c_err c)) h2 →
  Forall (λ c, Dbl.is_error (c_err c)) h3 →
  max_err_le h3 h2 → max_err_le h2 h1 → max_err_le h3 h1.
Proof.
  intros H1 H2 H3 H32 H21 c Hc.
  destruct (H32 c Hc) as (c2 & Hc2 & Hle2).
  destruct (H21 c2 Hc2) as (c1 & Hc1 & Hle1).
  exists c1. split; [done|].
  rewrite Forall_forall in H1, H2, H3.
  apply (leb_trans_error _ (c_err c2)); auto.
Qed.

(** What a step does to the result set of a search for a target that is a
    number: the errors stay numbers, and a full result set stays full while
    its worst error does not grow. *)
Definition improves (cfg : config) (st : state) (o : option exn) (st' : state) : Prop :=
  errors_ok st →
  errors_ok st' ∧
  (full cfg st → full cfg st' ∧ max_err_le (bestHeap st') (bestHeap st)).

Lemma improves_refl cfg st o : improves cfg st o st.
Proof. intros Hok. split; [done|]. intros Hf. split; [done|]. by apply max_err_le_refl. Qed.

Lemma improves_same cfg st o st' : same_results st st' → improves cfg st o st'.
Proof.
  intros [Hh Hs] Hok. unfold errors_ok, full in *. rewrite Hh.
  split; [done|]. intros Hf. split; [done|]. by apply max_err_le_refl.
Qed.

Lemma improves_seq cfg st1 st2 st3 o :
  improves cfg st1 None st2 → improves cfg st2 o st3 → improves cfg st1 o st3.
Proof.
  intros H12 H23 Hok1.
  destruct (H12 Hok1) as [Hok2 Hf12]. destruct (H23 Hok2) as [Hok3 Hf23].
  split; [done|]. intros Hf1.
  destruct (Hf12 Hf1) as [Hf2 Hle12]. destruct (Hf23 Hf2) as [Hf3 Hle23].
  split; [done|].
  by apply (max_err_le_trans (bestHeap st1) (bestHeap st2) (bestHeap st3)).
Qed.

Lemma considerValue_improves cfg v e st :
  is_nan (target cfg) = false →
  improves cfg st (outcome (considerValue cfg v e st).1) (considerValue cfg v e st).2.
Proof.
  intros Ht.
  destruct (considerValue_cases cfg v e st)
    as [-> | [-> | [(Hf & Hk & Hlt & ->) | [(w & rest & Hf & Hk & Hge & Hh & Hlt & ->) | (_ & _ & ->)]]]];
    cbn [fst snd]; try apply improves_refl; try (by apply improves_same).
  - (* pushed: the result set was not full *)
    intros Hok. unfold errors_ok, full in *. cbn [set_bestHeap bestHeap].
    split; [|lia].
    rewrite HeapFacts.push_Permutation. constructor; [|done]. by apply new_error_ok.
  - (* replaced: the new error is below that of the entry removed *)
    intros Hok. unfold errors_ok, full, BinaryHeap.size in *. cbn [set_bestHeap bestHeap].
    rewrite Hh in *. apply Forall_cons in Hok as [Hw Hrest].
    pose proof (new_error_ok cfg v Ht Hf) as Hnew.
    pose proof (HeapFacts.replace_Permutation cmp_err w rest
                  (Candidate (abs (target cfg - v)) v e)) as Hp.
    split; [rewrite Hp; by constructor|].
    intros _. split; [rewrite Hp; cbn [length] in *; lia|].
    intros c Hc. rewrite Hp in Hc.
    apply elem_of_cons in Hc as [->|Hc].
    + exists w. split; [left|]. cbn. by apply ltb_leb_error.
    + exists c. split; [by right|]. apply leb_refl_error.
      by eapply (proj1 (Forall_forall _ _) Hrest).
Qed.

Lemma level_improves P cfg cost st :
  is_nan (target cfg) = false → (1 ≤ cost)%Z →
  improves cfg st (outcome (level P cfg cost st).1) (level P cfg cost st).2.
Proof.
  intros Ht Hc.
  apply (sat_level P cfg (improves cfg)); try done.
  - intros. apply improves_refl.
  - intros. by eapply improves_seq.
  - intros st'. apply improves_same, timeCheck_same.
  - intros v e st'. by apply considerValue_improves.
  - intros c r st'. by apply improves_same.
  - intros st'. by apply improves_same.
  - intros p st'. by apply improves_same.
Qed.

Lemma run_levels_errors_ok P cfg n :
  is_nan (target cfg) = false → errors_ok (run_levels P cfg n init_state).2.
Proof.
  intros Ht.
  apply (sat_run_levels P cfg (improves cfg)); try done.
  - intros. apply improves_refl.
  - intros. by eapply improves_seq.
  - intros st'. apply improves_same, timeCheck_same.
  - intros v e st'. by apply considerValue_improves.
  - intros c r st'. by apply improves_same.
  - intros st'. by apply improves_same.
  - intros p st'. by apply improves_same.
  - constructor.
Qed.

Lemma foldM_app {A B} (f : B → A → M B) l1 l2 b st :
  foldM f (l1 ++ l2) b st = (b' ← foldM f l1 b; foldM f l2 b') st.
Proof.
  revert b st. induction l1 as [|x l1 IH]; intros b st; cbn [foldM app]; [done|].
  unfold mbind, M_bind in *. destruct (f b x st) as [[b'|e] st']; [apply IH|done].
Qed.

Lemma run_levels_succ P cfg k st :
  (0 ≤ k)%Z →
  run_levels P cfg (k + 1) st =
    (run_levels P cfg k ≫= λ _, level P cfg (k + 1)) st.
Proof.
  intros Hk. unfold run_levels.
  rewrite seqZ_app by lia. rewrite foldM_app.
  unfold mbind, M_bind. destruct (foldM _ (seqZ 1 k) tt st) as [[[]|e] st']; [|done].
  rewrite seqZ_cons, seqZ_nil by lia. cbn [foldM].
  replace (1 + k)%Z with (k + 1)%Z by lia.
  unfold mbind, M_bind. by destruct (level P cfg (k + 1) st') as [[[]|e] st''].
Qed.

(** C3 (amended).  When the target is a number and the result set is full at
    the end of level [k], the worst error retained at the end of level [k+1]
    is at most the worst error retained at the end of level [k]. *)
Theorem C3_worst_error_of_full_set P cfg k st_k st_k1 :
  is_nan (cfg_target cfg) = false →
  (0 ≤ k)%Z →
  run_levels P cfg k init_state = (Ok tt, st_k) →
  run_levels P cfg (k + 1) init_state = (Ok tt, st_k1) →
  full cfg st_k →
  max_err_le (bestHeap st_k1) (bestHeap st_k).
Proof.
  intros Ht Hk Hrk Hrk1 Hfull.
  pose proof (run_levels_errors_ok P cfg k Ht) as Hok. rewrite Hrk in Hok. cbn in Hok.
  rewrite run_levels_succ in Hrk1 by done.
  unfold mbind, M_bind in Hrk1. rewrite Hrk in Hrk1.
  pose proof (level_improves P cfg (k + 1) st_k Ht ltac:(lia)) as Himp.
  rewrite Hrk1 in Himp. cbn in Himp.
  by destruct (Himp Hok) as [_ [_ Hle]].
Qed.

(** ** The final sort *)

Lemma by_err_ltb a b :
  Dbl.is_error (c_err a) → Dbl.is_error (c_err b) →
  (by_err a b <? 0)%float = (Dbl.rk (c_err a) <? Dbl.rk (c_err b))%Z.
Proof. intros Ha Hb. unfold by_err. by apply Dbl.sub_ltb_0. Qed.

Lemma err_le_rk a b :
  Dbl.is_error (c_err a) → Dbl.is_error (c_err b) →
  err_le a b ↔ (Dbl.rk (c_err a) ≤ Dbl.rk (c_err b))%Z.
Proof.
  intros [Ha _] [Hb _]. unfold err_le. rewrite Dbl.leb_rk by done. apply Z.leb_le.
Qed.

Lemma sort_insert_sorted x l :
  Forall (λ c, Dbl.is_error (c_err c)) (x :: l) →
  StronglySorted err_le l → StronglySorted err_le (sort_insert by_err x l).
Proof.
  intros Hok Hs. apply Forall_cons in Hok as [Hx Hl].
  induction Hs as [|y l Hs IH Hy]; cbn [sort_insert].
  { repeat constructor. }
  apply Forall_cons in Hl as [Hy' Hl].
  rewrite by_err_ltb by done.
  destruct (_ <? _)%Z eqn:E.
  - apply Z.ltb_lt in E. constructor; [by apply IH|].
    rewrite sort_insert_Permutation. constructor; [|done].
    apply err_le_rk; [done..|lia].
  - apply Z.ltb_ge in E. constructor; [by constructor|].
    constructor; [apply err_le_rk; done|].
    rewrite Forall_forall in Hy, Hl |- *. intros z Hz.
    apply err_le_rk; [done|by apply Hl|].
    specialize (Hy z Hz). apply err_le_rk in Hy; [lia|done|by apply Hl].
Qed.

Lemma Array_sort_sorted l :
  Forall (λ c, Dbl.is_error (c_err c)) l → StronglySorted err_le (Array_sort by_err l).
Proof.
  induction l as [|x l IH]; intros Hok; cbn [Array_sort]; [constructor|].
  apply Forall_cons in Hok as [Hx Hl].
  apply sort_insert_sorted; [|by apply IH].
  constructor; [done|]. by rewrite Array_sort_Permutation.
Qed.

Lemma eqb_true_rk a e :
  is_nan a = false → (a =? e)%float = true → Dbl.rk a = Dbl.rk e.
Proof.
  intros Ha He. destruct (is_nan e) eqn:Hn.
  - apply Dbl.is_nan_spec in Hn. rewrite FloatAxioms.eqb_spec, Hn in He.
    unfold SFeqb in He. by destruct (Prim2SF a).
  - rewrite Dbl.eqb_rk in He by done. by apply Z.eqb_eq.
Qed.

Lemma sort_insert_of_error e x l :
  Forall (λ c, Dbl.is_error (c_err c)) (x :: l) →
  of_error e (sort_insert by_err x l) = of_error e (x :: l).
Proof.
  intros Hok. apply Forall_cons in Hok as [Hx Hl].
  induction l as [|y l IH]; cbn [sort_insert]; [done|].
  apply Forall_cons in Hl as [Hy Hl].
  rewrite by_err_ltb by done.
  destruct (_ <? _)%Z eqn:E; [|done].
  apply Z.ltb_lt in E. unfold of_error in *.
  rewrite (filter_cons _ y), IH by done. rewrite !filter_cons.
  repeat case_decide; try done.
  pose proof (eqb_true_rk _ _ (proj1 Hx) ltac:(eassumption)).
  pose proof (eqb_true_rk _ _ (proj1 Hy) ltac:(eassumption)). lia.
Qed.

Lemma Array_sort_of_error e l :
  Forall (λ c, Dbl.is_error (c_err c)) l →
  of_error e (Array_sort by_err l) = of_error e l.
Proof.
  induction l as [|x l IH]; intros Hok; cbn [Array_sort]; [done|].
  apply Forall_cons in Hok as [Hx Hl].
  rewrite sort_insert_of_error.
  - unfold of_error in *. rewrite !filter_cons, IH by done. done.
  - constructor; [done|]. by rewrite Array_sort_Permutation.
Qed.

(** C4 (amended).  For a target that is a number, the list returned holds the
    entries of the result set in ascending order of error, and the entries
    of one same error are in the order of the heap array: the sort compares
    errors only, and is stable. *)
Theorem C4_sorted_by_error_stable P cfg :
  is_nan (cfg_target cfg) = false →
  StronglySorted err_le (results (generateEnumerations P cfg)) ∧
  results (generateEnumerations P cfg)
    ≡ₚ bestHeap (run_levels P cfg (maxCost cfg) init_state).2 ∧
  ∀ e, of_error e (results (generateEnumerations P cfg)) =
       of_error e (bestHeap (run_levels P cfg (maxCost cfg) init_state).2).
Proof.
  intros Ht. pose proof (run_levels_errors_ok P cfg (maxCost cfg) Ht) as Hok.
  unfold generateEnumerations, errors_ok in *.
  destruct (run_levels _ _ _ _) as [r st]. cbn [snd results read_out] in *.
  split_and!.
  - by apply Array_sort_sorted.
  - apply Array_sort_Permutation.
  - intros e. by apply Array_sort_of_error.
Qed.

(** ** The time budget *)

Lemma timeCheck_unfold P cfg st :
  timeCheck P cfg st =
    if over_budget P cfg (readings st)
    then (Throw Timeout, set_stopped (incr_readings st))
    else (Ok tt, incr_readings st).
Proof.
  unfold timeCheck, over_budget, mbind, M_bind, nowSec. cbv beta iota.
  by destruct (_ <? _)%float.
Qed.

Lemma timeCheck_fires P cfg st :
  over_budget P cfg (readings st) = true →
  timeCheck P cfg st = (Throw Timeout, set_stopped (incr_readings st)).
Proof. intros H. by rewrite timeCheck_unfold, H. Qed.

Lemma timeCheck_passes P cfg st :
  over_budget P cfg (readings st) = false →
  timeCheck P cfg st = (Ok tt, incr_readings st).
Proof. intros H. by rewrite timeCheck_unfold, H. Qed.



(** ** Level 1 *)

Lemma ToInt32_small n : (- 2 ^ 31 ≤ n < 2 ^ 31)%Z → Num.ToInt32 n = n.
Proof.
  intros H. unfold Num.ToInt32. rewrite Z.land_ones by lia.
  rewrite Z.mod_small by lia. lia.
Qed.

(** What a step leaves of the flags and of the memo table. *)
Definition same_control (st st' : state) : Prop :=
  stopped st' = stopped st ∧ memo st' = memo st.

Lemma considerValue_returns cfg v e st :
  (1 ≤ keepTop cfg)%Z →
  ∃ st', considerValue cfg v e st = (Ok tt, st') ∧ same_control st st'.
Proof.
  intros HK.
  destruct (considerValue_cases cfg v e st)
    as [-> | [-> | [(_ & _ & _ & ->) | [(w & rest & _ & _ & _ & _ & _ & ->) | (_ & HK' & _)]]]];
    [eexists; split; [done|done] .. | lia].
Qed.

Lemma emit_returns cfg results v e st :
  (1 ≤ keepTop cfg)%Z →
  ∃ st', emit cfg results v e st = (Ok (results ++ [Item v e]), st') ∧
         same_control st st'.
Proof.
  intros HK. destruct (considerValue_returns cfg v e st HK) as (st' & Hc & Hs).
  exists st'. unfold emit, mbind, M_bind. by rewrite Hc.
Qed.

Lemma bind_unfold {A B} (m : M A) (f : A → M B) st :
  (m ≫= f) st =
    match m st with
    | (Ok a, st') => f a st'
    | (Throw e, st') => (Throw e, st')
    end.
Proof. reflexivity. Qed.

Section WithinBudget.
Variable P : Platform.
Variable cfg : config.
Hypothesis HK : (1 ≤ keepTop cfg)%Z.
Hypothesis Hbudget : ∀ i, over_budget P cfg i = false.

Lemma atoms_returned l acc st :
  Forall (λ n, - 2 ^ 31 ≤ n < 2 ^ 31)%Z l →
  ∃ st', foldM (atom_step P cfg) l acc st = (Ok (acc ++ (integer_atom <$> l)), st') ∧
         same_control st st'.
Proof.
  revert acc st. induction l as [|n l IH]; intros acc st Hl; cbn [foldM].
  { exists st. cbn. by rewrite app_nil_r. }
  apply Forall_cons in Hl as [Hn Hl].
  rewrite bind_unfold. unfold atom_step at 1.
  rewrite bind_unfold, timeCheck_passes by done.
  destruct (emit_returns cfg acc (Num.of_Z n) (pretty (Num.ToInt32 n)) (incr_readings st) HK)
    as (st1 & -> & Hs1 & Hm1).
  destruct (IH (acc ++ [Item (Num.of_Z n) (pretty (Num.ToInt32 n))]) st1 Hl)
    as (st2 & -> & Hs2 & Hm2).
  exists st2. rewrite ToInt32_small by done. cbn [fmap list_fmap].
  rewrite <- app_assoc. split; [done|]. cbn in Hs1, Hm1. split; congruence.
Qed.

Lemma constants_returned l acc st :
  ∃ st', foldM (const_step P cfg) l acc st = (Ok (acc ++ (constant_atom <$> l)), st') ∧
         same_control st st'.
Proof.
  revert acc st. induction l as [|c l IH]; intros acc st; cbn [foldM].
  { exists st. cbn. by rewrite app_nil_r. }
  rewrite bind_unfold. unfold const_step at 1.
  rewrite bind_unfold, timeCheck_passes by done.
  destruct (emit_returns cfg acc c.2 c.1 (incr_readings st) HK) as (st1 & -> & Hs1 & Hm1).
  destruct (IH (acc ++ [Item c.2 c.1]) st1) as (st2 & -> & Hs2 & Hm2).
  exists st2. cbn [fmap list_fmap]. rewrite <- app_assoc.
  split; [done|]. cbn in Hs1, Hm1. split; congruence.
Qed.

Lemma enumerateCost_1 depth st :
  (cfg_N cfg < 2 ^ 31)%Z → stopped st = false → memo st !! 1%Z = None →
  ∃ st', enumerateCost P cfg (S depth) 1 st = (Ok (level_1 cfg), st') ∧
         memo st' = <[1%Z := level_1 cfg]> (memo st) ∧ stopped st' = false.
Proof.
  intros HN Hst Hmemo. cbn [enumerateCost].
  rewrite bind_unfold. unfold get_state. rewrite Hst, Hmemo.
  rewrite bind_unfold, timeCheck_passes by done.
  change (1 =? 1)%Z with true. cbv iota.
  rewrite bind_unfold.
  destruct (atoms_returned (numbers cfg) [] (incr_readings st)) as (st1 & -> & Hs1 & Hm1).
  { apply Forall_forall. intros n Hn%elem_of_seqZ. lia. }
  rewrite bind_unfold.
  destruct (constants_returned (constants cfg) ([] ++ (integer_atom <$> numbers cfg)) st1)
    as (st2 & -> & Hs2 & Hm2).
  rewrite bind_unfold. unfold modify, mret, M_ret.
  eexists. split; [done|]. cbn. split; [by rewrite Hm2, Hm1|]. by rewrite Hs2, Hs1.
Qed.

End WithinBudget.

(** ** How a run can end *)

(** The call stack is never exhausted: each level is entered with a depth
    equal to its cost. *)
Lemma run_levels_no_StackOverflow P cfg n st :
  (run_levels P cfg n st).1 ≠ Throw StackOverflow.
Proof.
  pose proof (sat_run_levels P cfg (λ _ o _, o ≠ Some StackOverflow)) as H.
  assert (outcome (run_levels P cfg n st).1 ≠ Some StackOverflow) as Ho.
  { apply H; clear H; try done.
    - intros st'. rewrite timeCheck_unfold. by destruct (over_budget _ _ _).
    - intros v e st'.
      destruct (considerValue_cases cfg v e st')
        as [-> | [-> | [(_ & _ & _ & ->) | [(w & rest & _ & _ & _ & _ & _ & ->) | (_ & _ & ->)]]]];
        done. }
  intros E. rewrite E in Ho. done.
Qed.

(** With room for one entry at least, no [TypeError] arises either: a run
    completes or is stopped by the budget. *)
Lemma run_levels_outcome P cfg n st :
  (1 ≤ keepTop cfg)%Z →
  (run_levels P cfg n st).1 = Ok tt ∨ (run_levels P cfg n st).1 = Throw Timeout.
Proof.
  intros HK.
  pose proof (sat_run_levels P cfg (λ _ o _, o ≠ Some TypeError)) as H.
  assert (outcome (run_levels P cfg n st).1 ≠ Some TypeError) as Ho.
  { apply H; clear H; try done.
    - intros st'. rewrite timeCheck_unfold. by destruct (over_budget _ _ _).
    - intros v e st'. by destruct (considerValue_returns cfg v e st' HK) as (st'' & -> & _). }
  pose proof (run_levels_no_StackOverflow P cfg n st) as Hs.
  destruct (run_levels P cfg n st).1 as [[]|[]]; cbn in *; auto; done.
Qed.

(** ** The top of the heap is the worst entry *)

Lemma cmp_err_key x y :
  Dbl.is_error (c_err x) → Dbl.is_error (c_err y) →
  (0 <? cmp_err x y)%Z = (Dbl.rk (c_err y) <? Dbl.rk (c_err x))%Z.
Proof.
  intros [Hx _] [Hy _]. unfold cmp_err. rewrite !Dbl.ltb_rk by done.
  destruct (Dbl.rk (c_err x) <? Dbl.rk (c_err y))%Z eqn:E1;
    destruct (Dbl.rk (c_err y) <? Dbl.rk (c_err x))%Z eqn:E2; try done.
  apply Z.ltb_lt in E1, E2. lia.
Qed.

Definition heap_ok (st : state) : Prop :=
  errors_ok st ∧
  HeapFacts.heap_ordered (λ c, Dbl.rk (c_err c)) (bestHeap st).

Lemma considerValue_heap_ok cfg v e st :
  is_nan (target cfg) = false →
  heap_ok st → heap_ok (considerValue cfg v e st).2.
Proof.
  intros Ht [Hok Ho].
  destruct (considerValue_cases cfg v e st)
    as [-> | [-> | [(Hf & Hk & Hlt & ->) | [(w & rest & Hf & Hk & Hge & Hh & Hlt & ->) | (_ & _ & ->)]]]];
    cbn [snd]; try done.
  - pose proof (new_error_ok cfg v Ht Hf) as Hnew.
    unfold heap_ok, errors_ok in *. cbn [set_bestHeap bestHeap]. split.
    + rewrite HeapFacts.push_Permutation. by constructor.
    + eapply HeapFacts.push_ordered; [apply cmp_err_key| |done]. by constructor.
  - pose proof (new_error_ok cfg v Ht Hf) as Hnew.
    unfold heap_ok, errors_ok in *. cbn [set_bestHeap bestHeap].
    rewrite Hh in *. apply Forall_cons in Hok as [Hw Hrest]. split.
    + rewrite HeapFacts.replace_Permutation. by constructor.
    + eapply HeapFacts.replace_ordered; [apply cmp_err_key| |done]. by constructor.
Qed.

Lemma bestHeap_top_is_worst P cfg n t c :
  is_nan (target cfg) = false →
  BinaryHeap.peek (bestHeap (run_levels P cfg n init_state).2) = Some t →
  c ∈ bestHeap (run_levels P cfg n init_state).2 →
  (c_err c <=? c_err t)%float = true.
Proof.
  intros Ht Hp Hc.
  assert (heap_ok (run_levels P cfg n init_state).2) as [Hok Ho].
  { pose proof (sat_run_levels P cfg (λ st _ st', heap_ok st → heap_ok st')) as H.
    apply H; clear H.
    - done.
    - intros st1 st2 st3 o H1 H2 H. auto.
    - intros st. destruct (timeCheck_same P cfg st) as [Hh _].
      unfold heap_ok, errors_ok. by rewrite Hh.
    - intros v e st. by apply considerValue_heap_ok.
    - by intros c0 r st.
    - by intros st.
    - by intros p st.
    - split; [constructor|]. intros p c' _ x y Hx. done. }
  apply list_elem_of_lookup in Hc as [j Hj].
  pose proof (HeapFacts.heap_ordered_top _ _ t Ho Hp j c Hj) as Hle.
  unfold errors_ok in Hok. rewrite Forall_forall in Hok.
  rewrite Dbl.leb_rk.
  - by apply Z.leb_le.
  - apply Hok. by eapply list_elem_of_lookup_2.
  - apply Hok. by eapply list_elem_of_lookup_2.
Qed.

(** ** A level of the memo table, once computed, stays *)

(** The entry of cost [c], when there is one, is kept. *)
Definition keeps_memo (c : Z) (st : state) (o : option exn) (st' : state) : Prop :=
  ∀ x, memo st !! c = Some x → memo st' !! c = Some x.

Lemma keeps_memo_same c st o st' : memo st' = memo st → keeps_memo c st o st'.
Proof. intros H x. by rewrite H. Qed.

Lemma considerValue_memo cfg v e st : memo (considerValue cfg v e st).2 = memo st.
Proof.
  destruct (considerValue_cases cfg v e st)
    as [-> | [-> | [(_ & _ & _ & ->) | [(w & rest & _ & _ & _ & _ & _ & ->) | (_ & _ & ->)]]]];
    done.
Qed.

Lemma timeCheck_memo P cfg st : memo (timeCheck P cfg st).2 = memo st.
Proof. rewrite timeCheck_unfold. by destruct (over_budget _ _ _). Qed.

Lemma enumerateCost_keeps_memo P cfg c depth cost :
  sat (keeps_memo c) (enumerateCost P cfg depth cost).
Proof.
  assert (∀ st, keeps_memo c st None st) as Hret by (by intros st x).
  assert (∀ st1 st2 st3 o, keeps_memo c st1 None st2 → keeps_memo c st2 o st3 →
                           keeps_memo c st1 o st3) as Hseq
    by (intros st1 st2 st3 o H1 H2 x Hx; auto).
  assert (sat (keeps_memo c) (timeCheck P cfg)) as Htc
    by (intros st; apply keeps_memo_same, timeCheck_memo).
  assert (∀ v e, sat (keeps_memo c) (considerValue cfg v e)) as Hcv
    by (intros v e st; apply keeps_memo_same, considerValue_memo).
  revert cost. induction depth as [|depth IH]; intros cost st; [apply Hret|].
  cbn [enumerateCost]. rewrite bind_unfold. unfold get_state.
  destruct (stopped st); [apply Hret|].
  destruct (memo st !! cost) as [r|] eqn:Hm; [apply Hret|].
  destruct (decide (cost = c)) as [->|Hne].
  { (* the entry of cost [c] is computed now: there was none *)
    intros x Hx. congruence. }
  assert (∀ r, sat (keeps_memo c) (modify (memo_set cost r))) as Hset.
  { intros r st' x Hx. cbn. by rewrite lookup_insert_ne. }
  clear Hm. revert st. apply (sat_bind (keeps_memo c) Hseq); [exact Htc|]. intros _.
  destruct (cost =? 1)%Z.
  - apply (sat_bind _ Hseq);
      [apply (sat_foldM _ Hret Hseq); intros; by apply sat_atom_step|]. intros r1.
    apply (sat_bind _ Hseq);
      [apply (sat_foldM _ Hret Hseq); intros; by apply sat_const_step|]. intros r2.
    apply (sat_bind _ Hseq); [apply Hset|]. intros _. by apply sat_ret.
  - apply (sat_bind _ Hseq); [apply IH|]. intros prev.
    apply (sat_bind _ Hseq);
      [apply (sat_foldM _ Hret Hseq); intros; by apply sat_unary_expand|]. intros r1.
    apply (sat_bind _ Hseq).
    + apply (sat_foldM _ Hret Hseq). intros r a_cost _.
      apply (sat_bind _ Hseq); [apply IH|]. intros leftArr.
      apply (sat_bind _ Hseq); [apply IH|]. intros rightArr.
      apply (sat_foldM _ Hret Hseq). intros. by apply sat_left_step.
    + intros r2. apply (sat_bind _ Hseq); [apply Hset|]. intros _. by apply sat_ret.
Qed.

Lemma level_keeps_memo P cfg c cost : sat (keeps_memo c) (level P cfg cost).
Proof.
  assert (∀ st, keeps_memo c st None st) as Hret by (by intros st x).
  assert (∀ st1 st2 st3 o, keeps_memo c st1 None st2 → keeps_memo c st2 o st3 →
                           keeps_memo c st1 o st3) as Hseq
    by (intros st1 st2 st3 o H1 H2 x Hx; auto).
  unfold level.
  apply (sat_bind _ Hseq); [intros st; apply keeps_memo_same, timeCheck_memo|]. intros _.
  apply (sat_bind _ Hseq); [apply enumerateCost_keeps_memo|]. intros _.
  apply (sat_bind _ Hseq); [intros st; by apply keeps_memo_same|]. intros t.
  apply (sat_bind _ Hseq); [apply (sat_get_state _ Hret)|]. intros st0.
  intros st; by apply keeps_memo_same.
Qed.

(** With room for one entry and no poll over the budget, a run completes its
    levels. *)
Lemma run_levels_completes P cfg n st :
  (1 ≤ keepTop cfg)%Z → (∀ i, over_budget P cfg i = false) →
  (run_levels P cfg n st).1 = Ok tt.
Proof.
  intros HK Hb.
  destruct (run_levels_outcome P cfg n st HK) as [H|H]; [done|].
  pose proof (sat_run_levels P cfg (λ _ o _, o ≠ Some Timeout)) as Hs.
  assert (outcome (run_levels P cfg n st).1 ≠ Some Timeout) as Ho.
  { apply Hs; clear Hs; try done.
    - intros st'. by rewrite timeCheck_passes.
    - intros v e st'. by destruct (considerValue_returns cfg v e st' HK) as (st'' & -> & _). }
  by rewrite H in Ho.
Qed.

(** C9.  For a count of integer atoms below 2^31, a result set of at least
    one entry and a time budget that is not exceeded, the first level ends
    with the memo table holding, at cost 1, the integers 1..N under their
    decimal literals followed by the named constants under their names, and
    nothing else; and the entry is the same at the end of every later
    level. *)
Theorem C9_level_1 P cfg :
  (1 ≤ cfg_keep_top cfg)%Z →
  (cfg_N cfg < 2 ^ 31)%Z →
  (∀ i, over_budget P cfg i = false) →
  (∃ st, run_levels P cfg 1 init_state = (Ok tt, st) ∧
         memo st = {[1%Z := level_1 cfg]}) ∧
  (∀ n, (1 ≤ n)%Z →
        ∃ st, run_levels P cfg n init_state = (Ok tt, st) ∧
              memo st !! 1%Z = Some (level_1 cfg)).
Proof.
  intros HK HN Hb.
  assert (∃ st, level P cfg 1 init_state = (Ok tt, st) ∧
                memo st = {[1%Z := level_1 cfg]}) as (st1 & Hl1 & Hm1).
  { unfold level. rewrite bind_unfold, timeCheck_passes by done.
    rewrite bind_unfold.
    destruct (enumerateCost_1 P cfg HK Hb 0 (incr_readings init_state) HN eq_refl)
      as (st1 & Hrun & Hm & Hs); [done|].
    change (Z.to_nat 1) with 1. rewrite Hrun.
    rewrite !bind_unfold. unfold nowSec, get_state, modify, mret, M_ret.
    eexists. split; [done|]. cbn. rewrite Hm. cbn. by rewrite insert_empty. }
  split.
  - exists st1. unfold run_levels. change (seqZ 1 1) with [1%Z]. cbn [foldM].
    rewrite bind_unfold, Hl1. done.
  - intros n Hn.
    pose proof (run_levels_completes P cfg n init_state HK Hb) as Hok.
    destruct (run_levels P cfg n init_state) as [r st] eqn:Hrun. cbn in Hok. subst r.
    exists st. split; [done|].
    unfold run_levels in Hrun. rewrite seqZ_cons in Hrun by lia. cbn [foldM] in Hrun.
    rewrite bind_unfold, Hl1 in Hrun.
    assert (sat (keeps_memo 1) (foldM (λ _ cost, level P cfg cost)
                                       (seqZ (Z.succ 1) (Z.pred n)) tt)) as Hs.
    { apply sat_foldM; [by intros s x|by intros s1 s2 s3 o H1 H2 x Hx; auto|].
      intros [] cost _. apply level_keeps_memo. }
    specialize (Hs st1 (level_1 cfg)). rewrite Hrun in Hs. cbn in Hs.
    apply Hs. rewrite Hm1. apply lookup_singleton_eq.
Qed.

(** When the first poll already reads a time over the budget, the search
    stops before the first atom and returns an empty list. *)
Lemma first_poll_over_budget P cfg :
  (1 ≤ maxCost cfg)%Z → over_budget P cfg 1 = true →
  generateEnumerations P cfg = Output [] 0 (Z.min (maxCost cfg) 0) None.
Proof.
  intros Hc Hb. unfold generateEnumerations, run_levels.
  rewrite seqZ_cons by lia. cbn [foldM]. rewrite bind_unfold.
  unfold level. rewrite bind_unfold, timeCheck_fires by done.
  reflexivity.
Qed.

(** ** Combining two expressions *)







(** ** The numeric evaluator *)

Lemma is_finite_nan : is_finite nan = false.
Proof. reflexivity. Qed.

Lemma safeEvalFunc_cases f x :
  (is_finite (f x) = true ∧ safeEvalFunc f x = f x) ∨
  (is_finite (f x) = false ∧ safeEvalFunc f x = nan).
Proof.
  unfold safeEvalFunc, Num.isFiniteNumber. destruct (is_finite (f x)); [by left|by right].
Qed.

Lemma safeEvalBin_cases op a b :
  (is_finite (op a b) = true ∧ safeEvalBin op a b = op a b) ∨
  (is_finite (op a b) = false ∧ safeEvalBin op a b = nan).
Proof.
  unfold safeEvalBin, Num.isFiniteNumber. destruct (is_finite (op a b)); [by left|by right].
Qed.

Lemma safeEvalFunc_invalid f x :
  safeEvalFunc f x = nan ↔ is_finite (f x) = false.
Proof.
  destruct (safeEvalFunc_cases f x) as [[Hf ->]|[Hf ->]]; [|done].
  split; [|congruence]. intros E. rewrite E, is_finite_nan in Hf. done.
Qed.

Lemma safeEvalBin_invalid op a b :
  safeEvalBin op a b = nan ↔ is_finite (op a b) = false.
Proof.
  destruct (safeEvalBin_cases op a b) as [[Hf ->]|[Hf ->]]; [|done].
  split; [|congruence]. intros E. rewrite E, is_finite_nan in Hf. done.
Qed.

Lemma unaryFuncs_entry P cfg fname f :
  (fname, f) ∈ unaryFuncs P cfg →
  (fname = "sin" ∧ f = Math_sin P) ∨ (fname = "cos" ∧ f = Math_cos P) ∨
  (fname = "tan" ∧ f = Math_tan P) ∨ (fname = "exp" ∧ f = Math_exp P) ∨
  (fname = "ln" ∧ f = λ x, if (0 <? x)%float then Math_log P x else nan) ∨
  (fname = "sqrt" ∧ f = λ x, if (0 <=? x)%float then Math_sqrt P x else nan) ∨
  (fname = "-" ∧ f = λ x, (- x)%float).
Proof.
  intros H. unfold unaryFuncs in H.
  repeat (apply elem_of_app in H as [H|H]);
    repeat match type of H with
           | context [if ?b then _ else _] => destruct b
           end;
    try (by apply elem_of_nil in H);
    apply list_elem_of_singleton in H; simplify_eq; tauto.
Qed.

Lemma binaryOps_entry P cfg opname op :
  (opname, op) ∈ binaryOps P cfg →
  (opname = "+" ∧ op = PrimFloat.add) ∨ (opname = "-" ∧ op = PrimFloat.sub) ∨
  (opname = "*" ∧ op = PrimFloat.mul) ∨
  (opname = "/" ∧ op = λ a b, if (b =? 0)%float then nan else (a / b)%float) ∨
  (opname = "^" ∧ op = safePow P).
Proof.
  intros H. unfold binaryOps in H.
  apply elem_of_app in H as [H|H].
  - repeat (apply elem_of_cons in H as [H|H]); try (by apply elem_of_nil in H);
      simplify_eq; tauto.
  - destruct (cfg_use_pow cfg); [|by apply elem_of_nil in H].
    apply list_elem_of_singleton in H. simplify_eq. tauto.
Qed.

Lemma safePow_cases P a b :
  safePow P a b = nan ∨
  (is_finite (safePow P a b) = true ∧ safePow P a b = pow_called P a b).
Proof.
  unfold safePow, pow_called, Num.isFiniteNumber.
  destruct (negb (is_finite a) || negb (is_finite b)); [by left|].
  destruct (a <? 0)%float.
  - destruct (1e-9 <? _)%float; [by left|].
    destruct (is_finite (Math_pow P a (Num.Math_round b))) eqn:E; cbn [negb orb]; [|by left].
    destruct (1e300 <? _)%float; [by left|by right].
  - destruct (is_finite (Math_pow P a b)) eqn:E; cbn [negb orb]; [|by left].
    destruct (1e300 <? _)%float; [by left|by right].
Qed.

Lemma safeEvalBin_safePow P a b : safeEvalBin (safePow P) a b = safePow P a b.
Proof.
  destruct (safeEvalBin_cases (safePow P) a b) as [[_ ->]|[Hf ->]]; [done|].
  destruct (safePow_cases P a b) as [->|[Hf' _]]; [done|congruence].
Qed.

Lemma not_ltb_leb x y :
  is_nan x = false → is_nan y = false →
  (x <? y)%float = false ↔ (y <=? x)%float = true.
Proof.
  intros Hx Hy. rewrite Dbl.ltb_rk, Dbl.leb_rk by done.
  rewrite Z.ltb_ge, Z.leb_le. done.
Qed.

Lemma not_leb_ltb x y :
  is_nan x = false → is_nan y = false →
  (x <=? y)%float = false ↔ (y <? x)%float = true.
Proof.
  intros Hx Hy. rewrite Dbl.ltb_rk, Dbl.leb_rk by done.
  rewrite Z.leb_gt, Z.ltb_lt. done.
Qed.

(** C7.  The evaluator returns a finite double or NaN, the invalid sentinel.
    On finite operands: [ln x] is invalid exactly when [x <= 0], and
    [sqrt x] exactly when [x < 0] (the logarithm of a positive number and the
    square root of a non-negative one being finite); [a / b] is invalid
    exactly when [b] is zero or the quotient is not finite; [a ^ b] is
    invalid when [a] is negative and [b] is more than 1e-9 away from the
    nearest integer, and whenever the power computed is not finite or exceeds
    1e300 in magnitude; the other operators are invalid exactly when their
    result is not finite. *)
Theorem C7_numeric_evaluator P cfg :
  (∀ f x, safeEvalFunc f x = nan ∨ is_finite (safeEvalFunc f x) = true) ∧
  (∀ op a b, safeEvalBin op a b = nan ∨ is_finite (safeEvalBin op a b) = true) ∧
  (∀ f x, ("ln", f) ∈ unaryFuncs P cfg → is_finite x = true →
          ((0 <? x)%float = true → is_finite (Math_log P x) = true) →
          (safeEvalFunc f x = nan ↔ (x <=? 0)%float = true)) ∧
  (∀ f x, ("sqrt", f) ∈ unaryFuncs P cfg → is_finite x = true →
          ((0 <=? x)%float = true → is_finite (Math_sqrt P x) = true) →
          (safeEvalFunc f x = nan ↔ (x <? 0)%float = true)) ∧
  (∀ op a b, ("/", op) ∈ binaryOps P cfg →
             (safeEvalBin op a b = nan ↔
              (b =? 0)%float = true ∨ is_finite (a / b) = false)) ∧
  (∀ op a b, ("^", op) ∈ binaryOps P cfg →
             is_finite a = true → is_finite b = true →
             ((a <? 0)%float = true →
              (1e-9 <? abs (b - Num.Math_round b))%float = true →
              safeEvalBin op a b = nan) ∧
             (is_finite (pow_called P a b) = false ∨
              (1e300 <? abs (pow_called P a b))%float = true →
              safeEvalBin op a b = nan)) ∧
  (∀ f x, (("sin", f) ∈ unaryFuncs P cfg →
           (safeEvalFunc f x = nan ↔ is_finite (Math_sin P x) = false)) ∧
          (("cos", f) ∈ unaryFuncs P cfg →
           (safeEvalFunc f x = nan ↔ is_finite (Math_cos P x) = false)) ∧
          (("tan", f) ∈ unaryFuncs P cfg →
           (safeEvalFunc f x = nan ↔ is_finite (Math_tan P x) = false)) ∧
          (("exp", f) ∈ unaryFuncs P cfg →
           (safeEvalFunc f x = nan ↔ is_finite (Math_exp P x) = false)) ∧
          (("-", f) ∈ unaryFuncs P cfg →
           (safeEvalFunc f x = nan ↔ is_finite (- x) = false))) ∧
  (∀ op a b, (("+", op) ∈ binaryOps P cfg →
              (safeEvalBin op a b = nan ↔ is_finite (a + b) = false)) ∧
             (("-", op) ∈ binaryOps P cfg →
              (safeEvalBin op a b = nan ↔ is_finite (a - b) = false)) ∧
             (("*", op) ∈ binaryOps P cfg →
              (safeEvalBin op a b = nan ↔ is_finite (a * b) = false))).
Proof.
  split_and!.
  - intros f x. destruct (safeEvalFunc_cases f x) as [[H ->]|[_ ->]]; auto.
  - intros op a b. destruct (safeEvalBin_cases op a b) as [[H ->]|[_ ->]]; auto.
  - intros f x Hin Hx Hlog.
    apply unaryFuncs_entry in Hin as [[? _]|[[? _]|[[? _]|[[? _]|[[_ ->]|[[? _]|[? _]]]]]]];
      try discriminate.
    rewrite safeEvalFunc_invalid.
    rewrite <- (not_ltb_leb 0 x) by (by rewrite ?Dbl.is_finite_not_nan).
    destruct (0 <? x)%float; [|done]. rewrite Hlog by done. done.
  - intros f x Hin Hx Hsqrt.
    apply unaryFuncs_entry in Hin as [[? _]|[[? _]|[[? _]|[[? _]|[[? _]|[[_ ->]|[? _]]]]]]];
      try discriminate.
    rewrite safeEvalFunc_invalid.
    rewrite <- (not_leb_ltb 0 x) by (by rewrite ?Dbl.is_finite_not_nan).
    destruct (0 <=? x)%float; [|done]. rewrite Hsqrt by done. done.
  - intros op a b Hin.
    apply binaryOps_entry in Hin as [[? _]|[[? _]|[[? _]|[[_ ->]|[? _]]]]]; try discriminate.
    rewrite safeEvalBin_invalid.
    destruct (b =? 0)%float; [by split; [left|]|].
    split; [by right|]. by intros [?|?].
  - intros op a b Hin Ha Hb.
    apply binaryOps_entry in Hin as [[? _]|[[? _]|[[? _]|[[? _]|[_ ->]]]]]; try discriminate.
    rewrite safeEvalBin_safePow. unfold safePow, pow_called, Num.isFiniteNumber.
    rewrite Ha, Hb. cbn [negb orb]. split.
    + intros -> ->. done.
    + destruct (a <? 0)%float.
      * destruct (1e-9 <? _)%float; [done|]. intros [->| ->]; [done|].
        by rewrite orb_true_r.
      * intros [->| ->]; [done|]. by rewrite orb_true_r.
  - intros f x. split_and!; intros Hin;
      apply unaryFuncs_entry in Hin as [[? E]|[[? E]|[[? E]|[[? E]|[[? E]|[[? E]|[? E]]]]]]];
      try discriminate; subst f; apply safeEvalFunc_invalid.
  - intros op a b. split_and!; intros Hin;
      apply binaryOps_entry in Hin as [[? E]|[[? E]|[[? E]|[[? E]|[? E]]]]];
      try discriminate; subst op; apply safeEvalBin_invalid.
Qed.

(** C10.  For a negative base [a] and a finite exponent [b] that is not more
    than 1e-9 away from the nearest integer, [safePow] computes
    [Math.pow(a, Math.round(b))], the exponent rounded, and not
    [Math.pow(a, b)]; the result is that power when it is finite and at most
    1e300 in magnitude, and NaN otherwise. *)
Theorem C10_negative_base_rounds_exponent P a b :
  is_finite a = true → is_finite b = true → (a <? 0)%float = true →
  (1e-9 <? abs (b - Num.Math_round b))%float = false →
  safePow P a b =
    if negb (is_finite (Math_pow P a (Num.Math_round b))) ||
       (1e300 <? abs (Math_pow P a (Num.Math_round b)))%float
    then nan else Math_pow P a (Num.Math_round b).
Proof.
  intros Ha Hb Hneg Hnear. unfold safePow, Num.isFiniteNumber.
  by rewrite Ha, Hb, Hneg, Hnear.
Qed.

(** ** Texts *)

Lemma string_app_assoc (s1 s2 s3 : string) : (s1 +:+ s2) +:+ s3 = s1 +:+ (s2 +:+ s3).
Proof.
  induction s1 as [|a s1 IH]; [reflexivity|].
  change (String a ((s1 +:+ s2) +:+ s3) = String a (s1 +:+ (s2 +:+ s3))).
  by rewrite IH.
Qed.

Lemma string_app_nil_r (s : string) : s +:+ "" = s.
Proof.
  induction s as [|a s IH]; [reflexivity|].
  change (String a (s +:+ "") = String a s). by rewrite IH.
Qed.

Lemma rev_app_app s1 s2 : String.rev_app s1 s2 = String.rev s1 +:+ s2.
Proof.
  unfold String.rev. revert s2.
  induction s1 as [|a s1 IH]; intros s2; cbn [String.rev_app]; [done|].
  rewrite (IH (String a s2)), (IH (String a "")).
  by rewrite string_app_assoc.
Qed.

Lemma rev_String a s : String.rev (String a s) = String.rev s +:+ String a "".
Proof. unfold String.rev at 1. cbn [String.rev_app]. apply rev_app_app. Qed.

Lemma rev_append s1 s2 : String.rev (s1 +:+ s2) = String.rev s2 +:+ String.rev s1.
Proof.
  induction s1 as [|a s1 IH].
  - change ("" +:+ s2) with s2. change (String.rev "") with "".
    by rewrite string_app_nil_r.
  - change (String a s1 +:+ s2) with (String a (s1 +:+ s2)).
    by rewrite !rev_String, IH, string_app_assoc.
Qed.

Lemma rev_involutive s : String.rev (String.rev s) = s.
Proof.
  induction s as [|a s IH]; [done|].
  by rewrite rev_String, rev_append, IH.
Qed.

Lemma length_append s1 s2 :
  String.length (s1 +:+ s2) = String.length s1 + String.length s2.
Proof.
  induction s1 as [|a s1 IH]; [reflexivity|].
  change (S (String.length (s1 +:+ s2)) = S (String.length s1 + String.length s2)).
  by rewrite IH.
Qed.

Lemma substring_append s1 s2 :
  String.substring 0 (String.length s1) (s1 +:+ s2) = s1.
Proof.
  induction s1 as [|a s1 IH]; [by destruct s2|].
  change (String a (String.substring 0 (String.length s1) (s1 +:+ s2)) = String a s1).
  by rewrite IH.
Qed.

Lemma prefix_append s1 s2 : String.prefix s1 (s1 +:+ s2) = true.
Proof. apply String.prefix_correct, substring_append. Qed.

(** A text that ends with a closing parenthesis. *)
Lemma endsWith_paren s : Str.endsWith (s +:+ ")") ")" = true.
Proof. unfold Str.endsWith. rewrite rev_append. apply prefix_append. Qed.

Lemma trimEnd_paren s : Str.trimEnd (s +:+ ")") = s +:+ ")".
Proof.
  unfold Str.trimEnd. rewrite rev_append.
  change (String.rev ")" +:+ String.rev s) with (String ")" (String.rev s)).
  change (Str.trimStart (String ")" (String.rev s))) with (String ")" (String.rev s)).
  by rewrite rev_String, rev_involutive.
Qed.

(** The first character of a function name: not a white space, not an opening
    parenthesis, not a minus sign. *)
Definition name_start (c : ascii) : Prop :=
  Str.is_ws c = false ∧ c ≠ "("%char ∧ c ≠ "-"%char.

Lemma trimStart_nonws c s :
  Str.is_ws c = false → Str.trimStart (String c s) = String c s.
Proof. intros H. cbn [Str.trimStart]. by rewrite H. Qed.

Lemma trim_call c f x :
  Str.is_ws c = false →
  Str.trim (String c f +:+ "(" +:+ x +:+ ")") = String c f +:+ "(" +:+ x +:+ ")".
Proof.
  intros Hc. unfold Str.trim.
  change (String c f +:+ "(" +:+ x +:+ ")") with (String c (f +:+ "(" +:+ x +:+ ")")).
  rewrite trimStart_nonws by done.
  change (String c (f +:+ "(" +:+ x +:+ ")")) with (String c f +:+ "(" +:+ x +:+ ")").
  rewrite <- !string_app_assoc. apply trimEnd_paren.
Qed.

Lemma startsWith_other c f r d p :
  c ≠ d → Str.startsWith (String c f +:+ r) (String d p) = false.
Proof.
  intros Hne. unfold Str.startsWith.
  change (String c f +:+ r) with (String c (f +:+ r)).
  cbn [String.prefix]. by destruct (ascii_dec d c) as [->|?].
Qed.

Lemma call_matches (fname x : string) :
  Str.startsWith (fname +:+ "(" +:+ x +:+ ")") (fname +:+ "(") &&
  Str.endsWith (fname +:+ "(" +:+ x +:+ ")") ")" = true.
Proof.
  apply andb_true_iff. split.
  - unfold Str.startsWith. rewrite <- (string_app_assoc fname "(").
    apply prefix_append.
  - rewrite <- !string_app_assoc. apply endsWith_paren.
Qed.

Lemma is_direct_application_call c f x :
  name_start c →
  is_direct_application (String c f +:+ "(" +:+ x +:+ ")") (String c f) = true.
Proof.
  intros (Hws & Hp & Hm). unfold is_direct_application.
  change (Str.truthy (String c f +:+ "(" +:+ x +:+ ")")) with true. cbn [negb].
  rewrite trim_call by done.
  rewrite (startsWith_other c f _ "(" "") by done. cbn [andb].
  rewrite (startsWith_other c f _ "-" "(") by done. cbn [andb].
  apply call_matches.
Qed.

Lemma is_direct_application_negated c f x :
  name_start c →
  is_direct_application ("-(" +:+ (String c f +:+ "(" +:+ x +:+ ")") +:+ ")") (String c f) = true.
Proof.
  intros Hc. pose proof Hc as (Hws & Hp & Hm).
  pose proof (call_matches (String c f) x) as H.
  pose proof (trim_call c f x Hws) as Ht.
  assert (Str.truthy (String c f +:+ "(" +:+ x +:+ ")") = true) as Htr by done.
  revert H Ht Htr. generalize (String c f +:+ "(" +:+ x +:+ ")"). intros t H Ht Htr.
  assert (Str.trim ("-(" +:+ t +:+ ")") = "-(" +:+ t +:+ ")") as Htrim.
  { unfold Str.trim.
    change ("-(" +:+ t +:+ ")") with (String "-" ("(" +:+ t +:+ ")")).
    rewrite trimStart_nonws by done.
    change (String "-" ("(" +:+ t +:+ ")")) with ("-(" +:+ t +:+ ")").
    rewrite <- string_app_assoc. apply trimEnd_paren. }
  assert (Str.slice_to_last 2 ("-(" +:+ t +:+ ")") = t) as Hslice.
  { unfold Str.slice_to_last. rewrite !length_append.
    change (String.length "-(") with 2. change (String.length ")") with 1.
    replace (2 + (String.length t + 1) - 1 - 2) with (String.length t) by lia.
    change (String.substring 2 (String.length t) ("-(" +:+ t +:+ ")"))
      with (String.substring 0 (String.length t) (t +:+ ")")).
    apply substring_append. }
  unfold is_direct_application.
  change (Str.truthy ("-(" +:+ t +:+ ")")) with true. cbn [negb].
  rewrite Htrim.
  change (Str.startsWith ("-(" +:+ t +:+ ")") "(") with false. cbn [andb].
  assert (Str.startsWith ("-(" +:+ t +:+ ")") "-(" = true) as ->
    by apply (prefix_append "-(" (t +:+ ")")).
  rewrite <- (string_app_assoc "-(" t ")"), endsWith_paren. cbn [andb].
  rewrite (string_app_assoc "-(" t ")"), Hslice, Ht, Htr.
  exact H.
Qed.

(** ** Unary expansion *)

Lemma unary_step_returns cfg it results fname f st :
  (1 ≤ keepTop cfg)%Z →
  ∃ st', unary_step cfg it results (fname, f) st =
           (Ok (results ++
                if cancelled fname (it_expr it) then []
                else [Item (safeEvalFunc f (it_v it)) (unary_text fname (it_expr it))]),
            st').
Proof.
  intros HK. unfold unary_step, cancelled.
  destruct (String.eqb fname "ln" && _).
  { exists st. cbn. by rewrite app_nil_r. }
  destruct (String.eqb fname "exp" && _).
  { exists st. cbn. by rewrite app_nil_r. }
  cbn [orb].
  destruct (emit_returns cfg results (safeEvalFunc f (it_v it))
              (unary_text fname (it_expr it)) st HK) as (st' & -> & _).
  by exists st'.
Qed.

(** ** The claims on concrete runs *)

(** C1 (the code violates it).  With the atom 1 and a constant [t = 1e-13],
    within [epsilon = 1e-12] of zero, the search up to cost 3 returns the
    expression [(1 - t)]: the identity elimination tests the right operand
    [R] of a pair only, and the combination in the reverse order, [(R - L)],
    subtracts the operand [L] that was not tested. *)
Theorem C1_near_zero_subtraction_retained :
  (abs 1e-13 <=? epsilon cfg_tiny)%float = true ∧
  Candidate 0%float 0.99999999999989997%float (binary_text "1" "-" "t")
    ∈ results (generateEnumerations still_platform cfg_tiny).
Proof.
  split; [reflexivity|].
  assert (results (generateEnumerations still_platform cfg_tiny) !! 0%nat =
          Some (Candidate 0%float 0.99999999999989997%float (binary_text "1" "-" "t")))
    as H by (vm_compute; reflexivity).
  by eapply list_elem_of_lookup_2.
Qed.

(** C2, counterexample.  The text [-(exp(1))], the negation of an
    application of [exp], is not an application of [exp]; yet the test holds
    of it and [ln] is skipped over it, in every state. *)
Lemma C2_ln_skipped_over_negation :
  unary_text "-" (unary_text "exp" "1") = "-(exp(1))" ∧
  (∀ x, "-(exp(1))" ≠ unary_text "exp" x) ∧
  is_direct_application "-(exp(1))" "exp" = true ∧
  ∀ cfg v results f st,
    unary_step cfg (Item v "-(exp(1))") results ("ln", f) st = (Ok results, st).
Proof.
  split_and!; [reflexivity|by intros x|reflexivity|by intros].
Qed.

(** C3, counterexample.  With room for ten entries, the atom 1, the negation
    and the target 1, level 1 ends with the worst error 0 (of [1]) and level
    2 with the worst error 2 (of [-(1)]): the worst error grows while the
    result set is not full. *)
Lemma C3_worst_error_grows :
  (run_levels still_platform (cfg_neg 1 1 10) 1 init_state).1 = Ok tt ∧
  (run_levels still_platform (cfg_neg 1 1 10) 2 init_state).1 = Ok tt ∧
  ¬ max_err_le
      (bestHeap (run_levels still_platform (cfg_neg 1 1 10) 2 init_state).2)
      (bestHeap (run_levels still_platform (cfg_neg 1 1 10) 1 init_state).2).
Proof.
  split_and!; [by vm_compute..|].
  assert (bestHeap (run_levels still_platform (cfg_neg 1 1 10) 1 init_state).2 =
          [Candidate 0 1 "1"]) as -> by (vm_compute; reflexivity).
  assert (bestHeap (run_levels still_platform (cfg_neg 1 1 10) 2 init_state).2 =
          [Candidate 2 (-1) "-(1)"; Candidate 0 1 "1"]) as -> by (vm_compute; reflexivity).
  intros H. destruct (H (Candidate 2 (-1) "-(1)")) as (c & Hc & Hle); [left|].
  apply list_elem_of_singleton in Hc as ->. vm_compute in Hle. discriminate.
Qed.

(** C3, witness: with room for one entry and the target -2, the result set
    is full after level 1 and its error falls from 3 to 0 at level 2. *)
Lemma C3_witness :
  full (cfg_neg 2 (-2) 1) (run_levels still_platform (cfg_neg 2 (-2) 1) 1 init_state).2 ∧
  max_err_le
    (bestHeap (run_levels still_platform (cfg_neg 2 (-2) 1) 2 init_state).2)
    (bestHeap (run_levels still_platform (cfg_neg 2 (-2) 1) 1 init_state).2).
Proof.
  assert (full (cfg_neg 2 (-2) 1)
            (run_levels still_platform (cfg_neg 2 (-2) 1) 1 init_state).2) as Hfull
    by (vm_compute; discriminate).
  split; [exact Hfull|].
  apply (C3_worst_error_of_full_set still_platform (cfg_neg 2 (-2) 1) 1);
    [reflexivity | by vm_compute | by vm_compute | by vm_compute | exact Hfull].
Defined.

(** C4, counterexample.  With the target 0, the entries [1] and [-(1)] have
    the same error 1 and are returned in that order, the order of the heap
    array, though [-(1)] comes first as a text. *)
Lemma C4_ties_not_by_text :
  results (generateEnumerations still_platform (cfg_neg 1 0 10)) =
    [Candidate 1 1 "1"; Candidate 1 (-1) "-(1)"] ∧
  String.ltb "-(1)" "1" = true.
Proof. split; [vm_compute; reflexivity|reflexivity]. Qed.

(** C4, witness: the configuration [cfg_tiny]. *)
Lemma C4_witness :
  is_nan (cfg_target cfg_tiny) = false ∧
  StronglySorted err_le (results (generateEnumerations still_platform cfg_tiny)).
Proof.
  split; [reflexivity|].
  apply (C4_sorted_by_error_stable still_platform cfg_tiny). reflexivity.
Defined.

(** C5, witness: the configuration [cfg_tiny]. *)
Lemma C5_witness :
  (0 ≤ cfg_keep_top cfg_tiny)%Z ∧
  NoDup (keys (results (generateEnumerations still_platform cfg_tiny))).
Proof.
  split; [by vm_compute|].
  apply (C5_topk_and_dedup still_platform cfg_tiny). by vm_compute.
Defined.


(** C9, witness: the configuration [cfg_tiny], on the clock that stands
    still. *)
Lemma C9_witness :
  (1 ≤ cfg_keep_top cfg_tiny)%Z ∧ (cfg_N cfg_tiny < 2 ^ 31)%Z ∧
  (∀ i, over_budget still_platform cfg_tiny i = false) ∧
  ∃ st, run_levels still_platform cfg_tiny 1 init_state = (Ok tt, st) ∧
        memo st = {[1%Z := [Item 1 "1"; Item 1e-13 "t"]]}.
Proof.
  split_and!; [by vm_compute|by vm_compute|by intros i|].
  apply (C9_level_1 still_platform cfg_tiny); [by vm_compute|by vm_compute|by intros i].
Defined.

(** C10, witness: the base -3 and the exponent 2.0000000001, rounded to 2. *)
Lemma C10_witness :
  is_finite (-3) = true ∧ is_finite 2.0000000001 = true ∧ (-3 <? 0)%float = true ∧
  (1e-9 <? abs (2.0000000001 - Num.Math_round 2.0000000001))%float = false ∧
  Num.Math_round 2.0000000001 = 2%float ∧
  safePow still_platform (-3) 2.0000000001 = 9%float.
Proof.
  split_and!; [reflexivity..|].
  rewrite (C10_negative_base_rounds_exponent still_platform (-3) 2.0000000001);
    reflexivity.
Defined.


(* ===================================================================== *)
(** * Part III: further properties of the heap and of the search          *)
(* ===================================================================== *)

(** The heap as a priority queue; the statistics that a run returns; the
    content of the memo table; the deduplication key; the result set as the
    outcome of a sequence of considerations. *)

(** ** The binary heap in use *)

(** Uses of the heap: filling it by pushes, emptying it by pops. *)
Fixpoint pop_all {A} (cmp : A → A → Z) (fuel : nat) (data : list A) : list A :=
  match fuel with
  | O => []
  | S fuel' =>
      match BinaryHeap.pop cmp data with
      | (rest, Some t) => t :: pop_all cmp fuel' rest
      | (_, None) => []
      end
  end.

Definition push_all {A} (cmp : A → A → Z) (l : list A) : list A :=
  fold_left (BinaryHeap.push cmp) l [].

(** Descending by key. *)
Definition key_ge {A} (key : A → Z) (a b : A) : Prop := (key b ≤ key a)%Z.

(** The comparator is positive exactly when its first argument has the
    larger key, on the entries [ok]. *)
Definition orders_by {A} (cmp : A → A → Z) (ok : A → Prop) (key : A → Z) : Prop :=
  ∀ x y, ok x → ok y → (0 <? cmp x y)%Z = (key y <? key x)%Z.

Module HeapMore.
Section More.
Context {A : Type}.
Variable cmp : A → A → Z.
Variable ok : A → Prop.
Variable key : A → Z.
Hypothesis cmp_key : orders_by cmp ok key.

Import BinaryHeap HeapFacts.

Lemma heap_ordered_nil : heap_ordered key (@nil A).
Proof. intros p c _ x y Hx. done. Qed.

Lemma peek_greatest (data : list A) t :
  heap_ordered key data → peek data = Some t → ∀ y, y ∈ data → (key y ≤ key t)%Z.
Proof.
  intros Ho Ht y [j Hj]%list_elem_of_lookup.
  by eapply heap_ordered_top.
Qed.

(** The cases of [pop]. *)
Lemma pop_cases (data : list A) :
  (data = [] ∧ pop cmp data = ([], None)) ∨
  (∃ t, data = [t] ∧ pop cmp data = ([], Some t)) ∨
  (∃ t mid a, data = t :: mid ++ [a] ∧
              pop cmp data = (siftDown cmp (a :: mid) 0, Some t)).
Proof.
  destruct data as [|t tl]; [by left|]. right.
  destruct (exists_last (l:=t :: tl)) as (l' & a & E); [done|].
  unfold pop. rewrite E.
  destruct l' as [|t' mid]; cbn [app] in *.
  - left. exists a. simplify_eq. done.
  - right. simplify_eq. exists t', mid, a. split; [done|].
    change (t' :: mid ++ [a]) with ((t' :: mid) ++ [a]).
    rewrite removelast_last, last_last. done.
Qed.

Lemma pop_ordered_rest t mid a :
  Forall ok (t :: mid ++ [a]) → heap_ordered key (t :: mid ++ [a]) →
  heap_ordered key (siftDown cmp (a :: mid) 0).
Proof.
  intros Hok Ho. unfold siftDown. eapply siftDown_loop_ordered; [exact cmp_key|..].
  - apply Forall_cons in Hok as [_ Hok]. apply Forall_app in Hok as [Hm Ha].
    apply Forall_cons in Ha as [Ha _]. by constructor.
  - intros p c Hc Hp x y Hx Hy. destruct p as [|p]; [done|].
    destruct c as [|c]; [unfold child in Hc; lia|].
    change ((a :: mid) !! S p) with (mid !! p) in Hx.
    change ((a :: mid) !! S c) with (mid !! c) in Hy.
    eapply (Ho (S p) (S c) Hc).
    + change ((t :: mid ++ [a]) !! S p) with ((mid ++ [a]) !! p).
      by apply lookup_app_l_Some.
    + change ((t :: mid ++ [a]) !! S c) with ((mid ++ [a]) !! c).
      by apply lookup_app_l_Some.
  - intros p c Hp. unfold child in Hp. lia.
  - lia.
Qed.

Lemma pop_spec (data : list A) :
  Forall ok data → heap_ordered key data →
  match pop cmp data with
  | (rest, Some t) =>
      data ≡ₚ t :: rest ∧ peek data = Some t ∧ heap_ordered key rest
  | (rest, None) => data = [] ∧ rest = []
  end.
Proof.
  intros Hok Ho.
  destruct (pop_cases data) as [[-> ->]|[(t & -> & ->)|(t & mid & a & -> & ->)]].
  - done.
  - split_and!; [done|done|apply heap_ordered_nil].
  - split_and!.
    + unfold siftDown. rewrite siftDown_loop_Permutation.
      constructor. by rewrite Permutation_app_comm.
    + done.
    + by apply (pop_ordered_rest t).
Qed.

Lemma pop_all_spec fuel (data : list A) :
  Forall ok data → heap_ordered key data → length data ≤ fuel →
  pop_all cmp fuel data ≡ₚ data ∧ StronglySorted (key_ge key) (pop_all cmp fuel data).
Proof.
  revert data. induction fuel as [|fuel IH]; intros data Hok Ho Hlen.
  { destruct data; [|cbn in Hlen; lia]. split; [done|constructor]. }
  cbn [pop_all]. pose proof (pop_spec data Hok Ho) as Hp.
  destruct (pop cmp data) as [rest [t|]].
  - destruct Hp as (Hperm & Hpeek & Hrest).
    assert (Forall ok rest) as Hok'.
    { rewrite Hperm in Hok. by apply Forall_cons in Hok as [_ ?]. }
    assert (length rest ≤ fuel) as Hlen'.
    { rewrite Hperm in Hlen. cbn in Hlen. lia. }
    destruct (IH rest Hok' Hrest Hlen') as [IHp IHs].
    split; [by rewrite IHp|].
    constructor; [done|].
    rewrite IHp. apply Forall_forall. intros y Hy.
    apply (peek_greatest data t Ho Hpeek). rewrite Hperm. by right.
  - destruct Hp as [-> _]. split; [done|constructor].
Qed.

Lemma fold_push_spec (l acc : list A) :
  Forall ok acc → Forall ok l → heap_ordered key acc →
  fold_left (push cmp) l acc ≡ₚ acc ++ l ∧
  heap_ordered key (fold_left (push cmp) l acc).
Proof.
  revert acc. induction l as [|x l IH]; intros acc Hacc Hl Ho; cbn [fold_left].
  { by rewrite app_nil_r. }
  apply Forall_cons in Hl as [Hx Hl].
  destruct (IH (push cmp acc x)) as [IHp IHo].
  - rewrite push_Permutation. by constructor.
  - done.
  - eapply push_ordered; [exact cmp_key| |done]. by constructor.
  - split; [|done]. rewrite IHp, push_Permutation.
    cbn [app]. apply Permutation_middle.
Qed.

(** The sifting loops stop by themselves: a larger bound on the number of
    turns changes nothing. *)
Lemma siftUp_loop_enough fuel fuel' (a : list A) i :
  i < fuel → i < fuel' → siftUp_loop cmp fuel a i = siftUp_loop cmp fuel' a i.
Proof.
  revert fuel' a i. induction fuel as [|fuel IH]; intros fuel' a i H1 H2; [lia|].
  destruct fuel' as [|fuel']; [lia|]. cbn [siftUp_loop].
  destruct (0 <? i) eqn:Hi; [|done]. apply Nat.ltb_lt in Hi.
  destruct (gt_at cmp a i ((i - 1) / 2)); [|done].
  destruct (parent_child i Hi) as [_ Hp]. apply IH; lia.
Qed.

Lemma siftDown_loop_enough fuel fuel' (a : list A) i :
  length a ≤ fuel + i → length a ≤ fuel' + i →
  siftDown_loop cmp fuel a i = siftDown_loop cmp fuel' a i.
Proof.
  assert (∀ (a : list A) i, length a ≤ i → largest cmp a i = i) as Hout.
  { intros a' i' H. unfold largest.
    destruct (2 * i' + 1 <? length a') eqn:E1; [apply Nat.ltb_lt in E1; lia|].
    destruct (2 * i' + 2 <? length a') eqn:E2; [apply Nat.ltb_lt in E2; lia|]. done. }
  assert (∀ (a : list A) i, largest cmp a i ≠ i →
            i < largest cmp a i < length a) as Hin.
  { intros a' i'. unfold largest.
    destruct (2 * i' + 1 <? length a') eqn:E1; destruct (2 * i' + 2 <? length a') eqn:E2;
      cbn [andb]; repeat (match goal with |- context [if ?b then _ else _] => destruct b end);
      try apply Nat.ltb_lt in E1; try apply Nat.ltb_lt in E2; lia. }
  revert fuel' a i. induction fuel as [|fuel IH]; intros fuel' a i H1 H2.
  { destruct fuel' as [|fuel']; [done|]. rewrite siftDown_loop_S.
    rewrite Hout by lia. by rewrite Nat.eqb_refl. }
  destruct fuel' as [|fuel'].
  { rewrite siftDown_loop_S. rewrite Hout by lia. by rewrite Nat.eqb_refl. }
  rewrite !siftDown_loop_S.
  destruct (largest cmp a i =? i) eqn:E; [done|]. apply Nat.eqb_neq in E.
  cbn [negb]. specialize (Hin a i E). apply IH; rewrite swap_length; lia.
Qed.

End More.
End HeapMore.

(** X1.  [push] on a heap: for a comparator that orders the entries by an
    integer key, pushing [x] on an array in heap order gives an array with
    the same entries and [x], one longer, again in heap order, whose first
    entry (what [peek] returns) has the greatest key. *)
Theorem X1_heap_push {A} (cmp : A → A → Z) (ok : A → Prop) (key : A → Z) data x :
  orders_by cmp ok key → Forall ok (x :: data) → HeapFacts.heap_ordered key data →
  BinaryHeap.push cmp data x ≡ₚ x :: data ∧
  BinaryHeap.size (BinaryHeap.push cmp data x) = (BinaryHeap.size data + 1)%Z ∧
  HeapFacts.heap_ordered key (BinaryHeap.push cmp data x) ∧
  ∃ t, BinaryHeap.peek (BinaryHeap.push cmp data x) = Some t ∧
       ∀ y, y ∈ x :: data → (key y ≤ key t)%Z.
Proof.
  intros Hc Hok Ho.
  pose proof (HeapFacts.push_Permutation cmp data x) as Hp.
  pose proof (HeapFacts.push_ordered cmp ok key Hc data x Hok Ho) as Ho'.
  split_and!; [done| |done|].
  - unfold BinaryHeap.size. rewrite Hp. cbn [length]. lia.
  - destruct (BinaryHeap.push cmp data x) as [|t rest] eqn:E.
    { apply Permutation_nil_cons in Hp. done. }
    exists t. split; [done|]. intros y Hy. rewrite <- Hp in Hy.
    by apply (HeapMore.peek_greatest key (t :: rest) t Ho').
Qed.

(** X2.  [pop]: on the empty heap it returns [undefined] and leaves the heap
    empty; on a heap in heap order that is not empty it returns the first
    entry, whose key is the greatest, and leaves the other entries, in heap
    order. *)
Theorem X2_heap_pop {A} (cmp : A → A → Z) (ok : A → Prop) (key : A → Z) data :
  orders_by cmp ok key → Forall ok data → HeapFacts.heap_ordered key data →
  (data = [] → BinaryHeap.pop cmp data = ([], None)) ∧
  (data ≠ [] →
   ∃ t rest, BinaryHeap.pop cmp data = (rest, Some t) ∧
             BinaryHeap.peek data = Some t ∧
             data ≡ₚ t :: rest ∧
             (∀ y, y ∈ data → (key y ≤ key t)%Z) ∧
             HeapFacts.heap_ordered key rest).
Proof.
  intros Hc Hok Ho. split; [by intros ->|]. intros Hne.
  pose proof (HeapMore.pop_spec cmp ok key Hc data Hok Ho) as Hp.
  destruct (BinaryHeap.pop cmp data) as [rest [t|]].
  - destruct Hp as (Hperm & Hpeek & Hrest). exists t, rest. split_and!; try done.
    by apply HeapMore.peek_greatest.
  - by destruct Hp as [-> _].
Qed.

(** X3.  [replace] on a heap that is not empty: the first entry is dropped
    and [x] takes its place among the others; the array is again in heap
    order and its first entry has the greatest key. *)
Theorem X3_heap_replace {A} (cmp : A → A → Z) (ok : A → Prop) (key : A → Z) t rest x :
  orders_by cmp ok key → Forall ok (x :: rest) → HeapFacts.heap_ordered key (t :: rest) →
  BinaryHeap.replace cmp (t :: rest) x ≡ₚ x :: rest ∧
  HeapFacts.heap_ordered key (BinaryHeap.replace cmp (t :: rest) x) ∧
  ∃ t', BinaryHeap.peek (BinaryHeap.replace cmp (t :: rest) x) = Some t' ∧
        ∀ y, y ∈ x :: rest → (key y ≤ key t')%Z.
Proof.
  intros Hc Hok Ho.
  pose proof (HeapFacts.replace_Permutation cmp t rest x) as Hp.
  pose proof (HeapFacts.replace_ordered cmp ok key Hc t rest x Hok Ho) as Ho'.
  split_and!; [done|done|].
  destruct (BinaryHeap.replace cmp (t :: rest) x) as [|t' rest'] eqn:E.
  { apply Permutation_nil_cons in Hp. done. }
  exists t'. split; [done|]. intros y Hy. rewrite <- Hp in Hy.
  by apply (HeapMore.peek_greatest key (t' :: rest') t' Ho').
Qed.

(** X4.  Pushing the entries of a list one by one on an empty heap and then
    popping as many times gives the entries of the list in descending order
    of their keys. *)
Theorem X4_heap_sort {A} (cmp : A → A → Z) (ok : A → Prop) (key : A → Z) l :
  orders_by cmp ok key → Forall ok l →
  pop_all cmp (length l) (push_all cmp l) ≡ₚ l ∧
  StronglySorted (key_ge key) (pop_all cmp (length l) (push_all cmp l)).
Proof.
  intros Hc Hok.
  destruct (HeapMore.fold_push_spec cmp ok key Hc l []) as [Hp Ho];
    [done|done|apply HeapMore.heap_ordered_nil|].
  cbn [app] in Hp. fold (push_all cmp l) in Hp, Ho.
  destruct (HeapMore.pop_all_spec cmp ok key Hc (length l) (push_all cmp l)) as [Hp' Hs].
  - by rewrite Hp.
  - done.
  - by rewrite Hp.
  - split; [by rewrite Hp'|done].
Qed.

(** X5.  The loops of [_siftUp] and [_siftDown] stop by themselves:
    [_siftUp(i)] within [i + 1] turns and [_siftDown(i)] within as many turns
    as the array has entries, so that allowing more turns changes nothing. *)
Theorem X5_sifting_terminates {A} (cmp : A → A → Z) (a : list A) i fuel :
  (i < fuel → BinaryHeap.siftUp_loop cmp fuel a i = BinaryHeap.siftUp cmp a i) ∧
  (length a ≤ fuel →
   BinaryHeap.siftDown_loop cmp fuel a i = BinaryHeap.siftDown cmp a i).
Proof.
  split; intros H.
  - unfold BinaryHeap.siftUp. apply HeapMore.siftUp_loop_enough; lia.
  - unfold BinaryHeap.siftDown. apply HeapMore.siftDown_loop_enough; lia.
Qed.

(** The side filter of [considerValue] lets [v] through. *)
Definition side_pass (cfg : config) (v : float) : bool :=
  negb (String.eqb (keepSide cfg) "greater" && negb (target cfg + epsilon cfg <? v)%float) &&
  negb (String.eqb (keepSide cfg) "less" && negb (v <? target cfg - epsilon cfg)%float).

(** The expressions that [considerValue] counts: those of a finite value
    that passes the side filter. *)
Definition counted (cfg : config) (it : item) : bool :=
  Num.isFiniteNumber (it_v it) && side_pass cfg (it_v it).

Definition count_of (cfg : config) (l : list item) : Z :=
  Z.of_nat (length (filter (λ it, counted cfg it = true) l)).

(** The counted expressions of the levels 1..[m] of a memo table. *)
Definition count_of_levels (cfg : config) (mm : gmap Z (list item)) (m : Z) : Z :=
  foldr Z.add 0%Z ((λ c, count_of cfg (default [] (mm !! c))) <$> seqZ 1 m).

(** The levels 1..[m] are the ones memoised and reported. *)
Definition completed (m : Z) (st : state) : Prop :=
  (∀ c, is_Some (memo st !! c) ↔ (1 ≤ c ≤ m)%Z) ∧
  p_level <$> reported st = seqZ 1 m.

(** What an entry of the result set is made of. *)
Definition entry_ok (cfg : config) (c : candidate) : Prop :=
  is_finite (c_v c) = true ∧
  c_err c = abs (target cfg - c_v c) ∧
  side_pass cfg (c_v c) = true.

(** Every entry of [h] has an entry of [h'] that is at least as good. *)
Definition best_kept (h h' : list candidate) : Prop :=
  ∀ c, c ∈ h → ∃ c', c' ∈ h' ∧ (c_err c' <=? c_err c)%float = true.

(** ** Specifications of computations *)

Definition triple {A} (pre : state → Prop) (m : M A)
    (post : A → state → Prop) (epost : state → Prop) : Prop :=
  ∀ st, pre st →
    match m st with
    | (Ok a, st') => post a st'
    | (Throw _, st') => epost st'
    end.

Lemma triple_ret {A} (a : A) (pre : state → Prop) post epost :
  (∀ st, pre st → post a st) → triple pre (mret a) post epost.
Proof. intros H st Hst. by apply H. Qed.

Lemma triple_bind {A B} (m : M A) (f : A → M B) pre mid post epost :
  triple pre m mid epost → (∀ a, triple (mid a) (f a) post epost) →
  triple pre (m ≫= f) post epost.
Proof.
  intros Hm Hf st Hst. specialize (Hm st Hst). rewrite bind_unfold.
  destruct (m st) as [[a|e] st1]; [by apply Hf|done].
Qed.

Lemma triple_foldM {A B} (f : B → A → M B) (l : list A) (b : B)
    (Inv : B → state → Prop) epost :
  (∀ b x, x ∈ l → triple (Inv b) (f b x) Inv epost) →
  triple (Inv b) (foldM f l b) Inv epost.
Proof.
  revert b. induction l as [|x l IH]; intros b Hf; cbn [foldM].
  - by apply triple_ret.
  - eapply triple_bind; [apply Hf; left|].
    intros b'. apply IH. intros b'' y Hy. apply Hf. by right.
Qed.

Lemma triple_if {A} (c : bool) (m1 m2 : M A) pre post epost :
  triple pre m1 post epost → triple pre m2 post epost →
  triple pre (if c then m1 else m2) post epost.
Proof. by destruct c. Qed.

Lemma triple_weaken {A} (m : M A) (pre pre' : state → Prop)
    (post post' : A → state → Prop) (epost epost' : state → Prop) :
  triple pre' m post' epost' →
  (∀ st, pre st → pre' st) → (∀ a st, post' a st → post a st) →
  (∀ st, epost' st → epost st) →
  triple pre m post epost.
Proof.
  intros Hm H1 H2 H3 st Hst. specialize (Hm st (H1 st Hst)).
  destruct (m st) as [[a|e] st1]; auto.
Qed.

(** ** What [considerValue] counts *)

Lemma considerValue_count cfg v e st :
  exprCountTotal (considerValue cfg v e st).2 =
    (exprCountTotal st + if counted cfg (Item v e) then 1 else 0)%Z ∧
  memo (considerValue cfg v e st).2 = memo st ∧
  stopped (considerValue cfg v e st).2 = stopped st ∧
  reported (considerValue cfg v e st).2 = reported st.
Proof.
  unfold considerValue, counted, side_pass, Num.isFiniteNumber. cbn [it_v].
  destruct (is_finite v); cbn [negb andb snd];
    [|split_and!; try done; lia].
  destruct (String.eqb (keepSide cfg) "greater" && _); cbn [negb andb snd];
    [split_and!; try done; lia|].
  destruct (String.eqb (keepSide cfg) "less" && _); cbn [negb andb snd];
    [split_and!; try done; lia|].
  case_bool_decide; [done|].
  destruct (_ <? _)%Z; [done|].
  destruct (BinaryHeap.peek _); [|done].
  by destruct (_ <? _)%float.
Qed.

Lemma count_of_nonneg cfg l : (0 ≤ count_of cfg l)%Z.
Proof. unfold count_of. lia. Qed.

Lemma count_of_snoc cfg l it :
  count_of cfg (l ++ [it]) = (count_of cfg l + if counted cfg it then 1 else 0)%Z.
Proof.
  unfold count_of. rewrite filter_app, length_app, filter_cons, filter_nil.
  destruct (counted cfg it); case_decide; try done; cbn [length]; lia.
Qed.

(** ** A level of a run, exactly *)

Section Exact.
Variable P : Platform.
Variable cfg : config.

(** Inside the loops of a level: the memo table and the reports are the ones
    the level started with, and the count has grown by the counted
    expressions accumulated. *)
Definition inside (K : Z) (mm : gmap Z (list item)) (rp : list progress)
    (acc : list item) (st : state) : Prop :=
  stopped st = false ∧ memo st = mm ∧ reported st = rp ∧
  exprCountTotal st = (K + count_of cfg acc)%Z.

(** When the level is interrupted. *)
Definition broken (K : Z) (mm : gmap Z (list item)) (rp : list progress)
    (st : state) : Prop :=
  memo st = mm ∧ reported st = rp ∧ (K ≤ exprCountTotal st)%Z.

Variable K : Z.
Variable mm : gmap Z (list item).
Variable rp : list progress.

Lemma timeCheck_inside acc :
  triple (inside K mm rp acc) (timeCheck P cfg) (λ _, inside K mm rp acc) (broken K mm rp).
Proof.
  intros st (Hs & Hm & Hr & Hc). rewrite timeCheck_unfold.
  destruct (over_budget P cfg (readings st)).
  - unfold broken. cbn. pose proof (count_of_nonneg cfg acc). split_and!; [done|done|lia].
  - done.
Qed.

Lemma emit_inside acc v e :
  triple (inside K mm rp acc) (emit cfg acc v e) (inside K mm rp) (broken K mm rp).
Proof.
  intros st (Hs & Hm & Hr & Hc). unfold emit. rewrite bind_unfold.
  destruct (considerValue_count cfg v e st) as (Hc' & Hm' & Hs' & Hr').
  pose proof (count_of_nonneg cfg acc).
  destruct (considerValue cfg v e st) as [[[]|ex] st1]; cbn [snd] in *.
  - unfold mret, M_ret. unfold inside. rewrite count_of_snoc.
    split_and!; [congruence|congruence|congruence|lia].
  - unfold broken. split_and!; [congruence|congruence|].
    destruct (counted cfg _); lia.
Qed.

Lemma atom_step_inside acc n :
  triple (inside K mm rp acc) (atom_step P cfg acc n) (inside K mm rp) (broken K mm rp).
Proof.
  eapply triple_bind; [apply timeCheck_inside|]. intros ?; cbv beta. apply emit_inside.
Qed.

Lemma const_step_inside acc c :
  triple (inside K mm rp acc) (const_step P cfg acc c) (inside K mm rp) (broken K mm rp).
Proof.
  eapply triple_bind; [apply timeCheck_inside|]. intros ?; cbv beta. apply emit_inside.
Qed.

Lemma unary_step_inside it acc uf :
  triple (inside K mm rp acc) (unary_step cfg it acc uf) (inside K mm rp) (broken K mm rp).
Proof.
  destruct uf as [fname f]. unfold unary_step.
  repeat (apply triple_if; [by apply triple_ret|]). apply emit_inside.
Qed.

Lemma unary_expand_inside acc it :
  triple (inside K mm rp acc) (unary_expand P cfg acc it) (inside K mm rp) (broken K mm rp).
Proof.
  eapply triple_bind; [apply timeCheck_inside|]. intros ?; cbv beta.
  apply triple_if; [by apply triple_ret|].
  apply triple_foldM. intros. apply unary_step_inside.
Qed.

Lemma binary_step_inside L R acc bo :
  triple (inside K mm rp acc) (binary_step cfg L R acc bo) (inside K mm rp) (broken K mm rp).
Proof.
  destruct bo as [opname op]. unfold binary_step.
  apply triple_if; [by apply triple_ret|].
  eapply triple_bind with (mid := inside K mm rp).
  - apply triple_if; [apply emit_inside|by apply triple_ret].
  - intros r. apply triple_if; [apply emit_inside|by apply triple_ret].
Qed.

Lemma pair_step_inside L acc R :
  triple (inside K mm rp acc) (pair_step P cfg L acc R) (inside K mm rp) (broken K mm rp).
Proof.
  eapply triple_bind; [apply timeCheck_inside|]. intros ?; cbv beta.
  apply triple_if; [by apply triple_ret|].
  apply triple_foldM. intros. apply binary_step_inside.
Qed.

Lemma left_step_inside rightArr acc L :
  triple (inside K mm rp acc) (left_step P cfg rightArr acc L) (inside K mm rp)
         (broken K mm rp).
Proof.
  eapply triple_bind; [apply timeCheck_inside|]. intros ?; cbv beta.
  apply triple_foldM. intros. apply pair_step_inside.
Qed.

End Exact.

(** A level already in the memo table is returned as it is. *)
Lemma enumerateCost_hit P cfg depth cost st r :
  stopped st = false → memo st !! cost = Some r →
  enumerateCost P cfg (S depth) cost st = (Ok r, st).
Proof.
  intros Hs Hm. cbn [enumerateCost]. rewrite bind_unfold. unfold get_state.
  by rewrite Hs, Hm.
Qed.

(** The level [m + 1], entered when the levels 1..[m] are memoised: the
    calls for the lower costs are answered from the table, and the table
    gains the level when it completes. *)
Lemma enumerateCost_next P cfg m st :
  (0 ≤ m)%Z → stopped st = false →
  (∀ c, is_Some (memo st !! c) ↔ (1 ≤ c ≤ m)%Z) →
  match enumerateCost P cfg (Z.to_nat (m + 1)) (m + 1) st with
  | (Ok r, st') =>
      stopped st' = false ∧ memo st' = <[(m + 1)%Z := r]> (memo st) ∧
      reported st' = reported st ∧
      exprCountTotal st' = (exprCountTotal st + count_of cfg r)%Z
  | (Throw _, st') =>
      memo st' = memo st ∧ reported st' = reported st ∧
      (exprCountTotal st ≤ exprCountTotal st')%Z
  end.
Proof.
  intros Hm Hs Hdom.
  replace (Z.to_nat (m + 1)) with (S (Z.to_nat m)) by lia.
  cbn [enumerateCost]. rewrite bind_unfold. unfold get_state. rewrite Hs.
  destruct (memo st !! (m + 1)%Z) as [r|] eqn:Hmiss.
  { assert (is_Some (memo st !! (m + 1)%Z)) as H%Hdom by (by rewrite Hmiss). lia. }
  set (K := exprCountTotal st). set (mm := memo st). set (rp := reported st).
  assert (∀ c, (1 ≤ c ≤ m)%Z → ∃ r, mm !! c = Some r) as Hhit.
  { intros c Hc. by apply Hdom. }
  assert (triple (inside cfg K mm rp [])
    (timeCheck P cfg ≫= λ _,
       if (m + 1 =? 1)%Z then
         results ← foldM (atom_step P cfg) (numbers cfg) [];
         results ← foldM (const_step P cfg) (constants cfg) results;
         modify (memo_set (m + 1) results);; mret results
       else
         prev ← enumerateCost P cfg (Z.to_nat m) (m + 1 - 1);
         results ← foldM (unary_expand P cfg) prev [];
         results ←
           foldM (λ results a_cost,
                    let b_cost := (m + 1 - 1 - a_cost)%Z in
                    leftArr ← enumerateCost P cfg (Z.to_nat m) a_cost;
                    rightArr ← enumerateCost P cfg (Z.to_nat m) b_cost;
                    foldM (left_step P cfg rightArr) leftArr results)
                 (seqZ 1 (m + 1 - 2)) results;
         modify (memo_set (m + 1) results);; mret results)
    (λ r s, stopped s = false ∧ memo s = <[(m + 1)%Z := r]> mm ∧
            reported s = rp ∧ exprCountTotal s = (K + count_of cfg r)%Z)
    (broken K mm rp)) as Hbody.
  { assert (∀ r, triple (inside cfg K mm rp r)
               (modify (memo_set (m + 1) r);; mret r)
               (λ r s, stopped s = false ∧ memo s = <[(m + 1)%Z := r]> mm ∧
                       reported s = rp ∧ exprCountTotal s = (K + count_of cfg r)%Z)
               (broken K mm rp)) as Hset.
    { intros r s (Hs1 & Hm1 & Hr1 & Hc1). rewrite bind_unfold. unfold modify, mret, M_ret. cbn [memo_set memo stopped reported exprCountTotal]. by rewrite Hm1. }
    eapply triple_bind; [apply timeCheck_inside|]. intros ?; cbv beta.
    destruct (m + 1 =? 1)%Z eqn:E.
    - eapply triple_bind; [apply triple_foldM; intros; apply atom_step_inside|].
      intros r1. eapply triple_bind; [apply triple_foldM; intros; apply const_step_inside|].
      intros r2. apply Hset.
    - apply Z.eqb_neq in E.
      assert (∀ acc c, (1 ≤ c ≤ m)%Z →
                triple (inside cfg K mm rp acc)
                  (enumerateCost P cfg (Z.to_nat m) c)
                  (λ _, inside cfg K mm rp acc) (broken K mm rp)) as Hrec.
      { intros acc c Hc s (Hs1 & Hm1 & Hr1 & Hc1).
        destruct (Hhit c Hc) as [r Hr].
        replace (Z.to_nat m) with (S (Z.to_nat (m - 1))) by lia.
        rewrite (enumerateCost_hit P cfg _ c s r) by congruence. done. }
      eapply triple_bind; [apply (Hrec []); lia|]. intros prev; cbv beta.
      eapply triple_bind; [apply triple_foldM; intros; apply unary_expand_inside|].
      intros r1. eapply triple_bind; [|apply Hset].
      apply triple_foldM.
      intros acc a_cost Ha%elem_of_seqZ. cbv zeta.
      eapply triple_bind; [apply (Hrec acc); lia|]. intros leftArr; cbv beta.
      eapply triple_bind; [apply (Hrec acc); lia|]. intros rightArr; cbv beta.
      apply triple_foldM. intros. apply left_step_inside. }
  assert (inside cfg K mm rp [] st) as Hin.
  { unfold inside, count_of. cbn. split_and!; try done. subst K. lia. }
  exact (Hbody st Hin).
Qed.

Lemma foldr_add_app (l1 l2 : list Z) :
  foldr Z.add 0%Z (l1 ++ l2) = (foldr Z.add 0 l1 + foldr Z.add 0 l2)%Z.
Proof. induction l1 as [|x l1 IH]; cbn [foldr app]; lia. Qed.

Lemma count_of_levels_succ cfg mm m :
  (0 ≤ m)%Z →
  count_of_levels cfg mm (m + 1) =
    (count_of_levels cfg mm m + count_of cfg (default [] (mm !! (m + 1)%Z)))%Z.
Proof.
  intros Hm. unfold count_of_levels. rewrite seqZ_app by lia.
  rewrite fmap_app, foldr_add_app.
  rewrite (seqZ_cons (1 + m) 1) by lia. rewrite (seqZ_nil _ (Z.pred 1)) by lia.
  cbn [fmap list_fmap foldr].
  replace (1 + m)%Z with (m + 1)%Z by lia. lia.
Qed.

Lemma count_of_levels_insert cfg mm m c r :
  (m < c)%Z → count_of_levels cfg (<[c := r]> mm) m = count_of_levels cfg mm m.
Proof.
  intros Hc. unfold count_of_levels. f_equal. apply list_fmap_ext.
  intros i c' Hc'%list_elem_of_lookup_2%elem_of_seqZ.
  by rewrite lookup_insert_ne by lia.
Qed.

Lemma level_next P cfg m st :
  (0 ≤ m)%Z → stopped st = false → completed m st →
  match level P cfg (m + 1) st with
  | (Ok _, st') =>
      stopped st' = false ∧ completed (m + 1) st' ∧
      ∃ r, memo st' = <[(m + 1)%Z := r]> (memo st) ∧
           exprCountTotal st' = (exprCountTotal st + count_of cfg r)%Z
  | (Throw _, st') =>
      memo st' = memo st ∧ reported st' = reported st ∧
      (exprCountTotal st ≤ exprCountTotal st')%Z
  end.
Proof.
  intros Hm Hs [Hdom Hrep]. unfold level.
  rewrite bind_unfold, timeCheck_unfold.
  destruct (over_budget P cfg (readings st)); [cbn; split_and!; [done|done|lia]|].
  rewrite bind_unfold.
  pose proof (enumerateCost_next P cfg m (incr_readings st) Hm Hs Hdom) as Hnext.
  destruct (enumerateCost P cfg (Z.to_nat (m + 1)) (m + 1) (incr_readings st))
    as [[r|e] st1]; [|exact Hnext].
  destruct Hnext as (Hs1 & Hm1 & Hr1 & Hc1).
  rewrite !bind_unfold. unfold nowSec, get_state, modify. cbn [fst snd].
  split_and!.
  - done.
  - split.
    + intros c. cbn [memo add_reported incr_readings]. rewrite Hm1.
      change (memo (incr_readings st)) with (memo st).
      destruct (decide (c = (m + 1)%Z)) as [->|Hne].
      * rewrite lookup_insert_eq. split; [lia|by eauto].
      * rewrite lookup_insert_ne by done. rewrite Hdom. lia.
    + cbn [reported add_reported incr_readings]. rewrite Hr1.
      change (reported (incr_readings st)) with (reported st).
      rewrite fmap_app, Hrep. rewrite (seqZ_app 1 m 1) by lia.
      rewrite (seqZ_cons (1 + m) 1) by lia. rewrite (seqZ_nil _ (Z.pred 1)) by lia.
      cbn [fmap list_fmap p_level].
      by replace (1 + m)%Z with (m + 1)%Z by lia.
  - exists r. cbn. by rewrite Hm1, Hc1.
Qed.

(** A run of [n] levels: it completes them all, or is interrupted in the
    level that follows the [m] it has completed. *)
Lemma run_levels_exact P cfg n :
  (0 ≤ n)%Z →
  match run_levels P cfg n init_state with
  | (Ok _, st) =>
      stopped st = false ∧ completed n st ∧
      exprCountTotal st = count_of_levels cfg (memo st) n
  | (Throw _, st) =>
      ∃ m, (0 ≤ m < n)%Z ∧ completed m st ∧
           (count_of_levels cfg (memo st) m ≤ exprCountTotal st)%Z
  end.
Proof.
  revert n. apply natlike_ind.
  - unfold run_levels. rewrite seqZ_nil by lia. cbn [foldM]. unfold mret, M_ret.
    split_and!; [done| |done].
    split; [|done]. intros c. unfold init_state. cbn [memo].
    rewrite lookup_empty. split; [by intros []|lia].
  - intros n Hn IH. unfold Z.succ. rewrite run_levels_succ by done.
    rewrite bind_unfold.
    destruct (run_levels P cfg n init_state) as [[[]|e] st].
    + destruct IH as (Hs & Hcomp & Hcount).
      pose proof (level_next P cfg n st Hn Hs Hcomp) as Hl.
      destruct (level P cfg (n + 1) st) as [[[]|e] st'].
      * destruct Hl as (Hs' & Hcomp' & r & Hm' & Hc'). split_and!; [done|done|].
        rewrite count_of_levels_succ by done. rewrite Hm'.
        rewrite count_of_levels_insert by lia. rewrite lookup_insert_eq. cbn. lia.
      * destruct Hl as (Hm' & Hr' & Hc'). exists n. split; [lia|].
        split; [|rewrite Hm'; lia].
        destruct Hcomp as [Hdom Hrep]. split; [by rewrite Hm'|by rewrite Hr'].
    + destruct IH as (m & Hm & Hcomp & Hc). exists m. split; [lia|done].
Qed.

Lemma completed_size m st :
  (0 ≤ m)%Z → completed m st → Z.of_nat (size (memo st)) = m.
Proof.
  intros Hm [Hdom _].
  assert (dom (memo st) = list_to_set (C:=gset Z) (seqZ 1 m)) as Hd.
  { apply set_eq. intros c. rewrite elem_of_dom, Hdom, elem_of_list_to_set, elem_of_seqZ. lia. }
  rewrite <- size_dom, Hd, size_list_to_set by apply NoDup_seqZ.
  rewrite length_seqZ. lia.
Qed.

(** ** The result set holds no more entries than were counted *)

Lemma run_levels_size_count P cfg n :
  (Z.of_nat (length (bestHeap (run_levels P cfg n init_state).2))
   ≤ exprCountTotal (run_levels P cfg n init_state).2)%Z.
Proof.
  pose proof (sat_run_levels P cfg
    (λ st _ st', (Z.of_nat (length (bestHeap st)) ≤ exprCountTotal st)%Z →
                 (Z.of_nat (length (bestHeap st')) ≤ exprCountTotal st')%Z)) as H.
  apply H; clear H.
  - done.
  - intros st1 st2 st3 o H1 H2 H. auto.
  - intros st. destruct (timeCheck_same P cfg st) as [Hh _]. rewrite Hh.
    rewrite timeCheck_unfold. by destruct (over_budget _ _ _).
  - intros v e st Hle.
    destruct (considerValue_cases cfg v e st)
      as [-> | [-> | [(_ & _ & _ & ->) | [(w & rest & _ & _ & _ & Hh & _ & ->) | (_ & _ & ->)]]]];
      cbn [snd set_bestHeap incr_exprCountTotal bestHeap exprCountTotal]; try lia.
    + rewrite HeapFacts.push_Permutation. cbn [length]. lia.
    + rewrite Hh in *. rewrite HeapFacts.replace_Permutation. cbn [length] in *. lia.
  - by intros c r st.
  - by intros st.
  - by intros p st.
  - cbn. lia.
Qed.

(** ** What the entries of the result set are *)

Lemma considerValue_entries cfg v e st :
  Forall (entry_ok cfg) (bestHeap st) →
  Forall (entry_ok cfg) (bestHeap (considerValue cfg v e st).2).
Proof.
  intros Hall. unfold considerValue, Num.isFiniteNumber.
  destruct (is_finite v) eqn:Hf; cbn [negb]; [|done].
  destruct (String.eqb (keepSide cfg) "greater" && _) eqn:E1; [done|].
  destruct (String.eqb (keepSide cfg) "less" && _) eqn:E2; [done|].
  assert (entry_ok cfg (Candidate (abs (target cfg - v)) v e)) as Hnew.
  { split_and!; [done|done|]. unfold side_pass. cbn [c_v]. by rewrite E1, E2. }
  case_bool_decide; [done|].
  change (bestHeap (incr_exprCountTotal st)) with (bestHeap st).
  destruct (_ <? _)%Z.
  { cbn [snd set_bestHeap bestHeap]. rewrite HeapFacts.push_Permutation. by constructor. }
  destruct (BinaryHeap.peek (bestHeap st)) as [w|] eqn:Hp; [|done].
  destruct (abs (target cfg - v) <? c_err w)%float; [|exact Hall].
  apply peek_Some in Hp as [rest Hp].
  cbn [snd set_bestHeap bestHeap]. rewrite Hp in *.
  rewrite HeapFacts.replace_Permutation.
  apply Forall_cons in Hall as [_ Hrest]. by constructor.
Qed.

Lemma run_levels_entries P cfg n :
  Forall (entry_ok cfg) (bestHeap (run_levels P cfg n init_state).2).
Proof.
  pose proof (sat_run_levels P cfg
    (λ st _ st', Forall (entry_ok cfg) (bestHeap st) →
                 Forall (entry_ok cfg) (bestHeap st'))) as H.
  apply H; clear H.
  - done.
  - intros st1 st2 st3 o H1 H2 H. auto.
  - intros st. destruct (timeCheck_same P cfg st) as [Hh _]. by rewrite Hh.
  - intros v e st. apply considerValue_entries.
  - by intros c r st.
  - by intros st.
  - by intros p st.
  - constructor.
Qed.

(** ** The best entries are never lost *)

Definition keeps_best (st : state) (o : option exn) (st' : state) : Prop :=
  errors_ok st → errors_ok st' ∧ best_kept (bestHeap st) (bestHeap st').

Lemma best_kept_refl h :
  Forall (λ c, Dbl.is_error (c_err c)) h → best_kept h h.
Proof.
  intros Hok c Hc. exists c. split; [done|]. apply leb_refl_error.
  by eapply (proj1 (Forall_forall _ _) Hok).
Qed.

Lemma keeps_best_same st o st' : same_results st st' → keeps_best st o st'.
Proof.
  intros [Hh _] Hok. unfold errors_ok, best_kept in *. rewrite Hh.
  split; [done|]. by apply best_kept_refl.
Qed.

Lemma keeps_best_seq st1 st2 st3 o :
  keeps_best st1 None st2 → keeps_best st2 o st3 → keeps_best st1 o st3.
Proof.
  intros H12 H23 Hok1.
  destruct (H12 Hok1) as [Hok2 Hb12]. destruct (H23 Hok2) as [Hok3 Hb23].
  split; [done|]. intros c Hc.
  destruct (Hb12 c Hc) as (c2 & Hc2 & Hle2).
  destruct (Hb23 c2 Hc2) as (c3 & Hc3 & Hle3).
  exists c3. split; [done|].
  unfold errors_ok in *. rewrite Forall_forall in Hok1, Hok2, Hok3.
  apply (leb_trans_error _ (c_err c2)); auto.
Qed.

Lemma considerValue_keeps_best cfg v e st :
  is_nan (target cfg) = false →
  keeps_best st (outcome (considerValue cfg v e st).1) (considerValue cfg v e st).2.
Proof.
  intros Ht.
  destruct (considerValue_cases cfg v e st)
    as [-> | [-> | [(Hf & Hk & Hlt & ->) | [(w & rest & Hf & Hk & Hge & Hh & Hlt & ->) | (_ & _ & ->)]]]];
    cbn [fst snd]; try (by apply keeps_best_same).
  - intros Hok. unfold errors_ok in *. cbn [set_bestHeap bestHeap].
    pose proof (new_error_ok cfg v Ht Hf) as Hnew.
    split; [rewrite HeapFacts.push_Permutation; by constructor|].
    intros c Hc. exists c. split.
    + rewrite HeapFacts.push_Permutation. by right.
    + apply leb_refl_error. by eapply (proj1 (Forall_forall _ _) Hok).
  - intros Hok. unfold errors_ok in *. cbn [set_bestHeap bestHeap].
    rewrite Hh in *. apply Forall_cons in Hok as [Hw Hrest].
    pose proof (new_error_ok cfg v Ht Hf) as Hnew.
    pose proof (HeapFacts.replace_Permutation cmp_err w rest
                  (Candidate (abs (target cfg - v)) v e)) as Hp.
    split; [rewrite Hp; by constructor|].
    intros c Hc. apply elem_of_cons in Hc as [->|Hc].
    + eexists. split; [rewrite Hp; left|]. cbn. by apply ltb_leb_error.
    + exists c. split; [rewrite Hp; by right|]. apply leb_refl_error.
      by eapply (proj1 (Forall_forall _ _) Hrest).
Qed.

Lemma run_levels_split P cfg n n' st :
  (0 ≤ n ≤ n')%Z →
  run_levels P cfg n' st =
    (run_levels P cfg n ≫= λ _,
       foldM (λ _ cost, level P cfg cost) (seqZ (1 + n) (n' - n)) tt) st.
Proof.
  intros Hn. unfold run_levels.
  replace n' with (n + (n' - n))%Z at 1 by lia.
  rewrite seqZ_app by lia. rewrite foldM_app. rewrite !bind_unfold.
  by destruct (foldM _ (seqZ 1 n) tt st) as [[[]|e] st'].
Qed.

Lemma levels_keep_best P cfg l st :
  is_nan (target cfg) = false → Forall (λ c, 1 ≤ c)%Z l →
  keeps_best st (outcome (foldM (λ _ cost, level P cfg cost) l tt st).1)
             (foldM (λ _ cost, level P cfg cost) l tt st).2.
Proof.
  intros Ht Hl. revert st.
  apply (sat_foldM keeps_best).
  - intros st. by apply keeps_best_same.
  - intros. by eapply keeps_best_seq.
  - intros [] cost Hc. rewrite Forall_forall in Hl.
    apply (sat_level P cfg keeps_best).
    + intros st. by apply keeps_best_same.
    + intros. by eapply keeps_best_seq.
    + intros st. apply keeps_best_same, timeCheck_same.
    + intros v e st. by apply considerValue_keeps_best.
    + intros c r st. by apply keeps_best_same.
    + intros st. by apply keeps_best_same.
    + intros p st. by apply keeps_best_same.
    + by apply Hl.
Qed.

(** ** No room in the result set *)

Lemma run_levels_no_room P cfg n :
  (keepTop cfg ≤ 0)%Z → bestHeap (run_levels P cfg n init_state).2 = [].
Proof.
  intros HK.
  pose proof (sat_run_levels P cfg (λ st _ st', bestHeap st = [] → bestHeap st' = [])) as H.
  apply H; clear H.
  - done.
  - intros st1 st2 st3 o H1 H2 H. auto.
  - intros st. destruct (timeCheck_same P cfg st) as [Hh _]. by rewrite Hh.
  - intros v e st Hnil.
    destruct (considerValue_cases cfg v e st)
      as [-> | [-> | [(_ & _ & Hlt & ->) | [(w & rest & _ & _ & _ & Hh & _ & ->) | (_ & _ & ->)]]]];
      cbn [snd]; try done.
    + rewrite Hnil in Hlt. unfold BinaryHeap.size in Hlt. cbn in Hlt. lia.
    + congruence.
  - by intros c r st.
  - by intros st.
  - by intros p st.
  - done.
Qed.

Lemma of_Z_1 : Num.of_Z 1 = 1%float.
Proof. reflexivity. Qed.

Lemma first_atom_TypeError P cfg :
  (keepTop cfg ≤ 0)%Z → (1 ≤ maxCost cfg)%Z → (1 ≤ cfg_N cfg)%Z →
  side_pass cfg 1 = true →
  (∀ i, 1 ≤ i ≤ 3 → over_budget P cfg i = false) →
  generateEnumerations P cfg = Output [] 1 0 (Some TypeError).
Proof.
  intros HK Hc HN Hside Hb.
  assert (considerValue cfg 1 "1" (State [] ∅ 0 false ∅ 4 []) =
          (Throw TypeError, State [] ∅ 1 false ∅ 4 [])) as Hcv.
  { unfold considerValue, side_pass in *. change (Num.isFiniteNumber 1) with true.
    cbn [negb]. apply andb_true_iff in Hside as [H1 H2].
    apply negb_true_iff in H1, H2. rewrite H1, H2.
    cbn [incr_exprCountTotal savedValues bestHeap exprCountTotal stopped memo readings reported].
    rewrite bool_decide_eq_false_2 by set_solver.
    unfold BinaryHeap.size. cbn [length].
    destruct (Z.ltb_spec (Z.of_nat 0) (keepTop cfg)); [lia|]. done. }
  unfold generateEnumerations, run_levels.
  rewrite seqZ_cons by lia. cbn [foldM]. rewrite bind_unfold.
  unfold level. rewrite bind_unfold, timeCheck_passes by (apply Hb; cbn; lia).
  rewrite bind_unfold. change (Z.to_nat 1) with 1%nat. cbn [enumerateCost].
  rewrite bind_unfold. unfold get_state. cbn [stopped memo incr_readings init_state].
  rewrite lookup_empty.
  rewrite bind_unfold, timeCheck_passes by (apply Hb; cbn; lia).
  change (1 =? 1)%Z with true. cbv iota.
  rewrite bind_unfold. unfold numbers. rewrite seqZ_cons by lia. cbn [foldM].
  rewrite bind_unfold. unfold atom_step at 1.
  rewrite bind_unfold, timeCheck_passes by (apply Hb; cbn; lia).
  unfold emit. rewrite bind_unfold. rewrite of_Z_1.
  change (pretty (Num.ToInt32 1)) with "1".
  cbn [incr_readings init_state readings bestHeap savedValues exprCountTotal stopped memo reported].
  change (incr_readings (incr_readings (incr_readings init_state)))
    with (State [] ∅ 0 false ∅ 4 []).
  rewrite Hcv. unfold read_out. cbn. f_equal. change (size (∅ : gmap Z (list item))) with 0%nat. lia.
Qed.

(** X6.  The levels completed: the [max_level] returned lies between 0 and
    [max_cost]; the memo table holds the levels 1..[max_level] and no other,
    and progress was reported for these levels, once each, in order; the
    loop over the levels ran to its end exactly when [max_level] is
    [max_cost]. *)
Theorem X6_levels_completed P cfg :
  (0 ≤ cfg_max_cost cfg)%Z →
  (0 ≤ max_level (generateEnumerations P cfg) ≤ cfg_max_cost cfg)%Z ∧
  completed (max_level (generateEnumerations P cfg))
            (run_levels P cfg (maxCost cfg) init_state).2 ∧
  ((run_levels P cfg (maxCost cfg) init_state).1 = Ok tt ↔
   max_level (generateEnumerations P cfg) = cfg_max_cost cfg).
Proof.
  intros Hn. pose proof (run_levels_exact P cfg (maxCost cfg) Hn) as H.
  unfold generateEnumerations.
  destruct (run_levels P cfg (maxCost cfg) init_state) as [[[]|e] st];
    cbn [fst snd max_level read_out].
  - destruct H as (_ & Hcomp & _).
    rewrite (completed_size _ _ Hn Hcomp). unfold maxCost in *.
    rewrite Z.min_id. split_and!; [lia|lia|done|done].
  - destruct H as (m & Hm & Hcomp & _).
    rewrite (completed_size m st) by (done || lia). unfold maxCost in *.
    rewrite Z.min_r by lia. split_and!; [lia|lia|done|].
    split; [done|lia].
Qed.

(** X7.  The counter [expr_count_total]: it is at least the number of
    candidates returned, and at least the number of the expressions of the
    completed levels that have a finite value on the side kept; when the
    loop over the levels runs to its end it is exactly that number. *)
Theorem X7_expr_count P cfg :
  (0 ≤ cfg_max_cost cfg)%Z →
  (Z.of_nat (length (results (generateEnumerations P cfg)))
   ≤ expr_count_total (generateEnumerations P cfg))%Z ∧
  (count_of_levels cfg (memo (run_levels P cfg (maxCost cfg) init_state).2)
                   (max_level (generateEnumerations P cfg))
   ≤ expr_count_total (generateEnumerations P cfg))%Z ∧
  ((run_levels P cfg (maxCost cfg) init_state).1 = Ok tt →
   expr_count_total (generateEnumerations P cfg) =
     count_of_levels cfg (memo (run_levels P cfg (maxCost cfg) init_state).2)
                     (cfg_max_cost cfg)).
Proof.
  intros Hn. pose proof (run_levels_exact P cfg (maxCost cfg) Hn) as H.
  pose proof (run_levels_size_count P cfg (maxCost cfg)) as Hsz.
  unfold generateEnumerations.
  destruct (run_levels P cfg (maxCost cfg) init_state) as [[[]|e] st];
    cbn [fst snd max_level read_out results expr_count_total] in *.
  - destruct H as (_ & Hcomp & Hc).
    rewrite (completed_size _ _ Hn Hcomp). unfold maxCost in *.
    rewrite Z.min_id, Array_sort_Permutation. split_and!; [done|lia|done].
  - destruct H as (m & Hm & Hcomp & Hc).
    rewrite (completed_size m st) by (done || lia). unfold maxCost in *.
    rewrite Z.min_r by lia. rewrite Array_sort_Permutation.
    split_and!; [done|done|done].
Qed.

(** X8.  Every candidate returned has a finite value, has for error the
    distance [|target - v|] of its value to the target, and lies on the side
    kept: above [target + epsilon] when [keep_side] is ['greater'], below
    [target - epsilon] when it is ['less']. *)
Theorem X8_entries P cfg :
  Forall (λ c, is_finite (c_v c) = true ∧
               c_err c = abs (cfg_target cfg - c_v c) ∧
               (cfg_keep_side cfg = "greater" →
                (cfg_target cfg + epsilon cfg <? c_v c)%float = true) ∧
               (cfg_keep_side cfg = "less" →
                (c_v c <? cfg_target cfg - epsilon cfg)%float = true))
         (results (generateEnumerations P cfg)).
Proof.
  pose proof (run_levels_entries P cfg (maxCost cfg)) as H.
  unfold generateEnumerations.
  destruct (run_levels P cfg (maxCost cfg) init_state) as [r st].
  cbn [snd results read_out] in *. rewrite Array_sort_Permutation.
  eapply Forall_impl; [exact H|]. intros c (Hf & He & Hs). cbn beta.
  unfold side_pass, keepSide, target in Hs.
  apply andb_true_iff in Hs as [H1 H2]. apply negb_true_iff in H1, H2.
  split_and!; [done|done| |].
  - intros E. rewrite E in H1. cbn in H1. by apply negb_false_iff in H1.
  - intros E. rewrite E in H2. cbn in H2. by apply negb_false_iff in H2.
Qed.

(** X9.  A good entry is never lost: for every entry of the result set at
    the end of a completed level, the result set holds an entry with an
    error at most as large at every later point of the run, and so does the
    list returned. *)
Theorem X9_best_never_lost P cfg n n' st_n :
  is_nan (cfg_target cfg) = false → (0 ≤ n ≤ n')%Z →
  run_levels P cfg n init_state = (Ok tt, st_n) →
  best_kept (bestHeap st_n) (bestHeap (run_levels P cfg n' init_state).2) ∧
  (n' = cfg_max_cost cfg →
   best_kept (bestHeap st_n) (results (generateEnumerations P cfg))).
Proof.
  intros Ht Hn Hrun.
  assert (best_kept (bestHeap st_n) (bestHeap (run_levels P cfg n' init_state).2)) as Hb.
  { rewrite (run_levels_split P cfg n n') by done.
    rewrite bind_unfold, Hrun.
    pose proof (run_levels_errors_ok P cfg n Ht) as Hok. rewrite Hrun in Hok.
    eapply levels_keep_best; [done| |exact Hok].
    apply Forall_forall. intros c Hc%elem_of_seqZ. lia. }
  split; [done|]. intros ->.
  unfold generateEnumerations. unfold maxCost in *.
  destruct (run_levels P cfg (cfg_max_cost cfg) init_state) as [r st].
  cbn [snd results read_out] in *.
  intros c Hc. destruct (Hb c Hc) as (c' & Hc' & Hle). exists c'.
  by rewrite Array_sort_Permutation.
Qed.

(** X10.  With [keep_top] zero or negative nothing is returned; and when
    the first atom is on the side kept (and the first polls are within the
    budget), the search stops at it on the [TypeError] of reading the error
    of the worst entry of an empty heap: it returns no candidate, the count
    1 and the level 0, and the error is logged. *)
Theorem X10_no_room P cfg :
  (cfg_keep_top cfg ≤ 0)%Z →
  results (generateEnumerations P cfg) = [] ∧
  ((1 ≤ cfg_max_cost cfg)%Z → (1 ≤ cfg_N cfg)%Z → side_pass cfg 1 = true →
   (∀ i, 1 ≤ i ≤ 3 → over_budget P cfg i = false) →
   generateEnumerations P cfg = Output [] 1 0 (Some TypeError)).
Proof.
  intros HK. split; [|by apply first_atom_TypeError].
  pose proof (run_levels_no_room P cfg (maxCost cfg) HK) as H.
  unfold generateEnumerations.
  destruct (run_levels P cfg (maxCost cfg) init_state) as [r st].
  cbn [snd results read_out] in *. by rewrite H.
Qed.

(** ** Expressions as the enumerator builds them *)

Module Expr.

Inductive expr :=
  | Int (n : Z)
  | Named (name : string) (v : float)
  | Un (fname : string) (f : float → float) (e : expr)
  | Bin (opname : string) (op : float → float → float) (l r : expr).

Fixpoint text (t : expr) : string :=
  match t with
  | Int n => pretty (Num.ToInt32 n)
  | Named name _ => name
  | Un fname _ e => unary_text fname (text e)
  | Bin opname _ l r => binary_text (text l) opname (text r)
  end.

Fixpoint value (t : expr) : float :=
  match t with
  | Int n => Num.of_Z n
  | Named _ v => v
  | Un _ f e => safeEvalFunc f (value e)
  | Bin _ op l r => safeEvalBin op (value l) (value r)
  end.

Fixpoint cost (t : expr) : Z :=
  match t with
  | Int _ | Named _ _ => 1
  | Un _ _ e => cost e + 1
  | Bin _ _ l r => cost l + cost r + 1
  end.

(** Built from the atoms and the operators of a configuration, over
    operands of finite values. *)
Fixpoint built (P : Platform) (cfg : config) (t : expr) : Prop :=
  match t with
  | Int n => n ∈ numbers cfg
  | Named name v => (name, v) ∈ constants cfg
  | Un fname f e =>
      (fname, f) ∈ unaryFuncs P cfg ∧ built P cfg e ∧ is_finite (value e) = true
  | Bin opname op l r =>
      (opname, op) ∈ binaryOps P cfg ∧ built P cfg l ∧ built P cfg r ∧
      is_finite (value l) = true ∧ is_finite (value r) = true
  end.

Lemma cost_pos t : (1 ≤ cost t)%Z.
Proof. induction t; cbn [cost]; lia. Qed.

End Expr.

(** [(v, e)] is the value and the text of an expression of cost [c]. *)
Definition expresses (P : Platform) (cfg : config) (c : Z) (v : float) (e : string) : Prop :=
  ∃ t, Expr.built P cfg t ∧ Expr.cost t = c ∧ Expr.text t = e ∧ Expr.value t = v.

(** ** Following the expressions through a run *)

Section Track.
Variable P : Platform.
Variable cfg : config.
(** A bound on the costs, what holds of the result set, what holds of a
    memoised expression of a given cost, and what is known of an expression
    when it is considered. *)
Variable B : Z.
Variable J : state → Prop.
Variable Q : Z → state → item → Prop.
Variable Pre : Z → item → Prop.

Definition grows (st st' : state) : Prop := ∀ c it, Q c st it → Q c st' it.
Definition memo_ok (st : state) : Prop :=
  ∀ c l, memo st !! c = Some l → Forall (Q c st) l.
Definition stable (F : state → Prop) : Prop := ∀ st st', grows st st' → F st → F st'.

Hypothesis J_same : ∀ st st', same_results st st' → J st → J st'.
Hypothesis Q_same : ∀ st st', same_results st st' → grows st st'.
Hypothesis considered : ∀ c v e st,
  (c ≤ B)%Z → J st → Pre c (Item v e) →
  J (considerValue cfg v e st).2 ∧ grows st (considerValue cfg v e st).2 ∧
  ((considerValue cfg v e st).1 = Ok tt → Q c (considerValue cfg v e st).2 (Item v e)).
Hypothesis Pre_atom : ∀ n,
  n ∈ numbers cfg → Pre 1 (Item (Num.of_Z n) (pretty (Num.ToInt32 n))).
Hypothesis Pre_const : ∀ c, c ∈ constants cfg → Pre 1 (Item c.2 c.1).
Hypothesis Pre_unary : ∀ k st it fname f,
  Q k st it → Num.isFiniteNumber (it_v it) = true → (fname, f) ∈ unaryFuncs P cfg →
  Pre (k + 1) (Item (safeEvalFunc f (it_v it)) (unary_text fname (it_expr it))).
Hypothesis Pre_binary : ∀ a b st L R opname op,
  Q a st L → Q b st R →
  Num.isFiniteNumber (it_v L) = true → Num.isFiniteNumber (it_v R) = true →
  (opname, op) ∈ binaryOps P cfg →
  Pre (a + b + 1) (Item (safeEvalBin op (it_v L) (it_v R))
                        (binary_text (it_expr L) opname (it_expr R))).

Definition good (cost : Z) (F : state → Prop) (acc : list item) (st : state) : Prop :=
  J st ∧ memo_ok st ∧ F st ∧ Forall (Q cost st) acc.
Definition bad (F : state → Prop) (st : state) : Prop := J st ∧ memo_ok st ∧ F st.

Lemma grows_refl st : grows st st.
Proof. by intros c it. Qed.

Lemma grows_trans st1 st2 st3 : grows st1 st2 → grows st2 st3 → grows st1 st3.
Proof. intros H1 H2 c it H. auto. Qed.

Lemma memo_ok_step st st' :
  grows st st' → memo st' = memo st → memo_ok st → memo_ok st'.
Proof.
  intros Hg Hm Hok c l Hl. rewrite Hm in Hl.
  eapply Forall_impl; [by eapply Hok|]. intros it. apply Hg.
Qed.

Lemma stable_and F G : stable F → stable G → stable (λ st, F st ∧ G st).
Proof. intros HF HG st st' Hg [H1 H2]. split; eauto. Qed.

Lemma stable_Forall c l : stable (λ st, Forall (Q c st) l).
Proof. intros st st' Hg H. eapply Forall_impl; [exact H|]. intros it. apply Hg. Qed.

Lemma stable_True : stable (λ _, True).
Proof. by intros st st' _ _. Qed.

Lemma good_step cost F acc st st' :
  stable F → J st' → grows st st' → memo st' = memo st →
  good cost F acc st → good cost F acc st'.
Proof.
  intros HF HJ Hg Hm (_ & Hmo & Hf & Hacc). split_and!.
  - done.
  - by eapply memo_ok_step.
  - by eapply HF.
  - by eapply stable_Forall.
Qed.

Lemma good_bad cost F acc st : good cost F acc st → bad F st.
Proof. intros (H1 & H2 & H3 & _). by split_and!. Qed.

Lemma timeCheck_good cost F acc :
  stable F →
  triple (good cost F acc) (timeCheck P cfg) (λ _, good cost F acc) (bad F).
Proof.
  intros HF st Hg.
  assert (good cost F acc (timeCheck P cfg st).2) as Hg'.
  { pose proof (timeCheck_same P cfg st) as Hs.
    apply (good_step cost F acc st); [done| | |apply timeCheck_memo|done].
    - apply (J_same st); [done|]. by destruct Hg.
    - by apply Q_same. }
  destruct (timeCheck P cfg st) as [[[]|e] st']; cbn [snd] in Hg'; [done|].
  by eapply good_bad.
Qed.

Lemma emit_good cost F acc v e :
  (cost ≤ B)%Z → stable F →
  (∀ st, good cost F acc st → Pre cost (Item v e)) →
  triple (good cost F acc) (emit cfg acc v e) (good cost F) (bad F).
Proof.
  intros Hc HF Hpre st Hg. unfold emit. rewrite bind_unfold.
  destruct (considered cost v e st Hc) as (HJ & Hgr & HQ); [by destruct Hg|by eapply Hpre|].
  pose proof (considerValue_memo cfg v e st) as Hm.
  pose proof (good_step cost F acc st _ HF HJ Hgr Hm Hg) as Hg'.
  destruct (considerValue cfg v e st) as [[[]|ex] st']; cbn [fst snd] in *.
  - destruct Hg' as (H1 & H2 & H3 & H4). unfold mret, M_ret. split_and!; try done.
    apply Forall_app. split; [done|]. constructor; [by apply HQ|constructor].
  - by eapply good_bad.
Qed.

Lemma atom_step_good F acc n :
  (1 ≤ B)%Z → stable F → n ∈ numbers cfg →
  triple (good 1 F acc) (atom_step P cfg acc n) (good 1 F) (bad F).
Proof.
  intros HB HF Hn.
  eapply triple_bind; [by apply timeCheck_good|]. intros ?; cbv beta.
  apply emit_good; [done|done|]. intros st _. by apply Pre_atom.
Qed.

Lemma const_step_good F acc c :
  (1 ≤ B)%Z → stable F → c ∈ constants cfg →
  triple (good 1 F acc) (const_step P cfg acc c) (good 1 F) (bad F).
Proof.
  intros HB HF Hn.
  eapply triple_bind; [by apply timeCheck_good|]. intros ?; cbv beta.
  apply emit_good; [done|done|]. intros st _. by apply Pre_const.
Qed.

Lemma unary_step_good cost F acc it uf :
  (cost ≤ B)%Z → stable F → uf ∈ unaryFuncs P cfg →
  Num.isFiniteNumber (it_v it) = true →
  (∀ st, F st → Q (cost - 1) st it) →
  triple (good cost F acc) (unary_step cfg it acc uf) (good cost F) (bad F).
Proof.
  intros Hc HF Hin Hfin Hit. destruct uf as [fname f]. unfold unary_step.
  repeat (apply triple_if; [by apply triple_ret|]).
  apply emit_good; [done|done|]. intros st (_ & _ & Hf & _).
  replace cost with (cost - 1 + 1)%Z by lia. eapply Pre_unary; eauto.
Qed.

Lemma unary_expand_good cost F acc it :
  (cost ≤ B)%Z → stable F →
  (∀ st, F st → Q (cost - 1) st it) →
  triple (good cost F acc) (unary_expand P cfg acc it) (good cost F) (bad F).
Proof.
  intros Hc HF Hit.
  eapply triple_bind; [by apply timeCheck_good|]. intros ?; cbv beta.
  destruct (Num.isFiniteNumber (it_v it)) eqn:Hfin; cbn [negb]; [|by apply triple_ret].
  apply triple_foldM. intros acc' uf Huf. by apply unary_step_good.
Qed.

Lemma binary_step_good cost a b F acc L R bo :
  (a + b + 1 = cost)%Z → (cost ≤ B)%Z → stable F → bo ∈ binaryOps P cfg →
  Num.isFiniteNumber (it_v L) = true → Num.isFiniteNumber (it_v R) = true →
  (∀ st, F st → Q a st L) → (∀ st, F st → Q b st R) →
  triple (good cost F acc) (binary_step cfg L R acc bo) (good cost F) (bad F).
Proof.
  intros Hab Hc HF Hin HfL HfR HL HR. destruct bo as [opname op]. unfold binary_step.
  apply triple_if; [by apply triple_ret|].
  eapply triple_bind with (mid := good cost F).
  - apply triple_if; [|by apply triple_ret].
    apply emit_good; [done|done|]. intros st (_ & _ & Hf & _).
    rewrite <- Hab. eapply Pre_binary; eauto.
  - intros r. apply triple_if; [|by apply triple_ret].
    apply emit_good; [done|done|]. intros st (_ & _ & Hf & _).
    replace cost with (b + a + 1)%Z by lia. eapply Pre_binary; eauto.
Qed.

Lemma pair_step_good cost a b F acc L R :
  (a + b + 1 = cost)%Z → (cost ≤ B)%Z → stable F →
  (∀ st, F st → Q a st L) → (∀ st, F st → Q b st R) →
  triple (good cost F acc) (pair_step P cfg L acc R) (good cost F) (bad F).
Proof.
  intros Hab Hc HF HL HR.
  eapply triple_bind; [by apply timeCheck_good|]. intros ?; cbv beta.
  destruct (Num.isFiniteNumber (it_v L)) eqn:HfL; cbn [negb orb]; [|by apply triple_ret].
  destruct (Num.isFiniteNumber (it_v R)) eqn:HfR; cbn [negb orb]; [|by apply triple_ret].
  apply triple_foldM. intros acc' bo Hbo. by eapply binary_step_good.
Qed.

Lemma left_step_good cost a b F acc rightArr L :
  (a + b + 1 = cost)%Z → (cost ≤ B)%Z → stable F →
  (∀ st, F st → Q a st L) → (∀ st, F st → Forall (Q b st) rightArr) →
  triple (good cost F acc) (left_step P cfg rightArr acc L) (good cost F) (bad F).
Proof.
  intros Hab Hc HF HL HR.
  eapply triple_bind; [by apply timeCheck_good|]. intros ?; cbv beta.
  apply triple_foldM. intros acc' R HRin. eapply pair_step_good; eauto.
  intros st Hf. specialize (HR st Hf). rewrite Forall_forall in HR. by apply HR.
Qed.

Lemma memo_set_good cost F r :
  stable F →
  triple (good cost F r) (modify (memo_set cost r);; mret r)
         (λ r st, bad F st ∧ Forall (Q cost st) r) (bad F).
Proof.
  intros HF st (HJ & Hmo & Hf & Hr). rewrite bind_unfold. unfold modify, mret, M_ret.
  assert (same_results st (memo_set cost r st)) as Hs by done.
  pose proof (Q_same _ _ Hs) as Hg.
  split; [split_and!|].
  - by apply (J_same st).
  - intros c l. cbn [memo memo_set].
    destruct (decide (c = cost)) as [->|Hne].
    + rewrite lookup_insert_eq. intros [= <-]. by eapply stable_Forall.
    + rewrite lookup_insert_ne by done. intros Hl.
      eapply stable_Forall; [exact Hg|]. by eapply Hmo.
  - by eapply HF.
  - by eapply stable_Forall.
Qed.

Lemma enumerateCost_good depth cost F :
  (cost ≤ B)%Z → stable F →
  triple (bad F) (enumerateCost P cfg depth cost)
         (λ r st, bad F st ∧ Forall (Q cost st) r) (bad F).
Proof.
  revert cost F. induction depth as [|depth IH]; intros cost F Hc HF; [by intros st H|].
  cbn [enumerateCost]. intros st Hbad. rewrite bind_unfold. unfold get_state.
  destruct (stopped st); [by split|].
  destruct (memo st !! cost) as [r|] eqn:Hm.
  { split; [done|]. destruct Hbad as (_ & Hmo & _). by eapply Hmo. }
  revert st Hbad Hm.
  assert (triple (bad F)
    (timeCheck P cfg ≫= λ _,
       if (cost =? 1)%Z then
         results ← foldM (atom_step P cfg) (numbers cfg) [];
         results ← foldM (const_step P cfg) (constants cfg) results;
         modify (memo_set cost results);; mret results
       else
         prev ← enumerateCost P cfg depth (cost - 1);
         results ← foldM (unary_expand P cfg) prev [];
         results ←
           foldM (λ results a_cost,
                    let b_cost := (cost - 1 - a_cost)%Z in
                    leftArr ← enumerateCost P cfg depth a_cost;
                    rightArr ← enumerateCost P cfg depth b_cost;
                    foldM (left_step P cfg rightArr) leftArr results)
                 (seqZ 1 (cost - 2)) results;
         modify (memo_set cost results);; mret results)
    (λ r st, bad F st ∧ Forall (Q cost st) r) (bad F)) as Hbody; [|by intros st Hb _; apply Hbody].
  assert (∀ st, bad F st → good cost F [] st) as Hstart.
  { unfold good, bad; intros; destruct_and!; split_and!; done. }
  eapply triple_bind.
  { eapply triple_weaken; [apply (timeCheck_good cost F []); done|exact Hstart|done|done]. }
  intros ?; cbv beta.
  destruct (cost =? 1)%Z eqn:E.
  - apply Z.eqb_eq in E. subst cost.
    eapply triple_bind;
      [apply triple_foldM; intros acc n Hn; by apply atom_step_good|].
    intros r1. eapply triple_bind;
      [apply triple_foldM; intros acc n Hn; by apply const_step_good|].
    intros r2. by apply memo_set_good.
  - (* the unary applications over the level below *)
    eapply triple_bind with
      (mid := λ prev st, good cost (λ st, F st ∧ Forall (Q (cost - 1) st) prev) [] st).
    { eapply triple_weaken; [apply (IH (cost - 1)%Z F); [lia|done]|..].
      - intros st Hg. by eapply good_bad.
      - unfold good, bad; intros; destruct_and!; split_and!; done.
      - done. }
    intros prev.
    assert (stable (λ st, F st ∧ Forall (Q (cost - 1) st) prev)) as HF1
      by (apply stable_and; [done|apply stable_Forall]).
    eapply triple_bind with (mid := good cost F).
    { eapply triple_weaken with
        (post' := good cost (λ st, F st ∧ Forall (Q (cost - 1) st) prev))
        (epost' := bad (λ st, F st ∧ Forall (Q (cost - 1) st) prev)).
      - apply triple_foldM. intros acc it Hit. apply unary_expand_good; [done|done|].
        intros st [_ Hp]. rewrite Forall_forall in Hp. by apply Hp.
      - done.
      - unfold good, bad; intros; destruct_and!; split_and!; done.
      - unfold good, bad; intros; destruct_and!; split_and!; done. }
    intros r1. eapply triple_bind; [|intros r2; by apply memo_set_good].
    (* the binary combinations *)
    apply triple_foldM. intros acc a_cost Ha%elem_of_seqZ. cbv zeta.
    assert (stable (λ st, F st ∧ Forall (Q cost st) acc)) as HF2
      by (apply stable_and; [done|apply stable_Forall]).
    eapply triple_bind with
      (mid := λ leftArr st,
         bad (λ st, (F st ∧ Forall (Q cost st) acc) ∧ Forall (Q a_cost st) leftArr) st).
    { eapply triple_weaken; [apply (IH a_cost _ ltac:(lia) HF2)|..].
      - unfold good, bad; intros; destruct_and!; split_and!; done.
      - unfold good, bad; intros; destruct_and!; split_and!; done.
      - unfold good, bad; intros; destruct_and!; split_and!; done. }
    intros leftArr.
    assert (stable (λ st, (F st ∧ Forall (Q cost st) acc) ∧ Forall (Q a_cost st) leftArr))
      as HF3 by (apply stable_and; [done|apply stable_Forall]).
    eapply triple_bind with
      (mid := λ rightArr st,
         good cost (λ st, F st ∧ Forall (Q a_cost st) leftArr ∧
                          Forall (Q (cost - 1 - a_cost) st) rightArr) acc st).
    { eapply triple_weaken; [apply (IH (cost - 1 - a_cost)%Z _ ltac:(lia) HF3)|..].
      - done.
      - unfold good, bad; intros; destruct_and!; split_and!; done.
      - unfold good, bad; intros; destruct_and!; split_and!; done. }
    intros rightArr.
    assert (stable (λ st, F st ∧ Forall (Q a_cost st) leftArr ∧
                          Forall (Q (cost - 1 - a_cost) st) rightArr)) as HF4
      by (repeat apply stable_and; try done; apply stable_Forall).
    eapply triple_weaken with
      (post' := good cost (λ st, F st ∧ Forall (Q a_cost st) leftArr ∧
                                 Forall (Q (cost - 1 - a_cost) st) rightArr))
      (epost' := bad (λ st, F st ∧ Forall (Q a_cost st) leftArr ∧
                            Forall (Q (cost - 1 - a_cost) st) rightArr)).
    + apply triple_foldM. intros acc' L HL.
      apply (left_step_good cost a_cost (cost - 1 - a_cost)%Z); [lia|done|done| |].
      * intros st (_ & Hl & _). rewrite Forall_forall in Hl. by apply Hl.
      * by intros st (_ & _ & Hr).
    + done.
    + unfold good, bad; intros; destruct_and!; split_and!; done.
    + unfold good, bad; intros; destruct_and!; split_and!; done.
Qed.

Lemma level_good cost :
  (cost ≤ B)%Z →
  triple (bad (λ _, True)) (level P cfg cost) (λ _, bad (λ _, True)) (bad (λ _, True)).
Proof.
  intros Hc. unfold level.
  assert (∀ st st', same_results st st' → memo st' = memo st →
            bad (λ _, True) st → bad (λ _, True) st') as Hsame.
  { intros st st' Hs Hm (H1 & H2 & _). split_and!; [by eapply J_same| |done].
    eapply memo_ok_step; [by apply Q_same|done|done]. }
  eapply triple_bind with (mid := λ _, bad (λ _, True)).
  { intros st Hb. pose proof (Hsame st _ (timeCheck_same P cfg st) (timeCheck_memo P cfg st) Hb).
    by destruct (timeCheck P cfg st) as [[[]|e] st']. }
  intros ?. eapply triple_bind with (mid := λ _, bad (λ _, True)).
  { eapply triple_weaken; [apply (enumerateCost_good _ cost _ Hc stable_True)|done| |done].
    by intros r st [H _]. }
  intros ?. intros st Hb. rewrite !bind_unfold. unfold nowSec, get_state, modify.
  by apply (Hsame st).
Qed.

Lemma run_levels_good n st :
  (n ≤ B)%Z → J st → memo_ok st →
  J (run_levels P cfg n st).2 ∧ memo_ok (run_levels P cfg n st).2.
Proof.
  intros Hn HJ Hmo.
  assert (triple (bad (λ _, True)) (run_levels P cfg n)
            (λ _, bad (λ _, True)) (bad (λ _, True))) as H.
  { unfold run_levels. apply (triple_foldM _ _ _ (λ _, bad (λ _, True))).
    intros [] cost Hc%elem_of_seqZ. apply level_good. lia. }
  specialize (H st). destruct (run_levels P cfg n st) as [[[]|e] st'];
    cbn [snd]; destruct H as (H1 & H2 & _); done.
Qed.

End Track.

(** ** Every expression kept is one the configuration allows *)

Lemma run_levels_expresses P cfg :
  Forall (λ c, ∃ k, (k ≤ maxCost cfg)%Z ∧ expresses P cfg k (c_v c) (c_expr c))
         (bestHeap (run_levels P cfg (maxCost cfg) init_state).2) ∧
  ∀ k l, memo (run_levels P cfg (maxCost cfg) init_state).2 !! k = Some l →
         Forall (λ it, expresses P cfg k (it_v it) (it_expr it)) l.
Proof.
  apply (run_levels_good P cfg (maxCost cfg)
           (λ st, Forall (λ c, ∃ k, (k ≤ maxCost cfg)%Z ∧
                                    expresses P cfg k (c_v c) (c_expr c)) (bestHeap st))
           (λ k _ it, expresses P cfg k (it_v it) (it_expr it))
           (λ k it, expresses P cfg k (it_v it) (it_expr it))).
  - intros st st' [Hh _]. by rewrite Hh.
  - by intros st st' _ c it.
  - intros c v e st Hc HJ Hpre. split_and!; [|by intros c' it|done].
    assert (∃ k, (k ≤ maxCost cfg)%Z ∧ expresses P cfg k v e) as Hnew by eauto.
    destruct (considerValue_cases cfg v e st)
      as [-> | [-> | [(_ & _ & _ & ->) | [(w & rest & _ & _ & _ & Hh & _ & ->) | (_ & _ & ->)]]]];
      cbn [snd set_bestHeap bestHeap]; try done.
    + rewrite HeapFacts.push_Permutation. by constructor.
    + rewrite Hh in *. rewrite HeapFacts.replace_Permutation.
      apply Forall_cons in HJ as [_ Hrest]. by constructor.
  - intros n Hn. by exists (Expr.Int n).
  - intros [name v] Hc. by exists (Expr.Named name v).
  - intros k st it fname f (t & Hb & Hk & Ht & Hv) Hfin Hin.
    exists (Expr.Un fname f t). cbn. unfold Num.isFiniteNumber in Hfin.
    rewrite Hk, Ht, Hv. by split_and!.
  - intros a b st L R opname op (tl & Hbl & Hkl & Htl & Hvl) (tr & Hbr & Hkr & Htr & Hvr)
      HfL HfR Hin.
    exists (Expr.Bin opname op tl tr). cbn. unfold Num.isFiniteNumber in *.
    rewrite Hkl, Hkr, Htl, Htr, Hvl, Hvr. by split_and!.
  - lia.
  - constructor.
  - intros c l. unfold init_state. cbn [memo]. by rewrite lookup_empty.
Qed.

(** X11.  Every candidate returned, and every expression of the memo
    table, is the text and the value of an expression tree built from the
    integers 1..[N], the named constants, the enabled unary functions and the
    binary operators, evaluated through [safeEvalFunc] and [safeEvalBin]; the
    tree of an expression memoised at level [k] has cost [k], and the tree of
    a candidate has a cost between 1 and [max_cost]. *)
Theorem X11_expressions_sound P cfg :
  Forall (λ c, ∃ t, Expr.built P cfg t ∧
                    (1 ≤ Expr.cost t ≤ cfg_max_cost cfg)%Z ∧
                    Expr.text t = c_expr c ∧ Expr.value t = c_v c)
         (results (generateEnumerations P cfg)) ∧
  ∀ k l, memo (run_levels P cfg (maxCost cfg) init_state).2 !! k = Some l →
         Forall (λ it, ∃ t, Expr.built P cfg t ∧ Expr.cost t = k ∧
                            Expr.text t = it_expr it ∧ Expr.value t = it_v it) l.
Proof.
  destruct (run_levels_expresses P cfg) as [Hh Hm]. split; [|exact Hm].
  unfold generateEnumerations.
  destruct (run_levels P cfg (maxCost cfg) init_state) as [r st].
  cbn [snd results read_out] in *. rewrite Array_sort_Permutation.
  eapply Forall_impl; [exact Hh|]. intros c (k & Hk & t & Hb & Hc & Ht & Hv).
  exists t. pose proof (Expr.cost_pos t). unfold maxCost in *. split_and!; try done; lia.
Qed.

(** ** The 17 digits of a double determine it *)

Module Digits.

Local Open Scope Z_scope.

(** The exponents of ten are shifted by [A] so that all of them are
    natural numbers; the doubles are the integers [X] over [2^1074]. *)
Definition A : Z := 400.
Definition unit : Z := 2 ^ 1074.

(** [10^k <= num/den] *)
Definition above (num den k : Z) : Prop := den * 10 ^ (A + k) <= num * 10 ^ A.

(** The integer of a double: [m * 2^e = scaled m e / 2^1074]. *)
Definition scaled (m : positive) (e : Z) : Z := Z.pos m * 2 ^ (e + 1074).

(** [floor (X * 10^(16-k) / 2^1074 + 1/2)] *)
Definition rounded (X k : Z) : Z :=
  (2 * (X * 10 ^ (A + 16 - k)) + unit * 10 ^ A) / (2 * (unit * 10 ^ A)).

(** The estimate of the decimal exponent from the binary one. *)
Definition est (b : Z) : Z := (b * 30103) / 100000.

Lemma pow10_pos a : 0 <= a → 0 < 10 ^ a.
Proof. intros. by apply Z.pow_pos_nonneg. Qed.

Lemma pow2_pos a : 0 <= a → 0 < 2 ^ a.
Proof. intros. by apply Z.pow_pos_nonneg. Qed.

Lemma unit_pos : 0 < unit.
Proof. by apply pow2_pos. Qed.

Lemma A_nonneg : 0 <= A.
Proof. done. Qed.

Lemma A_eq : A = 400.
Proof. done. Qed.

Lemma unit_eq : unit = 2 ^ 1074.
Proof. done. Qed.

Global Opaque A unit.

Lemma lt_pow10_spec num den k :
  0 < num → 0 < den → - A <= k →
  Num.lt_pow10 num den k = true ↔ ¬ above num den k.
Proof.
  intros Hn Hd Hk. unfold Num.lt_pow10, above.
  pose proof A_nonneg as HA.
  destruct (Z.leb_spec 0 k) as [H0|H0].
  - rewrite Z.ltb_lt, Z.pow_add_r by lia.
    pose proof (pow10_pos A HA). pose proof (pow10_pos k H0).
    generalize dependent (10 ^ A). generalize dependent (10 ^ k). intros Q HQ P HP.
    split; intros H; nia.
  - rewrite Z.ltb_lt.
    replace A with (- k + (A + k)) at 2 by lia. rewrite (Z.pow_add_r 10 (- k)) by lia.
    pose proof (pow10_pos (- k) ltac:(lia)). pose proof (pow10_pos (A + k) ltac:(lia)).
    generalize dependent (10 ^ (- k)). generalize dependent (10 ^ (A + k)). intros T HT R HR.
    split; intros H; nia.
Qed.

Lemma above_mono num den k k' :
  0 < num → 0 < den → - A <= k' <= k → above num den k → above num den k'.
Proof.
  intros Hn Hd Hk. unfold above. intros H.
  etrans; [|exact H]. apply Z.mul_le_mono_nonneg_l; [lia|].
  apply Z.pow_le_mono_r; lia.
Qed.

(** The decimal exponent: [10^k <= num/den < 10^(k+1)]. *)
Definition decade (num den k : Z) : Prop := above num den k ∧ ¬ above num den (k + 1).

Lemma decade_unique num den k k' :
  0 < num → 0 < den → - A <= k → - A <= k' →
  decade num den k → decade num den k' → k = k'.
Proof.
  intros Hn Hd Hk Hk' [H1 H2] [H1' H2'].
  destruct (Z.lt_trichotomy k k') as [Hlt|[->|Hgt]]; [|done|].
  - destruct H2. apply (above_mono num den k'); [done|done|lia|done].
  - destruct H2'. apply (above_mono num den k); [done|done|lia|done].
Qed.

Lemma floor_log10_spec fuel num den k0 kt :
  0 < num → 0 < den → - A <= kt → - A <= k0 - Z.of_nat fuel →
  decade num den kt → Z.abs (k0 - kt) < Z.of_nat fuel →
  Num.floor_log10 fuel num den k0 = kt.
Proof.
  intros Hn Hd Hkt. revert k0.
  induction fuel as [|fuel IH]; intros k0 Hk0 [Ha Hb] Hdist; [lia|].
  cbn [Num.floor_log10].
  destruct (Num.lt_pow10 num den k0) eqn:E1.
  { apply lt_pow10_spec in E1; [|done|done|lia].
    assert (kt < k0).
    { destruct (Z.lt_ge_cases kt k0) as [|Hge]; [done|].
      destruct E1. apply (above_mono num den kt); [done|done|lia|done]. }
    apply IH; [lia|done|lia]. }
  assert (above num den k0) as Ha0.
  { destruct (Z_le_dec (den * 10 ^ (A + k0)) (num * 10 ^ A)) as [H|H]; [done|].
    apply lt_pow10_spec in H; [congruence|done|done|lia]. }
  destruct (Num.lt_pow10 num den (k0 + 1)) eqn:E2.
  { apply lt_pow10_spec in E2; [|done|done|lia].
    apply (decade_unique num den); [done|done|lia|done|by split|by split]. }
  assert (above num den (k0 + 1)) as Ha1.
  { destruct (Z_le_dec (den * 10 ^ (A + (k0 + 1))) (num * 10 ^ A)) as [H|H]; [done|].
    apply lt_pow10_spec in H; [congruence|done|done|lia]. }
  assert (k0 < kt).
  { destruct (Z.lt_ge_cases k0 kt) as [|Hge]; [done|].
    destruct Hb. apply (above_mono num den (k0 + 1)); [done|done|lia|done]. }
  apply IH; [lia|done|lia].
Qed.

(** *** From the fraction of the code to the integer over [2^1074] *)

Lemma above_scale num den X k :
  0 < den → num * unit = X * den → above num den k ↔ above X unit k.
Proof.
  intros Hd Hx. unfold above. pose proof unit_pos as Hu.
  generalize dependent (10 ^ (A + k)). generalize dependent (10 ^ A). intros P T.
  split; intros H.
  - apply (Z.mul_le_mono_pos_l _ _ den); [done|].
    replace (den * (unit * T)) with ((den * T) * unit) by lia.
    replace (den * (X * P)) with ((num * unit) * P) by (rewrite Hx; lia).
    replace (num * unit * P) with ((num * P) * unit) by lia.
    by apply Z.mul_le_mono_nonneg_r; [lia|].
  - apply (Z.mul_le_mono_pos_r _ _ unit); [done|].
    replace (num * P * unit) with ((num * unit) * P) by lia. rewrite Hx.
    replace (den * T * unit) with (den * (unit * T)) by lia.
    replace (X * den * P) with (den * (X * P)) by lia.
    by apply Z.mul_le_mono_nonneg_l; [lia|].
Qed.

Lemma div_cross a1 b1 a2 b2 c1 c2 :
  0 < b1 → 0 < b2 → 0 < c1 → 0 < c2 →
  a1 * c1 = a2 * c2 → b1 * c1 = b2 * c2 → a1 / b1 = a2 / b2.
Proof.
  intros Hb1 Hb2 Hc1 Hc2 Ha Hb.
  rewrite <- (Z.div_mul_cancel_r a1 b1 c1) by lia.
  rewrite <- (Z.div_mul_cancel_r a2 b2 c2) by lia.
  by rewrite Ha, Hb.
Qed.

Lemma code_fraction m e :
  -1074 <= e →
  let num := if (0 <=? e) then Z.pos m * 2 ^ e else Z.pos m in
  let den := if (0 <=? e) then 1 else 2 ^ (- e) in
  0 < num ∧ 0 < den ∧ num * unit = scaled m e * den.
Proof.
  intros He. cbv zeta. unfold scaled. rewrite unit_eq.
  destruct (Z.leb_spec 0 e) as [H0|H0].
  - pose proof (pow2_pos e H0). split_and!; [lia|lia|].
    rewrite Z.pow_add_r by lia. lia.
  - pose proof (pow2_pos (- e) ltac:(lia)). split_and!; [lia|lia|].
    replace 1074 with ((e + 1074) + - e) at 1 by lia.
    rewrite (Z.pow_add_r 2 (e + 1074)) by lia. lia.
Qed.

(** *** The estimate is within one of the decimal exponent *)

(** [10^(est b - 1) <= 2^b] and [2^(b+1) <= 10^(est b + 2)], over integers. *)
Definition est_ok (b : Z) : Prop :=
  unit * 10 ^ (est b + 324) <= 2 ^ (b + 1074) * 10 ^ 325 ∧
  2 * (2 ^ (b + 1074) * 10 ^ 325) <= 1000 * (unit * 10 ^ (est b + 324)).

(** The check of [est_ok] for [n] binary exponents from [b] on, [L] and [R]
    being the two sides for [b]. *)
Fixpoint walk (n : nat) (b L R : Z) : bool :=
  match n with
  | O => true
  | S n' =>
      (L <=? R) && (2 * R <=? 1000 * L) &&
      (if est (b + 1) =? est b then walk n' (b + 1) L (2 * R)
       else if est (b + 1) =? est b + 1 then walk n' (b + 1) (10 * L) (2 * R)
       else false)
  end.

Lemma walk_sound n b L R :
  0 <= b + 1074 → 0 <= est b + 324 →
  L = unit * 10 ^ (est b + 324) → R = 2 ^ (b + 1074) * 10 ^ 325 →
  walk n b L R = true → ∀ j, 0 <= j < Z.of_nat n → est_ok (b + j).
Proof.
  revert b L R. induction n as [|n IH]; intros b L R Hb He HL HR Hw j Hj; [lia|].
  cbn [walk] in Hw. apply andb_true_iff in Hw as [Hw Hrest].
  apply andb_true_iff in Hw as [H1 H2]. apply Z.leb_le in H1, H2.
  destruct (Z.eq_dec j 0) as [->|Hj0].
  { rewrite Z.add_0_r. unfold est_ok. rewrite <- HL, <- HR. done. }
  replace (b + j) with ((b + 1) + (j - 1)) by lia.
  assert (2 * R = 2 ^ (b + 1 + 1074) * 10 ^ 325) as HR'.
  { rewrite HR. replace (b + 1 + 1074) with (1 + (b + 1074)) by lia.
    rewrite (Z.pow_add_r 2 1) by lia. lia. }
  destruct (Z.eqb_spec (est (b + 1)) (est b)) as [E|E].
  - apply (IH (b + 1) L (2 * R)); [lia|lia|by rewrite E|done|done|lia].
  - destruct (Z.eqb_spec (est (b + 1)) (est b + 1)) as [E'|E']; [|done].
    apply (IH (b + 1) (10 * L) (2 * R)); [lia|lia| |done|done|lia].
    rewrite HL, E'. replace (est b + 1 + 324) with (1 + (est b + 324)) by lia.
    rewrite (Z.pow_add_r 10 1) by lia. lia.
Qed.

Lemma est_ok_all b : -1074 <= b <= 1023 → est_ok b.
Proof.
  intros Hb.
  assert (walk 2098 (-1074) (2 ^ 1074) (10 ^ 325) = true) as H by (vm_compute; reflexivity).
  replace b with (-1074 + (b + 1074)) by lia.
  assert (est (-1074) + 324 = 0) as E0 by reflexivity.
  apply (walk_sound 2098 (-1074) (2 ^ 1074) (10 ^ 325)).
  - lia.
  - rewrite E0. lia.
  - rewrite E0, unit_eq, Z.pow_0_r, Z.mul_1_r. reflexivity.
  - change (-1074 + 1074) with 0. rewrite Z.pow_0_r, Z.mul_1_l. reflexivity.
  - exact H.
  - change (Z.of_nat 2098) with 2098. lia.
Qed.

Lemma est_bounds b : -1074 <= b <= 1023 → -324 <= est b <= 308.
Proof.
  intros Hb. unfold est. split.
  - apply Z.div_le_lower_bound; lia.
  - apply Z.lt_succ_r. apply Z.div_lt_upper_bound; lia.
Qed.

Lemma binary_exponent m e :
  valid_binary (S754_finite false m e) = true →
  let b := Z.pos (digits2_pos m) + e - 1 in
  -1074 <= b <= 1023 ∧ 2 ^ (b + 1074) <= scaled m e < 2 ^ (b + 1075).
Proof.
  intros Hv. cbv zeta.
  pose proof (Dbl.digits2_pos_bounds m) as [Hlo Hhi].
  pose proof (Dbl.valid_finite_bounds _ _ _ Hv) as (He & Hm & _).
  assert (Z.pos (digits2_pos m) <= 53) as Hd.
  { destruct (Z.le_gt_cases (Z.pos (digits2_pos m)) 53) as [|Hgt]; [done|].
    assert (2 ^ 53 <= 2 ^ (Z.pos (digits2_pos m) - 1)) by (apply Z.pow_le_mono_r; lia).
    lia. }
  assert (bounded prec emax m e = true) as Hbd.
  { unfold SpecFloat.valid_binary in Hv. done. }
  assert (e <= 971 - (53 - Z.pos (digits2_pos m)) ∨ True) as _ by (by right).
  unfold scaled. split.
  - split; [lia|].
    (* e <= emax - prec, and the mantissa is canonical *)
    unfold bounded, canonical_mantissa in Hbd.
    apply andb_true_iff in Hbd as [Hc Hle]. apply Z.eqb_eq in Hc. apply Z.leb_le in Hle.
    rewrite Dbl.fexp64_eq in Hc. change (emax - prec) with 971 in Hle. lia.
  - pose proof (pow2_pos (e + 1074) ltac:(lia)) as Hp.
    replace (Z.pos (digits2_pos m) + e - 1 + 1074) with
      ((Z.pos (digits2_pos m) - 1) + (e + 1074)) by lia.
    replace (Z.pos (digits2_pos m) + e - 1 + 1075) with
      (Z.pos (digits2_pos m) + (e + 1074)) by lia.
    rewrite (Z.pow_add_r 2 (Z.pos (digits2_pos m) - 1)) by lia.
    rewrite (Z.pow_add_r 2 (Z.pos (digits2_pos m))) by lia. split.
    + apply Z.mul_le_mono_nonneg_r; lia.
    + apply Zmult_lt_compat_r; lia.
Qed.

Lemma decade_exists m e :
  valid_binary (S754_finite false m e) = true →
  ∃ k, decade (scaled m e) unit k ∧
       Z.abs (est (Z.pos (digits2_pos m) + e - 1) - k) <= 1 ∧ -325 <= k <= 309.
Proof.
  intros Hv. destruct (binary_exponent m e Hv) as [Hb [Hlo Hhi]].
  set (b := Z.pos (digits2_pos m) + e - 1) in *.
  pose proof (est_ok_all b Hb) as [H1 H2]. pose proof (est_bounds b Hb) as He.
  pose proof unit_pos as Hu.
  assert (10 ^ A = 10 ^ 325 * 10 ^ 75) as EA.
  { rewrite A_eq, <- Z.pow_add_r by lia. done. }
  assert (10 ^ (A + (est b - 1)) = 10 ^ (est b + 324) * 10 ^ 75) as E1.
  { rewrite A_eq, <- Z.pow_add_r by lia. f_equal. lia. }
  assert (10 ^ (A + (est b + 2)) = 1000 * 10 ^ (est b + 324) * 10 ^ 75) as E2.
  { rewrite A_eq. change 1000 with (10 ^ 3). rewrite <- !Z.pow_add_r by lia. f_equal. lia. }
  assert (2 ^ (b + 1075) = 2 * 2 ^ (b + 1074)) as E3.
  { replace (b + 1075) with (1 + (b + 1074)) by lia. by rewrite Z.pow_add_r by lia. }
  pose proof (pow10_pos 75 ltac:(lia)) as H75.
  pose proof (pow10_pos 325 ltac:(lia)) as H325.
  pose proof (pow10_pos (est b + 324) ltac:(lia)) as HE.
  rewrite E3 in Hhi. clear E3.
  assert (above (scaled m e) unit (est b - 1) ∧ ¬ above (scaled m e) unit (est b + 2))
    as [Ha Hn].
  { unfold above. rewrite EA, E1, E2. clear EA E1 E2.
    remember (2 ^ (b + 1074)) as p2 eqn:Ep2. remember (10 ^ (est b + 324)) as p10 eqn:Ep10.
    remember (10 ^ 325) as c325 eqn:Ec325. remember (10 ^ 75) as c75 eqn:Ec75.
    clear Ep2 Ep10 Ec325 Ec75. split.
    - replace (unit * (p10 * c75)) with ((unit * p10) * c75) by lia.
      replace (scaled m e * (c325 * c75)) with ((scaled m e * c325) * c75) by lia.
      apply Z.mul_le_mono_nonneg_r; [lia|]. etrans; [exact H1|].
      apply Z.mul_le_mono_nonneg_r; lia.
    - intros H.
      assert (scaled m e * c325 < 1000 * (unit * p10)) as Hlt.
      { eapply Z.lt_le_trans; [|exact H2].
        replace (2 * (p2 * c325)) with ((2 * p2) * c325) by lia.
        apply Zmult_lt_compat_r; lia. }
      assert (scaled m e * c325 * c75 < 1000 * (unit * p10) * c75) as Hlt'
        by (apply Zmult_lt_compat_r; lia).
      lia. }
  destruct (Z_le_dec (unit * 10 ^ (A + est b)) (scaled m e * 10 ^ A)) as [H0|H0].
  - destruct (Z_le_dec (unit * 10 ^ (A + (est b + 1))) (scaled m e * 10 ^ A)) as [H3|H3].
    + exists (est b + 1). split; [split; [done|]|lia].
      by replace (est b + 1 + 1) with (est b + 2) by lia.
    + exists (est b). split; [by split|lia].
  - exists (est b - 1). split; [split; [done|]|lia].
    by replace (est b - 1 + 1) with (est b) by lia.
Qed.

(** *** What [digits17] computes *)

Lemma scaled_pos m e : -1074 <= e → 0 < scaled m e.
Proof. intros He. unfold scaled. pose proof (pow2_pos (e + 1074) ltac:(lia)). lia. Qed.

Lemma digits17_spec m e :
  valid_binary (S754_finite false m e) = true →
  ∃ k, decade (scaled m e) unit k ∧ -325 <= k <= 309 ∧
       Num.digits17 m e =
         if (rounded (scaled m e) k =? 10 ^ 17) then (10 ^ 16, k + 1)
         else (rounded (scaled m e) k, k).
Proof.
  intros Hv. destruct (decade_exists m e Hv) as (k & Hdec & Hest & Hk).
  pose proof (Dbl.valid_finite_bounds _ _ _ Hv) as (He & Hm & _).
  exists k. split; [done|]. split; [done|].
  destruct (code_fraction m e ltac:(lia)) as (Hnum & Hden & Hx).
  unfold Num.digits17.
  set (num := if (0 <=? e) then Z.pos m * 2 ^ e else Z.pos m) in *.
  set (den := if (0 <=? e) then 1 else 2 ^ (- e)) in *.
  destruct (binary_exponent m e Hv) as [Hb _].
  pose proof (est_bounds _ Hb) as Heb.
  fold (est (Z.pos (digits2_pos m) + e - 1)).
  assert (Num.floor_log10 8 num den (est (Z.pos (digits2_pos m) + e - 1)) = k) as ->.
  { apply floor_log10_spec; [done|done|rewrite A_eq; lia|rewrite A_eq; lia| |lia].
    destruct Hdec as [H1 H2]. split.
    - by apply (above_scale num den (scaled m e)).
    - intros H. apply H2. by apply (above_scale num den (scaled m e)). }
  assert ((2 * (if k <=? 16 then num * 10 ^ (16 - k) else num) +
           (if k <=? 16 then den else den * 10 ^ (k - 16))) /
          (2 * (if k <=? 16 then den else den * 10 ^ (k - 16))) =
          rounded (scaled m e) k) as ->; [|done].
  unfold rounded. pose proof unit_pos as Hu. pose proof (pow10_pos A A_nonneg) as HQ.
  pose proof A_eq as HA.
  destruct (Z.leb_spec k 16) as [Hk16|Hk16].
  - pose proof (pow10_pos (16 - k) ltac:(lia)) as HR.
    apply (div_cross _ _ _ _ (unit * 10 ^ A) den); [lia|nia|nia|done| |lia].
    replace (A + 16 - k) with ((16 - k) + A) by lia. rewrite Z.pow_add_r by lia.
    generalize dependent (10 ^ A). generalize dependent (10 ^ (16 - k)). intros R HR Q HQ.
    transitivity (2 * ((num * unit) * R * Q) + den * unit * Q); [lia|]. rewrite Hx. lia.
  - pose proof (pow10_pos (k - 16) ltac:(lia)) as HR.
    pose proof (pow10_pos (A + 16 - k) ltac:(lia)) as HT.
    assert (10 ^ (k - 16) * 10 ^ (A + 16 - k) = 10 ^ A) as Hsplit.
    { rewrite <- Z.pow_add_r by lia. f_equal. lia. }
    apply (div_cross _ _ _ _ (unit * 10 ^ (A + 16 - k)) den); [nia|nia|nia|done| |].
    + generalize dependent (10 ^ A). generalize dependent (10 ^ (k - 16)).
      generalize dependent (10 ^ (A + 16 - k)). intros T HT R HR Q HQ Hsplit.
      transitivity (2 * ((num * unit) * T) + den * unit * (R * T)); [lia|].
      rewrite Hx, Hsplit. lia.
    + generalize dependent (10 ^ A). generalize dependent (10 ^ (k - 16)).
      generalize dependent (10 ^ (A + 16 - k)). intros T HT R HR Q HQ Hsplit.
      transitivity (2 * (den * unit * (R * T))); [lia|]. rewrite Hsplit. lia.
Qed.

(** *** The rounded digits *)

Lemma decade_window X k :
  - A <= k <= A + 15 → decade X unit k →
  10 ^ 16 * (unit * 10 ^ A) <= X * 10 ^ (A + 16 - k) < 10 ^ 17 * (unit * 10 ^ A).
Proof.
  intros Hk [Ha Hb]. unfold above in *.
  pose proof A_nonneg as HA. pose proof unit_pos as Hu.
  pose proof (pow10_pos A HA) as HP.
  pose proof (pow10_pos (A + 16 - k) ltac:(lia)) as HT.
  assert (10 ^ (A + k) * 10 ^ (A + 16 - k) = 10 ^ 16 * 10 ^ A * 10 ^ A) as E1.
  { rewrite <- !Z.pow_add_r by lia. f_equal. lia. }
  assert (10 ^ (A + (k + 1)) * 10 ^ (A + 16 - k) = 10 ^ 17 * 10 ^ A * 10 ^ A) as E2.
  { rewrite <- !Z.pow_add_r by lia. f_equal. lia. }
  generalize dependent (10 ^ (A + (k + 1))). generalize dependent (10 ^ (A + k)).
  generalize dependent (10 ^ (A + 16 - k)). generalize dependent (10 ^ A).
  intros P HP T HT Ak Ha E1 Ak1 Hb E2.
  split.
  - apply (Z.mul_le_mono_pos_r _ _ P); [done|].
    replace (10 ^ 16 * (unit * P) * P) with (unit * (10 ^ 16 * P * P)) by lia.
    rewrite <- E1. replace (unit * (Ak * T)) with ((unit * Ak) * T) by lia.
    replace (X * T * P) with ((X * P) * T) by lia.
    apply Z.mul_le_mono_nonneg_r; lia.
  - apply (Z.mul_lt_mono_pos_r P); [done|].
    replace (10 ^ 17 * (unit * P) * P) with (unit * (10 ^ 17 * P * P)) by lia.
    rewrite <- E2. replace (unit * (Ak1 * T)) with ((unit * Ak1) * T) by lia.
    replace (X * T * P) with ((X * P) * T) by lia.
    apply Zmult_lt_compat_r; lia.
Qed.

Lemma rounded_range X k :
  - A <= k <= A + 15 → decade X unit k → 10 ^ 16 <= rounded X k <= 10 ^ 17.
Proof.
  intros Hk Hd. pose proof (decade_window X k Hk Hd) as [Hlo Hhi].
  unfold rounded. pose proof unit_pos as Hu. pose proof (pow10_pos A A_nonneg) as HP.
  set (D := unit * 10 ^ A) in *. set (W := X * 10 ^ (A + 16 - k)) in *.
  assert (0 < D) by (unfold D; nia).
  split.
  - apply Z.div_le_lower_bound; lia.
  - apply Z.lt_succ_r. apply Z.div_lt_upper_bound; lia.
Qed.

Lemma rounded_eq X k n :
  rounded X k = n →
  n * (2 * (unit * 10 ^ A)) <= 2 * (X * 10 ^ (A + 16 - k)) + unit * 10 ^ A
    < (n + 1) * (2 * (unit * 10 ^ A)).
Proof.
  intros <-. unfold rounded. pose proof unit_pos as Hu.
  pose proof (pow10_pos A A_nonneg) as HP.
  set (D := unit * 10 ^ A) in *. assert (0 < D) by (unfold D; nia).
  set (a := 2 * (X * 10 ^ (A + 16 - k)) + D).
  pose proof (Z.mul_div_le a (2 * D) ltac:(lia)).
  pose proof (Z.mul_succ_div_gt a (2 * D) ltac:(lia)). lia.
Qed.

(** *** Two doubles are one unit in the last place apart at least *)

Lemma scaled_exp_lt m1 e1 m2 e2 :
  valid_binary (S754_finite false m1 e1) = true →
  valid_binary (S754_finite false m2 e2) = true →
  e1 < e2 → scaled m1 e1 + 2 ^ (e1 + 1074) <= scaled m2 e2.
Proof.
  intros (He1 & Hm1 & _)%Dbl.valid_finite_bounds (He2 & Hm2 & Hn2)%Dbl.valid_finite_bounds Hlt.
  unfold scaled. specialize (Hn2 ltac:(lia)).
  replace (e2 + 1074) with ((e2 - e1) + (e1 + 1074)) by lia.
  rewrite (Z.pow_add_r 2 (e2 - e1) (e1 + 1074)) by lia.
  pose proof (pow2_pos (e1 + 1074) ltac:(lia)) as HU.
  assert (2 <= 2 ^ (e2 - e1)) as H2.
  { change 2 with (2 ^ 1) at 1. apply Z.pow_le_mono_r; lia. }
  generalize dependent (2 ^ (e1 + 1074)). generalize dependent (2 ^ (e2 - e1)).
  intros R HR U HU.
  assert (2 ^ 53 <= Z.pos m2 * R) by (change (2 ^ 53) with (2 ^ 52 * 2); nia).
  nia.
Qed.

Lemma scaled_gap m1 e1 m2 e2 :
  valid_binary (S754_finite false m1 e1) = true →
  valid_binary (S754_finite false m2 e2) = true →
  scaled m1 e1 < scaled m2 e2 → scaled m1 e1 + 2 ^ (e1 + 1074) <= scaled m2 e2.
Proof.
  intros Hv1 Hv2 Hlt.
  destruct (Z.lt_trichotomy e1 e2) as [H|[->|H]].
  - by apply scaled_exp_lt.
  - unfold scaled in *. apply Dbl.valid_finite_bounds in Hv2 as (He2 & _).
    pose proof (pow2_pos (e2 + 1074) ltac:(lia)) as HU.
    generalize dependent (2 ^ (e2 + 1074)). intros U Hlt HU.
    assert (Z.pos m1 < Z.pos m2) by (apply (Z.mul_lt_mono_pos_r U); lia).
    assert ((Z.pos m1 + 1) * U <= Z.pos m2 * U) by (apply Z.mul_le_mono_nonneg_r; lia).
    lia.
  - pose proof (scaled_exp_lt m2 e2 m1 e1 Hv2 Hv1 H).
    apply Dbl.valid_finite_bounds in Hv2 as (He2 & _).
    pose proof (pow2_pos (e2 + 1074) ltac:(lia)). lia.
Qed.

Lemma scaled_inj m1 e1 m2 e2 :
  valid_binary (S754_finite false m1 e1) = true →
  valid_binary (S754_finite false m2 e2) = true →
  scaled m1 e1 = scaled m2 e2 → m1 = m2 ∧ e1 = e2.
Proof.
  intros Hv1 Hv2 Heq.
  pose proof (Dbl.valid_finite_bounds _ _ _ Hv1) as (He1 & _).
  pose proof (Dbl.valid_finite_bounds _ _ _ Hv2) as (He2 & _).
  pose proof (pow2_pos (e1 + 1074) ltac:(lia)).
  pose proof (pow2_pos (e2 + 1074) ltac:(lia)).
  destruct (Z.lt_trichotomy e1 e2) as [H1|[->|H1]].
  - pose proof (scaled_exp_lt m1 e1 m2 e2 Hv1 Hv2 H1). lia.
  - split; [|done]. unfold scaled in Heq.
    apply Z.mul_cancel_r in Heq; [by injection Heq|lia].
  - pose proof (scaled_exp_lt m2 e2 m1 e1 Hv2 Hv1 H1). lia.
Qed.

(** *** Different doubles have different digits *)

Lemma digits_differ X1 X2 U k1 k2 :
  0 < X1 → 0 < U → X1 + U <= X2 → X1 < 2 ^ 53 * U →
  - A <= k1 <= A + 15 → - A <= k2 <= A + 14 →
  decade X1 unit k1 → decade X2 unit k2 →
  (if rounded X1 k1 =? 10 ^ 17 then (10 ^ 16, k1 + 1) else (rounded X1 k1, k1)) ≠
  (if rounded X2 k2 =? 10 ^ 17 then (10 ^ 16, k2 + 1) else (rounded X2 k2, k2)).
Proof.
  intros HX1 HU Hgap Hulp Hk1 Hk2 Hd1 Hd2.
  pose proof A_nonneg as HA. pose proof unit_pos as Hu.
  pose proof (pow10_pos A HA) as HP.
  assert (k1 <= k2) as Hle.
  { destruct (Z.le_gt_cases k1 k2) as [|Hgt]; [done|].
    destruct Hd1 as [Ha1 _]. destruct Hd2 as [_ Hb2]. destruct Hb2.
    apply (above_mono X2 unit k1); [lia|done|lia|].
    unfold above in *. etrans; [exact Ha1|]. apply Z.mul_le_mono_nonneg_r; lia. }
  pose proof (rounded_range X1 k1 Hk1 Hd1) as Hr1.
  pose proof (rounded_range X2 k2 ltac:(lia) Hd2) as Hr2.
  pose proof (decade_window X1 k1 Hk1 Hd1) as [Hw1 _].
  pose proof (rounded_eq X1 k1 _ eq_refl) as Hq1.
  pose proof (rounded_eq X2 k2 _ eq_refl) as Hq2.
  pose proof (pow10_pos (A + 16 - k1) ltac:(lia)) as HT.
  set (D := unit * 10 ^ A) in *. assert (0 < D) as HD by (unfold D; nia).
  set (n1 := rounded X1 k1) in *. set (n2 := rounded X2 k2) in *.
  (* the two doubles on the scale of the first *)
  set (T := 10 ^ (A + 16 - k1)) in *.
  assert (2 ^ 53 * (X2 * T - X1 * T) > X1 * T) as Hfar by nia.
  destruct (Z.eq_dec k1 k2) as [<-|Hne].
  - (* the same decade: the digits are apart *)
    fold T in Hq2.
    assert (n1 < n2) as Hlt.
    { assert (X1 * T + D < X2 * T) as Hstep by lia.
      assert (n1 + 1 <= n2); [|lia].
      apply Z.lt_succ_r. apply (Z.mul_lt_mono_pos_r (2 * D)); lia. }
    destruct (Z.eqb_spec n1 (10 ^ 17)) as [E1|E1]; [lia|].
    destruct (Z.eqb_spec n2 (10 ^ 17)) as [E2|E2]; intros [=]; lia.
  - intros Heq. pose proof (f_equal snd Heq) as Hk. pose proof (f_equal fst Heq) as Hn.
    clear Heq.
    destruct (Z.eqb_spec n1 (10 ^ 17)) as [E1|E1];
      destruct (Z.eqb_spec n2 (10 ^ 17)) as [E2|E2]; cbn [fst snd] in Hk, Hn;
      [exfalso; clear - Hk Hne Hle; lia| |exfalso; clear - Hk Hne Hle; lia..].
    (* the first rounds up to the power of ten that the second rounds down to *)
    assert (k2 = k1 + 1) as -> by lia.
    assert (T = 10 * 10 ^ (A + 16 - (k1 + 1))) as HT10.
    { unfold T. replace (A + 16 - k1) with (1 + (A + 16 - (k1 + 1))) by lia.
      by rewrite Z.pow_add_r by lia. }
    pose proof (pow10_pos (A + 16 - (k1 + 1)) ltac:(lia)) as HT2.
    remember (10 ^ (A + 16 - (k1 + 1))) as T2 eqn:ET2.
    rewrite E1 in Hq1. rewrite <- Hn in Hq2.
    clear - Hq1 Hq2 Hfar HT10 HD HT2. lia.
Qed.

Lemma digits17_inj m1 e1 m2 e2 :
  valid_binary (S754_finite false m1 e1) = true →
  valid_binary (S754_finite false m2 e2) = true →
  Num.digits17 m1 e1 = Num.digits17 m2 e2 → m1 = m2 ∧ e1 = e2.
Proof.
  intros Hv1 Hv2 Heq.
  destruct (digits17_spec m1 e1 Hv1) as (k1 & Hd1 & Hk1 & E1).
  destruct (digits17_spec m2 e2 Hv2) as (k2 & Hd2 & Hk2 & E2).
  rewrite E1, E2 in Heq.
  pose proof (Dbl.valid_finite_bounds _ _ _ Hv1) as (He1 & Hm1 & _).
  pose proof (Dbl.valid_finite_bounds _ _ _ Hv2) as (He2 & Hm2 & _).
  pose proof (scaled_pos m1 e1 ltac:(lia)) as HX1.
  pose proof (scaled_pos m2 e2 ltac:(lia)) as HX2.
  pose proof (pow2_pos (e1 + 1074) ltac:(lia)) as HU1.
  pose proof (pow2_pos (e2 + 1074) ltac:(lia)) as HU2.
  pose proof A_eq as HA.
  destruct (Z.lt_trichotomy (scaled m1 e1) (scaled m2 e2)) as [Hlt|[Hx|Hgt]].
  - exfalso. revert Heq.
    apply (digits_differ _ _ (2 ^ (e1 + 1074))); try done; try lia.
    + by apply scaled_gap.
    + unfold scaled. nia.
  - by apply scaled_inj.
  - exfalso. symmetry in Heq. revert Heq.
    apply (digits_differ _ _ (2 ^ (e2 + 1074))); try done; try lia.
    + by apply scaled_gap.
    + unfold scaled. nia.
Qed.

Lemma digits17_range m e :
  valid_binary (S754_finite false m e) = true →
  10 ^ 16 <= (Num.digits17 m e).1 < 10 ^ 17 ∧ -325 <= (Num.digits17 m e).2 <= 310.
Proof.
  intros Hv. destruct (digits17_spec m e Hv) as (k & Hd & Hk & ->).
  pose proof A_eq as HA.
  pose proof (rounded_range (scaled m e) k ltac:(lia) Hd) as Hr.
  destruct (Z.eqb_spec (rounded (scaled m e) k) (10 ^ 17)); cbn [fst snd]; lia.
Qed.

End Digits.

(** ** The text of the 17 digits *)

Module Txt.

Definition digit (c : ascii) : bool :=
  match c with
  | "0" | "1" | "2" | "3" | "4" | "5" | "6" | "7" | "8" | "9" => true
  | _ => false
  end%char.

Fixpoint all_digits (s : string) : bool :=
  match s with
  | EmptyString => true
  | String c s' => digit c && all_digits s'
  end.

Lemma app_String c s t : String c s +:+ t = String c (s +:+ t).
Proof. reflexivity. Qed.

Lemma app_nil_l (t : string) : "" +:+ t = t.
Proof. reflexivity. Qed.

Lemma all_digits_app s t : all_digits (s +:+ t) = all_digits s && all_digits t.
Proof.
  induction s as [|c s IH]; [done|].
  rewrite app_String. cbn [all_digits]. by rewrite IH, andb_assoc.
Qed.

Lemma app_inj_length a1 a2 b1 b2 :
  String.length a1 = String.length a2 → a1 +:+ b1 = a2 +:+ b2 → a1 = a2 ∧ b1 = b2.
Proof.
  revert a2. induction a1 as [|c a1 IH]; intros [|c2 a2] Hlen Heq; try done.
  rewrite !app_String in Heq. injection Heq as -> Heq.
  destruct (IH a2) as [-> ->]; [by injection Hlen|done|done].
Qed.

(** A text of digits, a point, and more: the point is found where the digits
    end. *)
Lemma dot_split a1 a2 b1 b2 :
  all_digits a1 = true → all_digits a2 = true →
  a1 +:+ "." +:+ b1 = a2 +:+ "." +:+ b2 → a1 = a2 ∧ b1 = b2.
Proof.
  revert a2. induction a1 as [|c a1 IH]; intros [|c2 a2] H1 H2 Heq.
  - by injection Heq.
  - rewrite app_String in Heq. injection Heq as <- _. done.
  - rewrite app_String in Heq. injection Heq as -> _. done.
  - rewrite !app_String in Heq. injection Heq as -> Heq.
    cbn [all_digits] in H1, H2.
    apply andb_true_iff in H1 as [_ H1]. apply andb_true_iff in H2 as [_ H2].
    destruct (IH a2 H1 H2 Heq) as [-> ->]. done.
Qed.

Lemma all_digits_no_dot a b : all_digits (a +:+ "." +:+ b) = false.
Proof.
  induction a as [|c a IH]; [done|].
  rewrite app_String. cbn [all_digits]. by rewrite IH, andb_false_r.
Qed.

Lemma all_digits_no_e a b : all_digits (a +:+ "e" +:+ b) = false.
Proof.
  induction a as [|c a IH]; [done|].
  rewrite app_String. cbn [all_digits]. by rewrite IH, andb_false_r.
Qed.

(** *** Parts of a text *)

Lemma substring_all s : String.substring 0 (String.length s) s = s.
Proof.
  induction s as [|c s IH]; [done|].
  cbn [String.length String.substring]. by rewrite IH.
Qed.

Lemma substring_0_0 s : String.substring 0 0 s = "".
Proof. by destruct s. Qed.

Lemma substring_split n s :
  (n ≤ String.length s)%nat →
  String.substring 0 n s +:+ String.substring n (String.length s - n) s = s ∧
  String.length (String.substring 0 n s) = n.
Proof.
  revert n. induction s as [|c s IH]; intros n Hn.
  - cbn in Hn. assert (n = 0%nat) as -> by lia. done.
  - destruct n as [|n].
    + rewrite substring_0_0, Nat.sub_0_r, substring_all. done.
    + cbn [String.length] in Hn. destruct (IH n ltac:(lia)) as [H1 H2].
      cbn [String.substring String.length Nat.sub]. rewrite app_String.
      split; [by rewrite H1|by rewrite H2].
Qed.

Lemma all_digits_substring n m s :
  all_digits s = true → all_digits (String.substring n m s) = true.
Proof.
  revert n m. induction s as [|c s IH]; intros n m H.
  - by destruct n, m.
  - cbn [all_digits] in H. apply andb_true_iff in H as [Hc Hs].
    destruct n as [|n]; [destruct m as [|m]|]; cbn [String.substring]; [done| |by apply IH].
    cbn [all_digits]. by rewrite Hc, IH.
Qed.

Lemma length_zeros j : String.length (Num.zeros j) = j.
Proof.
  induction j as [|j IH]; [done|]. cbn [Num.zeros].
  rewrite length_append. cbn [String.length]. by rewrite IH.
Qed.

Lemma all_digits_zeros j : all_digits (Num.zeros j) = true.
Proof.
  induction j as [|j IH]; [done|]. cbn [Num.zeros].
  by rewrite all_digits_app, IH.
Qed.

(** *** The decimal text of a positive integer *)

Lemma digit_pretty_N_char x : digit (pretty_N_char x) = true.
Proof. unfold pretty_N_char. by repeat case_match. Qed.

Lemma pretty_N_go_app x s : ∃ d,
  pretty_N_go x s = d +:+ s ∧ all_digits d = true ∧
  ((0 < x)%N → ∃ c d', d = String c d' ∧ c ≠ "0"%char).
Proof.
  revert s. induction (N.lt_wf_0 x) as [x _ IH]; intros s.
  destruct (decide (x = 0%N)) as [->|Hx].
  { exists "". rewrite pretty_N_go_0. split_and!; [done|done|lia]. }
  rewrite pretty_N_go_step by lia.
  destruct (IH (x `div` 10)%N ltac:(apply N.div_lt; lia)
              (String (pretty_N_char (x `mod` 10)) s)) as (d & Hd & Hall & Hfirst).
  exists (d +:+ String (pretty_N_char (x `mod` 10)) "").
  split_and!.
  - rewrite Hd. by rewrite string_app_assoc.
  - rewrite all_digits_app, Hall. cbn. by rewrite digit_pretty_N_char.
  - intros _. destruct (decide (x `div` 10 = 0)%N) as [Hz|Hz].
    + rewrite Hz, pretty_N_go_0 in Hd.
      assert (d = "") as ->.
      { destruct d as [|c d]; [done|]. apply (f_equal String.length) in Hd.
        rewrite length_append in Hd. cbn [String.length] in Hd. lia. }
      eexists _, _. split; [done|].
      assert (x < 10)%N as Hlt by (apply N.div_small_iff in Hz; lia).
      rewrite N.mod_small by done.
      assert (x = 1 ∨ x = 2 ∨ x = 3 ∨ x = 4 ∨ x = 5 ∨ x = 6 ∨ x = 7 ∨ x = 8 ∨ x = 9)%N
        as Hc by lia.
      destruct Hc as [->|[->|[->|[->|[->|[->|[->|[->| ->]]]]]]]]; done.
    + destruct Hfirst as (c & d' & -> & Hc); [by apply N.neq_0_lt_0|]. by eexists _, _.
Qed.

Lemma pretty_N_go_length (j : nat) x s :
  (10 ^ N.of_nat j ≤ x < 10 ^ N.of_nat (S j))%N →
  String.length (pretty_N_go x s) = (j + 1 + String.length s)%nat.
Proof.
  revert x s. induction j as [|j IH]; intros x s Hx.
  - change (10 ^ N.of_nat 0)%N with 1%N in Hx. change (10 ^ N.of_nat 1)%N with 10%N in Hx.
    rewrite pretty_N_go_step by lia.
    rewrite N.div_small by lia. by rewrite pretty_N_go_0.
  - rewrite pretty_N_go_step.
    2:{ assert (0 < 10 ^ N.of_nat (S j))%N by (apply N.neq_0_lt_0, N.pow_nonzero; lia). lia. }
    rewrite IH; [cbn [String.length]; lia|].
    rewrite !Nat2N.inj_succ, !N.pow_succ_r' in Hx. rewrite Nat2N.inj_succ, N.pow_succ_r'.
    split.
    + apply N.div_le_lower_bound; lia.
    + apply N.Div0.div_lt_upper_bound; lia.
Qed.

(** The 17 digits, as a text. *)
Lemma pretty_17 (n : Z) :
  (10 ^ 16 ≤ n < 10 ^ 17)%Z →
  String.length (pretty n) = 17%nat ∧ all_digits (pretty n) = true ∧
  ∃ c d, pretty n = String c d ∧ c ≠ "0"%char.
Proof.
  intros Hn. destruct n as [|p|p]; [lia| |lia].
  change (pretty (Z.pos p)) with (pretty (N.pos p)).
  unfold pretty, pretty_N. rewrite decide_False by done.
  destruct (pretty_N_go_app (N.pos p) "") as (d & Hd & Hall & Hfirst).
  split_and!.
  - rewrite (pretty_N_go_length 16); [done|].
    change (10 ^ N.of_nat 16)%N with (Z.to_N (10 ^ 16)).
    change (10 ^ N.of_nat 17)%N with (Z.to_N (10 ^ 17)). lia.
  - rewrite Hd, string_app_nil_r. done.
  - rewrite Hd, string_app_nil_r. apply Hfirst. lia.
Qed.

(** *** The text after the sign *)

Definition body (n k : Z) : string :=
  let ds := pretty n in
  if (k <? -6)%Z || (17 <=? k)%Z then
    String.substring 0 1 ds +:+ "." +:+ String.substring 1 16 ds +:+ "e" +:+
    (if (k <? 0)%Z then "-" else "+") +:+ pretty (Z.abs k)
  else if (k =? 16)%Z then ds
  else if (0 <=? k)%Z then
    String.substring 0 (Z.to_nat (k + 1)) ds +:+ "." +:+
    String.substring (Z.to_nat (k + 1)) (Z.to_nat (16 - k)) ds
  else "0." +:+ Num.zeros (Z.to_nat (- (k + 1))) +:+ ds.

Lemma toPrecision17_finite x s m e :
  Prim2SF x = S754_finite s m e →
  Num.toPrecision17 x =
    (if s then "-" else "") +:+ body (Num.digits17 m e).1 (Num.digits17 m e).2.
Proof.
  intros H. unfold Num.toPrecision17. rewrite H.
  by destruct (Num.digits17 m e) as [n k].
Qed.

(** The four shapes of the text. *)
Definition exp_tail (k : Z) : string :=
  (if (k <? 0)%Z then "-" else "+") +:+ pretty (Z.abs k).

Inductive shape (n k : Z) : Prop :=
  | shape_exp a b :
      (k < -6 ∨ 17 ≤ k)%Z →
      body n k = a +:+ "." +:+ (b +:+ "e" +:+ exp_tail k) →
      a +:+ b = pretty n → String.length b = 16%nat → all_digits a = true →
      shape n k
  | shape_int : k = 16%Z → body n k = pretty n → shape n k
  | shape_mid a b :
      (0 ≤ k < 16)%Z →
      body n k = a +:+ "." +:+ b →
      a +:+ b = pretty n → String.length a = Z.to_nat (k + 1) →
      all_digits a = true → all_digits b = true →
      shape n k
  | shape_neg :
      (-6 ≤ k < 0)%Z →
      body n k = "0" +:+ "." +:+ (Num.zeros (Z.to_nat (- (k + 1))) +:+ pretty n) →
      shape n k.

Lemma body_shape n k : (10 ^ 16 ≤ n < 10 ^ 17)%Z → shape n k.
Proof.
  intros Hn. destruct (pretty_17 n Hn) as (Hlen & Hall & _).
  destruct (Z.ltb_spec k (-6)) as [H1|H1]; [|destruct (Z.leb_spec 17 k) as [H2|H2]].
  1,2: destruct (substring_split 1 (pretty n) ltac:(lia)) as [Hs Hl];
       rewrite Hlen in Hs; change (17 - 1)%nat with 16%nat in Hs;
       apply (shape_exp n k (String.substring 0 1 (pretty n))
                (String.substring 1 16 (pretty n)));
       [lia| |done| |by apply all_digits_substring].
  - unfold body, exp_tail. cbv zeta. destruct (Z.ltb_spec k (-6)); [|lia]. reflexivity.
  - apply (f_equal String.length) in Hs. rewrite length_append, Hlen, Hl in Hs. lia.
  - unfold body, exp_tail. cbv zeta.
    destruct (Z.ltb_spec k (-6)); [lia|]. destruct (Z.leb_spec 17 k); [|lia]. reflexivity.
  - apply (f_equal String.length) in Hs. rewrite length_append, Hlen, Hl in Hs. lia.
  - destruct (Z.eqb_spec k 16) as [->|H3].
    { apply shape_int; [done|]. unfold body. reflexivity. }
    destruct (Z.leb_spec 0 k) as [H4|H4].
    + destruct (substring_split (Z.to_nat (k + 1)) (pretty n) ltac:(lia)) as [Hs Hl].
      rewrite Hlen in Hs. replace (17 - Z.to_nat (k + 1))%nat with (Z.to_nat (16 - k)) in Hs by lia.
      apply (shape_mid n k (String.substring 0 (Z.to_nat (k + 1)) (pretty n))
               (String.substring (Z.to_nat (k + 1)) (Z.to_nat (16 - k)) (pretty n)));
        [lia| |done|done|by apply all_digits_substring..].
      unfold body. cbv zeta.
      destruct (Z.ltb_spec k (-6)); [lia|]. destruct (Z.leb_spec 17 k); [lia|].
      destruct (Z.eqb_spec k 16); [lia|]. destruct (Z.leb_spec 0 k); [|lia]. reflexivity.
    + apply shape_neg; [lia|]. unfold body. cbv zeta.
      destruct (Z.ltb_spec k (-6)); [lia|]. destruct (Z.leb_spec 17 k); [lia|].
      destruct (Z.eqb_spec k 16); [lia|]. destruct (Z.leb_spec 0 k); [lia|]. reflexivity.
Qed.

Lemma exp_tail_inj k1 k2 : exp_tail k1 = exp_tail k2 → k1 = k2.
Proof.
  unfold exp_tail.
  destruct (Z.ltb_spec k1 0), (Z.ltb_spec k2 0); intros Heq;
    rewrite !app_String, !app_nil_l in Heq; try (by injection Heq);
    injection Heq as Heq; apply (inj pretty) in Heq; lia.
Qed.

Lemma body_inj n1 k1 n2 k2 :
  (10 ^ 16 ≤ n1 < 10 ^ 17)%Z → (10 ^ 16 ≤ n2 < 10 ^ 17)%Z →
  body n1 k1 = body n2 k2 → n1 = n2 ∧ k1 = k2.
Proof.
  intros Hn1 Hn2 Heq.
  destruct (pretty_17 n1 Hn1) as (Hlen1 & Hall1 & c1 & d1 & Hc1 & Hnz1).
  destruct (pretty_17 n2 Hn2) as (Hlen2 & Hall2 & c2 & d2 & Hc2 & Hnz2).
  assert (∀ a b, all_digits a = true → all_digits (a +:+ b) = true → all_digits b = true)
    as Hsuffix.
  { intros a b _ H. rewrite all_digits_app in H. by apply andb_true_iff in H as [_ ?]. }
  destruct (body_shape n1 k1 Hn1) as [a1 b1 Hk1 Hb1 Hs1 Hl1 Ha1|Hk1 Hb1|a1 b1 Hk1 Hb1 Hs1 Hl1 Ha1 Hbd1|Hk1 Hb1];
    destruct (body_shape n2 k2 Hn2) as [a2 b2 Hk2 Hb2 Hs2 Hl2 Ha2|Hk2 Hb2|a2 b2 Hk2 Hb2 Hs2 Hl2 Ha2 Hbd2|Hk2 Hb2];
    rewrite Hb1, Hb2 in Heq.
  - (* exp, exp *)
    apply dot_split in Heq as [-> Heq]; [|done..].
    apply app_inj_length in Heq as [-> Heq]; [|congruence].
    rewrite !app_String, !app_nil_l in Heq. injection Heq as Heq.
    apply exp_tail_inj in Heq. rewrite Hs2 in Hs1. apply (inj pretty) in Hs1. done.
  - (* exp, int *)
    exfalso. rewrite <- Heq, all_digits_no_dot in Hall2. done.
  - (* exp, mid *)
    exfalso. apply dot_split in Heq as [_ Heq]; [|done..].
    rewrite <- Heq, all_digits_no_e in Hbd2. done.
  - (* exp, neg *)
    exfalso. apply dot_split in Heq as [_ Heq]; [|done..].
    assert (all_digits (Num.zeros (Z.to_nat (- (k2 + 1))) +:+ pretty n2) = true) as H
      by (by rewrite all_digits_app, all_digits_zeros, Hall2).
    rewrite <- Heq, all_digits_no_e in H. done.
  - exfalso. rewrite Heq, all_digits_no_dot in Hall1. done.
  - apply (inj pretty) in Heq. split; [done|lia].
  - exfalso. rewrite Heq, all_digits_no_dot in Hall1. done.
  - exfalso. rewrite Heq, all_digits_no_dot in Hall1. done.
  - (* mid, exp *)
    exfalso. apply dot_split in Heq as [_ Heq]; [|done..].
    rewrite Heq, all_digits_no_e in Hbd1. done.
  - exfalso. rewrite <- Heq, all_digits_no_dot in Hall2. done.
  - (* mid, mid *)
    apply dot_split in Heq as [-> ->]; [|done..].
    rewrite Hs2 in Hs1. apply (inj pretty) in Hs1. split; [done|]. lia.
  - (* mid, neg *)
    exfalso. apply dot_split in Heq as [-> _]; [|done..].
    rewrite Hc1, app_String in Hs1. by injection Hs1 as <- _.
  - (* neg, exp *)
    exfalso. apply dot_split in Heq as [_ Heq]; [|done..].
    assert (all_digits (Num.zeros (Z.to_nat (- (k1 + 1))) +:+ pretty n1) = true) as H
      by (by rewrite all_digits_app, all_digits_zeros, Hall1).
    rewrite Heq, all_digits_no_e in H. done.
  - exfalso. rewrite <- Heq, all_digits_no_dot in Hall2. done.
  - (* neg, mid *)
    exfalso. apply dot_split in Heq as [<- _]; [|done..].
    rewrite Hc2, app_String in Hs2. by injection Hs2 as <- _.
  - (* neg, neg *)
    apply dot_split in Heq as [_ Heq]; [|done..].
    assert (Z.to_nat (- (k1 + 1)) = Z.to_nat (- (k2 + 1))) as Hj.
    { apply (f_equal String.length) in Heq.
      rewrite !length_append, !length_zeros, Hlen1, Hlen2 in Heq. lia. }
    rewrite Hj in Heq. apply app_inj_length in Heq as [_ Heq]; [|done].
    apply (inj pretty) in Heq. split; [done|lia].
Qed.

Lemma body_first n k :
  (10 ^ 16 ≤ n < 10 ^ 17)%Z → ∃ c rest, body n k = String c rest ∧ digit c = true.
Proof.
  intros Hn. destruct (pretty_17 n Hn) as (Hlen & Hall & c & d & Hc & Hnz).
  rewrite Hc in Hall. cbn [all_digits] in Hall. apply andb_true_iff in Hall as [Hd _].
  assert (∀ a b, a +:+ b = pretty n → a ≠ "" → ∃ a', a = String c a') as Hfirst.
  { intros [|c' a'] b Hab Hne; [done|]. rewrite Hc, app_String in Hab.
    injection Hab as -> _. by eexists. }
  destruct (body_shape n k Hn) as [a b Hk Hb Hs Hl Ha|Hk Hb|a b Hk Hb Hs Hl Ha Hbd|Hk Hb];
    rewrite Hb.
  - destruct (Hfirst a b Hs) as [a' ->].
    { intros ->. rewrite app_nil_l in Hs. rewrite <- Hs in Hlen. lia. }
    rewrite app_String. by eexists _, _.
  - rewrite Hc. by eexists _, _.
  - destruct (Hfirst a b Hs) as [a' ->].
    { intros ->. cbn in Hl. lia. }
    rewrite app_String. by eexists _, _.
  - rewrite app_String. by eexists _, _.
Qed.

Lemma body_not_zero n k :
  (10 ^ 16 ≤ n < 10 ^ 17)%Z → body n k ≠ "0.0000000000000000".
Proof.
  intros Hn Heq. destruct (pretty_17 n Hn) as (Hlen & Hall & c & d & Hc & Hnz).
  change "0.0000000000000000" with ("0" +:+ "." +:+ "0000000000000000") in Heq.
  destruct (body_shape n k Hn) as [a b Hk Hb Hs Hl Ha|Hk Hb|a b Hk Hb Hs Hl Ha Hbd|Hk Hb];
    rewrite Hb in Heq.
  - apply dot_split in Heq as [_ Heq]; [|done..].
    assert (all_digits "0000000000000000" = true) as H by done.
    rewrite <- Heq, all_digits_no_e in H. done.
  - rewrite Heq, all_digits_no_dot in Hall. done.
  - apply dot_split in Heq as [-> _]; [|done..].
    rewrite Hc, app_String in Hs. by injection Hs as <- _.
  - apply dot_split in Heq as [_ Heq]; [|done..].
    apply (f_equal String.length) in Heq.
    rewrite length_append, length_zeros, Hlen in Heq. cbn in Heq. lia.
Qed.

End Txt.

(** ** The key of a finite double determines it *)

Lemma finite_cases x :
  is_finite x = true →
  (∃ s, Prim2SF x = S754_zero s) ∨
  (∃ s m e, Prim2SF x = S754_finite s m e ∧ valid_binary (S754_finite false m e) = true).
Proof.
  intros [Hn Hr]%Dbl.is_finite_spec. apply Dbl.not_nan_spec in Hn.
  pose proof (Prim2SF_valid x) as Hv. unfold Dbl.rk in Hr.
  destruct (Prim2SF x) as [s|s| |s m e]; [by eauto| |done|].
  - exfalso. destruct s; cbn in Hr; lia.
  - right. by exists s, m, e.
Qed.

Lemma key_repr_finite x : is_finite x = true → Num.key_repr x = Num.toPrecision17 x.
Proof. intros H. unfold Num.key_repr, Num.isFiniteNumber. by rewrite H. Qed.

Lemma key_repr_inj x y :
  is_finite x = true → is_finite y = true →
  Num.key_repr x = Num.key_repr y →
  Prim2SF x = Prim2SF y ∨ (∃ s s', Prim2SF x = S754_zero s ∧ Prim2SF y = S754_zero s').
Proof.
  intros Hx Hy. rewrite !key_repr_finite by done.
  destruct (finite_cases x Hx) as [[s Ex]|(s & m & e & Ex & Hv)];
    destruct (finite_cases y Hy) as [[s' Ey]|(s' & m' & e' & Ey & Hv')].
  - intros _. right. by eauto.
  - rewrite (Txt.toPrecision17_finite y _ _ _ Ey). unfold Num.toPrecision17. rewrite Ex.
    pose proof (Digits.digits17_range m' e' Hv') as [Hn _].
    intros H. exfalso. destruct s'.
    + by rewrite Txt.app_String in H.
    + rewrite Txt.app_nil_l in H. symmetry in H. by apply Txt.body_not_zero in H.
  - rewrite (Txt.toPrecision17_finite x _ _ _ Ex). unfold Num.toPrecision17. rewrite Ey.
    pose proof (Digits.digits17_range m e Hv) as [Hn _].
    intros H. exfalso. destruct s.
    + by rewrite Txt.app_String in H.
    + rewrite Txt.app_nil_l in H. by apply Txt.body_not_zero in H.
  - rewrite (Txt.toPrecision17_finite x _ _ _ Ex), (Txt.toPrecision17_finite y _ _ _ Ey).
    pose proof (Digits.digits17_range m e Hv) as [Hn _].
    pose proof (Digits.digits17_range m' e' Hv') as [Hn' _].
    intros H. left.
    assert (s = s' ∧ Txt.body (Num.digits17 m e).1 (Num.digits17 m e).2 =
                     Txt.body (Num.digits17 m' e').1 (Num.digits17 m' e').2) as [-> Hb].
    { destruct (Txt.body_first _ (Num.digits17 m e).2 Hn) as (c & r & Hc & Hd).
      destruct (Txt.body_first _ (Num.digits17 m' e').2 Hn') as (c' & r' & Hc' & Hd').
      destruct s, s'; rewrite ?Txt.app_String, ?Txt.app_nil_l in H.
      - by injection H.
      - exfalso. rewrite Hc' in H. injection H as <- _. done.
      - exfalso. rewrite Hc in H. injection H as -> _. done.
      - done. }
    apply Txt.body_inj in Hb as [H1 H2]; [|done..].
    destruct (Digits.digits17_inj m e m' e' Hv Hv') as [-> ->]; [|by rewrite Ex, Ey].
    destruct (Num.digits17 m e), (Num.digits17 m' e'). cbn in *. congruence.
Qed.

(** ** The key identifies the value *)

Lemma rk_finite_inj x y :
  is_finite x = true → is_finite y = true → Dbl.rk x = Dbl.rk y →
  Prim2SF x = Prim2SF y ∨ (∃ s s', Prim2SF x = S754_zero s ∧ Prim2SF y = S754_zero s').
Proof.
  intros Hx Hy. unfold Dbl.rk.
  pose proof (Prim2SF_valid x) as Hvx. pose proof (Prim2SF_valid y) as Hvy.
  destruct (finite_cases x Hx) as [[s Ex]|(s & m & e & Ex & Hv)];
    destruct (finite_cases y Hy) as [[s' Ey]|(s' & m' & e' & Ey & Hv')];
    rewrite Ex, Ey in *; cbn [Dbl.rank].
  - intros _. right. by eauto.
  - pose proof (Dbl.rank_finite_pos _ _ _ Hvy). destruct s'; lia.
  - pose proof (Dbl.rank_finite_pos _ _ _ Hvx). destruct s; lia.
  - pose proof (Dbl.rank_finite_pos _ _ _ Hvx) as Hrx.
    pose proof (Dbl.rank_finite_pos _ _ _ Hvy) as Hry.
    pose proof (Dbl.valid_finite_bounds _ _ _ Hv) as (He & Hm & _).
    pose proof (Dbl.valid_finite_bounds _ _ _ Hv') as (He' & Hm' & _).
    intros Hr. left.
    assert (s = s') as -> by (destruct s, s'; try done; lia).
    assert (e = e' ∧ Z.pos m = Z.pos m') as [-> Hmm] by (destruct s'; lia).
    by injection Hmm as ->.
Qed.

Lemma same_key_same_error t x y :
  is_finite x = true → is_finite y = true → Num.key_repr x = Num.key_repr y →
  abs (t - x) = abs (t - y).
Proof.
  intros Hx Hy Hk. destruct (key_repr_inj x y Hx Hy Hk) as [E|(s & s' & Ex & Ey)].
  - by rewrite (Prim2SF_inj _ _ E).
  - apply Prim2SF_inj. rewrite !abs_spec, !sub_spec, Ex, Ey.
    destruct (Prim2SF t) as [[]|[]| |]; by destruct s, s'.
Qed.

(** ** The result set holds the best values considered *)

(** The value [v] is retained, or the result set is full of entries that are
    at least as good, or [v] was not to be retained at all. *)
Definition settled (cfg : config) (st : state) (v : float) : Prop :=
  Num.isFiniteNumber v && side_pass cfg v = false ∨
  Num.key_repr v ∈ savedValues st ∨
  (full cfg st ∧
   ∀ c, c ∈ bestHeap st → (c_err c <=? abs (target cfg - v))%float = true).

Definition select_inv (cfg : config) (st : state) : Prop :=
  heap_ok st ∧ ResultSet_inv cfg st ∧ Forall (entry_ok cfg) (bestHeap st).

Lemma heap_ok_top st w rest :
  heap_ok st → bestHeap st = w :: rest →
  ∀ c, c ∈ bestHeap st → (c_err c <=? c_err w)%float = true.
Proof.
  intros [Hok Ho] Hh c [j Hj]%list_elem_of_lookup.
  assert (bestHeap st !! 0%nat = Some w) as Hw by (by rewrite Hh).
  pose proof (HeapFacts.heap_ordered_top _ _ w Ho Hw j c Hj) as Hle.
  unfold errors_ok in Hok. rewrite Forall_forall in Hok.
  rewrite Dbl.leb_rk.
  - by apply Z.leb_le.
  - apply Hok. by eapply list_elem_of_lookup_2.
  - apply Hok. by eapply list_elem_of_lookup_2.
Qed.

Lemma select_inv_step cfg v e st :
  is_nan (target cfg) = false → (0 ≤ keepTop cfg)%Z →
  select_inv cfg st → select_inv cfg (considerValue cfg v e st).2.
Proof.
  intros Ht HK (H1 & H2 & H3). split_and!.
  - by apply considerValue_heap_ok.
  - by apply considerValue_inv.
  - by apply considerValue_entries.
Qed.

Lemma settled_stable cfg v e st u :
  is_nan (target cfg) = false →
  select_inv cfg st → settled cfg st u → settled cfg (considerValue cfg v e st).2 u.
Proof.
  intros Ht (Hheap & (Hsz & Hnd & Hsv) & Hent) Hu.
  destruct (Num.isFiniteNumber u && side_pass cfg u) eqn:Hcu; [|by left].
  destruct Hu as [Hu|Hu]; [congruence|].
  apply andb_true_iff in Hcu as [Hfu _]. unfold Num.isFiniteNumber in Hfu.
  destruct (considerValue_cases cfg v e st)
    as [-> | [-> | [(Hf & Hk & Hlt & ->) | [(w & rest & Hf & Hk & Hge & Hh & Hlt & ->) | (_ & _ & ->)]]]];
    cbn [snd]; try (by right).
  - (* pushed: the result set was not full *)
    right. destruct Hu as [Hu|[Hfull _]]; [|unfold full in Hfull; lia].
    left. cbn [set_bestHeap savedValues]. apply elem_of_union. by left.
  - (* the worst entry replaced *)
    right. pose proof (new_error_ok cfg v Ht Hf) as Hnew.
    pose proof (new_error_ok cfg u Ht Hfu) as Herr_u.
    pose proof (HeapFacts.replace_Permutation cmp_err w rest
                  (Candidate (abs (target cfg - v)) v e)) as Hp.
    pose proof (heap_ok_top st w rest Hheap Hh) as Htop.
    destruct Hheap as [Hok _]. unfold errors_ok in Hok. rewrite Forall_forall in Hok.
    assert (Dbl.is_error (c_err w)) as Hew by (apply Hok; rewrite Hh; left).
    assert (∀ bound, Dbl.is_error bound → (c_err w <=? bound)%float = true →
              full cfg (set_bestHeap
                          (BinaryHeap.replace cmp_err (bestHeap st)
                             (Candidate (abs (target cfg - v)) v e))
                          (savedValues st ∖ {[Num.key_repr (c_v w)]} ∪ {[Num.key_repr v]})
                          (incr_exprCountTotal st)) ∧
              ∀ c, c ∈ BinaryHeap.replace cmp_err (bestHeap st)
                         (Candidate (abs (target cfg - v)) v e) →
                   (c_err c <=? bound)%float = true) as Hbound.
    { intros bound Hb Hwb. split.
      - unfold full, BinaryHeap.size in *. cbn [set_bestHeap bestHeap].
        rewrite Hh in *. rewrite Hp. cbn [length] in *. lia.
      - intros c Hc. rewrite Hh, Hp in Hc. apply elem_of_cons in Hc as [->|Hc].
        + cbn [c_err]. apply (leb_trans_error _ (c_err w)); [done|done|done| |done].
          by apply ltb_leb_error.
        + apply (leb_trans_error _ (c_err w)); [|done|done| |done].
          * apply Hok. rewrite Hh. by right.
          * apply Htop. rewrite Hh. by right. }
    destruct Hu as [Hu|[Hfull Hall]].
    + destruct (decide (Num.key_repr u = Num.key_repr (c_v w))) as [Heq|Hne].
      * right. cbn [set_bestHeap bestHeap]. apply Hbound; [done|].
        rewrite Forall_forall in Hent.
        destruct (Hent w ltac:(rewrite Hh; left)) as (Hfw & Herr & _).
        rewrite (same_key_same_error (target cfg) u (c_v w)) by done.
        fold (target cfg) in Herr. rewrite <- Herr. by apply leb_refl_error.
      * left. cbn [set_bestHeap savedValues]. apply elem_of_union. left.
        apply elem_of_difference. split; [done|]. by rewrite elem_of_singleton.
    + right. cbn [set_bestHeap bestHeap]. apply Hbound; [done|].
      apply Hall. rewrite Hh. left.
Qed.

Lemma considerValue_settles cfg v e st :
  is_nan (target cfg) = false →
  select_inv cfg st → (considerValue cfg v e st).1 = Ok tt →
  settled cfg (considerValue cfg v e st).2 v.
Proof.
  intros Ht (Hheap & _ & _). unfold considerValue, settled, side_pass.
  destruct (Num.isFiniteNumber v) eqn:Hf; cbn [negb andb]; [|by left].
  destruct (String.eqb (keepSide cfg) "greater" && _) eqn:E1; cbn [negb andb]; [by left|].
  destruct (String.eqb (keepSide cfg) "less" && _) eqn:E2; cbn [negb andb]; [by left|].
  change (savedValues (incr_exprCountTotal st)) with (savedValues st).
  change (bestHeap (incr_exprCountTotal st)) with (bestHeap st).
  case_bool_decide as Hk; [intros _; right; by left|].
  destruct (BinaryHeap.size (bestHeap st) <? keepTop cfg)%Z eqn:Hsz.
  { intros _. right; left. cbn [snd set_bestHeap savedValues]. set_solver. }
  apply Z.ltb_ge in Hsz.
  destruct (BinaryHeap.peek (bestHeap st)) as [w|] eqn:Hp; [|done].
  apply peek_Some in Hp as [rest Hh].
  destruct (abs (target cfg - v) <? c_err w)%float eqn:Hlt.
  { intros _. right; left. cbn [snd set_bestHeap savedValues]. set_solver. }
  intros _. right; right. cbn [snd]. split; [done|].
  intros c Hc.
  pose proof (heap_ok_top st w rest Hheap Hh c Hc) as Hcw.
  destruct Hheap as [Hok _]. unfold errors_ok in Hok. rewrite Forall_forall in Hok.
  pose proof (new_error_ok cfg v Ht Hf) as Hnew.
  assert (Dbl.is_error (c_err w)) as Hew by (apply Hok; rewrite Hh; left).
  apply (leb_trans_error _ (c_err w)); [by apply Hok|done|done|done|].
  apply not_ltb_leb; [by destruct Hnew|by destruct Hew|done].
Qed.

Lemma run_levels_settled P cfg :
  is_nan (target cfg) = false → (0 ≤ keepTop cfg)%Z →
  select_inv cfg (run_levels P cfg (maxCost cfg) init_state).2 ∧
  ∀ k l, memo (run_levels P cfg (maxCost cfg) init_state).2 !! k = Some l →
         Forall (λ it, settled cfg (run_levels P cfg (maxCost cfg) init_state).2 (it_v it)) l.
Proof.
  intros Ht HK.
  apply (run_levels_good P cfg (maxCost cfg) (select_inv cfg)
           (λ _ st it, settled cfg st (it_v it)) (λ _ _, True)).
  - intros st st' [Hh Hs] (H1 & H2 & H3). unfold select_inv, heap_ok, errors_ok in *.
    rewrite Hh. split_and!; [by destruct H1|by destruct H1| |done].
    by apply (ResultSet_inv_same cfg st).
  - intros st st' [Hh Hs] c it. unfold settled, full. by rewrite Hh, Hs.
  - intros c v e st _ HJ _. split_and!.
    + by apply select_inv_step.
    + intros c' it. by apply settled_stable.
    + by apply considerValue_settles.
  - done.
  - done.
  - done.
  - done.
  - lia.
  - split_and!.
    + split; [constructor|]. intros p c _ x y Hx. done.
    + unfold ResultSet_inv, init_state, keys. cbn. split_and!; [done|constructor|set_solver].
    + constructor.
  - intros c l. unfold init_state. cbn [memo]. by rewrite lookup_empty.
Qed.

Lemma key_repr_eqb x y :
  is_finite x = true → is_finite y = true →
  Num.key_repr x = Num.key_repr y ↔ (x =? y)%float = true.
Proof.
  intros Hx Hy.
  pose proof (Dbl.is_finite_not_nan _ Hx) as Nx. pose proof (Dbl.is_finite_not_nan _ Hy) as Ny.
  rewrite Dbl.eqb_rk by done. rewrite Z.eqb_eq. split.
  - intros Hk. unfold Dbl.rk.
    destruct (key_repr_inj x y Hx Hy Hk) as [->|(s & s' & -> & ->)]; done.
  - intros Hr. rewrite !key_repr_finite by done. unfold Num.toPrecision17.
    destruct (rk_finite_inj x y Hx Hy Hr) as [->|(s & s' & -> & ->)]; done.
Qed.

(** X12.  The deduplication key identifies the value: two finite numbers
    have the same 17-digit key exactly when they are equal as numbers
    ([0] and [-0] share the key [0.0000000000000000]). *)
Theorem X12_key_repr_faithful x y :
  is_finite x = true → is_finite y = true →
  Num.key_repr x = Num.key_repr y ↔ (x =? y)%float = true.
Proof. apply key_repr_eqb. Qed.

(** X13.  The result set holds the best values found: for a target that is
    a number, every expression of the memo table with a finite value on the
    side kept either has its value among the candidates returned, or the
    list returned is full ([keep_top] entries) and each of its entries has an
    error at most the error of that expression. *)
Theorem X13_best_values_kept P cfg :
  is_nan (cfg_target cfg) = false → (0 ≤ cfg_keep_top cfg)%Z →
  ∀ k l it,
    memo (run_levels P cfg (maxCost cfg) init_state).2 !! k = Some l → it ∈ l →
    is_finite (it_v it) = true → side_pass cfg (it_v it) = true →
    (∃ c, c ∈ results (generateEnumerations P cfg) ∧ (c_v c =? it_v it)%float = true) ∨
    ((cfg_keep_top cfg ≤ Z.of_nat (length (results (generateEnumerations P cfg))))%Z ∧
     ∀ c, c ∈ results (generateEnumerations P cfg) →
          (c_err c <=? abs (cfg_target cfg - it_v it))%float = true).
Proof.
  intros Ht HK k l it Hl Hit Hf Hs.
  destruct (run_levels_settled P cfg Ht HK) as [(Hheap & (Hsz & Hnd & Hsv) & Hent) Hm].
  specialize (Hm k l Hl). rewrite Forall_forall in Hm. specialize (Hm it Hit).
  unfold generateEnumerations.
  destruct (run_levels P cfg (maxCost cfg) init_state) as [r st].
  cbn [snd results read_out] in *.
  destruct Hm as [Hm|[Hm|[Hfull Hall]]].
  - unfold Num.isFiniteNumber in Hm. by rewrite Hf, Hs in Hm.
  - left. apply Hsv in Hm. unfold keys in Hm.
    apply list_elem_of_fmap in Hm as (c & Hkey & Hc).
    exists c. split; [by rewrite Array_sort_Permutation|].
    rewrite Forall_forall in Hent. destruct (Hent c Hc) as (Hfc & _).
    apply key_repr_eqb; [done|done|]. by symmetry.
  - right. split.
    + rewrite Array_sort_Permutation. exact Hfull.
    + intros c Hc. rewrite Array_sort_Permutation in Hc. by apply Hall.
Qed.

(** ** Within the budget the search completes *)

Lemma run_levels_within_budget P cfg n st :
  (1 ≤ keepTop cfg)%Z → (∀ i, over_budget P cfg i = false) →
  (run_levels P cfg n st).1 = Ok tt.
Proof.
  intros HK Hb.
  pose proof (sat_run_levels P cfg (λ _ o _, o ≠ Some Timeout)) as H.
  assert (outcome (run_levels P cfg n st).1 ≠ Some Timeout) as Ho.
  { apply H; clear H; try done.
    - intros st'. by rewrite timeCheck_passes.
    - intros v e st'. by destruct (considerValue_returns cfg v e st' HK) as (st'' & -> & _). }
  destruct (run_levels_outcome P cfg n st HK) as [E|E]; [done|]. rewrite E in Ho. done.
Qed.

(** X14.  Within the budget the search completes: with room for one entry
    at least, when no poll of the clock exceeds the budget, the loop over the
    levels runs to its end, [max_level] is [max_cost], no error is logged and
    progress is reported for each of the levels 1..[max_cost]. *)
Theorem X14_within_budget_completes P cfg :
  (1 ≤ cfg_keep_top cfg)%Z → (0 ≤ cfg_max_cost cfg)%Z →
  (∀ i, over_budget P cfg i = false) →
  (run_levels P cfg (maxCost cfg) init_state).1 = Ok tt ∧
  max_level (generateEnumerations P cfg) = cfg_max_cost cfg ∧
  logged (generateEnumerations P cfg) = None ∧
  p_level <$> reported (run_levels P cfg (maxCost cfg) init_state).2
    = seqZ 1 (cfg_max_cost cfg).
Proof.
  intros HK Hn Hb.
  pose proof (run_levels_within_budget P cfg (maxCost cfg) init_state HK Hb) as Hrun.
  pose proof (run_levels_exact P cfg (maxCost cfg) Hn) as H.
  unfold generateEnumerations.
  destruct (run_levels P cfg (maxCost cfg) init_state) as [r st].
  cbn [fst snd] in *. subst r. destruct H as (_ & Hcomp & _).
  cbn [max_level logged read_out].
  rewrite (completed_size _ _ Hn Hcomp). unfold maxCost in *.
  rewrite Z.min_id. split_and!; try done. by destruct Hcomp.
Qed.

(** ** The clock matters through the polls only *)

(** The platform [P] with another clock. *)
Definition with_clock (P : Platform) (now : nat → float) : Platform := {|
  Math_sin := Math_sin P;
  Math_cos := Math_cos P;
  Math_tan := Math_tan P;
  Math_exp := Math_exp P;
  Math_log := Math_log P;
  Math_sqrt := Math_sqrt P;
  Math_pow := Math_pow P;
  performance_now := now
|}.

(** Two states that differ by the progress reported only. *)
Definition same_search (st st' : state) : Prop :=
  bestHeap st' = bestHeap st ∧ savedValues st' = savedValues st ∧
  exprCountTotal st' = exprCountTotal st ∧ stopped st' = stopped st ∧
  memo st' = memo st ∧ readings st' = readings st.

(** Two computations that end the same way from such states, in such
    states. *)
Definition agree {A} (m m' : M A) : Prop :=
  ∀ st st', same_search st st' →
    (m' st').1 = (m st).1 ∧ same_search (m st).2 (m' st').2.

Lemma agree_ret {A} (a : A) : agree (mret a) (mret a).
Proof. by intros st st' Hs. Qed.

Lemma agree_bind {A B} (m m' : M A) (f f' : A → M B) :
  agree m m' → (∀ a, agree (f a) (f' a)) → agree (m ≫= f) (m' ≫= f').
Proof.
  intros Hm Hf st st' Hs. rewrite !bind_unfold.
  destruct (Hm st st' Hs) as [E S1].
  destruct (m st) as [[a|e] st1], (m' st') as [[a'|e'] st1'];
    cbn [fst snd] in *; simplify_eq; [by apply Hf|done].
Qed.

Lemma agree_foldM {A B} (f f' : B → A → M B) (l : list A) (b : B) :
  (∀ b x, x ∈ l → agree (f b x) (f' b x)) → agree (foldM f l b) (foldM f' l b).
Proof.
  revert b. induction l as [|x l IH]; intros b Hf; cbn [foldM].
  - apply agree_ret.
  - apply agree_bind; [apply Hf; left|].
    intros b'. apply IH. intros b'' y Hy. apply Hf. by right.
Qed.

Lemma agree_if {A} (c : bool) (m1 m1' m2 m2' : M A) :
  agree m1 m1' → agree m2 m2' →
  agree (if c then m1 else m2) (if c then m1' else m2').
Proof. by destruct c. Qed.

Lemma agree_considerValue cfg v e : agree (considerValue cfg v e) (considerValue cfg v e).
Proof.
  intros [h s n b mm r rp] [h' s' n' b' mm' r' rp'] (H1 & H2 & H3 & H4 & H5 & H6).
  cbn in H1, H2, H3, H4, H5, H6. subst.
  unfold considerValue, same_search.
  cbn [bestHeap savedValues exprCountTotal stopped memo readings reported
       incr_exprCountTotal set_bestHeap].
  destruct (negb _); [done|].
  destruct (String.eqb (keepSide cfg) "greater" && _); [done|].
  destruct (String.eqb (keepSide cfg) "less" && _); [done|].
  case_bool_decide; [done|].
  destruct (_ <? _)%Z; [done|].
  destruct (BinaryHeap.peek h); [|done].
  by destruct (_ <? _)%float.
Qed.

Lemma agree_emit cfg acc v e : agree (emit cfg acc v e) (emit cfg acc v e).
Proof.
  unfold emit. apply agree_bind; [apply agree_considerValue|].
  intros ?. apply agree_ret.
Qed.

Lemma agree_unary_step cfg it acc uf :
  agree (unary_step cfg it acc uf) (unary_step cfg it acc uf).
Proof.
  destruct uf as [fname f]. unfold unary_step.
  repeat (apply agree_if; [apply agree_ret|]). apply agree_emit.
Qed.

Lemma agree_binary_step cfg L R acc bo :
  agree (binary_step cfg L R acc bo) (binary_step cfg L R acc bo).
Proof.
  destruct bo as [opname op]. unfold binary_step.
  apply agree_if; [apply agree_ret|].
  apply agree_bind.
  - apply agree_if; [apply agree_emit|apply agree_ret].
  - intros acc'. apply agree_if; [apply agree_emit|apply agree_ret].
Qed.

Section Clock.
Variable P : Platform.
Variable now : nat → float.
Variable cfg : config.
Hypothesis same_polls :
  ∀ i, over_budget (with_clock P now) cfg i = over_budget P cfg i.

Lemma agree_timeCheck : agree (timeCheck P cfg) (timeCheck (with_clock P now) cfg).
Proof.
  intros st st' Hs. rewrite !timeCheck_unfold.
  destruct Hs as (H1 & H2 & H3 & H4 & H5 & H6).
  rewrite H6, same_polls.
  destruct (over_budget P cfg (readings st)); (split; [done|]);
    unfold same_search; cbn; split_and!; congruence.
Qed.

Lemma agree_atom_step acc n :
  agree (atom_step P cfg acc n) (atom_step (with_clock P now) cfg acc n).
Proof.
  unfold atom_step. apply agree_bind; [apply agree_timeCheck|].
  intros ?. apply agree_emit.
Qed.

Lemma agree_const_step acc c :
  agree (const_step P cfg acc c) (const_step (with_clock P now) cfg acc c).
Proof.
  unfold const_step. apply agree_bind; [apply agree_timeCheck|].
  intros ?. apply agree_emit.
Qed.

Lemma agree_unary_expand acc it :
  agree (unary_expand P cfg acc it) (unary_expand (with_clock P now) cfg acc it).
Proof.
  unfold unary_expand. apply agree_bind; [apply agree_timeCheck|].
  intros ?. apply agree_if; [apply agree_ret|].
  apply (agree_foldM (unary_step cfg it) (unary_step cfg it)).
  intros acc' uf _. apply agree_unary_step.
Qed.

Lemma agree_pair_step L acc R :
  agree (pair_step P cfg L acc R) (pair_step (with_clock P now) cfg L acc R).
Proof.
  unfold pair_step. apply agree_bind; [apply agree_timeCheck|].
  intros ?. apply agree_if; [apply agree_ret|].
  apply (agree_foldM (binary_step cfg L R) (binary_step cfg L R)).
  intros acc' bo _. apply agree_binary_step.
Qed.

Lemma agree_left_step rightArr acc L :
  agree (left_step P cfg rightArr acc L) (left_step (with_clock P now) cfg rightArr acc L).
Proof.
  unfold left_step. apply agree_bind; [apply agree_timeCheck|].
  intros ?. apply agree_foldM. intros acc' R _. apply agree_pair_step.
Qed.

Lemma agree_modify (f : state → state) :
  (∀ st st', same_search st st' → same_search (f st) (f st')) →
  agree (modify f) (modify f).
Proof. intros Hf st st' Hs. split; [done|]. by apply Hf. Qed.

Lemma same_search_memo_set cost l st st' :
  same_search st st' → same_search (memo_set cost l st) (memo_set cost l st').
Proof.
  intros (H1 & H2 & H3 & H4 & H5 & H6). unfold same_search. cbn. by rewrite H5.
Qed.

Lemma agree_enumerateCost depth cost :
  agree (enumerateCost P cfg depth cost) (enumerateCost (with_clock P now) cfg depth cost).
Proof.
  revert cost. induction depth as [|depth IH]; intros cost; cbn [enumerateCost].
  { by intros st st' Hs. }
  intros st st' Hs. rewrite !bind_unfold. unfold get_state.
  pose proof Hs as (H1 & H2 & H3 & H4 & H5 & H6). rewrite H4, H5.
  destruct (stopped st); [by apply agree_ret|].
  destruct (memo st !! cost) as [r|]; [by apply agree_ret|].
  revert st st' Hs H1 H2 H3 H4 H5 H6.
  match goal with
  | |- ∀ st st', same_search st st' → _ → _ → _ → _ → _ → _ →
                 (?m' st').1 = (?m st).1 ∧ _ =>
      enough (agree m m') as Ha by (intros st st' Hs _ _ _ _ _ _; by apply Ha)
  end.
  apply agree_bind; [apply agree_timeCheck|]. intros ?.
  apply agree_if.
  - apply agree_bind; [apply agree_foldM; intros; apply agree_atom_step|]. intros r1.
    apply agree_bind; [apply agree_foldM; intros; apply agree_const_step|]. intros r2.
    apply agree_bind; [apply agree_modify; intros; by apply same_search_memo_set|].
    intros ?. apply agree_ret.
  - apply agree_bind; [apply IH|]. intros prev.
    apply agree_bind; [apply agree_foldM; intros; apply agree_unary_expand|]. intros r1.
    apply agree_bind.
    + apply agree_foldM. intros acc a_cost _.
      apply agree_bind; [apply IH|]. intros leftArr.
      apply agree_bind; [apply IH|]. intros rightArr.
      apply agree_foldM. intros; apply agree_left_step.
    + intros r2.
      apply agree_bind; [apply agree_modify; intros; by apply same_search_memo_set|].
      intros ?. apply agree_ret.
Qed.

Lemma agree_level cost :
  agree (level P cfg cost) (level (with_clock P now) cfg cost).
Proof.
  intros st st' Hs. unfold level. rewrite !bind_unfold.
  destruct (agree_timeCheck st st' Hs) as [E1 S1].
  destruct (timeCheck P cfg st) as [[[]|e] st1],
           (timeCheck (with_clock P now) cfg st') as [[[]|e'] st1'];
    cbn [fst snd] in *; simplify_eq; [|done].
  rewrite !bind_unfold.
  destruct (agree_enumerateCost (Z.to_nat cost) cost st1 st1' S1) as [E2 S2].
  destruct (enumerateCost P cfg (Z.to_nat cost) cost st1) as [[r|e] st2],
           (enumerateCost (with_clock P now) cfg (Z.to_nat cost) cost st1') as [[r'|e'] st2'];
    cbn [fst snd] in *; simplify_eq; [|done].
  rewrite !bind_unfold. unfold nowSec. rewrite !bind_unfold. unfold get_state, modify.
  cbn [fst snd]. split; [done|].
  destruct S2 as (H1 & H2 & H3 & H4 & H5 & H6). unfold same_search. cbn.
  by rewrite H6.
Qed.

Lemma agree_run_levels n :
  agree (run_levels P cfg n) (run_levels (with_clock P now) cfg n).
Proof.
  unfold run_levels. apply agree_foldM. intros [] cost _. apply agree_level.
Qed.

End Clock.

(** X15.  The clock matters through the polls only: on two platforms that
    differ by their clocks, if the same polls exceed the budget, the search
    returns the same candidates and the same statistics, and logs the same
    error. *)
Theorem X15_clock_through_polls_only P now cfg :
  (∀ i, over_budget (with_clock P now) cfg i = over_budget P cfg i) →
  generateEnumerations (with_clock P now) cfg = generateEnumerations P cfg.
Proof.
  intros Hp.
  assert (same_search init_state init_state) as Hs by done.
  destruct (agree_run_levels P now cfg Hp (maxCost cfg) init_state init_state Hs) as [E S].
  unfold generateEnumerations.
  destruct (run_levels P cfg (maxCost cfg) init_state) as [r st],
           (run_levels (with_clock P now) cfg (maxCost cfg) init_state) as [r' st'].
  cbn [fst snd] in *. subst r'.
  destruct S as (H1 & H2 & H3 & H4 & H5 & H6).
  unfold read_out. by rewrite H1, H3, H5.
Qed.

(** ** The levels of the memo table, as lists *)

(** What the loop over [unaryFuncs] appends for the expression [it] and the
    function [uf]. *)
Definition unary_out (cfg : config) (it : item) (uf : string * (float → float))
    : list item :=
  if cancelled uf.1 (it_expr it) then []
  else [Item (safeEvalFunc uf.2 (it_v it)) (unary_text uf.1 (it_expr it))].

(** What the loop over [prev] appends for [it]. *)
Definition unary_expand_out (P : Platform) (cfg : config) (it : item) : list item :=
  if Num.isFiniteNumber (it_v it) then flat_map (unary_out cfg it) (unaryFuncs P cfg)
  else [].

(** What the loop over [binaryOps] appends for the pair [(L, R)] and the
    operator [bo]. *)
Definition binary_out (cfg : config) (L R : item)
    (bo : string * (float → float → float)) : list item :=
  if identity_pruned cfg bo.1 R then []
  else (if doFirst bo.1 L R then [combination bo.1 bo.2 L R] else []) ++
       (if isCommutative bo.1 then [] else [combination bo.1 bo.2 R L]).

(** What the loop over [rightArr] appends for [L] and [R]. *)
Definition pair_out (P : Platform) (cfg : config) (L R : item) : list item :=
  if Num.isFiniteNumber (it_v L) && Num.isFiniteNumber (it_v R)
  then flat_map (binary_out cfg L R) (binaryOps P cfg)
  else [].

(** The atom of the integer [n], with the text that [String(n|0)] gives. *)
Definition atom_of (n : Z) : item := Item (Num.of_Z n) (pretty (Num.ToInt32 n)).

(** The expressions of cost [cost], given the levels below in [mm]. *)
Definition level_items (P : Platform) (cfg : config) (mm : gmap Z (list item))
    (cost : Z) : list item :=
  if (cost =? 1)%Z then
    (atom_of <$> numbers cfg) ++ (constant_atom <$> constants cfg)
  else
    flat_map (unary_expand_out P cfg) (default [] (mm !! (cost - 1)%Z)) ++
    flat_map (λ a_cost,
                flat_map (λ L, flat_map (pair_out P cfg L)
                                 (default [] (mm !! (cost - 1 - a_cost)%Z)))
                         (default [] (mm !! a_cost)))
             (seqZ 1 (cost - 2)).

(** Every level of the table is the list of the expressions of its cost. *)
Definition memo_exact (P : Platform) (cfg : config) (mm : gmap Z (list item)) : Prop :=
  ∀ k l, mm !! k = Some l → l = level_items P cfg mm k.

Lemma flat_map_singleton {A B} (f : A → B) (l : list A) :
  flat_map (λ x, [f x]) l = f <$> l.
Proof. induction l as [|x l IH]; cbn; [done|]. by rewrite IH. Qed.

Lemma flat_map_ext_elem {A B} (f g : A → list B) (l : list A) :
  (∀ x, x ∈ l → f x = g x) → flat_map f l = flat_map g l.
Proof.
  induction l as [|x l IH]; intros H; cbn; [done|].
  rewrite H by left. rewrite IH; [done|]. intros y Hy. apply H. by right.
Qed.

Section Items.
Variable P : Platform.
Variable cfg : config.
Variable mm : gmap Z (list item).

(** Inside the loops of a level that started with the table [mm]. *)
Definition within (st : state) : Prop := stopped st = false ∧ memo st = mm.

(** The body [f] of a loop appends [g x] to the array it builds. *)
Definition appends {A} (f : list item → A → M (list item)) (g : A → list item)
    (l : list A) : Prop :=
  ∀ acc x, x ∈ l →
    triple within (f acc x) (λ r s, r = acc ++ g x ∧ within s) (λ _, True).

Lemma foldM_appends {A} (f : list item → A → M (list item)) g (l : list A) acc :
  appends f g l →
  triple within (foldM f l acc) (λ r s, r = acc ++ flat_map g l ∧ within s) (λ _, True).
Proof.
  revert acc. induction l as [|x l IH]; intros acc Hf; cbn [foldM flat_map].
  - apply triple_ret. intros st Hst. by rewrite app_nil_r.
  - eapply triple_bind; [apply Hf; left|]. intros acc' st [-> Hst].
    assert (appends f g l) as Hf' by (intros acc' y Hy; apply Hf; by right).
    specialize (IH (acc ++ g x) Hf' st Hst).
    destruct (foldM f l (acc ++ g x) st) as [[r|e] st1]; [|done].
    by rewrite app_assoc.
Qed.

Lemma timeCheck_within :
  triple within (timeCheck P cfg) (λ _, within) (λ _, True).
Proof.
  intros st [Hs Hm]. rewrite timeCheck_unfold.
  by destruct (over_budget P cfg (readings st)).
Qed.

Lemma emit_within acc v e :
  triple within (emit cfg acc v e) (λ r s, r = acc ++ [Item v e] ∧ within s) (λ _, True).
Proof.
  intros st [Hs Hm]. unfold emit. rewrite bind_unfold.
  destruct (considerValue_count cfg v e st) as (_ & Hm' & Hs' & _).
  destruct (considerValue cfg v e st) as [[[]|ex] st1]; cbn [snd] in *; [|done].
  unfold mret, M_ret. split; [done|]. split; congruence.
Qed.

Lemma ret_within (acc : list item) :
  triple within (mret acc) (λ r s, r = acc ++ [] ∧ within s) (λ _, True).
Proof. apply triple_ret. intros st Hst. by rewrite app_nil_r. Qed.

Lemma timeCheck_then {A} (m : M A) post :
  triple within m post (λ _, True) →
  triple within (timeCheck P cfg;; m) post (λ _, True).
Proof. intros Hm. eapply triple_bind; [apply timeCheck_within|]. by intros []. Qed.

Lemma atom_step_appends l : appends (atom_step P cfg) (λ n, [atom_of n]) l.
Proof. intros acc n _. apply timeCheck_then, emit_within. Qed.

Lemma const_step_appends l : appends (const_step P cfg) (λ c, [constant_atom c]) l.
Proof. intros acc c _. apply timeCheck_then, emit_within. Qed.

Lemma unary_step_appends it l : appends (unary_step cfg it) (unary_out cfg it) l.
Proof.
  intros acc [fname f] _. unfold unary_step, unary_out, cancelled. cbn [fst snd].
  destruct (String.eqb fname "ln" && _); cbn [orb]; [apply ret_within|].
  destruct (String.eqb fname "exp" && _); [apply ret_within|apply emit_within].
Qed.

Lemma unary_expand_appends l :
  appends (unary_expand P cfg) (unary_expand_out P cfg) l.
Proof.
  intros acc it _. apply timeCheck_then. unfold unary_expand_out.
  destruct (Num.isFiniteNumber (it_v it)); cbn [negb]; [|apply ret_within].
  apply foldM_appends, unary_step_appends.
Qed.

Lemma binary_step_appends L R l :
  appends (binary_step cfg L R) (binary_out cfg L R) l.
Proof.
  intros acc [opname op] _. unfold binary_step, binary_out. cbn [fst snd].
  destruct (identity_pruned cfg opname R); [apply ret_within|].
  eapply triple_bind with
    (mid := λ r s, r = acc ++ (if doFirst opname L R
                               then [combination opname op L R] else []) ∧ within s).
  - destruct (doFirst opname L R); [apply emit_within|apply ret_within].
  - intros r st [-> Hst]. rewrite app_assoc.
    destruct (isCommutative opname); cbn [negb].
    + by apply ret_within.
    + by apply emit_within.
Qed.

Lemma pair_step_appends L l : appends (pair_step P cfg L) (pair_out P cfg L) l.
Proof.
  intros acc R _. apply timeCheck_then. unfold pair_out.
  destruct (Num.isFiniteNumber (it_v L)), (Num.isFiniteNumber (it_v R));
    cbn [negb orb andb]; try apply ret_within.
  apply foldM_appends, binary_step_appends.
Qed.

Lemma left_step_appends rightArr l :
  appends (left_step P cfg rightArr) (λ L, flat_map (pair_out P cfg L) rightArr) l.
Proof.
  intros acc L _. apply timeCheck_then. apply foldM_appends, pair_step_appends.
Qed.

End Items.

(** The level [m + 1], entered when the levels 1..[m] are memoised, returns
    the expressions of cost [m + 1]. *)
Lemma enumerateCost_items P cfg m st :
  (0 ≤ m)%Z → stopped st = false →
  (∀ c, is_Some (memo st !! c) ↔ (1 ≤ c ≤ m)%Z) →
  ∀ r st', enumerateCost P cfg (Z.to_nat (m + 1)) (m + 1) st = (Ok r, st') →
           r = level_items P cfg (memo st) (m + 1).
Proof.
  intros Hm Hs Hdom.
  replace (Z.to_nat (m + 1)) with (S (Z.to_nat m)) by lia.
  cbn [enumerateCost]. rewrite bind_unfold. unfold get_state. rewrite Hs.
  destruct (memo st !! (m + 1)%Z) as [r|] eqn:Hmiss.
  { assert (is_Some (memo st !! (m + 1)%Z)) as H%Hdom by (by rewrite Hmiss). lia. }
  set (mm := memo st).
  assert (triple (within mm)
    (timeCheck P cfg ≫= λ _,
       if (m + 1 =? 1)%Z then
         results ← foldM (atom_step P cfg) (numbers cfg) [];
         results ← foldM (const_step P cfg) (constants cfg) results;
         modify (memo_set (m + 1) results);; mret results
       else
         prev ← enumerateCost P cfg (Z.to_nat m) (m + 1 - 1);
         results ← foldM (unary_expand P cfg) prev [];
         results ←
           foldM (λ results a_cost,
                    let b_cost := (m + 1 - 1 - a_cost)%Z in
                    leftArr ← enumerateCost P cfg (Z.to_nat m) a_cost;
                    rightArr ← enumerateCost P cfg (Z.to_nat m) b_cost;
                    foldM (left_step P cfg rightArr) leftArr results)
                 (seqZ 1 (m + 1 - 2)) results;
         modify (memo_set (m + 1) results);; mret results)
    (λ r _, r = level_items P cfg mm (m + 1)) (λ _, True)) as Hbody.
  { assert (∀ r, r = level_items P cfg mm (m + 1) →
               triple (within mm) (modify (memo_set (m + 1) r);; mret r)
                 (λ r _, r = level_items P cfg mm (m + 1)) (λ _, True)) as Hset.
    { intros r Hr s Hin. by rewrite bind_unfold. }
    apply timeCheck_then.
    destruct (m + 1 =? 1)%Z eqn:E.
    - eapply triple_bind; [apply foldM_appends, atom_step_appends|].
      intros r1 s1 [-> Hs1]. rewrite bind_unfold.
      pose proof (foldM_appends mm (const_step P cfg) (λ c, [constant_atom c])
                    (constants cfg) ([] ++ flat_map (λ n, [atom_of n]) (numbers cfg))
                    (const_step_appends P cfg mm _) s1 Hs1) as H2.
      destruct (foldM (const_step P cfg) _ _ s1) as [[r2|e] s2]; [|done].
      destruct H2 as [-> Hs2]. apply (λ H, Hset _ H s2 Hs2).
      unfold level_items. rewrite E. cbn [app].
      by rewrite !flat_map_singleton.
    - apply Z.eqb_neq in E.
      assert (∀ c, (1 ≤ c ≤ m)%Z →
                triple (within mm) (enumerateCost P cfg (Z.to_nat m) c)
                  (λ r s, r = default [] (mm !! c) ∧ within mm s) (λ _, True)) as Hrec.
      { intros c Hc s [Hs1 Hm1].
        destruct (proj2 (Hdom c) Hc) as [r Hr].
        replace (Z.to_nat m) with (S (Z.to_nat (m - 1))) by lia.
        rewrite (enumerateCost_hit P cfg _ c s r) by (done || (rewrite Hm1; exact Hr)).
        subst mm. by rewrite Hr. }
      eapply triple_bind; [apply Hrec; lia|]. intros prev s1 [-> Hs1].
      rewrite bind_unfold.
      pose proof (foldM_appends mm (unary_expand P cfg) (unary_expand_out P cfg)
                    (default [] (mm !! (m + 1 - 1)%Z)) []
                    (unary_expand_appends P cfg mm _) s1 Hs1) as H2.
      destruct (foldM (unary_expand P cfg) _ _ s1) as [[r2|e] s2]; [|done].
      destruct H2 as [-> Hs2]. rewrite bind_unfold.
      pose proof (foldM_appends mm
                    (λ results a_cost,
                       let b_cost := (m + 1 - 1 - a_cost)%Z in
                       leftArr ← enumerateCost P cfg (Z.to_nat m) a_cost;
                       rightArr ← enumerateCost P cfg (Z.to_nat m) b_cost;
                       foldM (left_step P cfg rightArr) leftArr results)
                    (λ a_cost,
                       flat_map (λ L, flat_map (pair_out P cfg L)
                                        (default [] (mm !! (m + 1 - 1 - a_cost)%Z)))
                                (default [] (mm !! a_cost)))
                    (seqZ 1 (m + 1 - 2))
                    ([] ++ flat_map (unary_expand_out P cfg)
                                    (default [] (mm !! (m + 1 - 1)%Z)))) as H3.
      match type of H3 with ?A → _ => assert A as Happ end.
      { intros acc a_cost Ha%elem_of_seqZ. cbv zeta.
        eapply triple_bind; [apply Hrec; lia|]. intros leftArr s3 [-> Hs3].
        rewrite bind_unfold.
        pose proof (Hrec (m + 1 - 1 - a_cost)%Z ltac:(lia) s3 Hs3) as H5.
        destruct (enumerateCost P cfg (Z.to_nat m) (m + 1 - 1 - a_cost) s3)
          as [[rightArr|e] s4]; [|done].
        destruct H5 as [-> Hs4].
        exact (foldM_appends mm _ _ _ acc (left_step_appends P cfg mm _ _) s4 Hs4). }
      pose proof (H3 Happ s2 Hs2) as H4.
      destruct (foldM _ (seqZ 1 (m + 1 - 2)) _ s2) as [[r3|e] s3]; [|done].
      destruct H4 as [-> Hs3]. apply (λ H, Hset _ H s3 Hs3).
      unfold level_items. apply Z.eqb_neq in E. rewrite E. cbn [app].
      by replace (m + 1 - 1)%Z with m by lia. }
  intros r st' Hrun.
  specialize (Hbody st ltac:(done)). cbv beta zeta in Hbody, Hrun.
  by rewrite Hrun in Hbody.
Qed.

(** The expressions of cost [k] depend on the levels 1..[k - 1] only. *)
Lemma level_items_below P cfg mm mm' k :
  (1 ≤ k)%Z → (∀ c, (1 ≤ c < k)%Z → mm' !! c = mm !! c) →
  level_items P cfg mm' k = level_items P cfg mm k.
Proof.
  intros Hk H. unfold level_items. destruct (k =? 1)%Z eqn:E; [done|].
  apply Z.eqb_neq in E. rewrite H by lia. f_equal.
  apply flat_map_ext_elem. intros a Ha%elem_of_seqZ.
  by rewrite !H by lia.
Qed.

Lemma level_items_next P cfg m st :
  (0 ≤ m)%Z → stopped st = false → completed m st →
  memo_exact P cfg (memo st) → memo_exact P cfg (memo (level P cfg (m + 1) st).2).
Proof.
  intros Hm Hs [Hdom Hrep] Hex. unfold level.
  rewrite bind_unfold, timeCheck_unfold.
  destruct (over_budget P cfg (readings st)); [done|].
  rewrite bind_unfold.
  pose proof (enumerateCost_next P cfg m (incr_readings st) Hm Hs Hdom) as Hnext.
  pose proof (enumerateCost_items P cfg m (incr_readings st) Hm Hs Hdom) as Hit.
  destruct (enumerateCost P cfg (Z.to_nat (m + 1)) (m + 1) (incr_readings st))
    as [[r|e] st1]; cbn [snd].
  - destruct Hnext as (_ & Hm1 & _). specialize (Hit r st1 eq_refl).
    unfold nowSec, get_state, modify, mbind, M_bind.
    cbn [fst snd memo add_reported incr_readings]. rewrite Hm1. change (memo (incr_readings st)) with (memo st) in *.
    intros k l Hl.
    destruct (decide (k = (m + 1)%Z)) as [->|Hne].
    + rewrite lookup_insert_eq in Hl. injection Hl as <-. rewrite Hit.
      symmetry. apply level_items_below; [lia|].
      intros c Hc. by rewrite lookup_insert_ne by lia.
    + rewrite lookup_insert_ne in Hl by done.
      assert (1 ≤ k ≤ m)%Z as Hk by (apply Hdom; by rewrite Hl).
      rewrite (Hex k l Hl). symmetry. apply level_items_below; [lia|].
      intros c Hc. by rewrite lookup_insert_ne by lia.
  - destruct Hnext as (Hm1 & _). by rewrite Hm1.
Qed.

Lemma run_levels_items P cfg n :
  memo_exact P cfg (memo (run_levels P cfg n init_state).2).
Proof.
  destruct (decide (0 ≤ n)%Z) as [Hn|Hn].
  2: { unfold run_levels. rewrite seqZ_nil by lia. cbn [foldM]. unfold mret, M_ret.
       intros k l. unfold init_state. cbn [snd memo]. by rewrite lookup_empty. }
  revert n Hn. apply natlike_ind.
  - unfold run_levels. rewrite seqZ_nil by lia. cbn [foldM]. unfold mret, M_ret.
    intros k l. unfold init_state. cbn [snd memo]. by rewrite lookup_empty.
  - intros n Hn IH. unfold Z.succ. rewrite run_levels_succ by done.
    rewrite bind_unfold.
    pose proof (run_levels_exact P cfg n Hn) as Hx.
    destruct (run_levels P cfg n init_state) as [[[]|e] st]; cbn [snd] in *; [|done].
    destruct Hx as (Hs & Hcomp & _). by apply level_items_next.
Qed.

Lemma run_levels_keys P cfg n c l :
  memo (run_levels P cfg n init_state).2 !! c = Some l → (1 ≤ c)%Z.
Proof.
  destruct (decide (0 ≤ n)%Z) as [Hn|Hn].
  2: { unfold run_levels. rewrite seqZ_nil by lia. cbn [foldM]. unfold mret, M_ret.
       unfold init_state. cbn [snd memo]. by rewrite lookup_empty. }
  pose proof (run_levels_exact P cfg n Hn) as Hx.
  destruct (run_levels P cfg n init_state) as [[[]|e] st]; cbn [snd] in *.
  - destruct Hx as (_ & [Hdom _] & _). intros Hl.
    assert (is_Some (memo st !! c)) as H%Hdom by (by rewrite Hl). lia.
  - destruct Hx as (m & _ & [Hdom _] & _). intros Hl.
    assert (is_Some (memo st !! c)) as H%Hdom by (by rewrite Hl). lia.
Qed.

(** X16.  Every level of the memo table is the list of the expressions of
    its cost, in the order of the loops: the integers then the constants for
    cost 1; for a cost [k] above, the applications of the unary functions
    (but the cancelled ones) to the finite expressions of cost [k - 1], then,
    for [a] from 1 to [k - 2], the combinations of the finite expressions of
    cost [a] with those of cost [k - 1 - a] under the binary operators (but
    those the identity elimination and the canonical order remove). *)
Theorem X16_levels_exact P cfg k l :
  memo (run_levels P cfg (maxCost cfg) init_state).2 !! k = Some l →
  l = level_items P cfg (memo (run_levels P cfg (maxCost cfg) init_state).2) k.
Proof. intros Hl. by apply run_levels_items. Qed.

(** X17.  Nothing is left out of a level [k] of the memo table: it holds
    the application of every enabled unary function to every finite
    expression of level [k - 1], unless the cancellation rule removes it; and
    for every pair of finite expressions [L] of level [a] and [R] of level
    [b] with [a + b = k - 1] and every binary operator that the identity
    elimination does not skip for [R], it holds [(L op R)] when [doFirst]
    allows it and [(R op L)] when the operator is not commutative. *)
Theorem X17_levels_exhaustive P cfg k l :
  memo (run_levels P cfg (maxCost cfg) init_state).2 !! k = Some l →
  (∀ prev it fname f,
     memo (run_levels P cfg (maxCost cfg) init_state).2 !! (k - 1)%Z = Some prev →
     it ∈ prev → is_finite (it_v it) = true → (fname, f) ∈ unaryFuncs P cfg →
     cancelled fname (it_expr it) = false →
     Item (safeEvalFunc f (it_v it)) (unary_text fname (it_expr it)) ∈ l) ∧
  (∀ a b la lb L R opname op,
     (1 ≤ a)%Z → (1 ≤ b)%Z → (a + b = k - 1)%Z →
     memo (run_levels P cfg (maxCost cfg) init_state).2 !! a = Some la →
     memo (run_levels P cfg (maxCost cfg) init_state).2 !! b = Some lb →
     L ∈ la → R ∈ lb → is_finite (it_v L) = true → is_finite (it_v R) = true →
     (opname, op) ∈ binaryOps P cfg → identity_pruned cfg opname R = false →
     (doFirst opname L R = true → combination opname op L R ∈ l) ∧
     (isCommutative opname = false → combination opname op R L ∈ l)).
Proof.
  intros Hl. rewrite (run_levels_items P cfg (maxCost cfg) k l Hl).
  set (mm := memo (run_levels P cfg (maxCost cfg) init_state).2). split.
  - intros prev it fname f Hprev Hit Hfin Hf Hc.
    unfold level_items. destruct (k =? 1)%Z eqn:E.
    { apply Z.eqb_eq in E as ->.
      apply run_levels_keys in Hprev. lia. }
    apply elem_of_app. left. apply list_elem_of_In, in_flat_map.
    exists it. split; [by apply list_elem_of_In; rewrite Hprev|].
    unfold unary_expand_out, Num.isFiniteNumber. rewrite Hfin.
    apply in_flat_map. exists (fname, f). split; [by apply list_elem_of_In|].
    unfold unary_out. cbn [fst snd]. rewrite Hc. by left.
  - intros a b la lb L R opname op Ha Hb Hab Hla Hlb HL HR HfL HfR Hop Hid.
    unfold level_items. destruct (k =? 1)%Z eqn:E; [lia|].
    assert (combination opname op L R ∈ binary_out cfg L R (opname, op) ∨ True) as _ by (by right).
    assert (∀ x, x ∈ binary_out cfg L R (opname, op) →
                 x ∈ flat_map (unary_expand_out P cfg) (default [] (mm !! (k - 1)%Z)) ++
                     flat_map (λ a_cost,
                       flat_map (λ L, flat_map (pair_out P cfg L)
                                        (default [] (mm !! (k - 1 - a_cost)%Z)))
                                (default [] (mm !! a_cost)))
                     (seqZ 1 (k - 2))) as Hin.
    { intros x Hx. apply elem_of_app. right. apply list_elem_of_In, in_flat_map.
      exists a. split; [apply list_elem_of_In, elem_of_seqZ; lia|].
      apply in_flat_map. exists L. split; [by apply list_elem_of_In; rewrite Hla|].
      apply in_flat_map. exists R. replace (k - 1 - a)%Z with b by lia.
      split; [by apply list_elem_of_In; rewrite Hlb|].
      unfold pair_out, Num.isFiniteNumber. rewrite HfL, HfR. cbn [andb].
      apply in_flat_map. exists (opname, op). split; by apply list_elem_of_In. }
    unfold binary_out in Hin. cbn [fst snd] in Hin. rewrite Hid in Hin. split.
    + intros Hd. apply Hin. rewrite Hd. apply elem_of_app. left. by left.
    + intros Hc. apply Hin. rewrite Hc. apply elem_of_app. right. by left.
Qed.

(** ** The cancellation test on combinations *)

Lemma slice_to_last_parens t : Str.slice_to_last 1 ("(" +:+ t +:+ ")") = t.
Proof.
  unfold Str.slice_to_last. rewrite !length_append.
  change (String.length "(") with 1. change (String.length ")") with 1.
  replace (1 + (String.length t + 1) - 1 - 1) with (String.length t) by lia.
  change (String.substring 1 (String.length t) ("(" +:+ t +:+ ")"))
    with (String.substring 0 (String.length t) (t +:+ ")")).
  apply substring_append.
Qed.

Lemma trim_closed c s :
  Str.is_ws c = false → Str.trim (String c s +:+ ")") = String c s +:+ ")".
Proof.
  intros Hc. unfold Str.trim.
  change (String c s +:+ ")") with (String c (s +:+ ")")).
  rewrite trimStart_nonws by done.
  change (String c (s +:+ ")")) with (String c s +:+ ")").
  apply trimEnd_paren.
Qed.

(** The test holds of [(f(x) op r)] whenever the text [r] ends with a closing
    parenthesis. *)
Lemma is_direct_application_combination c f x opname r :
  name_start c →
  is_direct_application
    (binary_text (String c f +:+ "(" +:+ x +:+ ")") opname (r +:+ ")")) (String c f) = true.
Proof.
  intros (Hws & Hp & Hm). unfold binary_text.
  set (l := String c f +:+ "(" +:+ x +:+ ")").
  assert (∃ u, l +:+ " " +:+ opname +:+ " " +:+ r +:+ ")" = String c u +:+ ")") as [u Hu].
  { exists (f +:+ "(" +:+ x +:+ ")" +:+ " " +:+ opname +:+ " " +:+ r).
    trans (String c f +:+ (("(" +:+ x +:+ ")" +:+ " " +:+ opname +:+ " " +:+ r) +:+ ")")).
    - unfold l. by rewrite !string_app_assoc.
    - by rewrite <- (string_app_assoc (String c f)). }
  replace ("(" +:+ l +:+ " " +:+ opname +:+ " " +:+ (r +:+ ")") +:+ ")")
    with ("(" +:+ (String c u +:+ ")") +:+ ")")
    by (rewrite <- Hu; by rewrite !string_app_assoc).
  unfold is_direct_application.
  change (Str.truthy ("(" +:+ (String c u +:+ ")") +:+ ")")) with true. cbn [negb].
  assert (Str.trim ("(" +:+ (String c u +:+ ")") +:+ ")")
          = "(" +:+ (String c u +:+ ")") +:+ ")") as ->.
  { change ("(" +:+ (String c u +:+ ")") +:+ ")")
      with (String "(" (String c u +:+ ")") +:+ ")").
    by apply trim_closed. }
  assert (Str.startsWith ("(" +:+ (String c u +:+ ")") +:+ ")") "(" = true) as ->
    by apply (prefix_append "(" ((String c u +:+ ")") +:+ ")")).
  rewrite <- (string_app_assoc "(" _ ")"), endsWith_paren. cbn [andb].
  rewrite (string_app_assoc "(" _ ")"), slice_to_last_parens.
  rewrite trim_closed by done.
  change (Str.truthy (String c u +:+ ")")) with true. cbv iota.
  rewrite (startsWith_other c u ")" "-" "(") by done. cbn [andb].
  apply andb_true_iff. split; [|apply endsWith_paren].
  rewrite <- Hu. unfold l, Str.startsWith.
  rewrite <- (string_app_assoc (String c f) "(").
  rewrite (string_app_assoc (String c f +:+ "(")).
  apply prefix_append.
Qed.

(** X18.  The cancellation test also holds of a combination [(exp(X) op R)]
    whose second operand has a text that ends with a closing parenthesis (an
    application or a combination), and likewise of [(ln(X) op R)] for [ln]:
    one layer of parentheses is stripped and the text then starts with
    [exp(] and ends with [)].  So [ln] is never applied to such a
    combination, nor [exp] to the like with [ln], though they cancel
    nothing. *)
Theorem X18_cancellation_over_combinations cfg x opname r v results f st :
  is_direct_application (binary_text (unary_text "exp" x) opname (r +:+ ")")) "exp" = true ∧
  is_direct_application (binary_text (unary_text "ln" x) opname (r +:+ ")")) "ln" = true ∧
  unary_step cfg (Item v (binary_text (unary_text "exp" x) opname (r +:+ ")")))
             results ("ln", f) st = (Ok results, st) ∧
  unary_step cfg (Item v (binary_text (unary_text "ln" x) opname (r +:+ ")")))
             results ("exp", f) st = (Ok results, st).
Proof.
  assert (name_start "e") as He by (by split_and!).
  assert (name_start "l") as Hl by (by split_and!).
  pose proof (is_direct_application_combination "e" "xp" x opname r He) as H1.
  pose proof (is_direct_application_combination "l" "n" x opname r Hl) as H2.
  change (String "e" "xp" +:+ "(" +:+ x +:+ ")") with (unary_text "exp" x) in H1.
  change (String "l" "n" +:+ "(" +:+ x +:+ ")") with (unary_text "ln" x) in H2.
  split_and!; [exact H1|exact H2| |].
  - unfold unary_step. cbn [it_expr]. rewrite H1. done.
  - unfold unary_step. cbn [it_expr]. rewrite H2. done.
Qed.

(** ** A run as a sequence of considerations *)

(** What [considerValue] reads and changes of the state. *)
Definition search_part (st : state) : list candidate * gset string * Z :=
  (bestHeap st, savedValues st, exprCountTotal st).

(** The state after [considerValue] on the expression [it], and on the
    expressions of a list in turn. *)
Definition consider (cfg : config) (st : state) (it : item) : state :=
  (considerValue cfg (it_v it) (it_expr it) st).2.

Definition consider_all (cfg : config) (l : list item) (st : state) : state :=
  foldl (consider cfg) st l.

(** The expressions of the levels 1..[m] of a memo table, in order. *)
Definition levels_upto (mm : gmap Z (list item)) (m : Z) : list item :=
  flat_map (λ k, default [] (mm !! k)) (seqZ 1 m).

Lemma considerValue_search_part cfg v e st1 st2 :
  search_part st1 = search_part st2 →
  search_part (considerValue cfg v e st1).2 = search_part (considerValue cfg v e st2).2.
Proof.
  destruct st1 as [h s n b mm r rp], st2 as [h' s' n' b' mm' r' rp'].
  unfold search_part.
  cbn [bestHeap savedValues exprCountTotal]. intros [= -> -> ->].
  unfold considerValue.
  cbn [bestHeap savedValues exprCountTotal stopped memo readings reported
       incr_exprCountTotal set_bestHeap].
  destruct (negb _); [done|].
  destruct (String.eqb (keepSide cfg) "greater" && _); [done|].
  destruct (String.eqb (keepSide cfg) "less" && _); [done|].
  case_bool_decide; [done|].
  destruct (_ <? _)%Z; [done|].
  destruct (BinaryHeap.peek h'); [|done].
  by destruct (_ <? _)%float.
Qed.

Lemma consider_all_search_part cfg l st1 st2 :
  search_part st1 = search_part st2 →
  search_part (consider_all cfg l st1) = search_part (consider_all cfg l st2).
Proof.
  revert st1 st2. induction l as [|it l IH]; intros st1 st2 H; [done|].
  cbn [consider_all foldl]. apply IH. by apply considerValue_search_part.
Qed.

Lemma consider_all_app cfg l1 l2 st :
  consider_all cfg (l1 ++ l2) st = consider_all cfg l2 (consider_all cfg l1 st).
Proof. unfold consider_all. by rewrite foldl_app. Qed.

Section Follow.
Variable P : Platform.
Variable cfg : config.
Hypothesis HK : (1 ≤ keepTop cfg)%Z.
(** The state and the memo table at the start of the level. *)
Variable s0 : state.
Variable mm : gmap Z (list item).

(** Inside the loops of the level, when the array built is [acc]: its
    expressions have been considered. *)
Definition follows (acc : list item) (st : state) : Prop :=
  stopped st = false ∧ memo st = mm ∧
  search_part st = search_part (consider_all cfg acc s0).

(** When the level is interrupted between [lo] and [hi]. *)
Definition cut (lo hi : list item) (st : state) : Prop :=
  memo st = mm ∧
  ∃ acc, lo `prefix_of` acc ∧ acc `prefix_of` hi ∧
         search_part st = search_part (consider_all cfg acc s0).

(** The body [f] of a loop extends the array by [g x] and considers these
    expressions. *)
Definition steps {A} (f : list item → A → M (list item)) (g : A → list item)
    (l : list A) : Prop :=
  ∀ acc x, x ∈ l →
    triple (follows acc) (f acc x) (λ r st, r = acc ++ g x ∧ follows r st)
           (cut acc (acc ++ g x)).

Lemma cut_weaken lo hi lo' hi' st :
  lo' `prefix_of` lo → hi `prefix_of` hi' → cut lo hi st → cut lo' hi' st.
Proof.
  intros H1 H2 (Hm & acc & Ha & Hb & Hs). split; [done|].
  exists acc. split_and!; [by etrans|by etrans|done].
Qed.

Lemma foldM_steps {A} (f : list item → A → M (list item)) g (l : list A) acc :
  steps f g l →
  triple (follows acc) (foldM f l acc)
         (λ r st, r = acc ++ flat_map g l ∧ follows r st)
         (cut acc (acc ++ flat_map g l)).
Proof.
  revert acc. induction l as [|x l IH]; intros acc Hf; cbn [foldM flat_map].
  - intros st Hst. unfold mret, M_ret. by rewrite app_nil_r.
  - intros st Hst. rewrite bind_unfold.
    pose proof (Hf acc x ltac:(left) st Hst) as H1.
    destruct (f acc x st) as [[r|e] st1].
    + destruct H1 as [-> Hst1].
      assert (steps f g l) as Hf' by (intros acc' y Hy; apply Hf; by right).
      specialize (IH (acc ++ g x) Hf' st1 Hst1).
      destruct (foldM f l (acc ++ g x) st1) as [[r|e] st2].
      * by rewrite app_assoc.
      * rewrite app_assoc. eapply cut_weaken; [|done|exact IH].
        by apply prefix_app_r.
    + eapply cut_weaken; [done| |exact H1].
      rewrite app_assoc. by apply prefix_app_r.
Qed.

Lemma timeCheck_follows acc hi :
  acc `prefix_of` hi →
  triple (follows acc) (timeCheck P cfg) (λ _, follows acc) (cut acc hi).
Proof.
  intros Hp st (Hs & Hm & Hsp). rewrite timeCheck_unfold.
  destruct (over_budget P cfg (readings st)).
  - split; [done|]. by exists acc.
  - done.
Qed.

Lemma emit_follows acc v e :
  triple (follows acc) (emit cfg acc v e)
         (λ r st, r = acc ++ [Item v e] ∧ follows r st)
         (cut acc (acc ++ [Item v e])).
Proof.
  intros st (Hs & Hm & Hsp). unfold emit. rewrite bind_unfold.
  destruct (considerValue_count cfg v e st) as (_ & Hm' & Hs' & _).
  pose proof (considerValue_search_part cfg v e _ _ Hsp) as Hsp'.
  destruct (considerValue_returns cfg v e st HK) as (st1 & E & _).
  rewrite E in *. cbn [snd] in *. unfold mret, M_ret.
  split; [done|]. split_and!; [congruence|congruence|].
  by rewrite consider_all_app.
Qed.

Lemma ret_follows (acc : list item) :
  triple (follows acc) (mret acc) (λ r st, r = acc ++ [] ∧ follows r st)
         (cut acc (acc ++ [])).
Proof. intros st Hst. unfold mret, M_ret. by rewrite app_nil_r. Qed.

Lemma timeCheck_then_follows {A} (m : M A) acc hi post :
  acc `prefix_of` hi →
  triple (follows acc) m post (cut acc hi) →
  triple (follows acc) (timeCheck P cfg;; m) post (cut acc hi).
Proof.
  intros Hp Hm. eapply triple_bind; [by apply timeCheck_follows|]. by intros [].
Qed.

Lemma atom_step_steps l : steps (atom_step P cfg) (λ n, [atom_of n]) l.
Proof.
  intros acc n _. apply timeCheck_then_follows; [by apply prefix_app_r|].
  apply emit_follows.
Qed.

Lemma const_step_steps l : steps (const_step P cfg) (λ c, [constant_atom c]) l.
Proof.
  intros acc c _. apply timeCheck_then_follows; [by apply prefix_app_r|].
  apply emit_follows.
Qed.

Lemma unary_step_steps it l : steps (unary_step cfg it) (unary_out cfg it) l.
Proof.
  intros acc [fname f] _. unfold unary_step, unary_out, cancelled. cbn [fst snd].
  destruct (String.eqb fname "ln" && _); cbn [orb]; [apply ret_follows|].
  destruct (String.eqb fname "exp" && _); [apply ret_follows|apply emit_follows].
Qed.

Lemma unary_expand_steps l :
  steps (unary_expand P cfg) (unary_expand_out P cfg) l.
Proof.
  intros acc it _. apply timeCheck_then_follows; [by apply prefix_app_r|].
  unfold unary_expand_out.
  destruct (Num.isFiniteNumber (it_v it)); cbn [negb]; [|apply ret_follows].
  apply foldM_steps, unary_step_steps.
Qed.

Lemma bind_steps (m : M (list item)) (k : list item → M (list item)) acc a b :
  triple (follows acc) m (λ r st, r = acc ++ a ∧ follows r st) (cut acc (acc ++ a)) →
  triple (follows (acc ++ a)) (k (acc ++ a))
         (λ r st, r = (acc ++ a) ++ b ∧ follows r st)
         (cut (acc ++ a) ((acc ++ a) ++ b)) →
  triple (follows acc) (m ≫= k)
         (λ r st, r = acc ++ (a ++ b) ∧ follows r st) (cut acc (acc ++ (a ++ b))).
Proof.
  intros H1 H2 st Hst. rewrite bind_unfold. specialize (H1 st Hst).
  destruct (m st) as [[r|e] st1].
  - destruct H1 as [-> Hst1]. specialize (H2 st1 Hst1).
    destruct (k (acc ++ a) st1) as [[r|e] st2].
    + by rewrite app_assoc.
    + rewrite app_assoc. eapply cut_weaken; [|done|exact H2]. by apply prefix_app_r.
  - eapply cut_weaken; [done| |exact H1]. rewrite app_assoc. by apply prefix_app_r.
Qed.

Lemma binary_step_steps L R l :
  steps (binary_step cfg L R) (binary_out cfg L R) l.
Proof.
  intros acc [opname op] _. unfold binary_step, binary_out. cbn [fst snd].
  destruct (identity_pruned cfg opname R); [apply ret_follows|].
  apply bind_steps.
  - destruct (doFirst opname L R); [apply emit_follows|apply ret_follows].
  - destruct (isCommutative opname); cbn [negb]; [apply ret_follows|apply emit_follows].
Qed.

Lemma pair_step_steps L l : steps (pair_step P cfg L) (pair_out P cfg L) l.
Proof.
  intros acc R _. apply timeCheck_then_follows; [by apply prefix_app_r|].
  unfold pair_out.
  destruct (Num.isFiniteNumber (it_v L)), (Num.isFiniteNumber (it_v R));
    cbn [negb orb andb]; try apply ret_follows.
  apply foldM_steps, binary_step_steps.
Qed.

Lemma left_step_steps rightArr l :
  steps (left_step P cfg rightArr) (λ L, flat_map (pair_out P cfg L) rightArr) l.
Proof.
  intros acc L _. apply timeCheck_then_follows; [by apply prefix_app_r|].
  apply foldM_steps, pair_step_steps.
Qed.

End Follow.

Lemma cut_out cfg s0 mm lo hi st :
  cut cfg s0 mm lo hi st →
  ∃ acc, acc `prefix_of` hi ∧ search_part st = search_part (consider_all cfg acc s0).
Proof. intros (_ & acc & _ & H1 & H2). by exists acc. Qed.

(** The level [m + 1], entered when the levels 1..[m] are memoised: when it
    completes its expressions have been considered, in order; when it is
    interrupted, the first of them. *)
Lemma enumerateCost_search P cfg m st :
  (1 ≤ keepTop cfg)%Z → (0 ≤ m)%Z → stopped st = false →
  (∀ c, is_Some (memo st !! c) ↔ (1 ≤ c ≤ m)%Z) →
  match enumerateCost P cfg (Z.to_nat (m + 1)) (m + 1) st with
  | (Ok r, st') =>
      r = level_items P cfg (memo st) (m + 1) ∧
      search_part st' = search_part (consider_all cfg r st)
  | (Throw _, st') =>
      ∃ acc, acc `prefix_of` level_items P cfg (memo st) (m + 1) ∧
             search_part st' = search_part (consider_all cfg acc st)
  end.
Proof.
  intros HK Hm Hs Hdom.
  replace (Z.to_nat (m + 1)) with (S (Z.to_nat m)) by lia.
  cbn [enumerateCost]. rewrite bind_unfold. unfold get_state. rewrite Hs.
  destruct (memo st !! (m + 1)%Z) as [r|] eqn:Hmiss.
  { assert (is_Some (memo st !! (m + 1)%Z)) as H%Hdom by (by rewrite Hmiss). lia. }
  set (mm := memo st). set (full := level_items P cfg mm (m + 1)).
  assert (follows cfg st mm [] st) as H0 by done.
  rewrite bind_unfold.
  pose proof (timeCheck_follows P cfg st mm [] full (prefix_nil _) st H0) as H1.
  destruct (timeCheck P cfg st) as [[[]|e] s1]; [|by eapply cut_out].
  destruct (m + 1 =? 1)%Z eqn:E.
  - assert (full = ([] ++ flat_map (λ n, [atom_of n]) (numbers cfg)) ++
                   flat_map (λ c, [constant_atom c]) (constants cfg)) as Hfull.
    { unfold full, level_items. rewrite E. cbn [app]. by rewrite !flat_map_singleton. }
    rewrite bind_unfold.
    pose proof (foldM_steps cfg st mm (atom_step P cfg) (λ n, [atom_of n]) (numbers cfg) []
                  (atom_step_steps P cfg HK st mm _) s1 H1) as H2.
    destruct (foldM (atom_step P cfg) (numbers cfg) [] s1) as [[r1|e] s2].
    2: { eapply cut_out, cut_weaken; [done| |exact H2]. rewrite Hfull. by apply prefix_app_r. }
    destruct H2 as [-> H2]. rewrite bind_unfold.
    pose proof (foldM_steps cfg st mm (const_step P cfg) (λ c, [constant_atom c])
                  (constants cfg) _ (const_step_steps P cfg HK st mm _) s2 H2) as H3.
    destruct (foldM (const_step P cfg) (constants cfg) _ s2) as [[r2|e] s3].
    2: { eapply cut_out, cut_weaken; [apply prefix_nil| |exact H3]. by rewrite Hfull. }
    destruct H3 as [-> (_ & _ & H3)]. rewrite <- Hfull in *.
    rewrite bind_unfold. unfold modify, mret, M_ret. by split.
  - apply Z.eqb_neq in E.
    assert (full = ([] ++ flat_map (unary_expand_out P cfg) (default [] (mm !! (m + 1 - 1)%Z))) ++
                   flat_map (λ a_cost,
                      flat_map (λ L, flat_map (pair_out P cfg L)
                                       (default [] (mm !! (m + 1 - 1 - a_cost)%Z)))
                               (default [] (mm !! a_cost)))
                     (seqZ 1 (m + 1 - 2))) as Hfull.
    { unfold full, level_items. apply Z.eqb_neq in E. by rewrite E. }
    assert (∀ c acc s, (1 ≤ c ≤ m)%Z → follows cfg st mm acc s →
              enumerateCost P cfg (Z.to_nat m) c s = (Ok (default [] (mm !! c)), s)) as Hrec.
    { intros c acc s Hc (Hs1 & Hm1 & _).
      destruct (proj2 (Hdom c) Hc) as [r Hr].
      replace (Z.to_nat m) with (S (Z.to_nat (m - 1))) by lia.
      rewrite (enumerateCost_hit P cfg _ c s r) by (done || (rewrite Hm1; exact Hr)).
      subst mm. by rewrite Hr. }
    rewrite bind_unfold, (Hrec _ [] s1) by (done || lia).
    rewrite bind_unfold.
    pose proof (foldM_steps cfg st mm (unary_expand P cfg) (unary_expand_out P cfg)
                  (default [] (mm !! (m + 1 - 1)%Z)) []
                  (unary_expand_steps P cfg HK st mm _) s1 H1) as H2.
    destruct (foldM (unary_expand P cfg) _ [] s1) as [[r1|e] s2].
    2: { eapply cut_out, cut_weaken; [done| |exact H2]. rewrite Hfull. by apply prefix_app_r. }
    destruct H2 as [-> H2]. rewrite bind_unfold.
    pose proof (foldM_steps cfg st mm
                  (λ results a_cost,
                     let b_cost := (m + 1 - 1 - a_cost)%Z in
                     leftArr ← enumerateCost P cfg (Z.to_nat m) a_cost;
                     rightArr ← enumerateCost P cfg (Z.to_nat m) b_cost;
                     foldM (left_step P cfg rightArr) leftArr results)
                  (λ a_cost,
                     flat_map (λ L, flat_map (pair_out P cfg L)
                                      (default [] (mm !! (m + 1 - 1 - a_cost)%Z)))
                              (default [] (mm !! a_cost)))
                  (seqZ 1 (m + 1 - 2))
                  ([] ++ flat_map (unary_expand_out P cfg)
                                  (default [] (mm !! (m + 1 - 1)%Z)))) as H3.
    match type of H3 with ?A → _ => assert A as Hsteps end.
    { intros acc a_cost Ha%elem_of_seqZ s3 Hs3. cbv zeta.
      rewrite bind_unfold, (Hrec _ acc s3) by (done || lia).
      rewrite bind_unfold, (Hrec _ acc s3) by (done || lia).
      exact (foldM_steps cfg st mm _ _ _ acc (left_step_steps P cfg HK st mm _ _) s3 Hs3). }
    specialize (H3 Hsteps s2 H2). cbv beta zeta in H3 |- *.
    destruct (foldM _ (seqZ 1 (m + 1 - 2)) _ s2) as [[r2|e] s3].
    2: { eapply cut_out, cut_weaken; [apply prefix_nil| |exact H3]. by rewrite Hfull. }
    destruct H3 as [-> (_ & _ & H3)]. rewrite <- Hfull in *.
    rewrite bind_unfold. unfold modify, mret, M_ret. by split.
Qed.

Lemma level_search P cfg m st :
  (1 ≤ keepTop cfg)%Z → (0 ≤ m)%Z → stopped st = false → completed m st →
  match level P cfg (m + 1) st with
  | (Ok _, st') =>
      memo st' = <[(m + 1)%Z := level_items P cfg (memo st) (m + 1)]> (memo st) ∧
      search_part st' =
        search_part (consider_all cfg (level_items P cfg (memo st) (m + 1)) st)
  | (Throw _, st') =>
      memo st' = memo st ∧
      ∃ acc, acc `prefix_of` level_items P cfg (memo st) (m + 1) ∧
             search_part st' = search_part (consider_all cfg acc st)
  end.
Proof.
  intros HK Hm Hs [Hdom Hrep]. unfold level.
  rewrite bind_unfold, timeCheck_unfold.
  destruct (over_budget P cfg (readings st)).
  { split; [done|]. exists []. split; [apply prefix_nil|done]. }
  rewrite bind_unfold.
  pose proof (enumerateCost_next P cfg m (incr_readings st) Hm Hs Hdom) as Hnext.
  pose proof (enumerateCost_search P cfg m (incr_readings st) HK Hm Hs Hdom) as Hsearch.
  change (memo (incr_readings st)) with (memo st) in *.
  destruct (enumerateCost P cfg (Z.to_nat (m + 1)) (m + 1) (incr_readings st))
    as [[r|e] st1].
  - destruct Hnext as (_ & Hm1 & _). destruct Hsearch as [-> Hsp].
    unfold nowSec, get_state, modify, mbind, M_bind. cbn [fst snd].
    split; [exact Hm1|].
    change (search_part (add_reported _ (incr_readings st1))) with (search_part st1).
    rewrite Hsp. by apply consider_all_search_part.
  - destruct Hnext as (Hm1 & _). split; [done|].
    destruct Hsearch as (acc & Hp & Hsp). exists acc. split; [done|].
    rewrite Hsp. by apply consider_all_search_part.
Qed.

Lemma levels_upto_insert mm m c r :
  (m < c)%Z → levels_upto (<[c := r]> mm) m = levels_upto mm m.
Proof.
  intros Hc. unfold levels_upto. apply flat_map_ext_elem.
  intros k Hk%elem_of_seqZ. by rewrite lookup_insert_ne by lia.
Qed.

Lemma levels_upto_succ mm m :
  (0 ≤ m)%Z →
  levels_upto mm (m + 1) = levels_upto mm m ++ default [] (mm !! (m + 1)%Z).
Proof.
  intros Hm. unfold levels_upto. rewrite seqZ_app by lia. rewrite flat_map_app.
  rewrite (seqZ_cons (1 + m) 1) by lia. rewrite (seqZ_nil _ (Z.pred 1)) by lia.
  cbn [flat_map]. rewrite app_nil_r.
  by replace (1 + m)%Z with (m + 1)%Z by lia.
Qed.

(** A run of [n] levels considers the expressions of the levels it
    completes, in order, and the first expressions of the level in which it
    is interrupted. *)
Lemma run_levels_search P cfg n :
  (1 ≤ keepTop cfg)%Z → (0 ≤ n)%Z →
  match run_levels P cfg n init_state with
  | (Ok _, st) =>
      search_part st = search_part (consider_all cfg (levels_upto (memo st) n) init_state)
  | (Throw _, st) =>
      ∃ acc, acc `prefix_of` level_items P cfg (memo st) (Z.of_nat (size (memo st)) + 1) ∧
             search_part st =
               search_part (consider_all cfg
                              (levels_upto (memo st) (Z.of_nat (size (memo st))) ++ acc)
                              init_state)
  end.
Proof.
  intros HK. revert n. apply natlike_ind.
  - unfold run_levels. rewrite seqZ_nil by lia. cbn [foldM]. unfold mret, M_ret. done.
  - intros n Hn IH. unfold Z.succ. rewrite run_levels_succ by done.
    rewrite bind_unfold.
    pose proof (run_levels_exact P cfg n Hn) as Hx.
    destruct (run_levels P cfg n init_state) as [[[]|e] st]; [|exact IH].
    destruct Hx as (Hs & Hcomp & _).
    pose proof (level_search P cfg n st HK Hn Hs Hcomp) as Hl.
    destruct (level P cfg (n + 1) st) as [[[]|e] st'].
    + destruct Hl as [Hm' Hsp]. rewrite Hsp, Hm'.
      rewrite levels_upto_succ by done. rewrite levels_upto_insert by lia.
      rewrite lookup_insert_eq. cbn [default]. rewrite consider_all_app.
      by apply consider_all_search_part.
    + destruct Hl as (Hm' & acc & Hp & Hsp). exists acc.
      rewrite Hm', (completed_size n st Hn Hcomp). split; [done|].
      rewrite Hsp, consider_all_app. by apply consider_all_search_part.
Qed.

(** X19.  A run is a sequence of considerations: with room for one entry at
    least, the candidates returned and the count are those obtained by
    calling [considerValue], from the empty result set, on the expressions
    of the levels 1..[max_level] in order and then on the first expressions
    of the level that follows, none of them when the loop over the levels
    runs to its end. *)
Theorem X19_run_is_sequence P cfg :
  (1 ≤ cfg_keep_top cfg)%Z → (0 ≤ cfg_max_cost cfg)%Z →
  ∃ rest,
    rest `prefix_of`
      level_items P cfg (memo (run_levels P cfg (maxCost cfg) init_state).2)
                  (max_level (generateEnumerations P cfg) + 1) ∧
    ((run_levels P cfg (maxCost cfg) init_state).1 = Ok tt → rest = []) ∧
    results (generateEnumerations P cfg) =
      Array_sort by_err
        (bestHeap (consider_all cfg
           (levels_upto (memo (run_levels P cfg (maxCost cfg) init_state).2)
                        (max_level (generateEnumerations P cfg)) ++ rest)
           init_state)) ∧
    expr_count_total (generateEnumerations P cfg) =
      exprCountTotal (consider_all cfg
           (levels_upto (memo (run_levels P cfg (maxCost cfg) init_state).2)
                        (max_level (generateEnumerations P cfg)) ++ rest)
           init_state).
Proof.
  intros HK Hn.
  pose proof (run_levels_search P cfg (maxCost cfg) HK Hn) as H.
  pose proof (run_levels_exact P cfg (maxCost cfg) Hn) as Hx.
  unfold generateEnumerations.
  destruct (run_levels P cfg (maxCost cfg) init_state) as [[[]|e] st];
    cbn [fst snd max_level results expr_count_total read_out].
  - destruct Hx as (_ & Hcomp & _).
    rewrite (completed_size _ _ Hn Hcomp), Z.min_id.
    exists []. rewrite app_nil_r. split_and!; [apply prefix_nil|done| |].
    + by injection H as -> _ _.
    + by injection H as _ _ ->.
  - destruct Hx as (m & Hm & Hcomp & _).
    destruct H as (acc & Hp & Hsp).
    rewrite (completed_size m st) in * by (done || lia).
    rewrite Z.min_r by lia.
    exists acc. split_and!; [done|done| |].
    + by injection Hsp as -> _ _.
    + by injection Hsp as _ _ ->.
Qed.

(** ** The first expression of a value is the one kept *)

(** [c] is the first expression of [l] with its value. *)
Definition first_of (l : list item) (c : candidate) : Prop :=
  ∃ pre post, l = pre ++ Item (c_v c) (c_expr c) :: post ∧
    Forall (λ it, is_finite (it_v it) = true → (it_v it =? c_v c)%float = false) pre.

(** The comparisons of the side filter do not tell apart two numbers of the
    same key. *)
Lemma same_key_side_pass cfg u v :
  is_finite u = true → is_finite v = true → Num.key_repr u = Num.key_repr v →
  side_pass cfg u = side_pass cfg v.
Proof.
  intros Hu Hv Hk. destruct (key_repr_inj u v Hu Hv Hk) as [E|(s & s' & Eu & Ev)].
  - by rewrite (Prim2SF_inj _ _ E).
  - assert (∀ x, (x <? u)%float = (x <? v)%float) as H1.
    { intros x. rewrite !FloatAxioms.ltb_spec, Eu, Ev.
      destruct (Prim2SF x) as [[]|[]| |[] ? ?]; by destruct s, s'. }
    assert (∀ x, (u <? x)%float = (v <? x)%float) as H2.
    { intros x. rewrite !FloatAxioms.ltb_spec, Eu, Ev.
      destruct (Prim2SF x) as [[]|[]| |[] ? ?]; by destruct s, s'. }
    unfold side_pass. by rewrite H1, H2.
Qed.

Lemma ltb_not_leb_error a b :
  Dbl.is_error a → Dbl.is_error b → (a <? b)%float = true → (b <=? a)%float = true → False.
Proof.
  intros [Ha _] [Hb _]. rewrite Dbl.ltb_rk, Dbl.leb_rk by done.
  intros H1%Z.ltb_lt H2%Z.leb_le. lia.
Qed.

Section First.
Variable cfg : config.
Hypothesis Ht : is_nan (target cfg) = false.
Hypothesis HK : (1 ≤ keepTop cfg)%Z.

(** What holds after the expressions of [l] have been considered. *)
Definition considered_inv (l : list item) (st : state) : Prop :=
  select_inv cfg st ∧
  (∀ it, it ∈ l → settled cfg st (it_v it)) ∧
  (∀ c, c ∈ bestHeap st → first_of l c).

Lemma first_of_snoc l it c : first_of l c → first_of (l ++ [it]) c.
Proof.
  intros (pre & post & -> & H). exists pre, (post ++ [it]).
  split; [|done]. by rewrite <- app_assoc.
Qed.

(** A value that has been considered is not inserted later. *)
Lemma not_inserted_again l st v e w :
  considered_inv l st → Num.isFiniteNumber v = true → side_pass cfg v = true →
  Num.key_repr v ∉ savedValues st →
  ((BinaryHeap.size (bestHeap st) < keepTop cfg)%Z ∨
   (w ∈ bestHeap st ∧ (abs (target cfg - v) <? c_err w)%float = true)) →
  first_of (l ++ [Item v e]) (Candidate (abs (target cfg - v)) v e).
Proof.
  intros (Hsel & Hset & _) Hf Hside Hk Hins. exists l, []. split; [done|].
  apply Forall_forall. intros it0 Hit0 Hf0. cbn [c_v].
  destruct (it_v it0 =? v)%float eqn:Heq; [exfalso|done].
  unfold Num.isFiniteNumber in Hf.
  apply (key_repr_eqb _ _ Hf0 Hf) in Heq.
  destruct (Hset it0 Hit0) as [Hs|[Hs|[Hfull Hall]]].
  - unfold Num.isFiniteNumber in Hs.
    rewrite Hf0, (same_key_side_pass cfg _ v Hf0 Hf Heq), Hside in Hs. done.
  - apply Hk. by rewrite <- Heq.
  - destruct Hins as [Hsz|[Hw Hlt]]; [unfold full in Hfull; lia|].
    specialize (Hall w Hw).
    rewrite (same_key_same_error (target cfg) _ v Hf0 Hf Heq) in Hall.
    destruct Hsel as ([Hok _] & _ & _). unfold errors_ok in Hok.
    rewrite Forall_forall in Hok.
    eapply (ltb_not_leb_error (abs (target cfg - v)) (c_err w)); try done.
    + by apply new_error_ok.
    + by apply Hok.
Qed.

Lemma considered_inv_step l st it :
  considered_inv l st → considered_inv (l ++ [it]) (consider cfg st it).
Proof.
  intros Hinv. pose proof Hinv as (Hsel & Hset & Hfirst).
  assert (select_inv cfg (consider cfg st it)) as Hsel'
    by (apply select_inv_step; [done|lia|done]).
  split_and!; [done| |].
  - intros it0 [Hit0|Hit0%list_elem_of_singleton]%elem_of_app; [|subst it0].
    + apply settled_stable; [done|done|]. by apply Hset.
    + destruct (considerValue_returns cfg (it_v it) (it_expr it) st HK) as (st' & E & _).
      apply considerValue_settles; [done|done|]. by rewrite E.
  - intros c Hc. destruct Hsel' as (_ & _ & Hent'). unfold consider in *.
    destruct it as [v e]. cbn [it_v it_expr] in *.
    rewrite Forall_forall in Hent'. specialize (Hent' c Hc) as (_ & _ & Hside).
    destruct (considerValue_cases cfg v e st)
      as [E | [E | [(Hf & Hk & Hlt & E) | [(w & rest & Hf & Hk & Hge & Hh & Hlt & E) | (_ & _ & E)]]]];
      rewrite E in Hc; cbn [snd] in Hc.
    + by apply first_of_snoc, Hfirst.
    + by apply first_of_snoc, Hfirst.
    + cbn [set_bestHeap bestHeap] in Hc.
      rewrite (HeapFacts.push_Permutation cmp_err) in Hc.
      apply elem_of_cons in Hc as [->|Hc]; [|by apply first_of_snoc, Hfirst].
      apply (not_inserted_again l st v e (Candidate 0 0 "")); try done. by left.
    + cbn [set_bestHeap bestHeap] in Hc. rewrite Hh in Hc.
      rewrite (HeapFacts.replace_Permutation cmp_err) in Hc.
      apply elem_of_cons in Hc as [->|Hc].
      * apply (not_inserted_again l st v e w); try done.
        right. split; [rewrite Hh; left|done].
      * apply first_of_snoc, Hfirst. rewrite Hh. by right.
    + by apply first_of_snoc, Hfirst.
Qed.

Lemma consider_all_first l : considered_inv l (consider_all cfg l init_state).
Proof.
  induction l as [|it l IH] using rev_ind.
  - cbn [consider_all foldl]. split_and!.
    + split_and!.
      * split; [constructor|]. intros p c _ x y Hx. done.
      * unfold ResultSet_inv, init_state, keys, BinaryHeap.size.
        cbn [bestHeap savedValues length fmap list_fmap].
        split_and!; [lia|constructor|set_solver].
      * constructor.
    + intros it Hit. by apply elem_of_nil in Hit.
    + intros c Hc. by apply elem_of_nil in Hc.
  - rewrite consider_all_app. cbn [consider_all foldl]. by apply considered_inv_step.
Qed.

End First.

(** X20.  The expression returned for a value is the first that was
    enumerated with it: each candidate returned is an expression of the
    sequence considered (the levels 1..[max_level] in order, then the first
    expressions of the level that follows), and no expression before it in
    that sequence has a finite value equal to its value.  As the levels come
    in the order of the costs, no expression of lower cost has the value. *)
Theorem X20_first_expression_kept P cfg :
  is_nan (cfg_target cfg) = false → (1 ≤ cfg_keep_top cfg)%Z → (0 ≤ cfg_max_cost cfg)%Z →
  ∃ rest,
    rest `prefix_of`
      level_items P cfg (memo (run_levels P cfg (maxCost cfg) init_state).2)
                  (max_level (generateEnumerations P cfg) + 1) ∧
    ∀ c, c ∈ results (generateEnumerations P cfg) →
      ∃ pre post,
        levels_upto (memo (run_levels P cfg (maxCost cfg) init_state).2)
                    (max_level (generateEnumerations P cfg)) ++ rest
          = pre ++ Item (c_v c) (c_expr c) :: post ∧
        Forall (λ it, is_finite (it_v it) = true → (it_v it =? c_v c)%float = false) pre.
Proof.
  intros Ht HK Hn.
  pose proof (run_levels_search P cfg (maxCost cfg) HK Hn) as H.
  pose proof (run_levels_exact P cfg (maxCost cfg) Hn) as Hx.
  unfold generateEnumerations.
  destruct (run_levels P cfg (maxCost cfg) init_state) as [[[]|e] st];
    cbn [fst snd max_level results read_out].
  - destruct Hx as (_ & Hcomp & _).
    rewrite (completed_size _ _ Hn Hcomp), Z.min_id.
    exists []. rewrite app_nil_r. split; [apply prefix_nil|].
    intros c Hc. rewrite Array_sort_Permutation in Hc.
    injection H as Hh _ _. rewrite Hh in Hc.
    by apply (consider_all_first cfg Ht HK (levels_upto (memo st) (maxCost cfg))).
  - destruct Hx as (m & Hm & Hcomp & _).
    destruct H as (acc & Hp & Hsp).
    rewrite (completed_size m st) in * by (done || lia).
    rewrite Z.min_r by lia.
    exists acc. split; [done|].
    intros c Hc. rewrite Array_sort_Permutation in Hc.
    injection Hsp as Hh _ _. rewrite Hh in Hc.
    by apply (consider_all_first cfg Ht HK (levels_upto (memo st) m ++ acc)).
Qed.

(** ** What is reported as progress *)

(** The count reported for a level is the number of the counted expressions
    of the levels up to it. *)
Definition reports_ok (cfg : config) (st : state) : Prop :=
  Forall (λ p, p_count p = count_of_levels cfg (memo st) (p_level p)) (reported st).

Lemma level_report P cfg m st :
  (0 ≤ m)%Z → stopped st = false → completed m st →
  match level P cfg (m + 1) st with
  | (Ok _, st') =>
      ∃ t, reported st' = reported st ++ [Progress (m + 1) t (exprCountTotal st')]
  | (Throw _, st') => reported st' = reported st
  end.
Proof.
  intros Hm Hs [Hdom Hrep]. unfold level.
  rewrite bind_unfold, timeCheck_unfold.
  destruct (over_budget P cfg (readings st)); [done|].
  rewrite bind_unfold.
  pose proof (enumerateCost_next P cfg m (incr_readings st) Hm Hs Hdom) as Hnext.
  destruct (enumerateCost P cfg (Z.to_nat (m + 1)) (m + 1) (incr_readings st))
    as [[r|e] st1].
  - destruct Hnext as (_ & _ & Hr1 & _).
    unfold nowSec, get_state, modify, mbind, M_bind. cbn [fst snd].
    eexists. cbn [reported add_reported incr_readings exprCountTotal].
    rewrite Hr1. reflexivity.
  - by destruct Hnext as (_ & Hr1 & _).
Qed.

Lemma count_of_levels_le cfg mm k m :
  (k ≤ m)%Z → (count_of_levels cfg mm k ≤ count_of_levels cfg mm m)%Z.
Proof.
  intros Hkm. destruct (decide (0 ≤ k)%Z) as [Hk|Hk].
  - replace m with (k + (m - k))%Z by lia.
    assert (0 ≤ m - k)%Z as Hd by lia. revert Hd. generalize (m - k)%Z.
    apply natlike_ind; [by rewrite Z.add_0_r|].
    intros d Hd IH. unfold Z.succ. rewrite Z.add_assoc.
    rewrite count_of_levels_succ by lia.
    pose proof (count_of_nonneg cfg (default [] (mm !! (k + d + 1)%Z))). lia.
  - unfold count_of_levels at 1. rewrite seqZ_nil by lia. cbn.
    destruct (decide (0 ≤ m)%Z) as [Hm0|Hm0].
    + revert Hm0. generalize m. apply natlike_ind.
      * unfold count_of_levels. by rewrite seqZ_nil by lia.
      * intros d Hd IH. unfold Z.succ. rewrite count_of_levels_succ by lia.
        pose proof (count_of_nonneg cfg (default [] (mm !! (d + 1)%Z))). lia.
    + unfold count_of_levels. by rewrite seqZ_nil by lia.
Qed.

Lemma run_levels_reports P cfg n :
  (0 ≤ n)%Z → reports_ok cfg (run_levels P cfg n init_state).2.
Proof.
  revert n. apply natlike_ind.
  - unfold run_levels. rewrite seqZ_nil by lia. cbn [foldM]. unfold mret, M_ret.
    constructor.
  - intros n Hn IH.
    pose proof (run_levels_exact P cfg (Z.succ n) ltac:(lia)) as Hx'.
    unfold Z.succ in *. rewrite run_levels_succ in * by done.
    rewrite bind_unfold in *.
    pose proof (run_levels_exact P cfg n Hn) as Hx.
    destruct (run_levels P cfg n init_state) as [[[]|e] st]; cbn [snd] in *; [|done].
    destruct Hx as (Hs & Hcomp & Hcount).
    pose proof (level_next P cfg n st Hn Hs Hcomp) as Hl.
    pose proof (level_report P cfg n st Hn Hs Hcomp) as Hr.
    destruct (level P cfg (n + 1) st) as [[[]|e] st']; cbn [snd] in *.
    + destruct Hl as (_ & _ & r & Hm' & _). destruct Hr as [t Hr].
      destruct Hx' as (_ & _ & Hcount').
      unfold reports_ok in *. rewrite Hr. apply Forall_app. split.
      * destruct Hcomp as [_ Hrep].
        apply Forall_forall. intros p Hp.
        rewrite Forall_forall in IH. rewrite (IH p Hp), Hm'.
        symmetry. apply count_of_levels_insert.
        assert (p_level p ∈ seqZ 1 n) as Hin%elem_of_seqZ
          by (rewrite <- Hrep; by apply list_elem_of_fmap_2).
        lia.
      * constructor; [|constructor]. done.
    + destruct Hl as (Hm' & Hr' & _). unfold reports_ok in *. by rewrite Hm', Hr.
Qed.

(** X21.  What [onProgress] receives: it is called after each completed
    level [k] with the number of expressions counted so far, which is the
    number of the expressions of the levels 1..[k] that have a finite value
    on the side kept; these counts do not exceed the [expr_count_total]
    returned. *)
Theorem X21_progress_counts P cfg :
  (0 ≤ cfg_max_cost cfg)%Z →
  Forall (λ p, p_count p =
               count_of_levels cfg (memo (run_levels P cfg (maxCost cfg) init_state).2)
                               (p_level p) ∧
               (p_count p ≤ expr_count_total (generateEnumerations P cfg))%Z)
         (reported (run_levels P cfg (maxCost cfg) init_state).2).
Proof.
  intros Hn.
  pose proof (run_levels_reports P cfg (maxCost cfg) Hn) as Hrep.
  pose proof (run_levels_exact P cfg (maxCost cfg) Hn) as Hx.
  unfold generateEnumerations, reports_ok in *.
  destruct (run_levels P cfg (maxCost cfg) init_state) as [[[]|e] st];
    cbn [snd expr_count_total read_out] in *.
  - destruct Hx as (_ & [_ Hlev] & Hcount).
    apply Forall_forall. intros p Hp. rewrite Forall_forall in Hrep.
    split; [by apply Hrep|]. rewrite (Hrep p Hp), Hcount.
    apply count_of_levels_le.
    assert (p_level p ∈ seqZ 1 (maxCost cfg)) as Hin%elem_of_seqZ
      by (rewrite <- Hlev; by apply list_elem_of_fmap_2).
    lia.
  - destruct Hx as (m & Hm & [_ Hlev] & Hcount).
    apply Forall_forall. intros p Hp. rewrite Forall_forall in Hrep.
    split; [by apply Hrep|]. rewrite (Hrep p Hp).
    etrans; [|exact Hcount]. apply count_of_levels_le.
    assert (p_level p ∈ seqZ 1 m) as Hin%elem_of_seqZ
      by (rewrite <- Hlev; by apply list_elem_of_fmap_2).
    lia.
Qed.

(** ** The properties on concrete inputs *)

(** The order of the result set: by the rank of the error. *)
Definition err_key (c : candidate) : Z := Dbl.rk (c_err c).
Definition err_ok (c : candidate) : Prop := Dbl.is_error (c_err c).

Lemma orders_by_err : orders_by cmp_err err_ok err_key.
Proof. intros x y Hx Hy. by apply cmp_err_key. Qed.

(** The heap of the negation example after level 2, for the target 1. *)
Definition heap_neg : list candidate :=
  [Candidate 2 (-1) "-(1)"; Candidate 0 1 "1"].

Lemma heap_neg_ordered : HeapFacts.heap_ordered err_key heap_neg.
Proof.
  intros p c Hc x y Hx Hy.
  destruct p as [|[|p]]; destruct Hc as [-> | ->]; cbn in Hx, Hy; simplify_eq.
  by vm_compute.
Qed.

Lemma err_ok_of (e v : float) (s : string) :
  is_nan e = false → (0 <=? Dbl.rk e)%Z = true → err_ok (Candidate e v s).
Proof. intros H1 H2%Z.leb_le. by split. Qed.

(** X1, witness: the entry [2] of error 1 pushed on the heap of the negation
    example. *)
Lemma X1_witness :
  orders_by cmp_err err_ok err_key ∧
  Forall err_ok (Candidate 1 2 "2" :: heap_neg) ∧
  HeapFacts.heap_ordered err_key heap_neg ∧
  BinaryHeap.push cmp_err heap_neg (Candidate 1 2 "2") ≡ₚ Candidate 1 2 "2" :: heap_neg.
Proof.
  assert (Forall err_ok (Candidate 1 2 "2" :: heap_neg)) as Hok
    by (repeat constructor; by apply err_ok_of).
  split_and!; [exact orders_by_err|exact Hok|exact heap_neg_ordered|].
  apply (X1_heap_push cmp_err err_ok err_key heap_neg (Candidate 1 2 "2")
           orders_by_err Hok heap_neg_ordered).
Defined.

(** X2, witness: the heap of the negation example gives its worst entry. *)
Lemma X2_witness :
  orders_by cmp_err err_ok err_key ∧ Forall err_ok heap_neg ∧
  HeapFacts.heap_ordered err_key heap_neg ∧ heap_neg ≠ [] ∧
  ∃ t rest, BinaryHeap.pop cmp_err heap_neg = (rest, Some t) ∧
            BinaryHeap.peek heap_neg = Some t ∧
            heap_neg ≡ₚ t :: rest ∧
            (∀ y, y ∈ heap_neg → (err_key y ≤ err_key t)%Z) ∧
            HeapFacts.heap_ordered err_key rest.
Proof.
  assert (Forall err_ok heap_neg) as Hok by (repeat constructor; by apply err_ok_of).
  assert (heap_neg ≠ []) as Hne by done.
  split_and!; [exact orders_by_err|exact Hok|exact heap_neg_ordered|exact Hne|].
  apply (proj2 (X2_heap_pop cmp_err err_ok err_key heap_neg orders_by_err Hok
                  heap_neg_ordered) Hne).
Defined.

(** X3, witness: the worst entry of the negation example replaced by the
    entry [2] of error 1. *)
Lemma X3_witness :
  orders_by cmp_err err_ok err_key ∧
  Forall err_ok [Candidate 1 2 "2"; Candidate 0 1 "1"] ∧
  HeapFacts.heap_ordered err_key heap_neg ∧
  BinaryHeap.replace cmp_err heap_neg (Candidate 1 2 "2")
    ≡ₚ [Candidate 1 2 "2"; Candidate 0 1 "1"].
Proof.
  assert (Forall err_ok [Candidate 1 2 "2"; Candidate 0 1 "1"]) as Hok
    by (repeat constructor; by apply err_ok_of).
  split_and!; [exact orders_by_err|exact Hok|exact heap_neg_ordered|].
  apply (X3_heap_replace cmp_err err_ok err_key (Candidate 2 (-1) "-(1)")
           [Candidate 0 1 "1"] (Candidate 1 2 "2") orders_by_err Hok heap_neg_ordered).
Defined.

(** X4, witness: three entries pushed and popped. *)
Lemma X4_witness :
  orders_by cmp_err err_ok err_key ∧
  Forall err_ok [Candidate 0 1 "1"; Candidate 2 (-1) "-(1)"; Candidate 1 2 "2"] ∧
  StronglySorted (key_ge err_key)
    (pop_all cmp_err 3
       (push_all cmp_err [Candidate 0 1 "1"; Candidate 2 (-1) "-(1)"; Candidate 1 2 "2"])).
Proof.
  assert (Forall err_ok [Candidate 0 1 "1"; Candidate 2 (-1) "-(1)"; Candidate 1 2 "2"])
    as Hok by (repeat constructor; by apply err_ok_of).
  split_and!; [exact orders_by_err|exact Hok|].
  apply (X4_heap_sort cmp_err err_ok err_key
           [Candidate 0 1 "1"; Candidate 2 (-1) "-(1)"; Candidate 1 2 "2"]
           orders_by_err Hok).
Defined.

(** X6, witness: the configuration [cfg_tiny], on the clock that stands
    still. *)
Lemma X6_witness :
  (0 ≤ cfg_max_cost cfg_tiny)%Z ∧
  completed (max_level (generateEnumerations still_platform cfg_tiny))
            (run_levels still_platform cfg_tiny (maxCost cfg_tiny) init_state).2.
Proof.
  split; [by vm_compute|].
  apply (X6_levels_completed still_platform cfg_tiny). by vm_compute.
Defined.

(** X7, witness: the configuration [cfg_tiny]. *)
Lemma X7_witness :
  (0 ≤ cfg_max_cost cfg_tiny)%Z ∧
  (Z.of_nat (length (results (generateEnumerations still_platform cfg_tiny)))
   ≤ expr_count_total (generateEnumerations still_platform cfg_tiny))%Z.
Proof.
  split; [by vm_compute|].
  apply (X7_expr_count still_platform cfg_tiny). by vm_compute.
Defined.

(** X9, witness: the negation example, from level 1 to level 2. *)
Lemma X9_witness :
  is_nan (cfg_target (cfg_neg 1 1 10)) = false ∧ (0 ≤ 1 ≤ 2)%Z ∧
  (run_levels still_platform (cfg_neg 1 1 10) 1 init_state).1 = Ok tt ∧
  best_kept (bestHeap (run_levels still_platform (cfg_neg 1 1 10) 1 init_state).2)
            (results (generateEnumerations still_platform (cfg_neg 1 1 10))).
Proof.
  split_and!; [reflexivity|lia|lia|by vm_compute|].
  apply (X9_best_never_lost still_platform (cfg_neg 1 1 10) 1 2);
    [reflexivity|lia|by vm_compute|reflexivity].
Defined.

(** X10, witness: the negation example with no room for an entry. *)
Lemma X10_witness :
  (cfg_keep_top (cfg_neg 1 1 0) ≤ 0)%Z ∧
  generateEnumerations still_platform (cfg_neg 1 1 0) = Output [] 1 0 (Some TypeError).
Proof.
  split; [by vm_compute|].
  apply (X10_no_room still_platform (cfg_neg 1 1 0));
    [by vm_compute|by vm_compute|by vm_compute|reflexivity|by intros i Hi].
Defined.

(** X12, witness: the two zeros, which are equal and have the same key. *)
Lemma X12_witness :
  is_finite 0 = true ∧ is_finite (-0) = true ∧
  (Num.key_repr 0 = Num.key_repr (-0) ↔ (0 =? -0)%float = true).
Proof.
  split_and!; [reflexivity|reflexivity|].
  apply (X12_key_repr_faithful 0 (-0)); reflexivity.
Defined.

(** X13, witness: the expression [-(1)] of level 2 of the negation
    example. *)
Lemma X13_witness :
  is_nan (cfg_target (cfg_neg 1 1 10)) = false ∧ (0 ≤ cfg_keep_top (cfg_neg 1 1 10))%Z ∧
  memo (run_levels still_platform (cfg_neg 1 1 10) (maxCost (cfg_neg 1 1 10)) init_state).2
    !! 2%Z = Some [Item (-1) "-(1)"] ∧
  ((∃ c, c ∈ results (generateEnumerations still_platform (cfg_neg 1 1 10)) ∧
         (c_v c =? -1)%float = true) ∨
   ((cfg_keep_top (cfg_neg 1 1 10)
     ≤ Z.of_nat (length (results (generateEnumerations still_platform (cfg_neg 1 1 10)))))%Z ∧
    ∀ c, c ∈ results (generateEnumerations still_platform (cfg_neg 1 1 10)) →
         (c_err c <=? abs (cfg_target (cfg_neg 1 1 10) - -1))%float = true)).
Proof.
  assert (memo (run_levels still_platform (cfg_neg 1 1 10) (maxCost (cfg_neg 1 1 10))
                  init_state).2 !! 2%Z = Some [Item (-1) "-(1)"]) as Hm
    by (vm_compute; reflexivity).
  split_and!; [reflexivity|by vm_compute|exact Hm|].
  apply (X13_best_values_kept still_platform (cfg_neg 1 1 10) eq_refl
           ltac:(by vm_compute) 2%Z [Item (-1) "-(1)"] (Item (-1) "-(1)") Hm);
    [left|reflexivity|reflexivity].
Defined.

(** X14, witness: the configuration [cfg_tiny], on the clock that stands
    still. *)
Lemma X14_witness :
  (1 ≤ cfg_keep_top cfg_tiny)%Z ∧ (0 ≤ cfg_max_cost cfg_tiny)%Z ∧
  (∀ i, over_budget still_platform cfg_tiny i = false) ∧
  max_level (generateEnumerations still_platform cfg_tiny) = cfg_max_cost cfg_tiny.
Proof.
  split_and!; [by vm_compute|by vm_compute|by intros i|].
  apply (X14_within_budget_completes still_platform cfg_tiny);
    [by vm_compute|by vm_compute|by intros i].
Defined.

(** A clock that reads one second at every reading after the first. *)
Definition one_second (i : nat) : float :=
  match i with O => 0%float | S _ => 1000%float end.

(** X15, witness: the configuration [cfg_tiny] on that clock and on the
    clock that stands still. *)
Lemma X15_witness :
  (∀ i, over_budget (with_clock still_platform one_second) cfg_tiny i
        = over_budget still_platform cfg_tiny i) ∧
  generateEnumerations (with_clock still_platform one_second) cfg_tiny
    = generateEnumerations still_platform cfg_tiny.
Proof.
  assert (∀ i, over_budget (with_clock still_platform one_second) cfg_tiny i
               = over_budget still_platform cfg_tiny i) as Hp
    by (by intros [|i]).
  split; [exact Hp|].
  apply (X15_clock_through_polls_only still_platform one_second cfg_tiny Hp).
Defined.

(** X16, witness: level 2 of the negation example. *)
Lemma X16_witness :
  memo (run_levels still_platform (cfg_neg 1 1 10) (maxCost (cfg_neg 1 1 10)) init_state).2
    !! 2%Z = Some [Item (-1) "-(1)"] ∧
  [Item (-1) "-(1)"] =
    level_items still_platform (cfg_neg 1 1 10)
      (memo (run_levels still_platform (cfg_neg 1 1 10) (maxCost (cfg_neg 1 1 10))
               init_state).2) 2.
Proof.
  assert (memo (run_levels still_platform (cfg_neg 1 1 10) (maxCost (cfg_neg 1 1 10))
                  init_state).2 !! 2%Z = Some [Item (-1) "-(1)"]) as Hm
    by (vm_compute; reflexivity).
  split; [exact Hm|].
  apply (X16_levels_exact still_platform (cfg_neg 1 1 10) 2 [Item (-1) "-(1)"] Hm).
Defined.

(** X17, witness: the negation of the atom [1] is in level 2 of the negation
    example. *)
Lemma X17_witness :
  memo (run_levels still_platform (cfg_neg 1 1 10) (maxCost (cfg_neg 1 1 10)) init_state).2
    !! 2%Z = Some [Item (-1) "-(1)"] ∧
  Item (safeEvalFunc (λ x, (- x)%float) 1) (unary_text "-" "1") ∈ [Item (-1) "-(1)"].
Proof.
  assert (memo (run_levels still_platform (cfg_neg 1 1 10) (maxCost (cfg_neg 1 1 10))
                  init_state).2 !! 2%Z = Some [Item (-1) "-(1)"]) as Hm
    by (vm_compute; reflexivity).
  split; [exact Hm|].
  apply (proj1 (X17_levels_exhaustive still_platform (cfg_neg 1 1 10) 2
                  [Item (-1) "-(1)"] Hm) [Item 1 "1"] (Item 1 "1") "-" (λ x, (- x)%float));
    [vm_compute; reflexivity|left|reflexivity|vm_compute; left|reflexivity].
Defined.

(** X19, witness: the negation example. *)
Lemma X19_witness :
  (1 ≤ cfg_keep_top (cfg_neg 1 1 10))%Z ∧ (0 ≤ cfg_max_cost (cfg_neg 1 1 10))%Z ∧
  ∃ rest,
    results (generateEnumerations still_platform (cfg_neg 1 1 10)) =
      Array_sort by_err
        (bestHeap (consider_all (cfg_neg 1 1 10)
           (levels_upto
              (memo (run_levels still_platform (cfg_neg 1 1 10)
                       (maxCost (cfg_neg 1 1 10)) init_state).2)
              (max_level (generateEnumerations still_platform (cfg_neg 1 1 10))) ++ rest)
           init_state)).
Proof.
  assert (1 ≤ cfg_keep_top (cfg_neg 1 1 10))%Z as HK by (by vm_compute).
  assert (0 ≤ cfg_max_cost (cfg_neg 1 1 10))%Z as Hn by (by vm_compute).
  split_and!; [exact HK|exact Hn|].
  destruct (X19_run_is_sequence still_platform (cfg_neg 1 1 10) HK Hn)
    as (rest & _ & _ & H & _).
  by exists rest.
Defined.

(** X20, witness: the negation example. *)
Lemma X20_witness :
  is_nan (cfg_target (cfg_neg 1 1 10)) = false ∧
  (1 ≤ cfg_keep_top (cfg_neg 1 1 10))%Z ∧ (0 ≤ cfg_max_cost (cfg_neg 1 1 10))%Z ∧
  ∃ rest,
    ∀ c, c ∈ results (generateEnumerations still_platform (cfg_neg 1 1 10)) →
      ∃ pre post,
        levels_upto
          (memo (run_levels still_platform (cfg_neg 1 1 10)
                   (maxCost (cfg_neg 1 1 10)) init_state).2)
          (max_level (generateEnumerations still_platform (cfg_neg 1 1 10))) ++ rest
          = pre ++ Item (c_v c) (c_expr c) :: post ∧
        Forall (λ it, is_finite (it_v it) = true → (it_v it =? c_v c)%float = false) pre.
Proof.
  assert (1 ≤ cfg_keep_top (cfg_neg 1 1 10))%Z as HK by (by vm_compute).
  assert (0 ≤ cfg_max_cost (cfg_neg 1 1 10))%Z as Hn by (by vm_compute).
  split_and!; [reflexivity|exact HK|exact Hn|].
  destruct (X20_first_expression_kept still_platform (cfg_neg 1 1 10) eq_refl HK Hn)
    as (rest & _ & H).
  by exists rest.
Defined.

(** X21, witness: the configuration [cfg_tiny], on the clock that stands
    still. *)
Lemma X21_witness :
  (0 ≤ cfg_max_cost cfg_tiny)%Z ∧
  Forall (λ p, p_count p =
               count_of_levels cfg_tiny
                 (memo (run_levels still_platform cfg_tiny (maxCost cfg_tiny) init_state).2)
                 (p_level p) ∧
               (p_count p ≤ expr_count_total (generateEnumerations still_platform cfg_tiny))%Z)
         (reported (run_levels still_platform cfg_tiny (maxCost cfg_tiny) init_state).2).
Proof.
  split; [by vm_compute|].
  apply (X21_progress_counts still_platform cfg_tiny). by vm_compute.
Defined.

(** ** The budget fires *)


(** No reading of the clock over the budget goes unnoticed between [st] and
    [st']: the computation stops on it, by the time-out. *)
Definition polled (P : Platform) (cfg : config)
    (st : state) (o : option exn) (st' : state) : Prop :=
  readings st ≤ readings st' ∧ reported st' = reported st ∧
  ∀ i, readings st ≤ i < readings st' → over_budget P cfg i = true →
       o = Some Timeout ∧ readings st' = S i.

(** The same, but for the readings made for the progress reports, which are
    not compared with the budget. *)
Definition polled_or_reported (P : Platform) (cfg : config)
    (st : state) (o : option exn) (st' : state) : Prop :=
  readings st ≤ readings st' ∧ (∀ p, p ∈ reported st → p ∈ reported st') ∧
  ∀ i, readings st ≤ i < readings st' → over_budget P cfg i = true →
       (o = Some Timeout ∧ readings st' = S i) ∨
       (∃ c k, Progress c (performance_now P i / 1000 - start P)%float k ∈ reported st').









Lemma polled_weaken P cfg st o st' :
  polled P cfg st o st' → polled_or_reported P cfg st o st'.
Proof.
  intros (H1 & H2 & H3). split_and!; [done|by rewrite H2|].
  intros i Hi Hb. left. by apply H3.
Qed.









(** ** The cancellation rule on the expressions of the enumerator *)

(** A character of a word: no white space, no parenthesis. *)
Definition plain_char (c : ascii) : bool :=
  negb (Str.is_ws c) && negb (Ascii.eqb c "(") && negb (Ascii.eqb c ")").

Fixpoint all_plain (s : string) : bool :=
  match s with
  | EmptyString => true
  | String c s' => plain_char c && all_plain s'
  end.

(** A name of one word: not empty, with no white space and no parenthesis. *)
Definition plain (s : string) : bool := negb (String.eqb s "") && all_plain s.

(** The outermost operation of an expression. *)
Definition atom (t : Expr.expr) : bool :=
  match t with Expr.Int _ | Expr.Named _ _ => true | _ => false end.

Definition applies (fname : string) (t : Expr.expr) : bool :=
  match t with Expr.Un g _ _ => String.eqb g fname | _ => false end.

(** What the rule is meant to remove under the inverse of [fname]: an
    application [fname(X)], and its negation [-(fname(X))]. *)
Definition cancels (fname : string) (t : Expr.expr) : bool :=
  applies fname t ||
  match t with
  | Expr.Un g _ e => String.eqb g "-" && applies fname e
  | _ => false
  end.

(** The combinations [(L op R)] on which nothing is stated: [L] is itself
    such an application or its negation, and [R] is not an atom. *)
Definition left_open (fname : string) (t : Expr.expr) : bool :=
  match t with
  | Expr.Bin _ _ l r => cancels fname l && negb (atom r)
  | _ => false
  end.

(** *** Words and closed texts *)

(** A text with no white space at either end. *)
Definition tight (s : string) : Prop :=
  (∃ c u, s = String c u ∧ Str.is_ws c = false) ∧
  (∃ v d, s = v +:+ String d "" ∧ Str.is_ws d = false).

Lemma trimEnd_last v d :
  Str.is_ws d = false → Str.trimEnd (v +:+ String d "") = v +:+ String d "".
Proof.
  intros Hd. unfold Str.trimEnd. rewrite rev_append.
  change (String.rev (String d "") +:+ String.rev v) with (String d (String.rev v)).
  rewrite trimStart_nonws by done.
  by rewrite rev_String, rev_involutive.
Qed.

Lemma trim_tight s : tight s → Str.trim s = s ∧ Str.truthy s = true.
Proof.
  intros [(c & u & E1 & Hc) (v & d & E2 & Hd)]. split.
  - unfold Str.trim. rewrite E1, trimStart_nonws by done. rewrite <- E1, E2.
    by apply trimEnd_last.
  - by rewrite E1.
Qed.

Lemma endsWith_other v d :
  d ≠ ")"%char → Str.endsWith (v +:+ String d "") ")" = false.
Proof.
  intros Hd. unfold Str.endsWith. rewrite rev_append.
  change (String.rev (String d "") +:+ String.rev v) with (String d (String.rev v)).
  change (String.rev ")") with (String ")" "").
  cbn [String.prefix]. destruct (ascii_dec ")" d) as [<-|?]; done.
Qed.

Lemma plain_char_spec c :
  plain_char c = true → Str.is_ws c = false ∧ c ≠ "("%char ∧ c ≠ ")"%char.
Proof.
  unfold plain_char. intros [[H1 H2]%andb_true_iff H3]%andb_true_iff.
  apply negb_true_iff in H1, H2, H3. apply Ascii.eqb_neq in H2, H3. done.
Qed.

Lemma all_plain_app s t : all_plain (s +:+ t) = all_plain s && all_plain t.
Proof.
  induction s as [|c s IH]; [done|].
  rewrite Txt.app_String. cbn [all_plain]. by rewrite IH, andb_assoc.
Qed.

Lemma all_plain_last s :
  s ≠ "" → all_plain s = true → ∃ v d, s = v +:+ String d "" ∧ plain_char d = true.
Proof.
  induction s as [|c s IH]; [done|]. intros _ [Hc Hs]%andb_true_iff.
  destruct s as [|c' s'].
  - by exists "", c.
  - destruct (IH ltac:(done) Hs) as (v & d & E & Hd).
    exists (String c v), d. split; [|done]. by rewrite Txt.app_String, <- E.
Qed.

Lemma plain_tight s : plain s = true → tight s.
Proof.
  intros [Hne Hall]%andb_true_iff. apply negb_true_iff, String.eqb_neq in Hne.
  split.
  - destruct s as [|c u]; [done|]. apply andb_true_iff in Hall as [Hc _].
    exists c, u. split; [done|]. by apply plain_char_spec.
  - destruct (all_plain_last s Hne Hall) as (v & d & E & Hd).
    exists v, d. split; [done|]. by apply plain_char_spec.
Qed.

Lemma plain_not_closed pre s :
  plain s = true → Str.endsWith (pre +:+ s) ")" = false.
Proof.
  intros [Hne Hall]%andb_true_iff. apply negb_true_iff, String.eqb_neq in Hne.
  destruct (all_plain_last s Hne Hall) as (v & d & -> & Hd).
  rewrite <- string_app_assoc. apply endsWith_other. by apply plain_char_spec.
Qed.

(** What can follow a word: nothing, or a character that does not continue
    it and is not an opening parenthesis. *)
Definition ends_word (rest : string) : Prop :=
  match rest with
  | EmptyString => True
  | String sep _ => plain_char sep = false ∧ sep ≠ "("%char
  end.

Lemma prefix_word p l rest :
  all_plain p = true → all_plain l = true → ends_word rest →
  String.prefix (p +:+ "(") (l +:+ rest) = false.
Proof.
  revert l. induction p as [|a p IH]; intros l Hp Hl Hrest.
  - change ("" +:+ "(") with (String "(" ""). destruct l as [|c l].
    + change ("" +:+ rest) with rest. destruct rest as [|sep r]; [done|].
      destruct Hrest as [_ Hsep]. cbn [String.prefix].
      by destruct (ascii_dec "(" sep) as [<-|?].
    + apply andb_true_iff in Hl as [Hc%plain_char_spec _].
      rewrite Txt.app_String. cbn [String.prefix].
      destruct (ascii_dec "(" c) as [<-|?]; [|done]. by destruct Hc as (_ & ? & _).
  - apply andb_true_iff in Hp as [Ha Hp]. rewrite Txt.app_String.
    destruct l as [|c l].
    + change ("" +:+ rest) with rest. destruct rest as [|sep r]; [done|].
      destruct Hrest as [Hsep _]. cbn [String.prefix].
      destruct (ascii_dec a sep) as [<-|?]; [congruence|done].
    + apply andb_true_iff in Hl as [Hc Hl].
      rewrite Txt.app_String. cbn [String.prefix].
      destruct (ascii_dec a c) as [<-|?]; [|done]. by apply IH.
Qed.

Lemma trimStart_keeps w c rest :
  Str.is_ws c = false → ∃ w', Str.trimStart (w +:+ String c rest) = w' +:+ String c rest.
Proof.
  intros Hc. induction w as [|b w IH].
  - exists "". change ("" +:+ String c rest) with (String c rest).
    by rewrite trimStart_nonws.
  - rewrite Txt.app_String. cbn [Str.trimStart]. destruct (Str.is_ws b).
    + exact IH.
    + exists (String b w). by rewrite Txt.app_String.
Qed.

Lemma trimEnd_keeps a z :
  ∃ z', Str.trimEnd (a +:+ ")" +:+ z) = a +:+ ")" +:+ z'.
Proof.
  unfold Str.trimEnd. rewrite !rev_append.
  change (String.rev ")") with (String ")" "").
  rewrite string_app_assoc.
  change (String ")" "" +:+ String.rev a) with (String ")" (String.rev a)).
  destruct (trimStart_keeps (String.rev z) ")" (String.rev a)) as [w' ->]; [done|].
  exists (String.rev w'). rewrite rev_append, rev_String, rev_involutive.
  by rewrite string_app_assoc.
Qed.

Lemma slice_to_last_minus t : Str.slice_to_last 2 ("-(" +:+ t +:+ ")") = t.
Proof.
  unfold Str.slice_to_last. rewrite !length_append.
  change (String.length "-(") with 2. change (String.length ")") with 1.
  replace (2 + (String.length t + 1) - 1 - 2) with (String.length t) by lia.
  change (String.substring 2 (String.length t) ("-(" +:+ t +:+ ")"))
    with (String.substring 0 (String.length t) (t +:+ ")")).
  apply substring_append.
Qed.

(** *** The test on a text, by its first and last characters *)

(** A text that no stripping applies to. *)
Lemma ida_flat s f :
  tight s → Str.startsWith s "(" = false →
  Str.startsWith s "-(" && Str.endsWith s ")" = false →
  is_direct_application s f = Str.startsWith s (f +:+ "(") && Str.endsWith s ")".
Proof.
  intros [Htrim Htruthy]%trim_tight H1 H2. unfold is_direct_application.
  rewrite Htruthy, Htrim. cbn [negb]. rewrite H1. cbn [andb]. by rewrite H2.
Qed.

(** A negation [-(x)]: the test is made on [x]. *)
Lemma ida_negation x f :
  tight x →
  is_direct_application ("-(" +:+ x +:+ ")") f =
    Str.startsWith x (f +:+ "(") && Str.endsWith x ")".
Proof.
  intros [Htrim Htruthy]%trim_tight. unfold is_direct_application.
  change (Str.truthy ("-(" +:+ x +:+ ")")) with true. cbn [negb].
  assert (Str.trim ("-(" +:+ x +:+ ")") = "-(" +:+ x +:+ ")") as ->.
  { change ("-(" +:+ x +:+ ")") with (String "-" ("(" +:+ x) +:+ ")").
    by apply trim_closed. }
  change (Str.startsWith ("-(" +:+ x +:+ ")") "(") with false. cbn [andb].
  assert (Str.startsWith ("-(" +:+ x +:+ ")") "-(" = true) as ->
    by apply (prefix_append "-(" (x +:+ ")")).
  rewrite <- (string_app_assoc "-(" x ")"), endsWith_paren. cbn [andb].
  rewrite (string_app_assoc "-(" x ")"), slice_to_last_minus, Htrim, Htruthy.
  done.
Qed.

(** A combination [(m)]: the parentheses are stripped, and then a leading
    [-(] with the last character when it is a closing parenthesis. *)
Lemma ida_parens m f :
  tight m →
  is_direct_application ("(" +:+ m +:+ ")") f =
    if Str.startsWith m "-(" && Str.endsWith m ")" then
      if Str.truthy (Str.trim (Str.slice_to_last 2 m)) then
        Str.startsWith (Str.trim (Str.slice_to_last 2 m)) (f +:+ "(") &&
        Str.endsWith (Str.trim (Str.slice_to_last 2 m)) ")"
      else Str.startsWith m (f +:+ "(") && Str.endsWith m ")"
    else Str.startsWith m (f +:+ "(") && Str.endsWith m ")".
Proof.
  intros [Htrim Htruthy]%trim_tight. unfold is_direct_application.
  change (Str.truthy ("(" +:+ m +:+ ")")) with true. cbn [negb].
  assert (Str.trim ("(" +:+ m +:+ ")") = "(" +:+ m +:+ ")") as ->.
  { change ("(" +:+ m +:+ ")") with (String "(" m +:+ ")"). by apply trim_closed. }
  assert (Str.startsWith ("(" +:+ m +:+ ")") "(" = true) as ->
    by apply (prefix_append "(" (m +:+ ")")).
  rewrite <- (string_app_assoc "(" m ")"), endsWith_paren. cbn [andb].
  rewrite (string_app_assoc "(" m ")"), slice_to_last_parens, Htrim, Htruthy.
  destruct (Str.startsWith m "-(" && Str.endsWith m ")"); [|done].
  by destruct (Str.truthy (Str.trim (Str.slice_to_last 2 m))).
Qed.

(** *** The texts of the expressions *)

Lemma prefix_names p g X :
  all_plain p = true → all_plain g = true →
  String.prefix (p +:+ "(") (g +:+ "(" +:+ X) = String.eqb g p.
Proof.
  revert g. induction p as [|a p IH]; intros g Hp Hg.
  - change ("" +:+ "(") with (String "(" ""). destruct g as [|c g].
    + change ("" +:+ "(" +:+ X) with (String "(" X). cbn [String.prefix].
      destruct (ascii_dec "(" "(") as [_|?]; [by destruct X|done].
    + apply andb_true_iff in Hg as [Hc%plain_char_spec _].
      rewrite Txt.app_String. cbn [String.prefix String.eqb].
      destruct (ascii_dec "(" c) as [<-|?]; [|done]. by destruct Hc as (_ & ? & _).
  - apply andb_true_iff in Hp as [Ha%plain_char_spec Hp]. rewrite Txt.app_String.
    destruct g as [|c g].
    + change ("" +:+ "(" +:+ X) with (String "(" X). cbn [String.prefix String.eqb].
      destruct (ascii_dec a "(") as [->|?]; [|done]. by destruct Ha as (_ & ? & _).
    + apply andb_true_iff in Hg as [Hc Hg].
      rewrite Txt.app_String. cbn [String.prefix String.eqb].
      destruct (ascii_dec a c) as [<-|Hne].
      * rewrite Ascii.eqb_refl. by apply IH.
      * destruct (Ascii.eqb_spec c a); [congruence|done].
Qed.

Lemma digit_plain c : Txt.digit c = true → plain_char c = true.
Proof. destruct c as [[] [] [] [] [] [] [] []]; done. Qed.

Lemma all_digits_plain s : Txt.all_digits s = true → all_plain s = true.
Proof.
  induction s as [|c s IH]; [done|]. intros [Hc Hs]%andb_true_iff.
  cbn [all_plain]. by rewrite (digit_plain c Hc), IH.
Qed.

Lemma plain_pretty_pos p : plain (pretty (N.pos p)) = true.
Proof.
  unfold pretty, pretty_N. rewrite decide_False by done.
  destruct (Txt.pretty_N_go_app (N.pos p) "") as (d & Hd & Hall & Hfirst).
  rewrite Hd, string_app_nil_r.
  destruct Hfirst as (c & d' & -> & _); [lia|].
  unfold plain. cbn [String.eqb negb andb]. by apply all_digits_plain.
Qed.

(** The decimal text of an integer is a word. *)
Lemma plain_pretty (z : Z) : plain (pretty z) = true.
Proof.
  destruct z as [|p|p]; [done| |].
  - change (pretty (Z.pos p)) with (pretty (N.pos p)). apply plain_pretty_pos.
  - change (pretty (Z.neg p)) with ("-" +:+ pretty (N.pos p)).
    pose proof (plain_pretty_pos p) as [_ H]%andb_true_iff.
    unfold plain. rewrite Txt.app_String. cbn [String.eqb negb andb all_plain].
    by rewrite Txt.app_nil_l, H.
Qed.

(** What a text opens with: the name of the function it applies, nothing
    for a combination. *)
Definition opens (p : string) (t : Expr.expr) : bool :=
  match t with
  | Expr.Int _ | Expr.Named _ _ => false
  | Expr.Un g _ _ => String.eqb g p
  | Expr.Bin _ _ _ _ => String.eqb "" p
  end.

(** The last operand of an application or of a combination. *)
Definition last_operand (t : Expr.expr) : Expr.expr :=
  match t with
  | Expr.Un _ _ e => e
  | Expr.Bin _ _ _ r => r
  | _ => t
  end.

(** The text before the last operand. *)
Definition lead (t : Expr.expr) : string :=
  match t with
  | Expr.Un g _ _ => g +:+ "("
  | Expr.Bin opname _ l _ => "(" +:+ Expr.text l +:+ " " +:+ opname +:+ " "
  | _ => ""
  end.

Lemma unary_text_eq g e : unary_text g e = g +:+ "(" +:+ e +:+ ")".
Proof.
  unfold unary_text. destruct (String.eqb_spec g "-") as [->|]; done.
Qed.

Lemma text_closed t :
  atom t = false → Expr.text t = (lead t +:+ Expr.text (last_operand t)) +:+ ")".
Proof.
  destruct t as [n|name v|g f e|opname op l r]; try done; intros _;
    cbn [Expr.text lead last_operand].
  - by rewrite unary_text_eq, !string_app_assoc.
  - unfold binary_text. by rewrite !string_app_assoc.
Qed.

Section Texts.
Variable P : Platform.
Variable cfg : config.
Hypothesis names : Forall (λ c, plain c.1 = true) (cfg_consts cfg).

Lemma unary_name g f :
  (g, f) ∈ unaryFuncs P cfg → plain g = true.
Proof.
  intros H. apply unaryFuncs_entry in H.
  destruct H as [[-> _]|[[-> _]|[[-> _]|[[-> _]|[[-> _]|[[-> _]|[-> _]]]]]]]; done.
Qed.

Lemma text_plain t :
  Expr.built P cfg t → atom t = true → plain (Expr.text t) = true.
Proof.
  destruct t as [n|name v|g f e|opname op l r]; try done; intros Hb _; cbn [Expr.text].
  - apply plain_pretty.
  - cbn [Expr.built] in Hb. unfold constants in Hb.
    by apply (proj1 (Forall_forall _ _) names (name, v)).
Qed.

Lemma text_first t :
  Expr.built P cfg t → ∃ c u, Expr.text t = String c u ∧ Str.is_ws c = false.
Proof.
  intros Hb. destruct (atom t) eqn:Ha.
  - by destruct (plain_tight _ (text_plain t Hb Ha)) as [H _].
  - destruct t as [n|name v|g f e|opname op l r]; try done; cbn [Expr.text].
    + destruct Hb as (Hg%unary_name & _).
      rewrite unary_text_eq.
      destruct (plain_tight _ Hg) as [(c & u & -> & Hc) _].
      exists c, (u +:+ "(" +:+ Expr.text e +:+ ")"). by rewrite Txt.app_String.
    + unfold binary_text. eexists "("%char, _. by rewrite Txt.app_String.
Qed.

Lemma text_last t :
  Expr.built P cfg t → ∃ v d, Expr.text t = v +:+ String d "" ∧ Str.is_ws d = false.
Proof.
  intros Hb. destruct (atom t) eqn:Ha.
  - by destruct (plain_tight _ (text_plain t Hb Ha)) as [_ H].
  - rewrite (text_closed t Ha). by eexists _, ")"%char.
Qed.

Lemma text_tight t : Expr.built P cfg t → tight (Expr.text t).
Proof. intros Hb. split; [by apply text_first|by apply text_last]. Qed.

Lemma text_ends pre t :
  Expr.built P cfg t → Str.endsWith (pre +:+ Expr.text t) ")" = negb (atom t).
Proof.
  intros Hb. destruct (atom t) eqn:Ha; cbn [negb].
  - apply plain_not_closed. by apply text_plain.
  - rewrite (text_closed t Ha), <- string_app_assoc. apply endsWith_paren.
Qed.

Lemma text_opens p t rest :
  Expr.built P cfg t → all_plain p = true → ends_word rest →
  Str.startsWith (Expr.text t +:+ rest) (p +:+ "(") = opens p t.
Proof.
  intros Hb Hp Hrest. unfold Str.startsWith.
  destruct t as [n|name v|g f e|opname op l r]; cbn [opens].
  - pose proof (text_plain (Expr.Int n) Hb eq_refl) as [_ H]%andb_true_iff.
    by apply prefix_word.
  - pose proof (text_plain (Expr.Named name v) Hb eq_refl) as [_ H]%andb_true_iff.
    by apply prefix_word.
  - destruct Hb as ([_ Hg]%unary_name%andb_true_iff & _). cbn [Expr.text].
    rewrite unary_text_eq, <- !string_app_assoc, !string_app_assoc.
    by apply prefix_names.
  - cbn [Expr.text]. unfold binary_text.
    rewrite <- !string_app_assoc, !string_app_assoc.
    by apply (prefix_names p "").
Qed.

Lemma built_last_operand t : Expr.built P cfg t → Expr.built P cfg (last_operand t).
Proof.
  destruct t as [n|name v|g f e|opname op l r]; try done; cbn [Expr.built last_operand].
  - by intros (_ & ? & _).
  - by intros (_ & _ & ? & _).
Qed.

End Texts.

(** *** The test on the text of an expression *)

(** The combinations [(L op R)] whose text the test matches although
    they are no applications: [R] is not an atom and [L] is an application
    of [fname], or [L] is the negation of one and the last operand of [R] is
    not an atom either. *)
Definition overmatched (fname : string) (t : Expr.expr) : bool :=
  match t with
  | Expr.Bin _ _ l r =>
      negb (atom r) &&
      (applies fname l ||
       match l with
       | Expr.Un g _ e =>
           String.eqb g "-" && applies fname e && negb (atom (last_operand r))
       | _ => false
       end)
  | _ => false
  end.

Ltac assoc := rewrite ?string_app_assoc; reflexivity.

Lemma slice_to_last_minus_any t d : Str.slice_to_last 2 ("-(" +:+ t +:+ String d "") = t.
Proof.
  unfold Str.slice_to_last. rewrite !length_append.
  change (String.length "-(") with 2. change (String.length (String d "")) with 1.
  replace (2 + (String.length t + 1) - 1 - 2) with (String.length t) by lia.
  change (String.substring 2 (String.length t) ("-(" +:+ t +:+ String d ""))
    with (String.substring 0 (String.length t) (t +:+ String d "")).
  apply substring_append.
Qed.

Section Test.
Variable P : Platform.
Variable cfg : config.
Hypothesis names : Forall (λ c, plain c.1 = true) (cfg_consts cfg).
Variable fname : string.
Hypothesis fname_plain : plain fname = true.
Hypothesis fname_not_minus : fname ≠ "-".

Lemma fname_word : all_plain fname = true.
Proof. by apply andb_true_iff in fname_plain as [_ ?]. Qed.

Lemma fname_not_empty : String.eqb "" fname = false.
Proof.
  apply andb_true_iff in fname_plain as [H _]. by destruct fname.
Qed.

Lemma opens_applies t : opens fname t = applies fname t.
Proof. destruct t; try done. apply fname_not_empty. Qed.

Lemma applies_not_atom t : applies fname t && negb (atom t) = applies fname t.
Proof. destruct t; try done. cbn. by rewrite andb_true_r. Qed.

Lemma starts_with t rest :
  Expr.built P cfg t → ends_word rest →
  Str.startsWith (Expr.text t +:+ rest) (fname +:+ "(") = applies fname t.
Proof.
  intros Hb Hrest. rewrite <- opens_applies.
  apply (text_opens P cfg names); [done|apply fname_word|done].
Qed.

Lemma starts_with_paren t rest :
  Expr.built P cfg t → ends_word rest →
  Str.startsWith (Expr.text t +:+ rest) "(" = opens "" t.
Proof. intros Hb Hrest. by apply (text_opens P cfg names "" t rest). Qed.

Lemma starts_with_minus t rest :
  Expr.built P cfg t → ends_word rest →
  Str.startsWith (Expr.text t +:+ rest) "-(" = opens "-" t.
Proof. intros Hb Hrest. by apply (text_opens P cfg names "-" t rest). Qed.

Lemma ends_with t :
  Expr.built P cfg t → Str.endsWith (Expr.text t) ")" = negb (atom t).
Proof. intros Hb. apply (text_ends P cfg names "" t Hb). Qed.

(** An atom and an application of a function. *)
Lemma test_flat t :
  Expr.built P cfg t → opens "" t = false → opens "-" t = false →
  is_direct_application (Expr.text t) fname = applies fname t.
Proof.
  intros Hb H1 H2.
  pose proof (starts_with t "" Hb I) as Hf.
  pose proof (starts_with_paren t "" Hb I) as Hp.
  pose proof (starts_with_minus t "" Hb I) as Hm.
  rewrite string_app_nil_r in Hf, Hp, Hm.
  rewrite ida_flat.
  - by rewrite Hf, ends_with, applies_not_atom.
  - by apply (text_tight P cfg names).
  - by rewrite Hp.
  - by rewrite Hm, H2.
Qed.

(** A negation. *)
Lemma test_negation f e :
  Expr.built P cfg e →
  is_direct_application (Expr.text (Expr.Un "-" f e)) fname = applies fname e.
Proof.
  intros Hb. cbn [Expr.text]. unfold unary_text.
  change (String.eqb "-" "-") with true. cbv iota.
  rewrite ida_negation by by apply (text_tight P cfg names).
  pose proof (starts_with e "" Hb I) as Hf. rewrite string_app_nil_r in Hf.
  by rewrite Hf, ends_with, applies_not_atom.
Qed.

(** A combination. *)
Lemma test_combination opname op l r :
  Expr.built P cfg l → Expr.built P cfg r →
  is_direct_application (Expr.text (Expr.Bin opname op l r)) fname =
    overmatched fname (Expr.Bin opname op l r).
Proof.
  intros Hl Hr. cbn [Expr.text overmatched].
  set (m := Expr.text l +:+ " " +:+ opname +:+ " " +:+ Expr.text r).
  assert (binary_text (Expr.text l) opname (Expr.text r) = "(" +:+ m +:+ ")") as ->
    by (unfold binary_text, m; assoc).
  assert (m = (Expr.text l +:+ " " +:+ opname +:+ " ") +:+ Expr.text r) as Hm2
    by (unfold m; assoc).
  assert (ends_word (" " +:+ opname +:+ " " +:+ Expr.text r)) as Hsep by done.
  assert (tight m) as Htight.
  { split.
    - destruct (text_first P cfg names l Hl) as (c & u & E & Hc).
      exists c, (u +:+ " " +:+ opname +:+ " " +:+ Expr.text r).
      split; [|done]. unfold m. by rewrite E.
    - destruct (text_last P cfg names r Hr) as (v & d & E & Hd).
      exists ((Expr.text l +:+ " " +:+ opname +:+ " ") +:+ v), d.
      split; [|done]. rewrite Hm2, E. assoc. }
  assert (Str.startsWith m "-(" = opens "-" l) as HA
    by by apply starts_with_minus.
  assert (Str.endsWith m ")" = negb (atom r)) as HB
    by (rewrite Hm2; by apply (text_ends P cfg names)).
  assert (Str.startsWith m (fname +:+ "(") = applies fname l) as HF
    by by apply starts_with.
  rewrite (ida_parens m fname Htight), HA, HB, HF.
  destruct (atom r) eqn:Har; cbn [negb].
  { by rewrite !andb_false_r. }
  rewrite !andb_true_r. cbn [andb].
  destruct l as [n|name v|g f e|o2 op2 l2 r2]; cbn [opens];
    [done|done| |by rewrite orb_false_r].
  destruct (String.eqb_spec g "-") as [->|Hg];
    [|cbn [andb]; by rewrite orb_false_r].
  cbn [applies andb].
  assert (String.eqb "-" fname = false) as ->.
  { destruct (String.eqb_spec "-" fname); [congruence|done]. }
  cbn [orb]. destruct Hl as (_ & He & _).
  set (Y := Expr.text e +:+ ")" +:+ " " +:+ opname +:+ " " +:+
            lead r +:+ Expr.text (last_operand r)).
  assert (m = "-(" +:+ Y +:+ ")") as ->.
  { unfold m, Y. cbn [Expr.text]. unfold unary_text.
    change (String.eqb "-" "-") with true. cbv iota.
    rewrite (text_closed r Har). assoc. }
  rewrite slice_to_last_minus.
  assert (tight Y) as [HtY HnY]%trim_tight.
  { split.
    - destruct (text_first P cfg names e He) as (c & u & E & Hc).
      eexists c, _. split; [|done]. unfold Y. by rewrite E.
    - destruct (text_last P cfg names _ (built_last_operand P cfg r Hr))
        as (v & d & E & Hd).
      exists ((Expr.text e +:+ ")" +:+ " " +:+ opname +:+ " " +:+ lead r) +:+ v), d.
      split; [|done]. unfold Y. rewrite E. assoc. }
  rewrite HtY, HnY.
  assert (Str.startsWith Y (fname +:+ "(") = applies fname e) as ->
    by by apply starts_with.
  assert (Str.endsWith Y ")" = negb (atom (last_operand r))) as ->.
  { assert (Y = (Expr.text e +:+ ")" +:+ " " +:+ opname +:+ " " +:+ lead r) +:+
                Expr.text (last_operand r)) as -> by (unfold Y; assoc).
    apply (text_ends P cfg names). by apply built_last_operand. }
  done.
Qed.

(** The test on the text of an expression of the enumerator: the
    applications of [fname] and their negations, and the combinations
    above. *)
Lemma is_direct_application_built t :
  Expr.built P cfg t →
  is_direct_application (Expr.text t) fname = cancels fname t || overmatched fname t.
Proof.
  intros Hb. destruct t as [n|name v|g f e|opname op l r].
  - by rewrite test_flat.
  - by rewrite test_flat.
  - unfold cancels. cbn [overmatched applies]. rewrite orb_false_r.
    destruct (String.eqb_spec g "-") as [->|Hg].
    + rewrite test_negation by by destruct Hb as (_ & ? & _).
      cbn [andb]. destruct (String.eqb_spec "-" fname); [congruence|done].
    + cbn [andb]. rewrite test_flat; [by rewrite orb_false_r|done| |].
      * cbn [opens]. destruct Hb as ([Hne _]%unary_name%andb_true_iff & _).
        by apply negb_true_iff in Hne.
      * cbn [opens]. by apply String.eqb_neq.
  - destruct Hb as (_ & Hl & Hr & _). by rewrite test_combination.
Qed.

End Test.

(** *** The test in the words of the specification *)

(** [s'] is [s] with at most one layer stripped: [s] itself, or what stands
    between [opening] and the closing parenthesis, white space around it
    aside. *)
Definition stripped (opening s s' : string) : Prop :=
  s' = s ∨ ∃ inner, s = opening +:+ inner +:+ ")" ∧ s' = Str.trim inner.

(** A direct application of [fname]: after stripping at most one layer of
    enclosing parentheses and at most one layer of a leading unary minus, the
    text begins with the name followed by an opening parenthesis and ends
    with a closing one. *)
Definition direct_application (s fname : string) : Prop :=
  ∃ s1 s2, stripped "(" (Str.trim s) s1 ∧ stripped "-(" s1 s2 ∧
           Str.startsWith s2 (fname +:+ "(") = true ∧ Str.endsWith s2 ")" = true.

Lemma startsWith_split s p : Str.startsWith s p = true → ∃ r, s = p +:+ r.
Proof.
  unfold Str.startsWith. revert s. induction p as [|a p IH]; intros s H.
  - by exists s.
  - destruct s as [|b s]; [done|]. cbn [String.prefix] in H.
    destruct (ascii_dec a b) as [<-|?]; [|done].
    destruct (IH s H) as [r ->]. by exists r.
Qed.

Lemma endsWith_split s : Str.endsWith s ")" = true → ∃ v, s = v +:+ ")".
Proof.
  intros [r Hr]%startsWith_split. exists (String.rev r).
  rewrite <- (rev_involutive s), Hr.
  change (String.rev ")" +:+ r) with (String ")" r). by rewrite rev_String.
Qed.

Lemma app_last_inj u a v b :
  u +:+ String a "" = v +:+ String b "" → u = v ∧ a = b.
Proof.
  intros H. apply (f_equal String.rev) in H. rewrite !rev_append in H.
  change (String a (String.rev u) = String b (String.rev v)) in H.
  injection H as -> H. split; [|done].
  by rewrite <- (rev_involutive u), H, rev_involutive.
Qed.

Lemma string_last s : s ≠ "" → ∃ v d, s = v +:+ String d "".
Proof.
  induction s as [|c s IH]; [done|]. intros _. destruct s as [|c' s'].
  - by exists "", c.
  - destruct (IH ltac:(done)) as (v & d & E). exists (String c v), d.
    by rewrite Txt.app_String, <- E.
Qed.

(** A text between an opening and the closing parenthesis. *)
Lemma enclosed_split p q s :
  q ≠ ")"%char →
  Str.startsWith s (p +:+ String q "") = true → Str.endsWith s ")" = true →
  ∃ inner, s = (p +:+ String q "") +:+ inner +:+ ")".
Proof.
  intros Hq [r Hr]%startsWith_split [v Hv]%endsWith_split.
  destruct (decide (r = "")) as [->|Hne].
  - rewrite string_app_nil_r in Hr. rewrite Hr in Hv.
    apply app_last_inj in Hv as [_ ?]. done.
  - destruct (string_last r Hne) as (r' & d & ->). exists r'.
    rewrite Hr in Hv. rewrite <- string_app_assoc in Hv.
    apply app_last_inj in Hv as [_ ->]. by rewrite Hr.
Qed.

(** The two stripping steps of [is_direct_application]. *)
Definition strip_parens (s : string) : string :=
  if Str.startsWith s "(" && Str.endsWith s ")" then
    if Str.truthy (Str.trim (Str.slice_to_last 1 s))
    then Str.trim (Str.slice_to_last 1 s) else s
  else s.

Definition strip_minus (s : string) : string :=
  if Str.startsWith s "-(" && Str.endsWith s ")" then
    if Str.truthy (Str.trim (Str.slice_to_last 2 s))
    then Str.trim (Str.slice_to_last 2 s) else s
  else s.

Lemma is_direct_application_steps s fname :
  is_direct_application s fname =
    if negb (Str.truthy s) then false
    else Str.startsWith (strip_minus (strip_parens (Str.trim s))) (fname +:+ "(") &&
         Str.endsWith (strip_minus (strip_parens (Str.trim s))) ")".
Proof. reflexivity. Qed.

Lemma stripped_parens s : stripped "(" s (strip_parens s).
Proof.
  unfold strip_parens.
  destruct (Str.startsWith s "(" && Str.endsWith s ")") eqn:E; [|by left].
  apply andb_true_iff in E as [E1 E2].
  destruct (enclosed_split "" "(" s ltac:(done) E1 E2) as [inner ->].
  change (("" +:+ "(") +:+ inner +:+ ")") with ("(" +:+ inner +:+ ")").
  rewrite slice_to_last_parens.
  destruct (Str.truthy (Str.trim inner)); [|by left].
  right. by exists inner.
Qed.

Lemma stripped_minus s : stripped "-(" s (strip_minus s).
Proof.
  unfold strip_minus.
  destruct (Str.startsWith s "-(" && Str.endsWith s ")") eqn:E; [|by left].
  apply andb_true_iff in E as [E1 E2].
  destruct (enclosed_split "-" "(" s ltac:(done) E1 E2) as [inner ->].
  change (("-" +:+ "(") +:+ inner +:+ ")") with ("-(" +:+ inner +:+ ")").
  rewrite slice_to_last_minus.
  destruct (Str.truthy (Str.trim inner)); [|by left].
  right. by exists inner.
Qed.

(** The test of the code holds only of a direct application. *)
Lemma is_direct_application_only s fname :
  is_direct_application s fname = true → direct_application s fname.
Proof.
  rewrite is_direct_application_steps. destruct (negb (Str.truthy s)); [done|].
  intros [H1 H2]%andb_true_iff.
  exists (strip_parens (Str.trim s)), (strip_minus (strip_parens (Str.trim s))).
  split_and!; [apply stripped_parens|apply stripped_minus|done|done].
Qed.

(** A text that begins with the name of a function and an opening
    parenthesis is not empty and has no layer to strip. *)
Lemma starts_with_name x fname :
  plain fname = true → fname ≠ "-" →
  Str.startsWith x (fname +:+ "(") = true →
  Str.startsWith x "(" = false ∧ Str.startsWith x "-(" = false ∧ Str.truthy x = true.
Proof.
  intros [Hne Hall]%andb_true_iff Hminus [r ->]%startsWith_split.
  destruct fname as [|c f']; [done|]. apply andb_true_iff in Hall as [Hc Hall].
  apply plain_char_spec in Hc as (_ & Hc & _).
  rewrite !Txt.app_String. unfold Str.startsWith. cbn [String.prefix].
  split_and!.
  - by destruct (ascii_dec "(" c) as [<-|?].
  - destruct (ascii_dec "-" c) as [<-|?]; [|done].
    destruct f' as [|c' f'']; [done|]. apply andb_true_iff in Hall as [Hc' _].
    apply plain_char_spec in Hc' as (_ & Hc' & _).
    rewrite !Txt.app_String. cbn [String.prefix].
    by destruct (ascii_dec "(" c') as [<-|?].
  - done.
Qed.

(** For the name of a function, the test of the code is the direct
    application of the specification. *)
Lemma is_direct_application_iff s fname :
  plain fname = true → fname ≠ "-" →
  is_direct_application s fname = true ↔ direct_application s fname.
Proof.
  intros Hplain Hminus. split; [apply is_direct_application_only|].
  intros (s1 & s2 & H1 & H2 & Hs & He).
  destruct (starts_with_name s2 fname Hplain Hminus Hs) as (Hp2 & Hm2 & Ht2).
  assert (Str.startsWith s1 "(" = false ∧ Str.truthy s1 = true ∧ strip_minus s1 = s2)
    as (Hp1 & Ht1 & E2).
  { destruct H2 as [->|(inner & -> & ->)].
    - split_and!; [done|done|]. unfold strip_minus. by rewrite Hm2.
    - split_and!; [done|done|]. unfold strip_minus.
      assert (Str.startsWith ("-(" +:+ inner +:+ ")") "-(" = true) as ->
        by apply (prefix_append "-(" (inner +:+ ")")).
      rewrite <- (string_app_assoc "-(" inner ")"), endsWith_paren.
      rewrite (string_app_assoc "-(" inner ")"), slice_to_last_minus.
      cbn [andb]. by rewrite Ht2. }
  assert (Str.truthy (Str.trim s) = true ∧ strip_parens (Str.trim s) = s1) as [Ht0 E1].
  { destruct H1 as [->|(inner & E & ->)].
    - split; [done|]. unfold strip_parens. by rewrite Hp1.
    - split; [by rewrite E|]. rewrite E. unfold strip_parens.
      assert (Str.startsWith ("(" +:+ inner +:+ ")") "(" = true) as ->
        by apply (prefix_append "(" (inner +:+ ")")).
      rewrite <- (string_app_assoc "(" inner ")"), endsWith_paren.
      rewrite (string_app_assoc "(" inner ")"), slice_to_last_parens.
      cbn [andb]. by rewrite Ht1. }
  rewrite is_direct_application_steps, E1, E2, Hs, He.
  destruct s as [|c s']; [done|done].
Qed.

(** ** The cancellation rule of the unary step *)

(** The atom 1 with [exp], [ln] and the negation, up to cost 3. *)
Definition cfg_inverses : config := {|
  cfg_N := 1; cfg_target := 1%float; cfg_consts := [];
  cfg_use_sin := false; cfg_use_cos := false; cfg_use_tan := false;
  cfg_use_exp := true; cfg_use_ln := true; cfg_use_sqrt := false;
  cfg_use_neg := true; cfg_use_pow := false;
  cfg_keep_side := "both"; cfg_max_cost := 3; cfg_keep_top := 10;
  cfg_max_seconds := 10%float; cfg_epsilon := 1e-12%float
|}.

Lemma unary_step_skips cfg it results fname inverse f st :
  (fname = "ln" ∧ inverse = "exp") ∨ (fname = "exp" ∧ inverse = "ln") →
  is_direct_application (it_expr it) inverse = true →
  unary_step cfg it results (fname, f) st = (Ok results, st).
Proof.
  intros [[-> ->]|[-> ->]] H; unfold unary_step; rewrite H; done.
Qed.

Lemma unary_step_applies cfg it results fname inverse f st :
  (fname = "ln" ∧ inverse = "exp") ∨ (fname = "exp" ∧ inverse = "ln") →
  is_direct_application (it_expr it) inverse = false →
  unary_step cfg it results (fname, f) st =
    emit cfg results (safeEvalFunc f (it_v it)) (unary_text fname (it_expr it)) st.
Proof.
  intros [[-> ->]|[-> ->]] H; unfold unary_step; rewrite H; done.
Qed.

(** What [emit] returns is one expression longer. *)
Lemma emit_result cfg results v e st r st' :
  emit cfg results v e st = (Ok r, st') → r = results ++ [Item v e].
Proof.
  unfold emit. rewrite bind_unfold.
  destruct (considerValue cfg v e st) as [[[]|ex] s']; [|done].
  by intros [= <- _].
Qed.

(** A constant may bear any name: over one named [exp(x)], an atom, [ln]
    is skipped as well.  Hence the condition on the names of the constants
    below. *)
Example constant_named_as_application :
  plain "exp(x)" = false ∧
  ∀ cfg v results f st,
    unary_step cfg (Item v "exp(x)") results ("ln", f) st = (Ok results, st).
Proof. split; [reflexivity|by intros]. Qed.

(** C2 (amended).  In the unary expansion step, applying [ln] to an
    expression is skipped only when its text is a direct application of
    [exp], and [exp] only when it is one of [ln]: after stripping at most one
    layer of enclosing parentheses and at most one layer of a leading unary
    minus, the text begins with the name followed by an opening parenthesis
    and ends with a closing one.  Over the expressions that the enumerator
    builds, the names of the constants being words without white space or
    parentheses: the application is skipped over [exp(X)] (resp. [ln(X)])
    and, the unary minus being stripped, over its negation [-(exp(X))]
    (resp. [-(ln(X))]); it is made over every other expression (its value and
    text go to [considerValue] and, with room for one result at least, join
    the expressions of the level): an atom, an application of another
    function, the negation of anything else, and a combination [(L op R)],
    those aside in which [R] is not an atom and [L] is [exp(X)] (resp.
    [ln(X)]), or [L] is [-(exp(X))] (resp. [-(ln(X))]) and the last operand
    of [R] is not an atom, of which nothing is stated. *)
Theorem C2_cancellation_by_design P cfg fname inverse f t results st :
  Forall (λ c, plain c.1 = true) (cfg_consts cfg) →
  (fname = "ln" ∧ inverse = "exp") ∨ (fname = "exp" ∧ inverse = "ln") →
  Expr.built P cfg t →
  (∀ v e st', unary_step cfg (Item v e) results (fname, f) st = (Ok results, st') →
              direct_application e inverse) ∧
  (cancels inverse t = true →
   unary_step cfg (Item (Expr.value t) (Expr.text t)) results (fname, f) st =
     (Ok results, st)) ∧
  (cancels inverse t = false → overmatched inverse t = false →
   unary_step cfg (Item (Expr.value t) (Expr.text t)) results (fname, f) st =
     emit cfg results (safeEvalFunc f (Expr.value t)) (unary_text fname (Expr.text t)) st ∧
   ((1 ≤ cfg_keep_top cfg)%Z →
    ∃ st', unary_step cfg (Item (Expr.value t) (Expr.text t)) results (fname, f) st =
             (Ok (results ++ [Item (safeEvalFunc f (Expr.value t))
                                   (unary_text fname (Expr.text t))]), st'))).
Proof.
  intros Hnames Hpair Hb.
  assert (plain inverse = true ∧ inverse ≠ "-") as [Hplain Hminus]
    by (by destruct Hpair as [[_ ->]|[_ ->]]).
  pose proof (is_direct_application_built P cfg Hnames inverse Hplain Hminus t Hb)
    as Htest.
  split_and!.
  - intros v e st' Hskip. apply is_direct_application_only.
    destruct (is_direct_application e inverse) eqn:He; [done|].
    rewrite (unary_step_applies cfg (Item v e) results fname inverse f st Hpair He)
      in Hskip.
    apply emit_result, (f_equal length) in Hskip. rewrite length_app in Hskip.
    cbn [length] in Hskip. lia.
  - intros Hc. apply (unary_step_skips cfg _ results fname inverse f st Hpair).
    cbn [it_expr]. by rewrite Htest, Hc.
  - intros Hc Ho.
    assert (is_direct_application (Expr.text t) inverse = false) as He
      by (by rewrite Htest, Hc, Ho).
    rewrite (unary_step_applies cfg (Item (Expr.value t) (Expr.text t))
               results fname inverse f st Hpair He).
    split; [done|]. intros HK.
    destruct (emit_returns cfg results (safeEvalFunc f (Expr.value t))
                (unary_text fname (Expr.text t)) st HK) as (st' & Hst' & _).
    by exists st'.
Qed.

(** C2, witness: in [cfg_inverses], [ln] is skipped over [exp(1)]. *)
Lemma C2_witness :
  Expr.built still_platform cfg_inverses
    (Expr.Un "exp" (Math_exp still_platform) (Expr.Int 1)) ∧
  unary_step cfg_inverses (Item nan "exp(1)") [] ("ln", λ x, x) init_state =
    (Ok [], init_state).
Proof.
  assert (Expr.built still_platform cfg_inverses
            (Expr.Un "exp" (Math_exp still_platform) (Expr.Int 1))) as Hb.
  { cbn [Expr.built]. split_and!.
    - apply list_elem_of_here.
    - apply list_elem_of_here.
    - reflexivity. }
  split; [exact Hb|].
  apply (C2_cancellation_by_design still_platform cfg_inverses "ln" "exp" (λ x, x)
           (Expr.Un "exp" (Math_exp still_platform) (Expr.Int 1)) [] init_state
           (Forall_nil_2 _) (or_introl (conj eq_refl eq_refl)) Hb).
  reflexivity.
Defined.
